(** * glb-compressor: the custom transforms and the compression pipeline

    A shallow embedding of [src/lib/transforms.ts] ([mergeByDistance],
    [removeDegenerateFaces], [normalizeWeights],
    [removeStaticTracksWithBake], [removeUnusedUVs],
    [decimateBloatedMeshes], [analyzeMeshComplexity]), of [compress] with
    its two back ends, of [validateGlbMagic] and [sanitizeFilename], and
    of [compressFile] of the command line, followed by the properties the
    specification states about them (C1 to C10) and by further properties
    of the code (numbered X1, X2, ...).

    Conventions of the embedding.
    - A JavaScript number is a rational ([Q]); arithmetic is exact.  The
      rounding of IEEE doubles and of [Float32Array] stores is outside the
      model, the truncation and wrap-around of the integer typed arrays is
      inside it.
    - Accessors, animation channels and samplers are objects with identity
      that several owners may reference: they live in stores ([gmap]) and
      are named by references ([nat]).
    - A thrown exception is the [Throw] completion of a small error monad. *)

From Stdlib Require Import QArith Qround Qabs Qminmax ZArith Lia Reals Qreals Lra HexString.
From Stdlib Require Lqa.
From stdpp Require Import gmap strings list fin_maps.

Set Default Proof Using "Type".

(** ** Completions: normal return or a thrown exception *)

Inductive Exn : Type :=
| RangeError
| Error (msg : string).

Inductive Completion (A : Type) : Type :=
| Normal (a : A)
| Throw (e : Exn).
Arguments Normal {A} a.
Arguments Throw {A} e.

#[global] Instance Completion_ret : MRet Completion := @Normal.
#[global] Instance Completion_bind : MBind Completion :=
  λ A B f m, match m with Normal a => f a | Throw e => Throw e end.

(** [for (const a of l) s = f(s, a)], stopping at the first throw. *)
Fixpoint foldM {S A : Type} (f : S → A → Completion S) (l : list A) (s : S)
  : Completion S :=
  match l with
  | [] => Normal s
  | a :: l' => s' ← f s a; foldM f l' s'
  end.

(** Build an array element by element, stopping at the first throw. *)
Fixpoint traverse {A B : Type} (f : A → Completion B) (l : list A)
  : Completion (list B) :=
  match l with
  | [] => Normal []
  | a :: l' => b ← f a; bs ← traverse f l'; Normal (b :: bs)
  end.

(** ** Numbers and typed arrays *)

Module JS.

(** [Math.round]: the nearest integer, halves towards +infinity. *)
Definition Math_round (v : Q) : Z := Qfloor (v + (1 # 2)).

(** Truncation towards zero, the first step of [ToUint32] and friends. *)
Definition Qtrunc (v : Q) : Z := Z.quot (Qnum v) (Z.pos (Qden v)).

Definition wrapU (w : Z) (z : Z) : Z := (z mod 2 ^ w)%Z.

Definition wrapS (w : Z) (z : Z) : Z :=
  let u := (z mod 2 ^ w)%Z in
  if (u <? 2 ^ (w - 1))%Z then u else (u - 2 ^ w)%Z.

(** The element types of glTF-Transform's [TypedArray] union. *)
Inductive ArrayCtor : Type :=
| Float32Array
| Uint32Array
| Uint16Array
| Uint8Array
| Int16Array
| Int8Array.

#[global] Instance ArrayCtor_eq_dec : EqDecision ArrayCtor.
Proof. solve_decision. Defined.

(** What [arr[i] = v] stores in an array built by constructor [c]. *)
Definition toElement (c : ArrayCtor) (v : Q) : Q :=
  match c with
  | Float32Array => v
  | Uint32Array => inject_Z (wrapU 32 (Qtrunc v))
  | Uint16Array => inject_Z (wrapU 16 (Qtrunc v))
  | Uint8Array => inject_Z (wrapU 8 (Qtrunc v))
  | Int16Array => inject_Z (wrapS 16 (Qtrunc v))
  | Int8Array => inject_Z (wrapS 8 (Qtrunc v))
  end.

Record TypedArray : Type := mkTypedArray {
  ctor : ArrayCtor;
  elems : list Q
}.

(** [new Ctor(n)]: [n] zeros. *)
Definition newArray (c : ArrayCtor) (n : nat) : TypedArray :=
  mkTypedArray c (replicate n 0%Q).

(** [new Ctor(values)]: every value converted on the way in. *)
Definition arrayFrom (c : ArrayCtor) (values : list Q) : TypedArray :=
  mkTypedArray c (toElement c <$> values).

(** A number used as a property key of an array names an element only
    when it is a non-negative integer. *)
Definition toIndex (v : Q) : option nat :=
  if ((0 <=? Qnum v) && (Qnum v mod Z.pos (Qden v) =? 0))%Z
  then Some (Z.to_nat (Qnum v / Z.pos (Qden v)))
  else None.

Definition ofNat (n : nat) : Q := inject_Z (Z.of_nat n).

(** [a < b] on numbers. *)
Definition Qltb (a b : Q) : bool := negb (Qle_bool b a).

(** The loop counters [i] with [i < bound], in order. *)
Definition countUpTo (bound : Q) : list nat :=
  seq 0 (Z.to_nat (Qceiling bound)).

End JS.
Import JS.

(** [at(arr, i)] of transforms.ts: the element, or a [RangeError] when
    [arr[i]] is [undefined].  [at_] takes a loop counter, [at_num] a number
    read from another array. *)
Definition at_ (arr : list Q) (i : nat) : Completion Q :=
  match arr !! i with
  | Some v => Normal v
  | None => Throw RangeError
  end.

Definition at_num (arr : list Q) (i : Q) : Completion Q :=
  match toIndex i with
  | Some n => at_ arr n
  | None => Throw RangeError
  end.

(** The triples of a flat array: the vertices of a position array, the
    triangles of an index array.  An incomplete last triple is left out. *)
Fixpoint chunks3 (l : list Q) : list (Q * Q * Q) :=
  match l with
  | x :: y :: z :: rest => (x, y, z) :: chunks3 rest
  | _ => []
  end.

(** ** The scene document *)

Record Accessor : Type := mkAccessor {
  acc_array : option TypedArray;     (* getArray(), null when absent *)
  acc_elementSize : nat              (* getElementSize() *)
}.

Record Primitive : Type := mkPrimitive {
  prim_mode : nat;                          (* getMode(), 4 = TRIANGLES *)
  prim_attributes : list (string * nat);    (* semantic, accessor *)
  prim_indices : option nat                 (* getIndices() *)
}.

Record Mesh : Type := mkMesh {
  mesh_primitives : list Primitive;
  mesh_weights : list Q
}.

Inductive TargetPath : Type :=
| translation
| rotation
| scale
| weights.

#[global] Instance TargetPath_eq_dec : EqDecision TargetPath.
Proof. solve_decision. Defined.

#[global] Instance TargetPath_countable : Countable TargetPath.
Proof.
  refine (inj_countable'
    (λ p, match p with
          | translation => 0 | rotation => 1 | scale => 2 | weights => 3
          end)%nat
    (λ n, match n with
          | 0 => translation | 1 => rotation | 2 => scale | _ => weights
          end)%nat _).
  by intros [].
Defined.

Record Node : Type := mkNode {
  node_translation : list Q;
  node_rotation : list Q;
  node_scale : list Q;
  node_mesh : option nat            (* getMesh(): position in listMeshes() *)
}.

Record AnimationSampler : Type := mkSampler {
  sampler_output : option nat       (* getOutput(): an accessor *)
}.

Record AnimationChannel : Type := mkChannel {
  channel_sampler : option nat;     (* getSampler() *)
  channel_targetNode : option nat;  (* getTargetNode() *)
  channel_targetPath : option TargetPath
}.

Record Animation : Type := mkAnimation {
  anim_channels : list nat;         (* listChannels() *)
  anim_samplers : list nat          (* listSamplers() *)
}.

Record Document : Type := mkDocument {
  doc_accessors : gmap nat Accessor;
  doc_meshes : list Mesh;                    (* listMeshes() *)
  doc_nodes : list Node;                     (* listNodes() *)
  doc_samplers : gmap nat AnimationSampler;
  doc_channels : gmap nat AnimationChannel;
  doc_animations : list Animation;           (* listAnimations() *)
  doc_skins : nat                            (* listSkins().length *)
}.

Definition getAttribute (p : Primitive) (semantic : string) : option nat :=
  snd <$> find (λ a, bool_decide (fst a = semantic)) (prim_attributes p).

Definition listSemantics (p : Primitive) : list string :=
  fst <$> prim_attributes p.

Definition getArray (accs : gmap nat Accessor) (r : nat) : option TypedArray :=
  accs !! r ≫= acc_array.

Definition getElementSize (accs : gmap nat Accessor) (r : nat) : nat :=
  from_option acc_elementSize 0%nat (accs !! r).

Definition setArray (r : nat) (a : TypedArray) (accs : gmap nat Accessor)
  : gmap nat Accessor :=
  alter (λ acc, mkAccessor (Some a) (acc_elementSize acc)) r accs.

Definition listPrimitives (doc : Document) : list Primitive :=
  concat (mesh_primitives <$> doc_meshes doc).

Definition withAccessors (doc : Document) (accs : gmap nat Accessor)
  : Document :=
  mkDocument accs (doc_meshes doc) (doc_nodes doc) (doc_samplers doc)
             (doc_channels doc) (doc_animations doc) (doc_skins doc).

(** *** Well-formed accessors *)

#[global] Instance Q_eq_dec : EqDecision Q.
Proof. solve_decision. Defined.

(** A typed array holds only values that its constructor can store. *)
Definition validArray (a : TypedArray) : Prop :=
  Forall (λ v, toElement (ctor a) v = v) (elems a).

(** An accessor's array holds whole elements: its length is a multiple of
    the element size. *)
Definition wf_accessor (acc : Accessor) : Prop :=
  match acc_array acc with
  | Some a => validArray a ∧ (acc_elementSize acc | length (elems a))
  | None => True
  end.

Definition wf_accessors (accs : gmap nat Accessor) : Prop :=
  map_Forall (λ _, wf_accessor) accs.

#[global] Instance validArray_dec (a : TypedArray) : Decision (validArray a).
Proof. unfold validArray. apply _. Defined.

#[global] Instance wf_accessor_dec (acc : Accessor) : Decision (wf_accessor acc).
Proof. unfold wf_accessor. destruct (acc_array acc); apply _. Defined.

#[global] Instance wf_accessors_dec (accs : gmap nat Accessor) :
  Decision (wf_accessors accs).
Proof. unfold wf_accessors. apply _. Defined.

(** ** mergeByDistance *)

Module MergeByDistance.

(** The state of the spatial-hash loop: [vertexMap], [remap] (a
    [Uint32Array]) and [newToOld]. *)
Record SpatialHash : Type := mkHash {
  vertexMap : gmap (Z * Z * Z) nat;
  remap : list Q;
  newToOld : list nat
}.

(** The key [`${x},${y},${z}`] of three rounded coordinates. *)
Definition quantKey (precision x y z : Q) : Z * Z * Z :=
  (Math_round (x * precision), Math_round (y * precision),
   Math_round (z * precision)).

(** Lines 85-93: the vertex joins the canonical vertex of its key, or
    becomes the canonical vertex of a new key. *)
Definition assign (st : SpatialHash) (i : nat) (key : Z * Z * Z)
  : SpatialHash :=
  match vertexMap st !! key with
  | Some existing =>
      mkHash (vertexMap st)
        (<[i := toElement Uint32Array (ofNat existing)]> (remap st))
        (newToOld st)
  | None =>
      let newIdx := length (newToOld st) in
      mkHash (<[key := newIdx]> (vertexMap st))
        (<[i := toElement Uint32Array (ofNat newIdx)]> (remap st))
        (newToOld st ++ [i])
  end.

Definition hashStep (precision : Q) (positions : list Q)
    (st : SpatialHash) (i : nat) : Completion SpatialHash :=
  x ← at_ positions (i * 3);
  y ← at_ positions (i * 3 + 1);
  z ← at_ positions (i * 3 + 2);
  Normal (assign st i (quantKey precision x y z)).

Definition buildHash (precision : Q) (positions : list Q)
  : Completion SpatialHash :=
  let vertCount := (ofNat (length positions) / 3)%Q in
  foldM (hashStep precision positions) (countUpTo vertCount)
    (mkHash ∅ (elems (newArray Uint32Array (Z.to_nat (Qtrunc vertCount))))
       []).

(** Lines 100-104: every index sent through [remap]. *)
Definition remapIndices (remap : list Q) (indices : list Q)
  : Completion TypedArray :=
  vs ← traverse (λ v, r ← at_num remap v;
                      Normal (toElement Uint32Array r)) indices;
  Normal (mkTypedArray Uint32Array vs).

(** Lines 118-127: the canonical vertices of one attribute array, in
    first-seen order, in a fresh array of the same constructor. *)
Definition compactArray (oldArray : TypedArray) (itemSize : nat)
    (newToOld : list nat) : Completion TypedArray :=
  rows ← traverse (λ oldIdx,
            traverse (λ j, v ← at_ (elems oldArray) (oldIdx * itemSize + j);
                           Normal (toElement (ctor oldArray) v))
                     (seq 0 itemSize))
          newToOld;
  Normal (mkTypedArray (ctor oldArray) (concat rows)).

(** Lines 107-129, one turn of the loop over [listSemantics()]. *)
Definition compactAttribute (p : Primitive) (newToOld : list nat)
    (accs : gmap nat Accessor) (semantic : string)
  : Completion (gmap nat Accessor) :=
  match getAttribute p semantic with
  | None => Normal accs
  | Some attr =>
      match getArray accs attr with
      | None => Normal accs
      | Some oldArray =>
          newArr ← compactArray oldArray (getElementSize accs attr) newToOld;
          Normal (setArray attr newArr accs)
      end
  end.

(** Lines 65-131, the body of the loop over primitives. *)
Definition mergePrimitive (precision : Q) (accs : gmap nat Accessor)
    (p : Primitive) : Completion (gmap nat Accessor) :=
  match getAttribute p "POSITION", prim_indices p with
  | Some posAccessor, Some indicesAccessor =>
      match getArray accs posAccessor, getArray accs indicesAccessor with
      | Some positions, Some indices =>
          let vertCount := (ofNat (length (elems positions)) / 3)%Q in
          h ← buildHash precision (elems positions);
          let removed := (vertCount - ofNat (length (newToOld h)))%Q in
          if Qeq_bool removed 0 then Normal accs
          else
            newIndices ← remapIndices (remap h) (elems indices);
            accs' ← foldM (compactAttribute p (newToOld h))
                          (listSemantics p) accs;
            Normal (setArray indicesAccessor newIndices accs')
      | _, _ => Normal accs
      end
  | _, _ => Normal accs
  end.

(** Lines 58-141.  The precision is [1 / tolerance].  At the tolerance 0
    the code divides into [Infinity], which the rationals do not have: the
    statements about [mergeByDistance] take a tolerance other than 0. *)
Definition mergeByDistance (tolerance : Q) (doc : Document)
  : Completion Document :=
  let precision := (1 / tolerance)%Q in
  accs ← foldM (mergePrimitive precision) (listPrimitives doc)
               (doc_accessors doc);
  Normal (withAccessors doc accs).

(** *** Vocabulary of the statements *)

(** The quantized position of every vertex. *)
Definition vertexKeys (precision : Q) (positions : list Q)
  : list (Z * Z * Z) :=
  (λ v, quantKey precision v.1.1 v.1.2 v.2) <$> chunks3 positions.

(** POSITION accessors are VEC3 and never double as an index buffer. *)
Definition wf_positions (accs : gmap nat Accessor) (prims : list Primitive)
  : Prop :=
  Forall (λ p, match getAttribute p "POSITION" with
               | Some P => getElementSize accs P = 3 ∧
                           Forall (λ q, prim_indices q ≠ Some P) prims
               | None => True
               end) prims.

#[global] Instance wf_positions_dec (accs : gmap nat Accessor)
    (prims : list Primitive) : Decision (wf_positions accs prims).
Proof.
  unfold wf_positions. apply Forall_dec. intros p.
  destruct (getAttribute p "POSITION"); apply _.
Defined.

Definition wf_doc (doc : Document) : Prop :=
  wf_accessors (doc_accessors doc) ∧
  wf_positions (doc_accessors doc) (listPrimitives doc).

#[global] Instance wf_doc_dec (doc : Document) : Decision (wf_doc doc).
Proof. unfold wf_doc. apply _. Defined.

(** The primitive is left alone by [mergePrimitive]: a guard fails, or its
    position array holds whole vertices with pairwise different keys. *)
Definition distinctPositions (precision : Q) (accs : gmap nat Accessor)
    (p : Primitive) : Prop :=
  match getAttribute p "POSITION", prim_indices p with
  | Some P, Some idx =>
      match getArray accs P, getArray accs idx with
      | Some positions, Some _ =>
          (3 | length (elems positions)) ∧
          NoDup (vertexKeys precision (elems positions))
      | _, _ => True
      end
  | _, _ => True
  end.

#[global] Instance distinctPositions_dec (precision : Q)
    (accs : gmap nat Accessor) (p : Primitive) :
  Decision (distinctPositions precision accs p).
Proof.
  unfold distinctPositions.
  destruct (getAttribute p "POSITION"); [|apply _].
  destruct (prim_indices p); [|apply _].
  destruct (getArray accs _); [|apply _].
  destruct (getArray accs _); apply _.
Defined.

(** The vertex count of a primitive, three numbers a vertex. *)
Definition vertexCount (accs : gmap nat Accessor) (p : Primitive) : nat :=
  match getAttribute p "POSITION" ≫= getArray accs with
  | Some positions => length (elems positions) / 3
  | None => 0
  end.

Definition indexValues (accs : gmap nat Accessor) (p : Primitive) : list Q :=
  match prim_indices p ≫= getArray accs with
  | Some indices => elems indices
  | None => []
  end.

(** Every index value is less than the vertex count. *)
Definition indicesInRange (accs : gmap nat Accessor) (p : Primitive) : Prop :=
  Forall (λ v, (v < ofNat (vertexCount accs p))%Q) (indexValues accs p).

#[global] Instance indicesInRange_dec (accs : gmap nat Accessor)
    (p : Primitive) : Decision (indicesInRange accs p).
Proof.
  unfold indicesInRange. apply Forall_dec. intros v.
  destruct (Qlt_le_dec v (ofNat (vertexCount accs p))) as [H|H].
  - by left.
  - right. by apply Qle_not_lt.
Defined.

(** *** Example documents *)

(** Three triangles over four vertices with normals; vertex 3 repeats
    vertex 0, so the third triangle has no area.  The index buffer is a
    [Uint16Array]. *)
Definition quadAccessors : gmap nat Accessor :=
  <[0 := mkAccessor (Some (mkTypedArray Float32Array
           [0; 0; 0;  1; 0; 0;  0; 1; 0;  0; 0; 0]%Q)) 3]>
  (<[1 := mkAccessor (Some (mkTypedArray Float32Array
           [0; 0; 1;  0; 0; 1;  0; 0; 1;  0; 1; 0]%Q)) 3]>
  (<[2 := mkAccessor (Some (mkTypedArray Uint16Array
           [0; 1; 2;  1; 2; 3;  0; 3; 1]%Q)) 1]> ∅)).

Definition quadPrimitive : Primitive :=
  mkPrimitive 4 [("POSITION", 0); ("NORMAL", 1)] (Some 2).

Definition quadDocument : Document :=
  mkDocument quadAccessors [mkMesh [quadPrimitive] []] [] ∅ ∅ [] 0.

(** The same after one pass: three vertices, indices through [remap]. *)
Definition quadMerged : Document :=
  mkDocument
    (<[0 := mkAccessor (Some (mkTypedArray Float32Array
             [0; 0; 0;  1; 0; 0;  0; 1; 0]%Q)) 3]>
    (<[1 := mkAccessor (Some (mkTypedArray Float32Array
             [0; 0; 1;  0; 0; 1;  0; 0; 1]%Q)) 3]>
    (<[2 := mkAccessor (Some (mkTypedArray Uint32Array
             [0; 1; 2;  1; 2; 0;  0; 0; 1]%Q)) 1]> ∅)))
    [mkMesh [quadPrimitive] []] [] ∅ ∅ [] 0.

(** A triangle and a point cloud over one POSITION accessor, as glTF
    allows: the triangle is indexed, the points are not.  Vertex 3 repeats
    vertex 0. *)
Definition trianglePrimitive : Primitive :=
  mkPrimitive 4 [("POSITION", 0)] (Some 1).

Definition pointsPrimitive : Primitive :=
  mkPrimitive 0 [("POSITION", 0)] None.

Definition sharedDocument : Document :=
  mkDocument
    (<[0 := mkAccessor (Some (mkTypedArray Float32Array
             [0; 0; 0;  1; 0; 0;  0; 1; 0;  0; 0; 0]%Q)) 3]>
    (<[1 := mkAccessor (Some (mkTypedArray Uint16Array [0; 1; 2]%Q)) 1]> ∅))
    [mkMesh [trianglePrimitive; pointsPrimitive] []] [] ∅ ∅ [] 0.

(** Two indexed triangles over one POSITION accessor. *)
Definition secondTriangle : Primitive :=
  mkPrimitive 4 [("POSITION", 0)] (Some 2).

Definition twoTrianglesDocument : Document :=
  mkDocument
    (<[0 := mkAccessor (Some (mkTypedArray Float32Array
             [0; 0; 0;  1; 0; 0;  0; 1; 0;  0; 0; 0]%Q)) 3]>
    (<[1 := mkAccessor (Some (mkTypedArray Uint16Array [0; 1; 2]%Q)) 1]>
    (<[2 := mkAccessor (Some (mkTypedArray Uint16Array [1; 2; 3]%Q)) 1]> ∅)))
    [mkMesh [trianglePrimitive; secondTriangle] []] [] ∅ ∅ [] 0.

End MergeByDistance.

(** ** removeDegenerateFaces *)

Module RemoveDegenerateFaces.

(** [0.5 * Math.sqrt(s) < minArea] for a sum of squares [s], decided
    without extracting the root: the left side is never negative, so the
    test fails unless [minArea] is positive, and then it is the comparison
    of the squares [s < (2 * minArea)²].  [halfSqrtBelow_area] below shows
    that this is the comparison of the real numbers. *)
Definition halfSqrtBelow (s minArea : Q) : bool :=
  Qltb 0 minArea && Qltb s (4 * minArea * minArea)%Q.

(** Lines 426-435: the squared length of the cross product of the edges. *)
Definition crossSquared (v0x v0y v0z v1x v1y v1z v2x v2y v2z : Q) : Q :=
  (let ax := v1x - v0x in let ay := v1y - v0y in let az := v1z - v0z in
   let bx := v2x - v0x in let by_ := v2y - v0y in let bz := v2z - v0z in
   let cx := ay * bz - az * by_ in
   let cy := az * bx - ax * bz in
   let cz := ax * by_ - ay * bx in
   cx * cx + cy * cy + cz * cz)%Q.

(** Lines 404-442, one turn of the loop over the index triples. *)
Definition triangleStep (minArea : Q) (positions indices : list Q)
    (validIndices : list Q) (i : nat) : Completion (list Q) :=
  i0 ← at_ indices i;
  i1 ← at_ indices (i + 1);
  i2 ← at_ indices (i + 2);
  if Qeq_bool i0 i1 || Qeq_bool i1 i2 || Qeq_bool i0 i2
  then Normal validIndices
  else
    v0x ← at_num positions (i0 * 3)%Q;
    v0y ← at_num positions (i0 * 3 + 1)%Q;
    v0z ← at_num positions (i0 * 3 + 2)%Q;
    v1x ← at_num positions (i1 * 3)%Q;
    v1y ← at_num positions (i1 * 3 + 1)%Q;
    v1z ← at_num positions (i1 * 3 + 2)%Q;
    v2x ← at_num positions (i2 * 3)%Q;
    v2y ← at_num positions (i2 * 3 + 1)%Q;
    v2z ← at_num positions (i2 * 3 + 2)%Q;
    if halfSqrtBelow (crossSquared v0x v0y v0z v1x v1y v1z v2x v2y v2z) minArea
    then Normal validIndices
    else Normal (validIndices ++ [i0; i1; i2]).

(** The counters of [for (i = 0; i < length; i += 3)]. *)
Definition everyThird (length : nat) : list nat :=
  (λ k, k * 3) <$> seq 0 ((length + 2) / 3).

(** Lines 391-447, the body of the loop over primitives. *)
Definition removeDegeneratePrimitive (minArea : Q) (accs : gmap nat Accessor)
    (p : Primitive) : Completion (gmap nat Accessor) :=
  if bool_decide (prim_mode p ≠ 4) then Normal accs
  else
    match getAttribute p "POSITION", prim_indices p with
    | Some posAccessor, Some indicesAccessor =>
        match getArray accs posAccessor, getArray accs indicesAccessor with
        | Some positions, Some indices =>
            validIndices ←
              foldM (triangleStep minArea (elems positions) (elems indices))
                    (everyThird (length (elems indices))) [];
            if length validIndices <? length (elems indices)
            then Normal (setArray indicesAccessor
                           (arrayFrom Uint32Array validIndices) accs)
            else Normal accs
        | _, _ => Normal accs
        end
    | _, _ => Normal accs
    end.

Definition removeDegenerateFaces (minArea : Q) (doc : Document)
  : Completion Document :=
  accs ← foldM (removeDegeneratePrimitive minArea) (listPrimitives doc)
               (doc_accessors doc);
  Normal (withAccessors doc accs).

(** *** Vocabulary of the statements *)

(** The squared cross product of the triangle that three index values
    name, read from the position array as the loop reads it. *)
Definition triangleCross (positions : list Q) (t : Q * Q * Q) : Completion Q :=
  let '(i0, i1, i2) := t in
  v0x ← at_num positions (i0 * 3)%Q;
  v0y ← at_num positions (i0 * 3 + 1)%Q;
  v0z ← at_num positions (i0 * 3 + 2)%Q;
  v1x ← at_num positions (i1 * 3)%Q;
  v1y ← at_num positions (i1 * 3 + 1)%Q;
  v1z ← at_num positions (i1 * 3 + 2)%Q;
  v2x ← at_num positions (i2 * 3)%Q;
  v2y ← at_num positions (i2 * 3 + 1)%Q;
  v2z ← at_num positions (i2 * 3 + 2)%Q;
  Normal (crossSquared v0x v0y v0z v1x v1y v1z v2x v2y v2z).



(** A triangle that the loop keeps: three different indices of existing
    vertices, and an area not below [minArea]. *)
Definition sound (minArea : Q) (positions : list Q) (t : Q * Q * Q) : Prop :=
  let '(i0, i1, i2) := t in
  ¬ (i0 == i1)%Q ∧ ¬ (i1 == i2)%Q ∧ ¬ (i0 == i2)%Q ∧
  ∃ s, triangleCross positions t = Normal s ∧
       halfSqrtBelow s minArea = false.

(** The flat index array of a list of triangles. *)
Definition flatten (triangles : list (Q * Q * Q)) : list Q :=
  concat ((λ t, [t.1.1; t.1.2; t.2]) <$> triangles).

(** Index buffers hold integers: no accessor used as an index buffer is
    a [Float32Array]. *)
Definition wf_indices (accs : gmap nat Accessor) (prims : list Primitive)
  : Prop :=
  Forall (λ p, match prim_indices p ≫= getArray accs with
               | Some indices => ctor indices ≠ Float32Array
               | None => True
               end) prims.

#[global] Instance wf_indices_dec (accs : gmap nat Accessor)
    (prims : list Primitive) : Decision (wf_indices accs prims).
Proof.
  unfold wf_indices. apply Forall_dec. intros p.
  destruct (prim_indices p ≫= getArray accs); apply _.
Defined.

(** *** Example documents *)

(** [quadDocument] without its third triangle. *)
Definition quadCleaned : Document :=
  withAccessors MergeByDistance.quadDocument
    (<[2 := mkAccessor (Some (mkTypedArray Uint32Array
             [0; 1; 2;  1; 2; 3]%Q)) 1]> MergeByDistance.quadAccessors).

End RemoveDegenerateFaces.

(** ** normalizeWeights *)

Module NormalizeWeights.
Import RemoveDegenerateFaces.

(** Lines 292-295: the sum of the weights of vertex [i]. *)
Definition weightSum (arr : list Q) (elementSize i : nat) : Completion Q :=
  foldM (λ sum j, w ← at_ arr (i * elementSize + j); Normal (sum + w)%Q)
        (seq 0 elementSize) 0%Q.

(** Lines 297-299: every weight of vertex [i] divided by the sum and
    stored back into the same array. *)
Definition divideWeights (c : ArrayCtor) (elementSize i : nat) (sum : Q)
    (arr : list Q) : Completion (list Q) :=
  foldM (λ a j, w ← at_ a (i * elementSize + j);
                Normal (<[i * elementSize + j := toElement c (w / sum)]> a))
        (seq 0 elementSize) arr.

(** Lines 291-302, one turn of the loop over the vertices. *)
Definition normalizeVertex (c : ArrayCtor) (elementSize : nat)
    (arr : list Q) (i : nat) : Completion (list Q) :=
  sum ← weightSum arr elementSize i;
  if Qltb 0 sum && Qltb (1 # 1000000) (Qabs (sum - 1)%Q)
  then divideWeights c elementSize i sum arr
  else Normal arr.

(** Lines 282-304.  [getElementSize()] of an accessor is never 0. *)
Definition normalizePrimitive (accs : gmap nat Accessor) (p : Primitive)
  : Completion (gmap nat Accessor) :=
  match getAttribute p "WEIGHTS_0" with
  | None => Normal accs
  | Some weights0 =>
      match getArray accs weights0 with
      | None => Normal accs
      | Some arr =>
          let elementSize := getElementSize accs weights0 in
          let count := (ofNat (length (elems arr)) / ofNat elementSize)%Q in
          arr' ← foldM (normalizeVertex (ctor arr) elementSize)
                       (countUpTo count) (elems arr);
          Normal (setArray weights0 (mkTypedArray (ctor arr) arr') accs)
      end
  end.

Definition normalizeWeights (doc : Document) : Completion Document :=
  accs ← foldM normalizePrimitive (listPrimitives doc) (doc_accessors doc);
  Normal (withAccessors doc accs).

(** *** Example documents *)

(** One vertex with the normalized byte weights 128/255 and 127/255, stored
    as glTF stores them: raw bytes in a [Uint8Array]. *)
Definition byteWeightsDocument : Document :=
  mkDocument
    (<[0 := mkAccessor (Some (mkTypedArray Uint8Array [128; 127; 0; 0]%Q)) 4]> ∅)
    [mkMesh [mkPrimitive 4 [("WEIGHTS_0", 0)] None] []] [] ∅ ∅ [] 1.

End NormalizeWeights.

(** ** removeStaticTracksWithBake *)

Module RemoveStaticTracks.
Import RemoveDegenerateFaces.

Record TrackInfo : Type := mkTrack {
  isStatic : bool;
  staticValue : option (list Q)
}.

(** The key [`${nodeIdx}::${targetPath}`], kept as the pair it encodes.
    A node is named by its position in [listNodes()]; a target that the
    list does not hold gets the index -1 of [nodeIndexMap.get(..) ?? -1]. *)
Definition nodeIndex (doc : Document) (targetNode : nat) : Z :=
  if decide (targetNode < length (doc_nodes doc))
  then Z.of_nat targetNode else (-1)%Z.

(** A loop that stops at the first turn answering [true]. *)
Fixpoint firstM {A : Type} (f : A → Completion bool) (l : list A)
  : Completion bool :=
  match l with
  | [] => Normal false
  | a :: l' => b ← f a; if b : bool then Normal true else firstM f l'
  end.

(** The counters of [for (i = 1; i < bound; i++)]. *)
Definition countFromOne (bound : Q) : list nat :=
  seq 1 (Z.to_nat (Qceiling bound) - 1).

Definition exceeds (tolerance x y : Q) : bool :=
  Qltb tolerance (Qabs (x - y)).

(** Lines 539-548: does keyframe [i] leave the first one?  The inner loop
    breaks at the first component that does. *)
Definition keyframeDiffers (tolerance : Q) (outputArray firstValues : list Q)
    (elementSize i : nat) : Completion bool :=
  firstM (λ j, x ← at_ outputArray (i * elementSize + j);
               y ← at_ firstValues j;
               Normal (exceeds tolerance x y))
         (seq 0 elementSize).

(** Lines 528-560.  [getElementSize()] of an accessor is never 0. *)
Definition analyzeTrack (tolerance : Q) (outputArray : list Q)
    (elementSize : nat) : Completion TrackInfo :=
  let keyframeCount := (ofNat (length outputArray) / ofNat elementSize)%Q in
  let firstValues := take elementSize outputArray in
  differs ← (if Qltb 1 keyframeCount
             then firstM (keyframeDiffers tolerance outputArray firstValues
                            elementSize)
                         (countFromOne keyframeCount)
             else Normal false);
  Normal (mkTrack (negb differs)
                  (if negb differs then Some firstValues else None)).

Definition getOutputArray (doc : Document) (sampler : nat)
  : option (TypedArray * nat) :=
  output ← doc_samplers doc !! sampler ≫= sampler_output;
  outputArray ← getArray (doc_accessors doc) output;
  Some (outputArray, getElementSize (doc_accessors doc) output).

(** Pass 1, lines 511-561, one channel.  ([totalChannelCount] is written
    and never read; it is left out.) *)
Definition analyzeChannel (tolerance : Q) (doc : Document)
    (globalTrackMap : gmap (Z * TargetPath) (list TrackInfo)) (c : nat)
  : Completion (gmap (Z * TargetPath) (list TrackInfo)) :=
  match doc_channels doc !! c with
  | None => Normal globalTrackMap
  | Some channel =>
      match channel_sampler channel, channel_targetNode channel,
            channel_targetPath channel with
      | Some sampler, Some targetNode, Some targetPath =>
          let key := (nodeIndex doc targetNode, targetPath) in
          match getOutputArray doc sampler with
          | None => Normal globalTrackMap
          | Some (outputArray, elementSize) =>
              if bool_decide (length (elems outputArray) = 0)
              then Normal globalTrackMap
              else
                info ← analyzeTrack tolerance (elems outputArray) elementSize;
                let trackList := default [] (globalTrackMap !! key) in
                Normal (<[key := trackList ++ [info]]> globalTrackMap)
          end
      | _, _, _ => Normal globalTrackMap
      end
  end.

Definition listChannels (doc : Document) : list nat :=
  concat (anim_channels <$> doc_animations doc).

Definition within (tolerance x y : Q) : bool :=
  Qle_bool (Qabs (x - y)) tolerance.

(** [a.length === b.length && a.every((v, i) => |v - b[i]| <= tolerance)] *)
Fixpoint everyWithin (tolerance : Q) (a b : list Q) : bool :=
  match a, b with
  | [], [] => true
  | x :: a', y :: b' => within tolerance x y && everyWithin tolerance a' b'
  | _, _ => false
  end.

(** Lines 596-612: the rest-pose value of a node for a path. *)
Definition baseValue (doc : Document) (node : Node) (path : TargetPath)
  : option (list Q) :=
  match path with
  | translation => Some (node_translation node)
  | rotation => Some (node_rotation node)
  | scale => Some (node_scale node)
  | weights => mesh ← node_mesh node ≫= (doc_meshes doc !!.);
               Some (mesh_weights mesh)
  end.

(** Pass 2, lines 568-624, one key of [globalTrackMap]. *)
Definition isRemovable (tolerance : Q) (doc : Document)
    (key : Z * TargetPath) (tracks : list TrackInfo) : bool :=
  if existsb (λ t, negb (isStatic t)) tracks then false
  else
    match tracks with
    | [] => false
    | firstTrack :: _ =>
        match staticValue firstTrack with
        | None => false
        | Some reference =>
            let allAgree :=
              forallb (λ t, match staticValue t with
                            | None => false
                            | Some v => everyWithin tolerance v reference
                            end) tracks in
            if negb allAgree then false
            else
              let nodeIdx := key.1 in
              if ((nodeIdx <? 0) || (Z.of_nat (length (doc_nodes doc)) <=? nodeIdx))%Z
              then false
              else
                match doc_nodes doc !! Z.to_nat nodeIdx with
                | None => false
                | Some node =>
                    match baseValue doc node key.2 with
                    | None => false
                    | Some base => everyWithin tolerance base reference
                    end
                end
        end
    end.

Definition removableKeys (tolerance : Q) (doc : Document)
    (globalTrackMap : gmap (Z * TargetPath) (list TrackInfo))
  : gset (Z * TargetPath) :=
  dom (filter (λ kt, isRemovable tolerance doc kt.1 kt.2 = true)
              globalTrackMap).

(** *** Disposal in the property graph *)

Definition withAnimationGraph (doc : Document)
    (samplers : gmap nat AnimationSampler)
    (channels : gmap nat AnimationChannel) (animations : list Animation)
  : Document :=
  mkDocument (doc_accessors doc) (doc_meshes doc) (doc_nodes doc)
             samplers channels animations (doc_skins doc).

(** [channel.dispose()]: the channel leaves the graph and every list. *)
Definition disposeChannel (c : nat) (doc : Document) : Document :=
  withAnimationGraph doc (doc_samplers doc) (delete c (doc_channels doc))
    ((λ a, mkAnimation (filter (λ c', c' ≠ c) (anim_channels a))
                       (anim_samplers a)) <$> doc_animations doc).

(** [sampler.dispose()]: the sampler leaves the graph; every reference to
    it becomes [null]. *)
Definition disposeSampler (s : nat) (doc : Document) : Document :=
  withAnimationGraph doc (delete s (doc_samplers doc))
    ((λ ch, if bool_decide (channel_sampler ch = Some s)
            then mkChannel None (channel_targetNode ch) (channel_targetPath ch)
            else ch) <$> doc_channels doc)
    ((λ a, mkAnimation (anim_channels a)
                       (filter (λ s', s' ≠ s) (anim_samplers a)))
       <$> doc_animations doc).

(** [sampler.listParents()]: the animations that list the sampler and the
    channels that reference it. *)
Definition samplerParents (s : nat) (doc : Document) : nat :=
  length (filter (λ a, s ∈ anim_samplers a) (doc_animations doc)) +
  size (filter (λ kc, channel_sampler kc.2 = Some s) (doc_channels doc)).

(** Lines 651-664: the static test of the diagnostic branch.  Its inner
    loop has no [break]. *)
Definition keyframeDiffersAll (tolerance : Q) (outputArray : list Q)
    (elementSize i : nat) : Completion bool :=
  foldM (λ differs j, x ← at_ outputArray (i * elementSize + j);
                      y ← at_ outputArray j;
                      Normal (differs || exceeds tolerance x y))
        (seq 0 elementSize) false.

(** Lines 645-666: is the retained channel counted as "no consensus"? *)
Definition staticWithoutConsensus (tolerance : Q) (doc : Document)
    (channel : AnimationChannel) : Completion bool :=
  match channel_sampler channel ≫= getOutputArray doc with
  | None => Normal false
  | Some (outputArray, elementSize) =>
      let keyframeCount :=
        (ofNat (length (elems outputArray)) / ofNat elementSize)%Q in
      if Qltb 1 keyframeCount
      then differs ← firstM (keyframeDiffersAll tolerance (elems outputArray)
                               elementSize)
                            (countFromOne keyframeCount);
           Normal (negb differs)
      else Normal false
  end.

Record Sweep : Type := mkSweep {
  sweep_doc : Document;
  removedTracks : nat;
  skippedNoConsensus : nat
}.

(** Pass 3, lines 629-667, one channel. *)
Definition sweepChannel (tolerance : Q) (removable : gset (Z * TargetPath))
    (st : Sweep) (c : nat) : Completion Sweep :=
  let doc := sweep_doc st in
  match doc_channels doc !! c with
  | None => Normal st
  | Some channel =>
      match channel_targetNode channel, channel_targetPath channel with
      | Some targetNode, Some targetPath =>
          let key := (nodeIndex doc targetNode, targetPath) in
          if bool_decide (key ∈ removable)
          then
            let doc1 := disposeChannel c doc in
            let doc2 :=
              match channel_sampler channel with
              | Some sampler =>
                  if samplerParents sampler doc1 <=? 1
                  then disposeSampler sampler doc1 else doc1
              | None => doc1
              end in
            Normal (mkSweep doc2 (removedTracks st + 1)
                            (skippedNoConsensus st))
          else
            static ← staticWithoutConsensus tolerance doc channel;
            Normal (mkSweep doc (removedTracks st)
                      (skippedNoConsensus st + (if static : bool then 1 else 0)))
      | _, _ => Normal st
      end
  end.

(** One animation: the channels that [listChannels()] returns when its turn
    comes. *)
Definition sweepAnimation (tolerance : Q) (removable : gset (Z * TargetPath))
    (st : Sweep) (a : nat) : Completion Sweep :=
  match doc_animations (sweep_doc st) !! a with
  | None => Normal st
  | Some animation =>
      foldM (sweepChannel tolerance removable) (anim_channels animation) st
  end.

Definition buildTrackMap (tolerance : Q) (doc : Document)
  : Completion (gmap (Z * TargetPath) (list TrackInfo)) :=
  foldM (analyzeChannel tolerance doc) (listChannels doc) ∅.

(** The three passes, with the two counters of the log line. *)
Definition removeStaticTracksRun (tolerance : Q) (doc : Document)
  : Completion Sweep :=
  if bool_decide (length (doc_animations doc) = 0)
  then Normal (mkSweep doc 0 0)
  else
    globalTrackMap ← buildTrackMap tolerance doc;
    foldM (sweepAnimation tolerance
             (removableKeys tolerance doc globalTrackMap))
          (seq 0 (length (doc_animations doc)))
          (mkSweep doc 0 0).

Definition removeStaticTracksWithBake (tolerance : Q) (doc : Document)
  : Completion Document :=
  st ← removeStaticTracksRun tolerance doc;
  Normal (sweep_doc st).

(** *** Vocabulary of the statements *)

(** The key of a channel, when it has a target node and a target path. *)
Definition keyOf (doc : Document) (channel : AnimationChannel)
  : option (Z * TargetPath) :=
  targetNode ← channel_targetNode channel;
  targetPath ← channel_targetPath channel;
  Some (nodeIndex doc targetNode, targetPath).

(** A track: the output values of a channel and their element size. *)
Definition Track : Type := list Q * nat.

(** The channels that pass 1 records: those with a sampler, a target and a
    non-empty output array. *)
Definition analysed (doc : Document) (c : nat)
  : option ((Z * TargetPath) * Track) :=
  channel ← doc_channels doc !! c;
  sampler ← channel_sampler channel;
  key ← keyOf doc channel;
  output ← getOutputArray doc sampler;
  if bool_decide (length (elems output.1) = 0) then None
  else Some (key, (elems output.1, output.2)).

Definition trackFor (doc : Document) (key : Z * TargetPath) (c : nat)
  : option Track :=
  kt ← analysed doc c;
  if decide (kt.1 = key) then Some kt.2 else None.

(** The tracks of a key over all animations, in the order of the
    animations and of their channels. *)
Definition tracksOf (doc : Document) (key : Z * TargetPath) : list Track :=
  omap (trackFor doc key) (listChannels doc).

(** Equal component by component, within the tolerance. *)
Definition Within (tolerance : Q) (a b : list Q) : Prop :=
  Forall2 (λ x y, (Qabs (x - y) <= tolerance)%Q) a b.

Definition keyframe (t : Track) (i : nat) : list Q :=
  take t.2 (drop (i * t.2) t.1).

(** Every keyframe equals the first one. *)
Definition Static (tolerance : Q) (t : Track) : Prop :=
  ∀ i, i * t.2 < length t.1 → Within tolerance (keyframe t i) (keyframe t 0).

Definition restPose (doc : Document) (key : Z * TargetPath)
  : option (list Q) :=
  if decide (0 ≤ key.1)%Z
  then node ← doc_nodes doc !! Z.to_nat key.1; baseValue doc node key.2
  else None.

(** Consensus as pass 2 decides it: every track of the key is static, the
    value of each agrees with the value of the first track, and the rest
    pose of the node agrees with the value of the first track. *)
Definition Consensus (tolerance : Q) (doc : Document)
    (key : Z * TargetPath) : Prop :=
  ∃ first rest base,
    tracksOf doc key = first :: rest ∧
    Forall (Static tolerance) (first :: rest) ∧
    Forall (λ t, Within tolerance (keyframe t 0) (keyframe first 0))
           (first :: rest) ∧
    restPose doc key = Some base ∧
    Within tolerance base (keyframe first 0).

(** Consensus in the words of the specification: the values of the tracks
    agree with each other. *)
Definition PairwiseConsensus (tolerance : Q) (doc : Document)
    (key : Z * TargetPath) : Prop :=
  ∃ first rest base,
    tracksOf doc key = first :: rest ∧
    Forall (Static tolerance) (first :: rest) ∧
    (∀ t1 t2, t1 ∈ first :: rest → t2 ∈ first :: rest →
              Within tolerance (keyframe t1 0) (keyframe t2 0)) ∧
    restPose doc key = Some base ∧
    Within tolerance base (keyframe first 0).

(** Every sampler that a channel references exists and is listed by an
    animation, as in a document read from a file, where a channel names a
    sampler of its own animation. *)
Definition samplerListed (doc : Document) (s : nat) : Prop :=
  is_Some (doc_samplers doc !! s) ∧
  Exists (λ a, s ∈ anim_samplers a) (doc_animations doc).

Definition wf_samplers (doc : Document) : Prop :=
  map_Forall (λ _ channel, from_option (samplerListed doc) True
                             (channel_sampler channel))
             (doc_channels doc).

#[global] Instance wf_samplers_dec doc : Decision (wf_samplers doc).
Proof.
  apply map_Forall_dec. intros c channel.
  destruct (channel_sampler channel); simpl; unfold samplerListed; apply _.
Defined.

(** The channels that pass 3 removes, given the removable keys. *)
Definition Removable (doc : Document) (removable : gset (Z * TargetPath))
    (c : nat) : Prop :=
  ∃ channel key, doc_channels doc !! c = Some channel ∧
                 keyOf doc channel = Some key ∧ key ∈ removable.

(** The state of pass 3 after the channels [disposed] have gone: what it
    shares with the document [doc] that the pass started from. *)
Record SweepInv (doc : Document) (removable : gset (Z * TargetPath))
    (disposed : gset nat) (cur : Document) : Prop := mkSweepInv {
  si_nodes : doc_nodes cur = doc_nodes doc;
  si_animations :
    Forall2 (λ a a', anim_channels a'
                       = filter (λ c, c ∉ disposed) (anim_channels a))
            (doc_animations doc) (doc_animations cur);
  si_channels : ∀ c,
    match doc_channels cur !! c with
    | Some channel' =>
        (c ∉ disposed) ∧
        ∃ channel, doc_channels doc !! c = Some channel ∧
                   channel_targetNode channel' = channel_targetNode channel ∧
                   channel_targetPath channel' = channel_targetPath channel
    | None => doc_channels doc !! c = None ∨ c ∈ disposed
    end;
  si_removed : ∀ c, c ∈ disposed → Removable doc removable c
}.

(** What pass 3 keeps of the channels and samplers it does not dispose. *)
Record Kept (doc cur : Document) : Prop := mkKept {
  kept_channels : ∀ c channel,
    doc_channels cur !! c = Some channel →
    doc_channels doc !! c = Some channel;
  kept_samplers : ∀ s sampler,
    doc_samplers cur !! s = Some sampler →
    doc_samplers doc !! s = Some sampler;
  kept_wf : wf_samplers cur
}.

(** *** Example documents *)

Definition restNode : Node :=
  mkNode [0; 0; 0]%Q [0; 0; 0; 1]%Q [1; 1; 1]%Q None.

Definition constantTrack (x : Q) : Accessor :=
  mkAccessor (Some (mkTypedArray Float32Array [x; 0; 0;  x; 0; 0]%Q)) 3.

(** Three animations move the translation of one node, resting at 0, to
    the constant values 0, 1e-6 and -1e-6. *)
Definition spreadDocument : Document :=
  mkDocument
    (<[0 := constantTrack 0]>
     (<[1 := constantTrack (1 # 1000000)]>
     (<[2 := constantTrack (- (1 # 1000000))]> ∅)))
    [] [restNode]
    (<[0 := mkSampler (Some 0)]>
     (<[1 := mkSampler (Some 1)]> (<[2 := mkSampler (Some 2)]> ∅)))
    (<[0 := mkChannel (Some 0) (Some 0) (Some translation)]>
     (<[1 := mkChannel (Some 1) (Some 0) (Some translation)]>
     (<[2 := mkChannel (Some 2) (Some 0) (Some translation)]> ∅)))
    [mkAnimation [0] [0]; mkAnimation [1] [1]; mkAnimation [2] [2]]
    0.

Definition spreadSwept : Document :=
  mkDocument (doc_accessors spreadDocument) [] [restNode] ∅ ∅
    [mkAnimation [] []; mkAnimation [] []; mkAnimation [] []] 0.

(** The same document with the first two animations in the other
    order. *)
Definition spreadReordered : Document :=
  mkDocument (doc_accessors spreadDocument) [] [restNode]
    (doc_samplers spreadDocument) (doc_channels spreadDocument)
    [mkAnimation [1] [1]; mkAnimation [0] [0]; mkAnimation [2] [2]]
    0.

(** One animation with two channels on one sampler: the first channel
    holds its node at its rest pose, the second one moves a node that rests
    elsewhere. *)
Definition sharedSamplerDocument : Document :=
  mkDocument
    (<[0 := constantTrack 0]> ∅)
    [] [restNode; mkNode [1; 0; 0]%Q [0; 0; 0; 1]%Q [1; 1; 1]%Q None]
    (<[0 := mkSampler (Some 0)]> ∅)
    (<[0 := mkChannel (Some 0) (Some 0) (Some translation)]>
     (<[1 := mkChannel (Some 0) (Some 1) (Some translation)]> ∅))
    [mkAnimation [0; 1] [0]]
    0.

Definition sharedSamplerSwept : Document :=
  mkDocument
    (<[0 := constantTrack 0]> ∅)
    [] [restNode; mkNode [1; 0; 0]%Q [0; 0; 0; 1]%Q [1; 1; 1]%Q None]
    (<[0 := mkSampler (Some 0)]> ∅)
    (<[1 := mkChannel (Some 0) (Some 1) (Some translation)]> ∅)
    [mkAnimation [1] [0]]
    0.

End RemoveStaticTracks.

(** ** compress: the pipeline and the final compression *)

Module Compress.
Import RemoveDegenerateFaces.

(** *** Constants *)

Definition MESH_WARN_THRESHOLD : Z := 2000.
Definition TOTAL_WARN_THRESHOLD : Z := 15000.
Definition MERGE_TOLERANCE : Q := 1 # 10000.
Definition TEXTURE_MAX_SIZE : Z := 1024.
Definition INSTANCE_MIN : Z := 2.
Definition DEFAULT_MIN_AREA : Q := 1 # 10000000000.
Definition DEFAULT_TRACK_TOLERANCE : Q := 1 # 1000000.

Inductive CompressPreset : Type :=
| preset_default
| preset_balanced
| preset_aggressive
| preset_max.

Record GltfpackPresetConfig : Type := mkPreset {
  skinned : list string;
  static : list string
}.

Definition PRESETS (preset : CompressPreset) : GltfpackPresetConfig :=
  match preset with
  | preset_default =>
      mkPreset ["-vp"; "20"; "-kn"] ["-vp"; "16"]
  | preset_balanced =>
      mkPreset ["-vp"; "20"; "-kn"; "-at"; "14"; "-ar"; "10"; "-as"; "14";
                "-af"; "24"]
               ["-vp"; "16"; "-at"; "14"; "-ar"; "10"; "-as"; "14";
                "-af"; "24"]
  | preset_aggressive =>
      mkPreset ["-vp"; "20"; "-kn"; "-at"; "12"; "-ar"; "8"; "-as"; "12";
                "-af"; "15"]
               ["-vp"; "14"; "-at"; "12"; "-ar"; "8"; "-as"; "12";
                "-af"; "15"]
  | preset_max =>
      mkPreset ["-cz"; "-vp"; "14"; "-at"; "12"; "-ar"; "8"; "-as"; "12";
                "-af"; "15"; "-si"; "0.95"; "-slb"]
               ["-cz"; "-vp"; "14"; "-at"; "12"; "-ar"; "8"; "-as"; "12";
                "-af"; "15"; "-si"; "0.95"; "-slb"]
  end.

Record CompressOptions : Type := mkOptions {
  simplifyRatio : option Q;
  preset : option CompressPreset
}.

Record CompressResult : Type := mkResult {
  buffer : list Byte.byte;
  method : string;
  originalSize : option nat
}.

(** *** The transforms that a pipeline phase can hold *)

Inductive Stage : Type :=
(* this repository, transforms.ts *)
| analyzeMeshComplexity
| removeUnusedUVs
| mergeByDistance
| removeDegenerateFaces
| decimateBloatedMeshes
| removeStaticTracksWithBake
| normalizeWeights
(* @gltf-transform/functions *)
| dedup
| prune
| flatten
| join
| weld
| instance
| reorder
| sparse
| resample
| textureCompress
| simplify (ratio : Q)
| quantize
| meshopt.

#[global] Instance Stage_eq_dec : EqDecision Stage.
Proof. solve_decision. Defined.

(** What the final step's subprocess did, as [compressWithGltfpack] sees
    it inside its [try] block. *)
Inductive GltfpackRun : Type :=
| InputWriteFailed                     (* Bun.write(inputPath, ..) throws *)
| SpawnFailed                          (* Bun.spawn throws: no such binary *)
| KilledOnTimeout                      (* the timer fired, proc.kill() *)
| Exited (exitCode : Z) (output : option (list Byte.byte)).
                                       (* output: the file at outputPath *)

(** The collaborators outside the repository. *)
Record World : Type := mkWorld {
  readBinary : list Byte.byte → Completion Document;
  writeBinary : Document → Completion (list Byte.byte);
  stripCompressionExtensions : Document → Document;
  (* the library transforms and the three custom ones that are not
     embedded, each a function of the document that may throw *)
  external : Stage → Document → Completion Document;
  hasGltfpack : bool;
  mkdtemp : Completion string;
  rm : string → Completion unit;
  gltfpack : list string → list Byte.byte → GltfpackRun
}.

Section Pipeline.
Variable world : World.

Definition runStage (stage : Stage) (doc : Document) : Completion Document :=
  match stage with
  | mergeByDistance => MergeByDistance.mergeByDistance MERGE_TOLERANCE doc
  | removeDegenerateFaces =>
      RemoveDegenerateFaces.removeDegenerateFaces DEFAULT_MIN_AREA doc
  | removeStaticTracksWithBake =>
      RemoveStaticTracks.removeStaticTracksWithBake DEFAULT_TRACK_TOLERANCE doc
  | normalizeWeights => NormalizeWeights.normalizeWeights doc
  | _ => external world stage doc
  end.

(** A run carries the list of the transforms invoked so far (the spy of
    the specification) next to its completion. *)
Definition Run (A : Type) : Type := list Stage * Completion A.

(** [await document.transform(...stages)] *)
Fixpoint transform (stages : list Stage) (trace : list Stage) (doc : Document)
  : Run Document :=
  match stages with
  | [] => (trace, Normal doc)
  | stage :: rest =>
      match runStage stage doc with
      | Normal doc' => transform rest (trace ++ [stage]) doc'
      | Throw e => (trace ++ [stage], Throw e)
      end
  end.

(** [withTempDir(fn)]: [mkdtemp], then [fn], then [rm] in the [finally]. *)
Definition withTempDir {A : Type} (fn : string → Completion A) : Completion A :=
  dir ← mkdtemp world;
  match fn dir with
  | Normal a => _ ← rm world dir; Normal a
  | Throw e => _ ← rm world dir; Throw e
  end.

(** [compressWithGltfpack]: [null] ([None]) on every failure inside the
    [try] block. *)
Definition compressWithGltfpack (cleanBuffer : list Byte.byte)
    (hasSkins : bool) (preset : CompressPreset)
  : Completion (option CompressResult) :=
  withTempDir (λ dir,
    let inputPath := (dir +:+ "/clean.glb")%string in
    let outputPath := (dir +:+ "/compressed.glb")%string in
    let config := PRESETS preset in
    let presetFlags := if hasSkins then skinned config else static config in
    let hasCompressFlag :=
      existsb (λ f, bool_decide (f = "-cz") || bool_decide (f = "-c"))
              presetFlags in
    let args :=
      ["gltfpack"; "-i"; inputPath; "-o"; outputPath] ++
      (if hasCompressFlag then [] else ["-cc"]) ++ ["-tc"] ++ presetFlags in
    match gltfpack world args cleanBuffer with
    | InputWriteFailed => Normal None
    | SpawnFailed => Normal None
    | KilledOnTimeout => Normal None
    | Exited exitCode output =>
        if bool_decide (exitCode ≠ 0%Z) then Normal None
        else match output with
             | Some buffer => Normal (Some (mkResult buffer "gltfpack" None))
             | None => Normal None
             end
    end).

(** [compressWithMeshopt] *)
Definition compressWithMeshopt (trace : list Stage) (doc : Document)
    (hasSkins : bool) : Run CompressResult :=
  let (trace', r) :=
    if hasSkins then transform [meshopt] trace doc
    else transform [quantize; meshopt] trace doc in
  (trace', doc' ← r; buffer ← writeBinary world doc';
           Normal (mkResult buffer "meshopt" None)).

Definition andThen {A B : Type} (r : Run A) (k : list Stage → A → Run B)
  : Run B :=
  match r with
  | (trace, Normal a) => k trace a
  | (trace, Throw e) => (trace, Throw e)
  end.

Definition lift {A : Type} (trace : list Stage) (c : Completion A) : Run A :=
  (trace, c).

Definition skip (trace : list Stage) (doc : Document) : Run Document :=
  (trace, Normal doc).

Definition withOriginalSize (trace : list Stage) (result : CompressResult) (input : list Byte.byte)
  : Run CompressResult :=
  (trace, Normal (mkResult (buffer result) (method result)
                           (Some (length input)))).

(** The transforms of lines 813-893 in the order of their phases. *)
Definition cleanupTransforms (hasSkins : bool) : list Stage :=
  [analyzeMeshComplexity; dedup; prune; removeUnusedUVs] ++
  (if negb hasSkins then [flatten; join; weld] else []).

Definition geometryTransforms : list Stage :=
  [mergeByDistance; removeDegenerateFaces; prune; decimateBloatedMeshes].

Definition gpuTransforms (hasSkins : bool) : list Stage :=
  if negb hasSkins then [instance; reorder; sparse] else [instance; sparse].

Definition animTransforms (hasSkins : bool) : list Stage :=
  [resample; removeStaticTracksWithBake] ++
  (if hasSkins then [normalizeWeights] else []).

(** Lines 787-897: parse, run the phases, serialize, in a run whose
    callback returns and that dumps nothing.  The log, the two debug
    dumps and the text of the parse failure are in [CompressLog.prepare]. *)
Definition prepare (input : list Byte.byte) (options : CompressOptions)
  : Run (Document * bool * list Byte.byte) :=
  andThen (lift [] (match readBinary world input with
                    | Normal d => Normal d
                    | Throw _ => Throw (Error "Failed to parse GLB/glTF")
                    end)) (λ trace document,
  let document := stripCompressionExtensions world document in
  let hasSkins := bool_decide (0 < doc_skins document) in
  (* Phase 1 *)
  andThen (transform (cleanupTransforms hasSkins) trace document)
    (λ trace document,
  (* Phase 2 *)
  andThen (if negb hasSkins
           then transform geometryTransforms trace document
           else skip trace document) (λ trace document,
  (* Phase 3 *)
  andThen (transform (gpuTransforms hasSkins) trace document)
    (λ trace document,
  (* Phase 4 *)
  andThen (transform (animTransforms hasSkins) trace document)
    (λ trace document,
  (* Phase 5 and the final cleanup *)
  andThen (transform [textureCompress] trace document) (λ trace document,
  andThen (transform [prune] trace document) (λ trace document,
  (* the simplification that the caller asked for *)
  andThen (match simplifyRatio options with
           | Some ratio =>
               if Qltb 0 ratio && Qltb ratio 1
               then transform [simplify ratio] trace document
               else skip trace document
           | None => skip trace document
           end) (λ trace document,
  andThen (lift trace (writeBinary world document)) (λ trace cleanBuffer,
  (trace, Normal (document, hasSkins, cleanBuffer))))))))))).

(** Lines 905-919: gltfpack first, the meshopt encoder otherwise; the
    messages in between are in [CompressLog.finalCompression]. *)
Definition finalCompression (input : list Byte.byte) (options : CompressOptions)
    (trace : list Stage) (prepared : Document * bool * list Byte.byte)
  : Run CompressResult :=
  let '(document, hasSkins, cleanBuffer) := prepared in
  let preset := default preset_default (preset options) in
  let meshoptFallback :=
    andThen (compressWithMeshopt trace document hasSkins) (λ trace result,
      withOriginalSize trace result input) in
  if hasGltfpack world
  then
    andThen (lift trace (compressWithGltfpack cleanBuffer hasSkins preset))
      (λ trace result,
         match result with
         | Some result => withOriginalSize trace result input
         | None => meshoptFallback
         end)
  else meshoptFallback.

Definition compress (input : list Byte.byte) (options : CompressOptions)
  : Run CompressResult :=
  andThen (prepare input options) (finalCompression input options).

End Pipeline.

(** *** Vocabulary of the statements *)

(** The subprocess succeeded: exit code 0 and a readable output file. *)
Definition gltfpackSucceeded (run : GltfpackRun) : Prop :=
  ∃ output, run = Exited 0 (Some output).

(** *** Example worlds *)

Definition emptyDocument (skins : nat) : Document :=
  mkDocument ∅ [] [] ∅ ∅ [] skins.

(** Every collaborator works; the document read has [skins] skins and the
    subprocess ends as [run]. *)
Definition exampleWorld (skins : nat) (run : GltfpackRun) : World :=
  mkWorld (λ _, Normal (emptyDocument skins))
          (λ _, Normal [Byte.x67; Byte.x6c; Byte.x54; Byte.x46])
          (λ d, d)
          (λ _ d, Normal d)
          true
          (Normal "/tmp/gltf-compress-a1b2c3")
          (λ _, Normal ())
          (λ _ _, run).

Definition defaultOptions : CompressOptions := mkOptions None None.

End Compress.

(** ** utils.ts: validation of the input and of file names *)

Module Utils.

(** [GLB_MAGIC], the ASCII text "glTF" read as a little-endian uint32. *)
Definition GLB_MAGIC : Z := 0x46546c67.

Definition byteAt (input : list Byte.byte) (i : nat) : Z :=
  from_option (λ b, Z.of_N (Byte.to_N b)) 0%Z (input !! i).

(** [new DataView(buffer, offset, 4).getUint32(0, true)]: four bytes, the
    least significant one first. *)
Definition getUint32LE (input : list Byte.byte) : Z :=
  Z.lor (Z.lor (Z.lor (byteAt input 0) (Z.shiftl (byteAt input 1) 8))
               (Z.shiftl (byteAt input 2) 16))
        (Z.shiftl (byteAt input 3) 24).

(** [`0x${n.toString(16)}`] *)
Definition hex (n : Z) : string := HexString.of_N (Z.to_N n).

Definition validateGlbMagic (input : list Byte.byte) : Completion unit :=
  if length input <? 4
  then Throw (Error "File too small to be a valid GLB")
  else
    let magic := getUint32LE input in
    if bool_decide (magic ≠ GLB_MAGIC)
    then Throw (Error ("Invalid GLB file: expected magic " +:+ hex GLB_MAGIC
                         +:+ ", got " +:+ hex magic))
    else Normal ().

(** *** File names

    A JavaScript string is a sequence of UTF-16 code units. *)

Definition CodeUnits : Type := list N.

Definition codeUnits (s : string) : CodeUnits :=
  Ascii.N_of_ascii <$> String.list_ascii_of_string s.

(** The class of the first pattern: backslash and slash. *)
Definition isSeparator (c : N) : bool := (c =? 92)%N || (c =? 47)%N.

(** The class of the second pattern: the characters less-than,
    greater-than, colon, double quote, bar, question mark, star, and the
    control characters U+0000 to U+001F. *)
Definition isInvalid (c : N) : bool :=
  (c =? 60)%N || (c =? 62)%N || (c =? 58)%N || (c =? 34)%N ||
  (c =? 124)%N || (c =? 63)%N || (c =? 42)%N || (c <=? 31)%N.

(** The class [\s]: the white space and the line terminators of
    ECMAScript. *)
Definition isWhiteSpace (c : N) : bool :=
  ((9 <=? c) && (c <=? 13))%N || (c =? 32)%N || (c =? 160)%N ||
  (c =? 0x1680)%N || ((0x2000 <=? c) && (c <=? 0x200a))%N ||
  (c =? 0x2028)%N || (c =? 0x2029)%N || (c =? 0x202f)%N ||
  (c =? 0x205f)%N || (c =? 0x3000)%N || (c =? 0xfeff)%N.

(** The class [[.\s]]. *)
Definition isDotOrSpace (c : N) : bool := (c =? 46)%N || isWhiteSpace c.

(** [name.split(/[\\/]/).pop()]: what follows the last separator. *)
Definition lastSegment (name : CodeUnits) : CodeUnits :=
  fold_left (λ segment c, if isSeparator c then [] else segment ++ [c])
            name [].

Fixpoint dropWhile (f : N → bool) (s : CodeUnits) : CodeUnits :=
  match s with
  | [] => []
  | c :: rest => if f c then dropWhile f rest else s
  end.

(** [.replace(/^[.\s]+|[.\s]+$/g, '')]: the run at the start goes, then
    the run at the end. *)
Definition trimDotsAndSpaces (s : CodeUnits) : CodeUnits :=
  reverse (dropWhile isDotOrSpace (reverse (dropWhile isDotOrSpace s))).

Definition sanitizeFilename (name : CodeUnits) : CodeUnits :=
  let base := lastSegment name in
  let clean :=
    take 200 (trimDotsAndSpaces
                ((λ c, if isInvalid c then 95%N else c) <$> base)) in
  if bool_decide (clean = []) then codeUnits "model.glb" else clean.

End Utils.

(** ** removeUnusedUVs *)

Module RemoveUnusedUVs.

(** A material, by the UV set of each of its five texture slots:
    [getBaseColorTextureInfo()?.getTexCoord()] and so on, [None] for a slot
    without a texture. *)
Record Material : Type := mkMaterial {
  baseColorTexCoord : option Z;
  normalTexCoord : option Z;
  occlusionTexCoord : option Z;
  emissiveTexCoord : option Z;
  metallicRoughnessTexCoord : option Z
}.

(** The document together with what this transform reads beside the
    meshes. *)
Record Scene : Type := mkScene {
  scene_document : Document;
  scene_materials : list Material;        (* listMaterials() *)
  scene_textures : nat                    (* listTextures().length *)
}.

Definition texInfos (mat : Material) : list (option Z) :=
  [baseColorTexCoord mat; normalTexCoord mat; occlusionTexCoord mat;
   emissiveTexCoord mat; metallicRoughnessTexCoord mat].

(** Lines 222-235. *)
Definition collectUVSets (materials : list Material) : gset Z :=
  fold_left (λ used mat,
               fold_left (λ used info,
                            match info with
                            | Some texCoord => {[texCoord]} ∪ used
                            | None => used
                            end)
                         (texInfos mat) used)
            materials ∅.

(** Lines 237-240: [TEXCOORD_0] stays when there are textures that no
    material refers to. *)
Definition usedUVSets (scene : Scene) : gset Z :=
  let used := collectUVSets (scene_materials scene) in
  if (0 <? scene_textures scene) && (size used =? 0)
  then {[0%Z]} ∪ used else used.

(** *** [parseInt(text, 10)]

    A character of a [string] is the code unit of the same number. *)

Definition isStrWhiteSpace (a : Ascii.ascii) : bool :=
  let n := Ascii.N_of_ascii a in
  ((9 <=? n) && (n <=? 13))%N || (n =? 32)%N || (n =? 160)%N.

Definition digitOf (a : Ascii.ascii) : option Z :=
  let n := Ascii.N_of_ascii a in
  if ((48 <=? n) && (n <=? 57))%N then Some (Z.of_N n - 48)%Z else None.

Fixpoint skipWhiteSpace (s : string) : string :=
  match s with
  | String a rest => if isStrWhiteSpace a then skipWhiteSpace rest else s
  | EmptyString => s
  end.

(** The longest prefix of decimal digits, read as a number; [None] when
    there is no digit. *)
Fixpoint digitsPrefix (s : string) (value : option Z) : option Z :=
  match s with
  | String a rest =>
      match digitOf a with
      | Some d => digitsPrefix rest (Some (10 * default 0 value + d))%Z
      | None => value
      end
  | EmptyString => value
  end.

(** [None] is [NaN]. *)
Definition parseInt10 (s : string) : option Z :=
  match skipWhiteSpace s with
  | String a rest =>
      if (Ascii.N_of_ascii a =? 45)%N           (* a minus sign *)
      then Z.opp <$> digitsPrefix rest None
      else if (Ascii.N_of_ascii a =? 43)%N      (* a plus sign *)
      then digitsPrefix rest None
      else digitsPrefix (String a rest) None
  | EmptyString => None
  end.

(** [semantic.slice(n)] *)
Fixpoint slice (n : nat) (s : string) : string :=
  match n, s with
  | S n', String _ rest => slice n' rest
  | _, _ => s
  end.

(** [semantic.startsWith('TEXCOORD_')] *)
Definition isTexCoord (semantic : string) : bool :=
  String.prefix "TEXCOORD_" semantic.

(** [prim.setAttribute(semantic, null)] *)
Definition removeAttribute (p : Primitive) (semantic : string) : Primitive :=
  mkPrimitive (prim_mode p)
              (filter (λ a, a.1 ≠ semantic) (prim_attributes p))
              (prim_indices p).

(** [!usedUVSets.has(idx)]; the set holds no [NaN]. *)
Definition unused (used : gset Z) (semantic : string) : bool :=
  match parseInt10 (slice (String.length "TEXCOORD_") semantic) with
  | Some idx => bool_decide (idx ∉ used)
  | None => true
  end.

(** Lines 245-257, one turn of the loop over [listSemantics()]. *)
Definition stripSemantic (used : gset Z) (st : Primitive * nat)
    (semantic : string) : Primitive * nat :=
  if isTexCoord semantic && unused used semantic
  then (removeAttribute st.1 semantic, st.2 + 1)
  else st.

Definition stripPrimitive (used : gset Z) (st : list Primitive * nat)
    (p : Primitive) : list Primitive * nat :=
  let '(p', removed) := fold_left (stripSemantic used) (listSemantics p)
                                  (p, st.2) in
  (st.1 ++ [p'], removed).

Definition stripMesh (used : gset Z) (st : list Mesh * nat) (mesh : Mesh)
  : list Mesh * nat :=
  let '(prims, removed) := fold_left (stripPrimitive used)
                                     (mesh_primitives mesh) ([], st.2) in
  (st.1 ++ [mkMesh prims (mesh_weights mesh)], removed).

(** The transform; the second component is the counter [removed] of the
    log line. *)
Definition removeUnusedUVs (scene : Scene) : Scene * nat :=
  let doc := scene_document scene in
  let '(meshes, removed) :=
    fold_left (stripMesh (usedUVSets scene)) (doc_meshes doc) ([], 0) in
  (mkScene (mkDocument (doc_accessors doc) meshes (doc_nodes doc)
                       (doc_samplers doc) (doc_channels doc)
                       (doc_animations doc) (doc_skins doc))
           (scene_materials scene) (scene_textures scene),
   removed).

(** *** Vocabulary of the statements *)

(** The attribute goes: a [TEXCOORD_] name whose number is not used. *)
Definition stripped (used : gset Z) (semantic : string) : bool :=
  isTexCoord semantic && unused used semantic.

Definition strippedPrimitive (used : gset Z) (p : Primitive) : Primitive :=
  mkPrimitive (prim_mode p)
              (filter (λ a, stripped used a.1 = false) (prim_attributes p))
              (prim_indices p).

Definition strippedMesh (used : gset Z) (mesh : Mesh) : Mesh :=
  mkMesh (strippedPrimitive used <$> mesh_primitives mesh) (mesh_weights mesh).

(** *** Example *)

Definition uvPrimitive : Primitive :=
  mkPrimitive 4 [("POSITION", 0); ("TEXCOORD_0", 1); ("TEXCOORD_1", 2);
                 ("NORMAL", 3)] (Some 4).

Definition uvScene : Scene :=
  mkScene (mkDocument ∅ [mkMesh [uvPrimitive] []] [] ∅ ∅ [] 0)
          [mkMaterial (Some 0%Z) None None None None] 1.

End RemoveUnusedUVs.

(** ** decimateBloatedMeshes and analyzeMeshComplexity *)

Module Decimate.
Import Compress.

(** [accessor.getCount()] of glTF-Transform: the number of elements. *)
Definition getCount (accs : gmap nat Accessor) (r : nat) : Q :=
  match getArray accs r with
  | Some array => (ofNat (length (elems array)) / ofNat (getElementSize accs r))%Q
  | None => 0
  end.

(** Lines 166-181 of transforms.ts: the vertex counts of the primitives
    above the threshold. *)
Definition dominated (threshold : Q) (doc : Document) : list Q :=
  omap (λ p, posAccessor ← getAttribute p "POSITION";
             let vertCount := getCount (doc_accessors doc) posAccessor in
             if Qltb threshold vertCount then Some vertCount else None)
       (listPrimitives doc).

(** [Math.max(...values)] of a list that is not empty. *)
Definition maximum (first : Q) (rest : list Q) : Q := fold_left Qmax rest first.

(** Lines 183-201.  The quotient by the largest vertex count is the one of
    JavaScript when that count is not 0, as it is for every threshold that
    is not negative. *)
Definition decimateBloatedMeshes (world : World) (threshold targetRatio : Q)
    (doc : Document) : Completion Document :=
  match dominated threshold doc with
  | [] => Normal doc
  | first :: rest =>
      let ratio := (targetRatio * (threshold / maximum first rest))%Q in
      external world (simplify (Qmax (1 # 10) (Qmin ratio (8 # 10)))) doc
  end.

(** Lines 335-346 of transforms.ts, [analyzeMeshComplexity]: the vertex
    count of a mesh and the meshes listed as bloated, by their position in
    [listMeshes()]. *)
Definition meshVerts (accs : gmap nat Accessor) (mesh : Mesh) : Q :=
  fold_left (λ meshVerts p,
               match getAttribute p "POSITION" with
               | Some pos => (meshVerts + getCount accs pos)%Q
               | None => meshVerts
               end)
            (mesh_primitives mesh) 0%Q.

Definition bloated (warnThreshold : Q) (doc : Document) : list (nat * Q) :=
  omap (λ im, let verts := meshVerts (doc_accessors doc) im.2 in
              if Qltb warnThreshold verts then Some (im.1, verts) else None)
       (imap (λ i mesh, (i, mesh)) (doc_meshes doc)).

Definition totalVerts (doc : Document) : Q :=
  fold_left (λ total mesh, (total + meshVerts (doc_accessors doc) mesh)%Q)
            (doc_meshes doc) 0%Q.

End Decimate.

(** ** compress: vocabulary of the further statements *)

Module CompressRuns.
Import Compress.

(** The command line of [compressWithGltfpack] for a temporary directory, a
    skin flag and a preset. *)
Definition gltfpackArgs (dir : string) (hasSkins : bool)
    (preset : CompressPreset) : list string :=
  let flags := if hasSkins then skinned (PRESETS preset)
               else static (PRESETS preset) in
  ["gltfpack"; "-i"; (dir +:+ "/clean.glb")%string;
   "-o"; (dir +:+ "/compressed.glb")%string] ++
  (if existsb (λ f, bool_decide (f = "-cz") || bool_decide (f = "-c")) flags
   then [] else ["-cc"]) ++ ["-tc"] ++ flags.

(** The transforms of the five phases and of the final cleanup, in the
    order in which a run invokes them. *)
Definition phases (hasSkins : bool) : list Stage :=
  if hasSkins
  then [analyzeMeshComplexity; dedup; prune; removeUnusedUVs;
        instance; sparse;
        resample; removeStaticTracksWithBake; normalizeWeights;
        textureCompress; prune]
  else [analyzeMeshComplexity; dedup; prune; removeUnusedUVs;
        flatten; join; weld;
        mergeByDistance; removeDegenerateFaces; prune; decimateBloatedMeshes;
        instance; reorder; sparse;
        resample; removeStaticTracksWithBake;
        textureCompress; prune].

(** The simplification that the caller asks for. *)
Definition userSimplify (options : CompressOptions) : list Stage :=
  match simplifyRatio options with
  | Some ratio => if Qltb 0 ratio && Qltb ratio 1 then [simplify ratio] else []
  | None => []
  end.

(** The transforms of the in-process encoder. *)
Definition encoder (hasSkins : bool) : list Stage :=
  if hasSkins then [meshopt] else [quantize; meshopt].

(** *** Example worlds *)


End CompressRuns.

(** ** compress: the run with its log and its debug dumps *)

Module CompressLog.
Import Compress CompressRuns.

(** What [log] is called with.  The texts are built with [formatBytes] and
    [toFixed]; a message is kept as what it reports. *)
Inductive Message : Type :=
| DebugRawSaved (size : nat)                  (* line 802 *)
| SkinnedModelDetected                        (* line 834 *)
| UserSimplify (ratio : Q)                    (* line 886 *)
| CleanGlb (size : nat)                       (* line 897 *)
| DebugCleanSaved                             (* line 902 *)
| RunningGltfpack (preset : CompressPreset)   (* line 908 *)
| GltfpackSize (size : nat)                   (* line 911 *)
| RunningMeshoptFallback                      (* line 916 *)
| MeshoptSize (size : nat).                   (* line 918 *)

(** The process around a run, next to the collaborators of [World]:
    [options.onLog], the two variables of the environment with the
    [Bun.write] of their dumps, and the text of a [RangeError], which the
    model of the exceptions does not keep.  [console.log] returns and is
    left out, and so is [options.quiet], which only silences it;
    [init()] awaits a promise that never rejects (a failure of
    [doInit] ends the process). *)
Record Host : Type := mkHost {
  onLog : option (Message → Completion unit);
  DEBUG_RAW : bool;
  DEBUG_CLEAN : bool;
  bunWrite : string → list Byte.byte → Completion unit;
  rangeErrorMessage : string
}.

Section Pipeline.
Variable world : World.
Variable host : Host.

(** Lines 782-785: [options.onLog?.(msg)]. *)
Definition log (msg : Message) : Completion unit :=
  match onLog host with
  | Some callback => callback msg
  | None => Normal ()
  end.

(** [err instanceof Error ? err.message : String(err)] *)
Definition messageOf (err : Exn) : string :=
  match err with
  | Error msg => msg
  | RangeError => rangeErrorMessage host
  end.

(** Lines 792-796. *)
Definition parseFailure (err : Exn) : Exn :=
  Error ("Failed to parse GLB/glTF: " +:+ messageOf err).

(** Lines 799-805. *)
Definition debugRaw (document : Document) : Completion unit :=
  if DEBUG_RAW host
  then rawBuffer ← writeBinary world document;
       _ ← bunWrite host "/tmp/debug-raw.glb" rawBuffer;
       log (DebugRawSaved (length rawBuffer))
  else Normal ().

(** Lines 900-903. *)
Definition debugClean (cleanBuffer : list Byte.byte) : Completion unit :=
  if DEBUG_CLEAN host
  then _ ← bunWrite host "/tmp/debug-clean.glb" cleanBuffer;
       log DebugCleanSaved
  else Normal ().

(** Lines 787-903: parse, run the phases, serialize. *)
Definition prepare (input : list Byte.byte) (options : CompressOptions)
  : Run (Document * bool * list Byte.byte) :=
  andThen (lift [] (match readBinary world input with
                    | Normal d => Normal d
                    | Throw err => Throw (parseFailure err)
                    end)) (λ trace document,
  andThen (lift trace (debugRaw document)) (λ trace _,
  let document := stripCompressionExtensions world document in
  let hasSkins := bool_decide (0 < doc_skins document) in
  (* Phase 1 *)
  andThen (lift trace (if hasSkins then log SkinnedModelDetected
                       else Normal ())) (λ trace _,
  andThen (transform world (cleanupTransforms hasSkins) trace document)
    (λ trace document,
  (* Phase 2 *)
  andThen (if negb hasSkins
           then transform world geometryTransforms trace document
           else skip trace document) (λ trace document,
  (* Phase 3 *)
  andThen (transform world (gpuTransforms hasSkins) trace document)
    (λ trace document,
  (* Phase 4 *)
  andThen (transform world (animTransforms hasSkins) trace document)
    (λ trace document,
  (* Phase 5 and the final cleanup *)
  andThen (transform world [textureCompress] trace document)
    (λ trace document,
  andThen (transform world [prune] trace document) (λ trace document,
  (* the simplification that the caller asked for *)
  andThen (match simplifyRatio options with
           | Some ratio =>
               if Qltb 0 ratio && Qltb ratio 1
               then andThen (lift trace (log (UserSimplify ratio)))
                      (λ trace _,
                         transform world [simplify ratio] trace document)
               else skip trace document
           | None => skip trace document
           end) (λ trace document,
  andThen (lift trace (writeBinary world document)) (λ trace cleanBuffer,
  andThen (lift trace (log (CleanGlb (length cleanBuffer)))) (λ trace _,
  andThen (lift trace (debugClean cleanBuffer)) (λ trace _,
  (trace, Normal (document, hasSkins, cleanBuffer))))))))))))))).

(** Lines 916-919. *)
Definition meshoptFallback (input : list Byte.byte) (document : Document)
    (hasSkins : bool) (trace : list Stage) : Run CompressResult :=
  andThen (lift trace (log RunningMeshoptFallback)) (λ trace _,
  andThen (compressWithMeshopt world trace document hasSkins)
    (λ trace result,
  andThen (lift trace (log (MeshoptSize (length (buffer result)))))
    (λ trace _,
  withOriginalSize trace result input))).

(** Lines 905-919: gltfpack first, the meshopt encoder otherwise. *)
Definition finalCompression (input : list Byte.byte)
    (options : CompressOptions) (trace : list Stage)
    (prepared : Document * bool * list Byte.byte) : Run CompressResult :=
  let '(document, hasSkins, cleanBuffer) := prepared in
  let preset := default preset_default (preset options) in
  if hasGltfpack world
  then
    andThen (lift trace (log (RunningGltfpack preset))) (λ trace _,
    andThen (lift trace (compressWithGltfpack world cleanBuffer hasSkins
                           preset))
      (λ trace result,
         match result with
         | Some result =>
             andThen (lift trace (log (GltfpackSize (length (buffer result)))))
               (λ trace _, withOriginalSize trace result input)
         | None => meshoptFallback input document hasSkins trace
         end))
  else meshoptFallback input document hasSkins trace.

Definition compress (input : list Byte.byte) (options : CompressOptions)
  : Run CompressResult :=
  andThen (prepare input options) (finalCompression input options).

End Pipeline.

(** *** Vocabulary of the statements *)

(** The callback of the caller, if there is one, returns on every
    message. *)
Definition logReturns (host : Host) : Prop :=
  ∀ callback msg, onLog host = Some callback → callback msg = Normal ().

(** No dump is asked for. *)
Definition noDebug (host : Host) : Prop :=
  DEBUG_RAW host = false ∧ DEBUG_CLEAN host = false.

(** The external step fails: the binary was not found at initialization,
    or the run with the command line of the preset, in a temporary
    directory that is made and removed without error, does not end with
    exit code 0 and a readable output file (the input file cannot be
    written, no binary to spawn, killed on timeout, exit code other than
    0, no output file). *)
Definition externalStepFails (world : World) (hasSkins : bool)
    (preset : CompressPreset) (cleanBuffer : list Byte.byte) : Prop :=
  hasGltfpack world = false ∨
  ∃ dir, mkdtemp world = Normal dir ∧ rm world dir = Normal () ∧
         ¬ gltfpackSucceeded
             (gltfpack world (gltfpackArgs dir hasSkins preset) cleanBuffer).

(** Where an error of [compress] comes from. *)
Inductive Origin (world : World) (host : Host) (input : list Byte.byte)
    (trace : list Stage) (e : Exn) : Prop :=
| FromParse (err : Exn) :
    readBinary world input = Throw err → trace = [] →
    e = parseFailure host err →
    Origin world host input trace e
| FromTransform (stage : Stage) (doc : Document) :
    last trace = Some stage → runStage world stage doc = Throw e →
    Origin world host input trace e
| FromWrite (doc : Document) :
    writeBinary world doc = Throw e →
    Origin world host input trace e
| FromTempDir :
    hasGltfpack world = true →
    (mkdtemp world = Throw e ∨
     ∃ dir, mkdtemp world = Normal dir ∧ rm world dir = Throw e) →
    Origin world host input trace e
| FromLog (callback : Message → Completion unit) (msg : Message) :
    onLog host = Some callback → callback msg = Throw e →
    Origin world host input trace e
| FromDebugDump (path : string) (dump : list Byte.byte) :
    DEBUG_RAW host = true ∨ DEBUG_CLEAN host = true →
    bunWrite host path dump = Throw e →
    Origin world host input trace e.

(** *** Example hosts and worlds *)

(** No callback and no dump. *)
Definition silentHost : Host :=
  mkHost None false false (λ _ _, Normal ())
         "Offset is outside the bounds of the DataView".

(** A callback that returns. *)
Definition listeningHost : Host :=
  mkHost (Some (λ _, Normal ())) false false (λ _ _, Normal ())
         "Offset is outside the bounds of the DataView".

(** A callback that throws once the fallback is announced, as the one of
    the streaming endpoint does when its stream has been closed. *)
Definition closedStreamHost : Host :=
  mkHost (Some (λ msg, match msg with
                       | RunningMeshoptFallback =>
                           Throw (Error "Invalid state: Controller is already closed")
                       | _ => Normal ()
                       end))
         false false (λ _ _, Normal ())
         "Offset is outside the bounds of the DataView".

(** The temporary directory cannot be removed. *)
Definition busyTempDirWorld (skins : nat) (run : GltfpackRun) : World :=
  mkWorld (readBinary (exampleWorld skins run))
          (writeBinary (exampleWorld skins run))
          (λ d, d) (λ _ d, Normal d) true
          (Normal "/tmp/gltf-compress-a1b2c3") (λ _, Throw (Error "EBUSY"))
          (λ _ _, run).

(** The in-process encoder throws. *)
Definition brokenEncoderWorld (skins : nat) (run : GltfpackRun) : World :=
  mkWorld (readBinary (exampleWorld skins run))
          (writeBinary (exampleWorld skins run))
          (λ d, d)
          (λ stage d, match stage with
                      | meshopt => Throw (Error "encoder dependency required")
                      | _ => Normal d
                      end)
          true
          (Normal "/tmp/gltf-compress-a1b2c3") (λ _, Normal ())
          (λ _ _, run).

End CompressLog.

(** ** mergeByDistance: vocabulary of the further statements *)

Module MergeTerms.
Import MergeByDistance.

(** The semantics of the primitive name pairwise different accessors. *)
Definition separate (p : Primitive) (sems : list string) : Prop :=
  ∀ s1 s2 r, s1 ∈ sems → s2 ∈ sems →
    getAttribute p s1 = Some r → getAttribute p s2 = Some r → s1 = s2.

(** An index value that names a vertex of the primitive. *)
Definition names (count : nat) (v : Q) : Prop :=
  ∃ i, toIndex v = Some i ∧ i < count.

#[global] Instance names_dec (count : nat) (v : Q) : Decision (names count v).
Proof.
  unfold names. destruct (toIndex v) as [i|].
  - destruct (decide (i < count)) as [Hi|Hi].
    + left. by exists i.
    + right. intros (i' & [= <-] & ?). done.
  - right. by intros (i' & [=] & _).
Defined.

(** Every attribute array holds an element for every vertex. *)
Definition attributesCover (accs : gmap nat Accessor) (p : Primitive) : Prop :=
  Forall (λ a, from_option
                 (λ arr, vertexCount accs p * getElementSize accs a.2
                           ≤ length (elems arr))
                 True (getArray accs a.2))
         (prim_attributes p).

#[global] Instance attributesCover_dec (accs : gmap nat Accessor)
    (p : Primitive) : Decision (attributesCover accs p).
Proof.
  unfold attributesCover. apply Forall_dec. intros a.
  destruct (getArray accs a.2); simpl; apply _.
Defined.

(** Four vertices, the last one a repetition of the first, and a triangle
    whose third index names a fifth vertex. *)
Definition danglingAccessors : gmap nat Accessor :=
  <[0 := mkAccessor (Some (mkTypedArray Float32Array
           [0; 0; 0;  1; 0; 0;  0; 1; 0;  0; 0; 0]%Q)) 3]>
  (<[1 := mkAccessor (Some (mkTypedArray Uint16Array [0; 1; 4]%Q)) 1]> ∅).

End MergeTerms.

(** ** removeDegenerateFaces: vocabulary of the further statements *)

Module FacesTerms.
Import RemoveDegenerateFaces.

(** A triangle that the loop can test: two of its indices are equal, or
    the three of them name existing vertices. *)
Definition readable (positions : list Q) (t : Q * Q * Q) : Prop :=
  let '(i0, i1, i2) := t in
  (i0 == i1)%Q ∨ (i1 == i2)%Q ∨ (i0 == i2)%Q ∨
  ∃ s, triangleCross positions t = Normal s.

#[global] Instance readable_dec (positions : list Q) (t : Q * Q * Q) :
  Decision (readable positions t).
Proof.
  destruct t as [[i0 i1] i2]. unfold readable.
  destruct (triangleCross positions (i0, i1, i2)) as [s|e].
  - left. do 3 right. by exists s.
  - destruct (Qeq_dec i0 i1); [left; by left|].
    destruct (Qeq_dec i1 i2); [left; right; by left|].
    destruct (Qeq_dec i0 i2); [left; right; right; by left|].
    right. intros [?|[?|[?|[s Hs]]]]; done.
Defined.

#[global] Instance sound_dec (minArea : Q) (positions : list Q)
    (t : Q * Q * Q) : Decision (sound minArea positions t).
Proof.
  destruct t as [[i0 i1] i2]. unfold sound.
  destruct (triangleCross positions (i0, i1, i2)) as [s|e].
  - destruct (halfSqrtBelow s minArea) eqn:Hs.
    + right. intros (_ & _ & _ & s' & [= <-] & Hs'). congruence.
    + destruct (Qeq_dec i0 i1); [right; by intros [? _]|].
      destruct (Qeq_dec i1 i2); [right; by intros (_ & ? & _)|].
      destruct (Qeq_dec i0 i2); [right; by intros (_ & _ & ? & _)|].
      left. do 3 (split; [done|]). by exists s.
  - right. by intros (_ & _ & _ & s' & [=] & _).
Defined.

(** The sound triangles of an index array, in their order. *)
Definition soundTriangles (minArea : Q) (positions indices : list Q)
  : list (Q * Q * Q) :=
  filter (sound minArea positions) (chunks3 indices).

End FacesTerms.

(** ** normalizeWeights: vocabulary of the further statements *)

Module WeightsTerms.
Import NormalizeWeights.

(** The weights of vertex [i]. *)
Definition vertexWeights (arr : list Q) (elementSize i : nat) : list Q :=
  take elementSize (drop (i * elementSize) arr).

(** Their sum, added up from 0 in the order of the components. *)
Definition vertexSum (arr : list Q) (elementSize i : nat) : Q :=
  fold_left Qplus (vertexWeights arr elementSize i) 0%Q.

(** The test of line 296: a positive sum further than 1e-6 from 1. *)
Definition offBalance (sum : Q) : bool :=
  Qltb 0 sum && Qltb (1 # 1000000) (Qabs (sum - 1)%Q).

(** Every weight of a vertex that is off balance divided by the sum of the
    vertex and stored by the constructor of the array; every other weight
    as it is. *)
Definition normalized (c : ArrayCtor) (elementSize : nat) (arr : list Q)
  : list Q :=
  imap (λ k w, let sum := vertexSum arr elementSize (k / elementSize) in
               if offBalance sum then toElement c (w / sum)%Q else w) arr.

(** *** Example documents *)

(** Three vertices with float weights: the first sums to 3/4, the second
    to 4, the third to 0.  A second weight set and the joints come with
    them.  (Fractions are written as the loop leaves them, not reduced.) *)
Definition floatWeightsAccessors : gmap nat Accessor :=
  <[0 := mkAccessor (Some (mkTypedArray Float32Array
           [1 # 2; 1 # 4; 0; 0;  2; 2; 0; 0;  0; 0; 0; 0]%Q)) 4]>
  (<[1 := mkAccessor (Some (mkTypedArray Float32Array
           [1 # 4; 0; 0; 0;  0; 0; 0; 0;  0; 0; 0; 0]%Q)) 4]>
  (<[2 := mkAccessor (Some (mkTypedArray Uint8Array
           [0; 1; 0; 0;  1; 2; 0; 0;  0; 0; 0; 0]%Q)) 4]> ∅)).

Definition floatWeightsPrimitive : Primitive :=
  mkPrimitive 4 [("WEIGHTS_0", 0); ("WEIGHTS_1", 1); ("JOINTS_0", 2)] None.

Definition floatWeightsDocument : Document :=
  mkDocument floatWeightsAccessors [mkMesh [floatWeightsPrimitive] []]
    [] ∅ ∅ [] 1.

Definition floatWeightsNormalized : Document :=
  withAccessors floatWeightsDocument
    (<[0 := mkAccessor (Some (mkTypedArray Float32Array
             [8 # 12; 8 # 24; 0 # 6; 0 # 6;  2 # 4; 2 # 4; 0 # 4; 0 # 4;
              0; 0; 0; 0]%Q)) 4]>
     floatWeightsAccessors).

End WeightsTerms.

(** ** cli/main.ts: one file of the command line *)

Module Cli.
Import Compress Utils.

(** A path is a JavaScript string. *)
Definition Path : Type := CodeUnits.

(** The file system, as far as [compressFile] sees it: the files that
    exist, by path, with their contents.  [Bun.file(p).exists()] is the
    presence of [p], [arrayBuffer()] its contents, and [Bun.write(p, b)]
    binds [p] to [b]. *)
Definition Files : Type := gmap Path (list Byte.byte).

(** A letter of the pattern under the flag [i]: the letter or its capital. *)
Definition sameLetter (letter c : N) : bool :=
  (c =? letter)%N || (c =? letter - 32)%N.

(** [\.glb] and [\.gltf] under the flag [i]. *)
Definition isGlb (s : CodeUnits) : bool :=
  match s with
  | [dot; g; l; b] =>
      (dot =? 46)%N && sameLetter 103 g && sameLetter 108 l && sameLetter 98 b
  | _ => false
  end.

Definition isGltf (s : CodeUnits) : bool :=
  match s with
  | [dot; g; l; t; f] =>
      (dot =? 46)%N && sameLetter 103 g && sameLetter 108 l &&
      sameLetter 116 t && sameLetter 102 f
  | _ => false
  end.

(** Where [/\.(glb|gltf)$/i] matches: the length of the match at the end
    of the path, if there is one. *)
Definition extensionLength (path : Path) : option nat :=
  if isGltf (drop (length path - 5) path) then Some 5
  else if isGlb (drop (length path - 4) path) then Some 4
  else None.

(** [path.replace(/\.(glb|gltf)$/i, '-compressed.glb')] *)
Definition withCompressedSuffix (path : Path) : Path :=
  match extensionLength path with
  | Some n => take (length path - n) path ++ codeUnits "-compressed.glb"
  | None => path
  end.

Record Options : Type := mkCliOptions {
  output : option Path;
  simplify : option Q;
  cli_preset : CompressPreset;
  quiet : bool;
  force : bool
}.

(** The three texts of [error], by what they say; the third one is the
    message of the error caught. *)
Inductive Failure : Type :=
| OutputFileExists (outputPath : Path)   (* use -f to overwrite *)
| FileNotFound (inputPath : Path)
| Caught (e : Exn).

Record Outcome : Type := mkOutcome {
  success : bool;
  error : option Failure
}.

Section CompressFile.
Variable world : World.
(** [join] and [basename] of node:path. *)
Variable join : Path → Path → Path.
Variable basename : Path → Path.

(** Lines 86-95. *)
Definition outputPathOf (inputPath : Path) (options : Options) : Path :=
  match output options with
  | Some dir => join dir (withCompressedSuffix (basename inputPath))
  | None => withCompressedSuffix inputPath
  end.

(** Lines 80-171; the progress lines are left out.  The two calls of
    [Bun.write] are taken to succeed, and the files that [compress] writes
    itself (its temporary directory, the debug dumps) are not in
    [Files]. *)
Definition compressFile (files : Files) (inputPath : Path)
    (options : Options) : Outcome * Files :=
  let outputPath := outputPathOf inputPath options in
  if negb (force options) && bool_decide (is_Some (files !! outputPath))
  then (mkOutcome false (Some (OutputFileExists outputPath)), files)
  else
    match files !! inputPath with
    | None => (mkOutcome false (Some (FileNotFound inputPath)), files)
    | Some input =>
        match validateGlbMagic input with
        | Throw e => (mkOutcome false (Some (Caught e)), files)
        | Normal _ =>
            match (compress world input
                     (mkOptions (simplify options)
                                (Some (cli_preset options)))).2 with
            | Normal result =>
                let files1 :=
                  match output options with
                  | Some dir => <[join dir (codeUnits ".keep") := []]> files
                  | None => files
                  end in
                (mkOutcome true None, <[outputPath := buffer result]> files1)
            | Throw e => (mkOutcome false (Some (Caught e)), files)
            end
        end
    end.

End CompressFile.

(** *** Example *)

(** A GLB file under a name without extension. *)
Definition bareFiles : Files :=
  <[codeUnits "/models/avatar" :=
      [Byte.x67; Byte.x6c; Byte.x54; Byte.x46; Byte.x02]]> ∅.

End Cli.

(** * Properties *)

(** ** The error monad *)

Section Monad.
Context {S A B : Type}.

Lemma foldM_app (f : S → A → Completion S) (l1 l2 : list A) (s : S) :
  foldM f (l1 ++ l2) s = (s' ← foldM f l1 s; foldM f l2 s').
Proof.
  revert s; induction l1 as [|a l1 IH]; intros s; simpl; [done|].
  destruct (f s a) as [s1|e]; simpl; [apply IH|done].
Qed.

Lemma foldM_invariant (P : S → Prop) (f : S → A → Completion S)
    (l : list A) (s s' : S) :
  (∀ s0 a s1, a ∈ l → P s0 → f s0 a = Normal s1 → P s1) →
  P s → foldM f l s = Normal s' → P s'.
Proof.
  revert s; induction l as [|a l IH]; intros s Hstep Hs; simpl.
  - by intros [= <-].
  - destruct (f s a) as [s1|e] eqn:Hf; simpl; [|done].
    apply IH.
    + intros s0 a0 s2 Ha0. apply Hstep. by right.
    + eapply Hstep; [left|done..].
Qed.

Lemma foldM_fixed (f : S → A → Completion S) (l : list A) (s : S) :
  (∀ a, a ∈ l → f s a = Normal s) → foldM f l s = Normal s.
Proof.
  induction l as [|a l IH]; intros Hfix; simpl; [done|].
  rewrite Hfix; [|left]. simpl. apply IH. intros a0 Ha0. apply Hfix. by right.
Qed.

Lemma traverse_Normal (f : A → Completion B) (l : list A) (bs : list B) :
  traverse f l = Normal bs ↔ Forall2 (λ a b, f a = Normal b) l bs.
Proof.
  revert bs; induction l as [|a l IH]; intros bs; simpl.
  - split; [intros [= <-]; constructor|by inversion 1].
  - split.
    + destruct (f a) as [b|e] eqn:Hf; simpl; [|done].
      destruct (traverse f l) as [bs'|e]; simpl; [|done].
      intros [= <-]. constructor; [done|by apply IH].
    + inversion 1 as [|? b ? bs' Hf Hrest]; subst.
      rewrite Hf. simpl. apply IH in Hrest. by rewrite Hrest.
Qed.

Lemma traverse_length (f : A → Completion B) (l : list A) (bs : list B) :
  traverse f l = Normal bs → length bs = length l.
Proof. rewrite traverse_Normal. intros H. symmetry. by eapply Forall2_length. Qed.
End Monad.

(** ** Numbers, indices and typed-array elements *)

Section Numbers.

Lemma Qtrunc_inject_Z (z : Z) : Qtrunc (inject_Z z) = z.
Proof. unfold Qtrunc; simpl. apply Z.quot_1_r. Qed.

Lemma wrapU_idem (w z : Z) : wrapU w (wrapU w z) = wrapU w z.
Proof. unfold wrapU. apply Zmod_mod. Qed.

Lemma wrapS_idem (w z : Z) : (0 < w)%Z → wrapS w (wrapS w z) = wrapS w z.
Proof.
  intros Hw. unfold wrapS.
  assert (H2 : (2 ^ w = 2 * 2 ^ (w - 1))%Z).
  { rewrite <- Z.pow_succ_r by lia. f_equal. lia. }
  assert (Hpos : (0 < 2 ^ (w - 1))%Z) by (apply Z.pow_pos_nonneg; lia).
  pose proof (Z.mod_pos_bound z (2 ^ w) ltac:(lia)) as Hb.
  destruct (Z.ltb_spec (z mod 2 ^ w) (2 ^ (w - 1))) as [Hlt|Hge].
  - rewrite Zmod_mod.
    destruct (Z.ltb_spec (z mod 2 ^ w) (2 ^ (w - 1))); [done|lia].
  - replace ((z mod 2 ^ w - 2 ^ w) mod 2 ^ w)%Z with (z mod 2 ^ w)%Z.
    + destruct (Z.ltb_spec (z mod 2 ^ w) (2 ^ (w - 1))); [lia|done].
    + rewrite <- Zminus_mod_idemp_r, Z_mod_same_full, Z.sub_0_r.
      by rewrite Zmod_mod.
Qed.

(** Storing a stored value changes nothing. *)
Lemma toElement_idem (c : ArrayCtor) (v : Q) :
  toElement c (toElement c v) = toElement c v.
Proof.
  destruct c; simpl; [done|..]; rewrite Qtrunc_inject_Z;
    by rewrite ?wrapU_idem, ?wrapS_idem.
Qed.

Lemma toIndex_ofNat (n : nat) : toIndex (ofNat n) = Some n.
Proof.
  unfold toIndex, ofNat; simpl.
  rewrite Z.mod_1_r, Z.div_1_r, Nat2Z.id.
  destruct (Z.leb_spec 0 (Z.of_nat n)); [done|lia].
Qed.

Lemma toElement_Uint32_ofNat (n : nat) :
  toElement Uint32Array (ofNat n) = inject_Z (Z.of_nat n mod 2 ^ 32).
Proof. unfold toElement, ofNat. by rewrite Qtrunc_inject_Z. Qed.

Lemma countUpTo_thirds (len : nat) :
  countUpTo (ofNat len / 3) = seq 0 ((len + 2) / 3).
Proof.
  unfold countUpTo, ofNat. f_equal.
  rewrite <- (Nat2Z.id ((len + 2) / 3)). f_equal.
  rewrite Nat2Z.inj_div, Nat2Z.inj_add.
  change (Z.of_nat 3) with 3%Z. change (Z.of_nat 2) with 2%Z.
  generalize (Z.of_nat len) (Nat2Z.is_nonneg len). intros z Hz.
  unfold Qceiling, Qfloor, Qdiv, Qopp, Qmult, Qinv, inject_Z; simpl.
  rewrite Z.mul_1_r. change (Z.pos (1 * 3)) with 3%Z.
  Z.div_mod_to_equations. lia.
Qed.

Lemma Qtrunc_thirds (len : nat) :
  Z.to_nat (Qtrunc (ofNat len / 3)) = len / 3.
Proof.
  rewrite <- (Nat2Z.id (len / 3)). f_equal. unfold ofNat.
  rewrite Nat2Z.inj_div. change (Z.of_nat 3) with 3%Z.
  generalize (Z.of_nat len) (Nat2Z.is_nonneg len). intros z Hz.
  unfold Qtrunc, Qdiv, Qmult, Qinv, inject_Z; simpl.
  rewrite Z.mul_1_r. change (Z.pos (1 * 3)) with 3%Z.
  by rewrite Z.quot_div_nonneg by lia.
Qed.

(** [removed === 0] for an array of [n] whole vertices. *)
Lemma removed_zero (n m : nat) :
  Qeq_bool (ofNat (n * 3) / 3 - ofNat m) 0 = true ↔ m = n.
Proof.
  rewrite Qeq_bool_iff. unfold ofNat. rewrite Nat2Z.inj_mul.
  change (Z.of_nat 3) with 3%Z.
  rewrite <- (Nat2Z.inj_iff m n).
  generalize (Z.of_nat n) (Z.of_nat m). intros a b.
  unfold Qeq, Qminus, Qplus, Qopp, Qdiv, Qmult, Qinv, inject_Z; simpl.
  lia.
Qed.

End Numbers.

(** ** mergeByDistance: the spatial hash *)

Module MergeHash.
Import MergeByDistance.

Lemma chunks3_lookup (l : list Q) (i : nat) :
  chunks3 l !! i =
  (x ← l !! (i * 3); y ← l !! (i * 3 + 1); z ← l !! (i * 3 + 2);
   Some (x, y, z)).
Proof.
  revert l; induction i as [|i IH]; intros [|x [|y [|z rest]]]; try done.
  simpl chunks3. rewrite lookup_cons_ne_0 by done. simpl Nat.pred.
  rewrite IH. done.
Qed.

Lemma chunks3_length (l : list Q) (n : nat) :
  length l = n * 3 → length (chunks3 l) = n.
Proof.
  revert l; induction n as [|n IH]; intros l Hl.
  - by destruct l.
  - destruct l as [|x [|y [|z rest]]]; simpl in Hl; try lia.
    simpl. f_equal. apply IH. lia.
Qed.

Lemma vertexKeys_length (precision : Q) (l : list Q) (n : nat) :
  length l = n * 3 → length (vertexKeys precision l) = n.
Proof. intros. unfold vertexKeys. rewrite length_fmap. by apply chunks3_length. Qed.

(** A turn of the hash loop returns exactly when the vertex is whole. *)
Lemma hashStep_Normal (precision : Q) (positions : list Q)
    (st st' : SpatialHash) (i : nat) :
  hashStep precision positions st i = Normal st' ↔
  ∃ k, vertexKeys precision positions !! i = Some k ∧ st' = assign st i k.
Proof.
  unfold hashStep, vertexKeys, at_.
  rewrite list_lookup_fmap, chunks3_lookup.
  destruct (positions !! (i * 3)) as [x|]; simpl;
    [|split; [done|by intros (? & ? & ?)]].
  destruct (positions !! (i * 3 + 1)) as [y|]; simpl;
    [|split; [done|by intros (? & ? & ?)]].
  destruct (positions !! (i * 3 + 2)) as [z|]; simpl;
    [|split; [done|by intros (? & ? & ?)]].
  split.
  - intros [= <-]. eauto.
  - by intros (k & [= <-] & ->).
Qed.

Section Invariant.
Variable precision : Q.
Variable positions : list Q.
Variable n0 : nat.

Local Abbreviation keys := (vertexKeys precision positions).
Local Abbreviation init := (mkHash ∅ (replicate n0 0%Q) []).
Local Abbreviation run m := (foldM (hashStep precision positions) (seq 0 m) init).

(** What holds of the loop state after the first [m] vertices. *)
Record HashInv (m : nat) (st : SpatialHash) : Prop := {
  inv_remap_length : length (remap st) = n0;
  inv_canonical : ∀ j i, newToOld st !! j = Some i →
    i < m ∧ ∃ k, keys !! i = Some k ∧ vertexMap st !! k = Some j;
  inv_map : ∀ k j, vertexMap st !! k = Some j →
    ∃ i, newToOld st !! j = Some i ∧ keys !! i = Some k;
  inv_remap : ∀ i k, i < m → keys !! i = Some k →
    ∃ j, vertexMap st !! k = Some j ∧
         (i < n0 → remap st !! i = Some (toElement Uint32Array (ofNat j)));
  inv_nodup : NoDup (take m keys) → newToOld st = seq 0 m;
  inv_count : length (newToOld st) ≤ m;
  inv_full : length (newToOld st) = m → NoDup (take m keys)
}.

Lemma HashInv_init : HashInv 0 init.
Proof.
  split; simpl; try done.
  - by rewrite length_replicate.
  - intros; lia.
  - intros _. constructor.
Qed.

Lemma key_seen (m : nat) (st : SpatialHash) (k : Z * Z * Z) :
  HashInv m st → k ∈ take m keys → is_Some (vertexMap st !! k).
Proof.
  intros Hinv (i & Hi)%list_elem_of_lookup.
  apply lookup_take_Some in Hi as [Hi Hlt].
  destruct (inv_remap _ _ Hinv i k Hlt Hi) as (j & Hj & _). eauto.
Qed.

Lemma HashInv_assign (m : nat) (st : SpatialHash) (k : Z * Z * Z) :
  HashInv m st → keys !! m = Some k → HashInv (S m) (assign st m k).
Proof.
  intros Hinv Hk. unfold assign.
  pose proof (take_S_r _ _ _ Hk) as Htake.
  destruct (vertexMap st !! k) as [e|] eqn:He.
  - (* a vertex with this key was seen before *)
    destruct (inv_map _ _ Hinv k e He) as (i0 & Hi0 & Hk0).
    destruct (inv_canonical _ _ Hinv e i0 Hi0) as (Hlt0 & _).
    assert (Hin : k ∈ take m keys).
    { apply list_elem_of_lookup. exists i0.
      apply lookup_take_Some. done. }
    split; cbn [vertexMap remap newToOld].
    + rewrite length_insert. apply Hinv.
    + intros j i Hj. destruct (inv_canonical _ _ Hinv j i Hj) as (? & ?).
      split; [lia|done].
    + apply Hinv.
    + intros i k' Hi Hk'. destruct (decide (i = m)) as [->|Hne].
      * assert (k' = k) as -> by congruence.
        exists e. split; [done|]. intros Hn0.
        apply list_lookup_insert_eq. by rewrite (inv_remap_length _ _ Hinv).
      * destruct (inv_remap _ _ Hinv i k' ltac:(lia) Hk') as (j & ? & Hr).
        exists j. split; [done|]. intros Hn0.
        rewrite list_lookup_insert_ne by done. by apply Hr.
    + rewrite Htake. intros Hnd%NoDup_app. destruct Hnd as (_ & Hnd & _).
      exfalso. eapply Hnd; [done|]. by apply list_elem_of_singleton.
    + pose proof (inv_count _ _ Hinv). lia.
    + pose proof (inv_count _ _ Hinv). lia.
  - (* a new key *)
    assert (Hfresh : k ∉ take m keys).
    { intros Hin. destruct (key_seen m st k Hinv Hin) as [? ?]. congruence. }
    split; cbn [vertexMap remap newToOld].
    + rewrite length_insert. apply Hinv.
    + intros j i Hj. apply lookup_app_Some in Hj as [Hj|[Hge Hj]].
      * destruct (inv_canonical _ _ Hinv j i Hj) as (? & k' & ? & Hv).
        split; [lia|]. exists k'. split; [done|].
        rewrite lookup_insert_ne; [done|congruence].
      * apply list_lookup_singleton_Some in Hj as [Hj <-].
        split; [lia|]. exists k. split; [done|].
        rewrite lookup_insert_eq. f_equal. lia.
    + intros k' j Hj. destruct (decide (k = k')) as [<-|Hne].
      * rewrite lookup_insert_eq in Hj. injection Hj as <-.
        exists m. split; [|done].
        rewrite lookup_app_r by done. by rewrite Nat.sub_diag.
      * rewrite lookup_insert_ne in Hj by done.
        destruct (inv_map _ _ Hinv k' j Hj) as (i & ? & ?).
        exists i. split; [|done]. by apply lookup_app_l_Some.
    + intros i k' Hi Hk'. destruct (decide (i = m)) as [->|Hne].
      * assert (k' = k) as -> by congruence.
        exists (length (newToOld st)). split; [apply lookup_insert_eq|].
        intros Hn0. apply list_lookup_insert_eq.
        by rewrite (inv_remap_length _ _ Hinv).
      * destruct (inv_remap _ _ Hinv i k' ltac:(lia) Hk') as (j & Hj & Hr).
        exists j. split.
        -- rewrite lookup_insert_ne; [done|congruence].
        -- intros Hn0. rewrite list_lookup_insert_ne by done. by apply Hr.
    + rewrite Htake. intros Hnd%NoDup_app. destruct Hnd as (Hnd & _ & _).
      rewrite (inv_nodup _ _ Hinv Hnd). by rewrite seq_S.
    + rewrite length_app. simpl. pose proof (inv_count _ _ Hinv). lia.
    + rewrite length_app. simpl. intros Hlen.
      rewrite Htake. apply NoDup_app. split; [|split].
      * apply (inv_full _ _ Hinv). lia.
      * intros x Hx ->%list_elem_of_singleton. done.
      * apply NoDup_singleton.
Qed.

Lemma run_S (m : nat) :
  run (S m) = (st ← run m; hashStep precision positions st m).
Proof.
  rewrite seq_S, foldM_app. simpl.
  destruct (run m) as [st|e]; simpl; [|done].
  by destruct (hashStep precision positions st m).
Qed.

Lemma run_invariant (m : nat) (st : SpatialHash) :
  run m = Normal st → HashInv m st.
Proof.
  revert st; induction m as [|m IH]; intros st.
  - simpl. intros [= <-]. apply HashInv_init.
  - rewrite run_S. destruct (run m) as [st0|e]; simpl; [|done].
    intros (k & Hk & ->)%hashStep_Normal.
    apply HashInv_assign; [by apply IH|done].
Qed.

Lemma run_reads (m : nat) (st : SpatialHash) :
  run m = Normal st → m ≤ length keys.
Proof.
  destruct m as [|m]; [lia|].
  rewrite run_S. destruct (run m) as [st0|e]; simpl; [|done].
  intros (k & Hk & _)%hashStep_Normal.
  apply lookup_lt_Some in Hk. lia.
Qed.

Lemma run_total (m : nat) :
  m ≤ length keys → ∃ st, run m = Normal st.
Proof.
  induction m as [|m IH]; intros Hm; [by eexists|].
  destruct IH as [st Hst]; [lia|].
  destruct (lookup_lt_is_Some_2 keys m ltac:(lia)) as [k Hk].
  exists (assign st m k). rewrite run_S, Hst. simpl.
  apply hashStep_Normal. eauto.
Qed.
End Invariant.

End MergeHash.

(** ** mergeByDistance: compaction of the attribute arrays *)

Module MergeCompact.
Import MergeByDistance MergeHash.

Lemma getArray_setArray (r r' : nat) (a : TypedArray) (accs : gmap nat Accessor) :
  getArray (setArray r a accs) r' =
  if decide (r = r') then (accs !! r ≫= λ _, Some a) else getArray accs r'.
Proof.
  unfold getArray, setArray. rewrite lookup_alter.
  case_decide; [|done]. by destruct (accs !! r).
Qed.

Lemma getArray_setArray_ne (r r' : nat) (a : TypedArray) (accs : gmap nat Accessor) :
  r ≠ r' → getArray (setArray r a accs) r' = getArray accs r'.
Proof. intros. rewrite getArray_setArray. by case_decide. Qed.

Lemma getArray_setArray_eq (r : nat) (a a0 : TypedArray) (accs : gmap nat Accessor) :
  getArray accs r = Some a0 → getArray (setArray r a accs) r = Some a.
Proof.
  intros H. rewrite getArray_setArray. case_decide; [|done].
  unfold getArray in H. by destruct (accs !! r).
Qed.

Lemma getElementSize_setArray (r r' : nat) (a : TypedArray) (accs : gmap nat Accessor) :
  getElementSize (setArray r a accs) r' = getElementSize accs r'.
Proof.
  unfold getElementSize, setArray. rewrite lookup_alter.
  case_decide; [subst|done]. by destruct (accs !! r').
Qed.

Lemma concat_rows_length {A : Type} (rows : list (list A)) (es : nat) :
  Forall (λ r, length r = es) rows → length (concat rows) = length rows * es.
Proof.
  induction 1 as [|row rows Hrow _ IH]; simpl; [done|].
  rewrite length_app. lia.
Qed.

Lemma concat_rows_lookup {A : Type} (rows : list (list A)) (es i j : nat)
    (row : list A) (v : A) :
  Forall (λ r, length r = es) rows →
  rows !! i = Some row → row !! j = Some v →
  concat rows !! (i * es + j) = Some v.
Proof.
  intros Hrows. revert i.
  induction Hrows as [|row0 rows Hrow0 _ IH]; intros i Hi Hj; [done|].
  destruct i as [|i]; simpl in *.
  - injection Hi as ->. by apply lookup_app_l_Some.
  - rewrite lookup_app_r by lia.
    replace (es + i * es + j - length row0) with (i * es + j) by lia.
    by apply IH.
Qed.

(** What a successful [compactArray] has built. *)
Lemma compactArray_Normal (old new : TypedArray) (es : nat) (nto : list nat) :
  compactArray old es nto = Normal new →
  ctor new = ctor old ∧
  length (elems new) = length nto * es ∧
  validArray new ∧
  ∀ i oldIdx j, nto !! i = Some oldIdx → j < es →
    ∃ v, elems old !! (oldIdx * es + j) = Some v ∧
         elems new !! (i * es + j) = Some (toElement (ctor old) v).
Proof.
  unfold compactArray.
  destruct (traverse _ nto) as [rows|e] eqn:Hrows; simpl; [|done].
  intros [= <-]. simpl.
  apply traverse_Normal in Hrows.
  assert (Hrow : Forall2 (λ oldIdx row,
            length row = es ∧
            ∀ j, j < es → ∃ v, elems old !! (oldIdx * es + j) = Some v ∧
                               row !! j = Some (toElement (ctor old) v))
            nto rows).
  { eapply Forall2_impl; [exact Hrows|]. intros oldIdx row Hr. simpl in Hr.
    apply traverse_Normal in Hr. split.
    - apply Forall2_length in Hr. by rewrite length_seq in Hr.
    - intros j Hj.
      destruct (Forall2_lookup_l _ _ _ j j Hr) as (x & Hx & Hat).
      { by apply lookup_seq_lt. }
      unfold at_ in Hat.
      destruct (elems old !! (oldIdx * es + j)) as [v|]; simpl in Hat; [|done].
      injection Hat as <-. eauto. }
  assert (Hlen : Forall (λ r, length r = es) rows).
  { apply Forall2_Forall_r with (Q := λ r, length r = es) in Hrow; [done|].
    apply Forall_true. by intros ? ? [? _]. }
  split; [done|]. split.
  { rewrite (concat_rows_length _ es) by done.
    by rewrite (Forall2_length _ _ _ Hrow). }
  split.
  { unfold validArray; simpl. apply Forall_concat.
    apply Forall2_Forall_r with (Q := Forall (λ v, toElement (ctor old) v = v))
      in Hrow; [done|].
    apply Forall_true. intros oldIdx row [Hl Hr].
    apply Forall_lookup. intros j x Hx.
    destruct (Hr j) as (v & _ & Hv).
    { apply lookup_lt_Some in Hx. lia. }
    assert (x = toElement (ctor old) v) as -> by congruence.
    apply toElement_idem. }
  intros i oldIdx j Hi Hj.
  destruct (Forall2_lookup_l _ _ _ i oldIdx Hrow Hi) as (row & Hrowi & _ & Hr).
  destruct (Hr j Hj) as (v & Hv & Hrj).
  exists v. split; [done|]. by eapply concat_rows_lookup.
Qed.

(** For a VEC3 array of storable values the new vertices are the old
    vertices named by [newToOld]. *)
Lemma compactArray_keys (precision : Q) (old new : TypedArray) (nto : list nat) :
  validArray old →
  compactArray old 3 nto = Normal new →
  Forall2 (λ oldIdx k, vertexKeys precision (elems old) !! oldIdx = Some k)
          nto (vertexKeys precision (elems new)).
Proof.
  intros Hvalid (Hc & Hlen & _ & Hget)%compactArray_Normal.
  apply Forall2_same_length_lookup. split.
  { symmetry. by apply vertexKeys_length. }
  intros i oldIdx k Hi Hk.
  destruct (Hget i oldIdx 0 Hi ltac:(lia)) as (x & Hx & Hx').
  destruct (Hget i oldIdx 1 Hi ltac:(lia)) as (y & Hy & Hy').
  destruct (Hget i oldIdx 2 Hi ltac:(lia)) as (z & Hz & Hz').
  assert (Hstore : ∀ j v, elems old !! j = Some v → toElement (ctor old) v = v).
  { intros j v Hv. unfold validArray in Hvalid.
    rewrite Forall_lookup in Hvalid. by eapply Hvalid. }
  rewrite (Hstore _ _ Hx) in Hx'. rewrite (Hstore _ _ Hy) in Hy'.
  rewrite (Hstore _ _ Hz) in Hz'.
  rewrite Nat.add_0_r in Hx, Hx'.
  unfold vertexKeys in *. rewrite list_lookup_fmap, chunks3_lookup in Hk |- *.
  rewrite Hx', Hy', Hz' in Hk. rewrite Hx, Hy, Hz. done.
Qed.

End MergeCompact.

(** ** mergeByDistance: one primitive *)

Module MergePrimitive.
Import MergeByDistance MergeHash MergeCompact.

Lemma chunks3_bound (l : list Q) : length (chunks3 l) * 3 ≤ length l.
Proof.
  assert (H : ∀ n (l : list Q), length l ≤ n → length (chunks3 l) * 3 ≤ length l).
  { clear l. induction n as [|n IH]; intros l Hl.
    - destruct l; simpl in *; lia.
    - destruct l as [|x [|y [|z rest]]]; simpl in *; try lia.
      specialize (IH rest ltac:(lia)). lia. }
  by apply (H (length l)).
Qed.

(** The hash loop returns exactly on arrays of whole vertices, and then
    its invariant holds of all of them. *)
Lemma buildHash_Normal (precision : Q) (positions : list Q) (h : SpatialHash) :
  buildHash precision positions = Normal h →
  ∃ n, length positions = n * 3 ∧ HashInv precision positions n n h.
Proof.
  unfold buildHash. rewrite countUpTo_thirds, Qtrunc_thirds.
  unfold newArray; cbn [elems].
  intros Hrun.
  pose proof (run_reads _ _ _ _ _ Hrun) as Hle.
  unfold vertexKeys in Hle. rewrite length_fmap in Hle.
  pose proof (chunks3_bound positions) as Hb.
  pose proof (Nat.div_mod (length positions + 2) 3 ltac:(lia)) as Hdm.
  pose proof (Nat.mod_upper_bound (length positions + 2) 3 ltac:(lia)) as Hm.
  set (m := (length positions + 2) / 3) in *.
  assert (Hlen : length positions = m * 3) by lia.
  exists m. split; [done|].
  replace (length positions / 3) with m in Hrun.
  - by apply run_invariant.
  - rewrite Hlen. by rewrite Nat.div_mul.
Qed.

Lemma buildHash_whole (precision : Q) (positions : list Q) (n : nat) :
  length positions = n * 3 →
  ∃ h, buildHash precision positions = Normal h ∧
       HashInv precision positions n n h.
Proof.
  intros Hlen. unfold buildHash. rewrite countUpTo_thirds, Qtrunc_thirds.
  unfold newArray; cbn [elems].
  replace ((length positions + 2) / 3) with n.
  2:{ rewrite Hlen. apply Nat.div_unique with 2; lia. }
  replace (length positions / 3) with n.
  2:{ rewrite Hlen. by rewrite Nat.div_mul. }
  destruct (run_total precision positions n n) as [h Hh].
  { by rewrite (vertexKeys_length _ _ n). }
  exists h. split; [done|]. by apply run_invariant.
Qed.

Lemma HashInv_newToOld_NoDup (precision : Q) (positions : list Q) (n0 m : nat)
    (h : SpatialHash) :
  HashInv precision positions n0 m h → NoDup (newToOld h).
Proof.
  intros Hinv. apply NoDup_alt. intros a b i Ha Hb.
  destruct (inv_canonical _ _ _ _ _ Hinv a i Ha) as (_ & k & Hk & Hva).
  destruct (inv_canonical _ _ _ _ _ Hinv b i Hb) as (_ & k' & Hk' & Hvb).
  congruence.
Qed.

(** A position array after compaction by its own hash: whole canonical
    vertices with pairwise different keys. *)
Definition Canon (precision : Q) (count : nat) (arr : TypedArray) : Prop :=
  validArray arr ∧ length (elems arr) = count * 3 ∧
  NoDup (vertexKeys precision (elems arr)).

Lemma compact_first (precision : Q) (positions arr : TypedArray) (n : nat)
    (h : SpatialHash) :
  validArray positions →
  HashInv precision (elems positions) n n h →
  compactArray positions 3 (newToOld h) = Normal arr →
  Canon precision (length (newToOld h)) arr.
Proof.
  intros Hvalid Hinv Hc.
  pose proof (compactArray_keys precision _ _ _ Hvalid Hc) as Hkeys.
  apply compactArray_Normal in Hc as (_ & Hlen & Hv & _).
  split; [done|]. split; [done|].
  apply NoDup_alt. intros a b k Ha Hb.
  destruct (Forall2_lookup_r _ _ _ _ _ Hkeys Ha) as (ia & Hia & Hka).
  destruct (Forall2_lookup_r _ _ _ _ _ Hkeys Hb) as (ib & Hib & Hkb).
  destruct (inv_canonical _ _ _ _ _ Hinv a ia Hia) as (_ & k1 & Hk1 & Hva).
  destruct (inv_canonical _ _ _ _ _ Hinv b ib Hib) as (_ & k2 & Hk2 & Hvb).
  congruence.
Qed.

Lemma compact_again (precision : Q) (arr arr' : TypedArray) (nto : list nat) :
  NoDup nto →
  validArray arr → NoDup (vertexKeys precision (elems arr)) →
  compactArray arr 3 nto = Normal arr' →
  Canon precision (length nto) arr'.
Proof.
  intros Hnto Hvalid Hnd Hc.
  pose proof (compactArray_keys precision _ _ _ Hvalid Hc) as Hkeys.
  apply compactArray_Normal in Hc as (_ & Hlen & Hv & _).
  split; [done|]. split; [done|].
  apply NoDup_alt. intros a b k Ha Hb.
  destruct (Forall2_lookup_r _ _ _ _ _ Hkeys Ha) as (ia & Hia & Hka).
  destruct (Forall2_lookup_r _ _ _ _ _ Hkeys Hb) as (ib & Hib & Hkb).
  assert (ia = ib) as ->.
  { eapply NoDup_lookup; [exact Hnd|done..]. }
  eapply NoDup_lookup; [exact Hnto|done..].
Qed.

(** The loop over the semantics keeps every invariant of the arrays that a
    single compaction keeps; element sizes and null arrays stay. *)
Lemma compact_fold (Φ : nat → TypedArray → Prop) (p : Primitive)
    (nto : list nat) (sems : list string) (accs accs' : gmap nat Accessor) :
  foldM (compactAttribute p nto) sems accs = Normal accs' →
  (∀ r arr arr', Φ r arr →
     compactArray arr (getElementSize accs r) nto = Normal arr' → Φ r arr') →
  (∀ r arr, getArray accs r = Some arr → Φ r arr) →
  (∀ r, getElementSize accs' r = getElementSize accs r) ∧
  (∀ r, getArray accs' r = None ↔ getArray accs r = None) ∧
  (∀ r arr, getArray accs' r = Some arr → Φ r arr).
Proof.
  intros Hfold Hstep Hinit. revert Hfold.
  apply (foldM_invariant (λ cur,
    (∀ r, getElementSize cur r = getElementSize accs r) ∧
    (∀ r, getArray cur r = None ↔ getArray accs r = None) ∧
    (∀ r arr, getArray cur r = Some arr → Φ r arr))); [|done].
  intros cur sem next _ (Hes & Hnone & HΦ). unfold compactAttribute.
  destruct (getAttribute p sem) as [attr|]; [|by intros [= <-]].
  destruct (getArray cur attr) as [old|] eqn:Hold; [|by intros [= <-]].
  destruct (compactArray old _ nto) as [newArr|e] eqn:Hc; simpl; [|done].
  intros [= <-]. split; [|split].
  - intros r. by rewrite getElementSize_setArray.
  - intros r. rewrite getArray_setArray. case_decide as Hr; [subst r|done].
    rewrite <- Hnone, Hold. unfold getArray in Hold.
    destruct (cur !! attr); [|done]. done.
  - intros r arr. rewrite getArray_setArray. case_decide as Hr; [subst r|by auto].
    assert (is_Some (cur !! attr)) as [acc Hacc].
    { unfold getArray in Hold. destruct (cur !! attr); [eauto|done]. }
    rewrite Hacc. simpl. intros [= <-]. rewrite Hes in Hc.
    eapply Hstep; [|exact Hc]. by apply HΦ.
Qed.

Lemma wf_accessors_alt (accs : gmap nat Accessor) :
  wf_accessors accs ↔
  ∀ r arr, getArray accs r = Some arr →
    validArray arr ∧ (getElementSize accs r | length (elems arr)).
Proof.
  unfold wf_accessors, map_Forall, wf_accessor, getArray, getElementSize. split.
  - intros Hwf r arr Hr. destruct (accs !! r) as [acc|] eqn:Hacc; [|done].
    simpl in *. specialize (Hwf r acc Hacc). by rewrite Hr in Hwf.
  - intros Hwf r acc Hacc. destruct (acc_array acc) as [arr|] eqn:Harr; [|done].
    specialize (Hwf r arr). rewrite Hacc in Hwf. simpl in Hwf. by apply Hwf.
Qed.

Lemma distinctPositions_alt (precision : Q) (accs : gmap nat Accessor)
    (q : Primitive) :
  distinctPositions precision accs q ↔
  ∀ P idx positions indices,
    getAttribute q "POSITION" = Some P → prim_indices q = Some idx →
    getArray accs P = Some positions → getArray accs idx = Some indices →
    (3 | length (elems positions)) ∧
    NoDup (vertexKeys precision (elems positions)).
Proof.
  unfold distinctPositions.
  destruct (getAttribute q "POSITION") as [P|]; [|by split].
  destruct (prim_indices q) as [idx|]; [|by split].
  split.
  - intros H P0 idx0 positions indices [= <-] [= <-] HP Hidx.
    by rewrite HP, Hidx in H.
  - intros H. destruct (getArray accs P) as [positions|] eqn:HP; [|done].
    destruct (getArray accs idx) as [indices|] eqn:Hidx; [|done]. eauto.
Qed.

(** The ways [mergePrimitive] returns: nothing to do, or a rewrite. *)
Lemma mergePrimitive_Normal (precision : Q) (accs accs' : gmap nat Accessor)
    (p : Primitive) :
  mergePrimitive precision accs p = Normal accs' →
  (accs' = accs ∧ distinctPositions precision accs p) ∨
  ∃ P idx positions indices n h newIndices accs1,
    getAttribute p "POSITION" = Some P ∧ prim_indices p = Some idx ∧
    getArray accs P = Some positions ∧ getArray accs idx = Some indices ∧
    length (elems positions) = n * 3 ∧
    HashInv precision (elems positions) n n h ∧
    buildHash precision (elems positions) = Normal h ∧
    length (newToOld h) ≠ n ∧
    remapIndices (remap h) (elems indices) = Normal newIndices ∧
    foldM (compactAttribute p (newToOld h)) (listSemantics p) accs
      = Normal accs1 ∧
    accs' = setArray idx newIndices accs1.
Proof.
  unfold mergePrimitive, distinctPositions.
  destruct (getAttribute p "POSITION") as [P|]; [|intros [= <-]; by left].
  destruct (prim_indices p) as [idx|]; [|intros [= <-]; by left].
  destruct (getArray accs P) as [positions|] eqn:HP; [|intros [= <-]; by left].
  destruct (getArray accs idx) as [indices|] eqn:Hidx;
    [|intros [= <-]; by left].
  destruct (buildHash precision (elems positions)) as [h|e] eqn:Hh;
    simpl; [|done].
  destruct (buildHash_Normal _ _ _ Hh) as (n & Hlen & Hinv).
  rewrite Hlen.
  destruct (Qeq_bool _ 0) eqn:Hremoved.
  - apply removed_zero in Hremoved. intros [= <-]. left. split; [done|].
    split; [by exists n|].
    pose proof (inv_full _ _ _ _ _ Hinv Hremoved) as Hnd.
    rewrite take_ge in Hnd; [done|].
    by rewrite (vertexKeys_length _ _ n).
  - assert (length (newToOld h) ≠ n) as Hne.
    { intros Heq. apply removed_zero in Heq. congruence. }
    destruct (remapIndices _ _) as [newIndices|e] eqn:Hri; simpl; [|done].
    destruct (foldM _ _ accs) as [accs1|e] eqn:Hfold; simpl; [|done].
    intros [= <-]. right.
    exists P, idx, positions, indices, n, h, newIndices, accs1. done.
Qed.

(** A primitive whose vertices have pairwise different keys is left
    alone, and so is the whole accessor store. *)
Lemma mergePrimitive_distinct (precision : Q) (accs : gmap nat Accessor)
    (p : Primitive) :
  distinctPositions precision accs p →
  mergePrimitive precision accs p = Normal accs.
Proof.
  unfold mergePrimitive, distinctPositions.
  destruct (getAttribute p "POSITION") as [P|]; [|done].
  destruct (prim_indices p) as [idx|]; [|done].
  destruct (getArray accs P) as [positions|]; [|done].
  destruct (getArray accs idx) as [indices|]; [|done].
  intros [[n Hlen] Hnd].
  destruct (buildHash_whole precision _ n Hlen) as (h & -> & Hinv). simpl.
  rewrite Hlen.
  assert (length (newToOld h) = n) as Hn.
  { rewrite (inv_nodup _ _ _ _ _ Hinv); [by rewrite length_seq|].
    by rewrite take_ge by (by rewrite (vertexKeys_length _ _ n)). }
  apply removed_zero in Hn. by rewrite Hn.
Qed.

Lemma remapIndices_Normal (remap indices : list Q) (newIndices : TypedArray) :
  remapIndices remap indices = Normal newIndices →
  ctor newIndices = Uint32Array ∧
  validArray newIndices ∧
  Forall2 (λ v r, ∃ i x, toIndex v = Some i ∧ remap !! i = Some x ∧
                         r = toElement Uint32Array x)
          indices (elems newIndices).
Proof.
  unfold remapIndices.
  destruct (traverse _ indices) as [vs|e] eqn:Hvs; simpl; [|done].
  intros [= <-]. simpl. apply traverse_Normal in Hvs.
  assert (H : Forall2 (λ v r, ∃ i x, toIndex v = Some i ∧ remap !! i = Some x ∧
                         r = toElement Uint32Array x) indices vs).
  { eapply Forall2_impl; [exact Hvs|]. intros v r. unfold at_num, at_.
    destruct (toIndex v) as [i|] eqn:Hi; [|done].
    destruct (remap !! i) as [x|] eqn:Hx; [|done].
    cbn -[toElement]. intros [= <-]. eauto. }
  split; [done|]. split; [|done].
  unfold validArray. simpl.
  apply Forall2_Forall_r with (Q := λ r, toElement Uint32Array r = r) in H;
    [done|].
  apply Forall_true. intros v r (i & x & _ & _ & ->). apply toElement_idem.
Qed.

Lemma getAttribute_listSemantics (p : Primitive) (semantic : string) (r : nat) :
  getAttribute p semantic = Some r → semantic ∈ listSemantics p.
Proof.
  unfold getAttribute, listSemantics.
  destruct (find _ _) as [[s r']|] eqn:Hfind; [|done].
  intros _. apply find_some in Hfind as [Hin Hs].
  apply bool_decide_eq_true in Hs. simpl in Hs. subst s.
  apply list_elem_of_fmap. exists (semantic, r'). split; [done|].
  by apply list_elem_of_In.
Qed.

Lemma foldM_middle {S A : Type} (f : S → A → Completion S)
    (l1 l2 : list A) (a : A) (s s' : S) :
  foldM f (l1 ++ a :: l2) s = Normal s' →
  ∃ s1 s2, foldM f l1 s = Normal s1 ∧ f s1 a = Normal s2 ∧
           foldM f l2 s2 = Normal s'.
Proof.
  rewrite foldM_app. destruct (foldM f l1 s) as [s1|e]; simpl; [|done].
  destruct (f s1 a) as [s2|e] eqn:Hf; simpl; [|done].
  intros H. by exists s1, s2.
Qed.

Section Rewrite.
Variable precision : Q.
Variables (accs accs1 accs' : gmap nat Accessor) (p : Primitive).
Variables (P idx n : nat) (positions indices newIndices : TypedArray).
Variable h : SpatialHash.
Hypothesis HP : getAttribute p "POSITION" = Some P.
Hypothesis Hpos : getArray accs P = Some positions.
Hypothesis Hidx : getArray accs idx = Some indices.
Hypothesis Hinv : HashInv precision (elems positions) n n h.
Hypothesis Hri : remapIndices (remap h) (elems indices) = Normal newIndices.
Hypothesis Hfold :
  foldM (compactAttribute p (newToOld h)) (listSemantics p) accs = Normal accs1.
Hypothesis Hset : accs' = setArray idx newIndices accs1.

Lemma rewrite_elementSize (r : nat) :
  getElementSize accs' r = getElementSize accs r.
Proof using Hfold Hset.
  destruct (compact_fold (λ _ _, True) _ _ _ _ _ Hfold ltac:(done) ltac:(done))
    as (Hes & _ & _).
  by rewrite Hset, getElementSize_setArray.
Qed.

Lemma rewrite_null (r : nat) : getArray accs' r = None ↔ getArray accs r = None.
Proof using Hfold Hset Hidx.
  destruct (compact_fold (λ _ _, True) _ _ _ _ _ Hfold ltac:(done) ltac:(done))
    as (_ & Hnone & _).
  rewrite Hset, getArray_setArray. case_decide as Hr; [subst r|done].
  rewrite Hidx. split; [|done].
  assert (getArray accs1 idx ≠ None) as Hne by (rewrite Hnone; congruence).
  unfold getArray in Hne. by destruct (accs1 !! idx).
Qed.

Lemma rewrite_indices : getArray accs' idx = Some newIndices.
Proof using Hfold Hset Hidx.
  destruct (compact_fold (λ _ _, True) _ _ _ _ _ Hfold ltac:(done) ltac:(done))
    as (_ & Hnone & _).
  assert (getArray accs1 idx ≠ None) as Hne by (rewrite Hnone; congruence).
  destruct (getArray accs1 idx) as [a0|] eqn:Ha0; [|done].
  rewrite Hset. by eapply getArray_setArray_eq.
Qed.

Lemma rewrite_wf : wf_accessors accs → wf_accessors accs'.
Proof using Hfold Hset Hidx Hri.
  rewrite !wf_accessors_alt. intros Hwf.
  destruct (compact_fold
    (λ r arr, validArray arr ∧ (getElementSize accs r | length (elems arr)))
    _ _ _ _ _ Hfold) as (Hes & Hnone & HΦ); [|done|].
  { intros r arr arr' _ (_ & Hlen & Hv & _)%compactArray_Normal.
    split; [done|]. rewrite Hlen. by exists (length (newToOld h)). }
  intros r arr. rewrite rewrite_elementSize.
  rewrite Hset, getArray_setArray. case_decide as Hr; [subst r|by apply HΦ].
  pose proof rewrite_indices as Hni. rewrite Hset, getArray_setArray in Hni.
  rewrite decide_True in Hni by done. rewrite Hni. intros [= <-].
  apply remapIndices_Normal in Hri as (_ & Hv & Hall).
  split; [done|]. rewrite <- (Forall2_length _ _ _ Hall).
  by apply (Hwf idx indices).
Qed.

(** An array of whole vertices with different keys stays one, unless it is
    the index buffer of the primitive. *)
Lemma rewrite_keeps (r : nat) (arr : TypedArray) :
  wf_accessors accs → getElementSize accs r = 3 → idx ≠ r →
  getArray accs r = Some arr →
  (3 | length (elems arr)) → NoDup (vertexKeys precision (elems arr)) →
  ∃ arr', getArray accs' r = Some arr' ∧
          (3 | length (elems arr')) ∧
          NoDup (vertexKeys precision (elems arr')).
Proof using Hfold Hset Hidx Hinv.
  rewrite wf_accessors_alt. intros Hwf Hes Hne Harr Hlen Hnd.
  destruct (compact_fold
    (λ r' a, r' = r → validArray a ∧ (3 | length (elems a)) ∧
                       NoDup (vertexKeys precision (elems a)))
    _ _ _ _ _ Hfold) as (_ & _ & HΦ).
  { intros r' a a' Ha Hc ->. destruct (Ha eq_refl) as (Hv & _ & Hnd').
    rewrite Hes in Hc.
    destruct (compact_again precision a a' (newToOld h)) as (? & Hl & ?);
      [by eapply HashInv_newToOld_NoDup|done..|].
    split; [done|]. split; [|done]. rewrite Hl. by eexists. }
  { intros r' a Ha ->. assert (a = arr) as -> by congruence.
    split; [by apply (Hwf r)|done]. }
  destruct (getArray accs' r) as [arr'|] eqn:Harr'.
  - exists arr'. split; [done|].
    rewrite Hset, getArray_setArray_ne in Harr' by done.
    by apply (HΦ r arr' Harr').
  - apply rewrite_null in Harr'. congruence.
Qed.

(** The position array of the primitive itself ends up canonical. *)
Lemma rewrite_positions :
  validArray positions → getElementSize accs P = 3 → idx ≠ P →
  ∃ arr, getArray accs' P = Some arr ∧
         Canon precision (length (newToOld h)) arr.
Proof using Hfold Hset HP Hpos Hinv.
  intros Hvalid Hes Hne.
  pose proof (HashInv_newToOld_NoDup _ _ _ _ _ Hinv) as Hnto.
  destruct (list_elem_of_split _ _ (getAttribute_listSemantics _ _ _ HP))
    as (pre & post & Hsplit).
  rewrite Hsplit in Hfold.
  apply foldM_middle in Hfold as (accsA & accsB & Hpre & Hstep & Hpost).
  (* before the POSITION turn *)
  destruct (compact_fold
    (λ r a, r = P → a = positions ∨ Canon precision (length (newToOld h)) a)
    _ _ _ _ _ Hpre) as (HesA & HnoneA & HΦA).
  { intros r a a' Ha Hc ->. right. rewrite Hes in Hc.
    destruct (Ha eq_refl) as [->|(Hv & _ & Hnd)].
    - by eapply compact_first.
    - by eapply compact_again. }
  { intros r a Ha ->. left. congruence. }
  (* the POSITION turn *)
  unfold compactAttribute in Hstep. rewrite HP in Hstep.
  destruct (getArray accsA P) as [arrA|] eqn:HarrA.
  2:{ apply HnoneA in HarrA. congruence. }
  rewrite HesA, Hes in Hstep.
  destruct (compactArray arrA 3 (newToOld h)) as [arrB|e] eqn:Hc;
    simpl in Hstep; [|done].
  injection Hstep as <-.
  assert (Canon precision (length (newToOld h)) arrB) as HarrB.
  { destruct (HΦA P arrA HarrA eq_refl) as [->|(Hv & _ & Hnd)].
    - by eapply compact_first.
    - by eapply compact_again. }
  (* after the POSITION turn *)
  destruct (compact_fold
    (λ r a, r = P → Canon precision (length (newToOld h)) a)
    _ _ _ _ _ Hpost) as (_ & HnoneB & HΦB).
  { intros r a a' Ha Hc' ->. destruct (Ha eq_refl) as (Hv & _ & Hnd).
    rewrite getElementSize_setArray, HesA, Hes in Hc'.
    by eapply compact_again. }
  { intros r a Ha ->.
    rewrite (getArray_setArray_eq _ _ _ _ HarrA) in Ha. congruence. }
  destruct (getArray accs1 P) as [arrF|] eqn:HarrF.
  2:{ apply HnoneB in HarrF.
      rewrite (getArray_setArray_eq _ _ _ _ HarrA) in HarrF. done. }
  exists arrF. split; [|by apply (HΦB P)].
  by rewrite Hset, getArray_setArray_ne.
Qed.

End Rewrite.

End MergePrimitive.

(** ** mergeByDistance: the whole document *)

Module MergeDocument.
Import MergeByDistance MergeHash MergeCompact MergePrimitive.

Lemma wf_positions_alt (accs : gmap nat Accessor) (prims : list Primitive) :
  wf_positions accs prims ↔
  ∀ p q P, p ∈ prims → q ∈ prims → getAttribute p "POSITION" = Some P →
    getElementSize accs P = 3 ∧ prim_indices q ≠ Some P.
Proof.
  unfold wf_positions. rewrite Forall_forall. split.
  - intros H p q P Hp Hq HP. specialize (H p Hp). rewrite HP in H.
    destruct H as [Hes Hall]. rewrite Forall_forall in Hall. auto.
  - intros H p Hp. destruct (getAttribute p "POSITION") as [P|] eqn:HP; [|done].
    split.
    + by destruct (H p p P Hp Hp HP).
    + apply Forall_forall. intros q Hq. by destruct (H p q P Hp Hq HP).
Qed.

(** One step keeps the store well formed and leaves element sizes and
    null arrays as they are. *)
Lemma mergePrimitive_wf (precision : Q) (accs accs' : gmap nat Accessor)
    (p : Primitive) :
  wf_accessors accs →
  mergePrimitive precision accs p = Normal accs' →
  wf_accessors accs' ∧
  (∀ r, getElementSize accs' r = getElementSize accs r) ∧
  (∀ r, getArray accs' r = None ↔ getArray accs r = None).
Proof.
  intros Hwf [[-> _]|Hrw]%mergePrimitive_Normal; [done|].
  destruct Hrw as (P & idx & positions & indices & n & h & newIndices & accs1 &
    HP & Hidx & Hpos & Hind & Hlen & Hinv & Hbuild & Hne & Hri & Hfold & Hset).
  split; [by eapply rewrite_wf|]. split.
  - intros r. by eapply rewrite_elementSize.
  - intros r. by eapply rewrite_null.
Qed.

(** After its own step a primitive has no two vertices with one key. *)
Lemma mergePrimitive_establishes (precision : Q) (accs accs' : gmap nat Accessor)
    (p : Primitive) :
  wf_accessors accs → wf_positions accs [p] →
  mergePrimitive precision accs p = Normal accs' →
  distinctPositions precision accs' p.
Proof.
  intros Hwf Hwp [[-> ?]|Hrw]%mergePrimitive_Normal; [done|].
  destruct Hrw as (P & idx & positions & indices & n & h & newIndices & accs1 &
    HP & Hidx & Hpos & Hind & Hlen & Hinv & Hbuild & Hne & Hri & Hfold & Hset).
  rewrite wf_positions_alt in Hwp.
  destruct (Hwp p p P) as [Hes HneP]; [by apply list_elem_of_singleton..|done|].
  assert (idx ≠ P) as HidxP by congruence.
  destruct (rewrite_positions precision accs accs1 accs' p P idx n positions
    newIndices h HP Hpos Hinv Hfold Hset) as (arr & Harr & Hv & Harrlen & Hnd);
    try done.
  { rewrite wf_accessors_alt in Hwf. by apply (Hwf P). }
  apply distinctPositions_alt. intros P' idx' positions' indices' HP' Hidx' Hp' _.
  assert (P' = P) as -> by congruence.
  assert (positions' = arr) as -> by congruence.
  split; [|done]. rewrite Harrlen. by eexists.
Qed.

(** A step of one primitive does not bring duplicates to another. *)
Lemma mergePrimitive_preserves (precision : Q) (accs accs' : gmap nat Accessor)
    (p q : Primitive) :
  wf_accessors accs → wf_positions accs [q; p] →
  distinctPositions precision accs q →
  mergePrimitive precision accs p = Normal accs' →
  distinctPositions precision accs' q.
Proof.
  intros Hwf Hwp Hq [[-> ?]|Hrw]%mergePrimitive_Normal; [done|].
  destruct Hrw as (P & idx & positions & indices & n & h & newIndices & accs1 &
    HP & Hidx & Hpos & Hind & Hlen & Hinv & Hbuild & Hne & Hri & Hfold & Hset).
  rewrite wf_positions_alt in Hwp.
  rewrite distinctPositions_alt in Hq. apply distinctPositions_alt.
  intros Pq idxq positions' indices' HPq Hidxq Hp' Hi'.
  destruct (Hwp q p Pq) as [Hes HneP]; [by left|by right; left|done|].
  assert (idx ≠ Pq) as HidxP by congruence.
  pose proof (rewrite_null accs accs1 accs' p idx indices newIndices h
    Hind Hfold Hset) as Hnull.
  destruct (getArray accs Pq) as [arrq|] eqn:Harrq.
  2:{ apply Hnull in Harrq. congruence. }
  destruct (getArray accs idxq) as [iq|] eqn:Hiq.
  2:{ apply Hnull in Hiq. congruence. }
  destruct (Hq Pq idxq arrq iq) as [Hdiv Hnd]; try done.
  destruct (rewrite_keeps precision accs accs1 accs' p idx n positions indices
    newIndices h Hind Hinv Hfold Hset Pq arrq) as (arr' & Harr' & ? & ?);
    try done.
  assert (positions' = arr') as -> by congruence. done.
Qed.

Lemma wf_positions_sizes (accs accs' : gmap nat Accessor) (prims : list Primitive) :
  (∀ r, getElementSize accs' r = getElementSize accs r) →
  wf_positions accs prims → wf_positions accs' prims.
Proof.
  intros Hes. rewrite !wf_positions_alt. intros H p q P Hp Hq HP.
  rewrite Hes. by apply (H p q).
Qed.

Lemma wf_positions_sub (accs : gmap nat Accessor) (prims sub : list Primitive) :
  sub ⊆ prims → wf_positions accs prims → wf_positions accs sub.
Proof.
  rewrite !wf_positions_alt. intros Hsub H p q P Hp Hq. apply H; auto.
Qed.

(** After the loop over [todo] every primitive of it, and every one that
    had no duplicates before, has none. *)
Lemma merge_loop (precision : Q) (prims todo : list Primitive)
    (accs accs' : gmap nat Accessor) :
  todo ⊆ prims →
  wf_accessors accs → wf_positions accs prims →
  foldM (mergePrimitive precision) todo accs = Normal accs' →
  wf_accessors accs' ∧ wf_positions accs' prims ∧
  ∀ q, q ∈ prims →
    q ∈ todo ∨ distinctPositions precision accs q →
    distinctPositions precision accs' q.
Proof.
  revert accs. induction todo as [|p todo IH]; intros accs Hsub Hwf Hwp; simpl.
  - intros [= <-]. split; [done|]. split; [done|].
    intros q _ [Hq|Hq]; [by apply elem_of_nil in Hq|done].
  - destruct (mergePrimitive precision accs p) as [accs1|e] eqn:Hstep;
      simpl; [|done].
    intros Hrest.
    destruct (mergePrimitive_wf _ _ _ _ Hwf Hstep) as (Hwf1 & Hes1 & _).
    pose proof (wf_positions_sizes _ _ _ Hes1 Hwp) as Hwp1.
    assert (p ∈ prims) as Hp by (apply Hsub; by left).
    destruct (IH accs1) as (Hwf' & Hwp' & Hall); [|done..|].
    { intros x Hx. apply Hsub. by right. }
    split; [done|]. split; [done|].
    intros q Hq Hcase. apply Hall; [done|].
    destruct Hcase as [[->|Hin]%elem_of_cons|Hd].
    + right. apply (mergePrimitive_establishes precision accs accs1 p Hwf);
        [|done].
      eapply wf_positions_sub; [|done].
      by intros ? ->%list_elem_of_singleton.
    + by left.
    + right. apply (mergePrimitive_preserves precision accs accs1 p q Hwf);
        [|done..].
      eapply wf_positions_sub; [|done].
      intros x [->|[->|[]%elem_of_nil]%elem_of_cons]%elem_of_cons; done.
Qed.


End MergeDocument.

(** ** removeDegenerateFaces: the loop over the triangles *)

Module FacesProps.
Import RemoveDegenerateFaces MergeHash MergeCompact MergePrimitive.

Lemma flatten_app (a b : list (Q * Q * Q)) :
  flatten (a ++ b) = flatten a ++ flatten b.
Proof. unfold flatten. by rewrite fmap_app, concat_app. Qed.

Lemma flatten_length (a : list (Q * Q * Q)) : length (flatten a) = length a * 3.
Proof.
  unfold flatten. rewrite (concat_rows_length _ 3), length_fmap; [done|].
  apply Forall_fmap, Forall_true. done.
Qed.

Lemma chunks3_flatten (a : list (Q * Q * Q)) : chunks3 (flatten a) = a.
Proof.
  induction a as [|[[x y] z] a IH]; [done|].
  change (flatten (((x, y), z) :: a)) with (x :: y :: z :: flatten a).
  simpl. by rewrite IH.
Qed.

Lemma flatten_chunks3 (l : list Q) (n : nat) :
  length l = n * 3 → flatten (chunks3 l) = l.
Proof.
  revert l; induction n as [|n IH]; intros l Hl.
  - by destruct l.
  - destruct l as [|x [|y [|z rest]]]; simpl in Hl; try lia.
    change (flatten (chunks3 (x :: y :: z :: rest)))
      with (x :: y :: z :: flatten (chunks3 rest)).
    rewrite IH; [done|lia].
Qed.

Lemma flatten_sublist (a b : list (Q * Q * Q)) :
  a `sublist_of` b → flatten a `sublist_of` flatten b.
Proof.
  induction 1 as [|t a b _ IH|t a b _ IH].
  - done.
  - change (flatten (t :: a)) with ([t.1.1; t.1.2; t.2] ++ flatten a).
    change (flatten (t :: b)) with ([t.1.1; t.1.2; t.2] ++ flatten b).
    by apply sublist_app.
  - change (flatten (t :: b)) with ([t.1.1; t.1.2; t.2] ++ flatten b).
    by apply sublist_inserts_l.
Qed.

Lemma chunks3_components (l : list Q) (t : Q * Q * Q) :
  t ∈ chunks3 l → t.1.1 ∈ l ∧ t.1.2 ∈ l ∧ t.2 ∈ l.
Proof.
  intros (k & Hk)%list_elem_of_lookup. rewrite chunks3_lookup in Hk.
  destruct (l !! (k * 3)) as [x|] eqn:Hx; simpl in Hk; [|done].
  destruct (l !! (k * 3 + 1)) as [y|] eqn:Hy; simpl in Hk; [|done].
  destruct (l !! (k * 3 + 2)) as [z|] eqn:Hz; simpl in Hk; [|done].
  injection Hk as <-. simpl.
  split; [|split]; by eapply list_elem_of_lookup_2.
Qed.

Lemma Qeq_bool_false (a b : Q) : Qeq_bool a b = false ↔ ¬ (a == b)%Q.
Proof.
  split; [apply Qeq_bool_neq|]. intros Hne.
  destruct (Qeq_bool a b) eqn:H; [|done]. by apply Qeq_bool_iff in H.
Qed.

(** A turn of the loop reads a whole triple; it drops it, or it has found
    it sound and appends it. *)
Lemma triangleStep_Normal (minArea : Q) (positions indices valid valid' : list Q)
    (k : nat) :
  triangleStep minArea positions indices valid (k * 3) = Normal valid' →
  ∃ t, chunks3 indices !! k = Some t ∧
       (valid' = valid ∨
        (sound minArea positions t ∧ valid' = valid ++ [t.1.1; t.1.2; t.2])).
Proof.
  unfold triangleStep, at_. rewrite chunks3_lookup.
  destruct (indices !! (k * 3)) as [i0|]; simpl; [|done].
  destruct (indices !! (k * 3 + 1)) as [i1|]; simpl; [|done].
  destruct (indices !! (k * 3 + 2)) as [i2|]; simpl; [|done].
  intros H. exists (i0, i1, i2). split; [done|].
  destruct (Qeq_bool i0 i1) eqn:H01; simpl in H; [left; congruence|].
  destruct (Qeq_bool i1 i2) eqn:H12; simpl in H; [left; congruence|].
  destruct (Qeq_bool i0 i2) eqn:H02; simpl in H; [left; congruence|].
  apply Qeq_bool_false in H01, H12, H02.
  unfold sound, triangleCross.
  destruct (at_num positions (i0 * 3)) as [v0x|]; simpl in *; [|done].
  destruct (at_num positions (i0 * 3 + 1)) as [v0y|]; simpl in *; [|done].
  destruct (at_num positions (i0 * 3 + 2)) as [v0z|]; simpl in *; [|done].
  destruct (at_num positions (i1 * 3)) as [v1x|]; simpl in *; [|done].
  destruct (at_num positions (i1 * 3 + 1)) as [v1y|]; simpl in *; [|done].
  destruct (at_num positions (i1 * 3 + 2)) as [v1z|]; simpl in *; [|done].
  destruct (at_num positions (i2 * 3)) as [v2x|]; simpl in *; [|done].
  destruct (at_num positions (i2 * 3 + 1)) as [v2y|]; simpl in *; [|done].
  destruct (at_num positions (i2 * 3 + 2)) as [v2z|]; simpl in *; [|done].
  destruct (halfSqrtBelow _ minArea) eqn:Harea; [left; congruence|].
  right. injection H as <-. split; [|done].
  split; [done|]. split; [done|]. split; [done|]. eauto.
Qed.

Section Loop.
Variable minArea : Q.
Variables positions indices : list Q.

Local Abbreviation run k :=
  (foldM (triangleStep minArea positions indices)
         ((λ j, j * 3) <$> seq 0 k) []).

Lemma faceRun_S (k : nat) :
  run (S k) = (valid ← run k;
               triangleStep minArea positions indices valid (k * 3)).
Proof.
  rewrite seq_S, fmap_app, foldM_app. simpl.
  destruct (run k) as [valid|e]; simpl; [|done].
  by destruct (triangleStep _ _ _ _ _).
Qed.

Lemma faceRun_Normal (k : nat) (valid : list Q) :
  run k = Normal valid →
  k ≤ length (chunks3 indices) ∧
  ∃ kept, valid = flatten kept ∧
          Forall (sound minArea positions) kept ∧
          kept `sublist_of` take k (chunks3 indices) ∧
          length kept ≤ k ∧
          (length kept = k → kept = take k (chunks3 indices)).
Proof.
  revert valid; induction k as [|k IH]; intros valid.
  - simpl. intros [= <-]. split; [lia|]. exists []. by rewrite take_0.
  - rewrite faceRun_S. destruct (run k) as [valid0|e]; simpl; [|done].
    destruct (IH valid0 eq_refl) as (Hk & kept & -> & Hsound & Hsub & Hlen & Hfull).
    intros (t & Ht & Hcase)%triangleStep_Normal.
    split; [apply lookup_lt_Some in Ht; lia|].
    rewrite (take_S_r _ _ _ Ht).
    destruct Hcase as [->|[Hs ->]].
    + exists kept. split; [done|]. split; [done|].
      split; [by apply sublist_inserts_r|]. split; lia.
    + exists (kept ++ [t]). split; [by rewrite flatten_app|].
      split; [apply Forall_app; by split; [|constructor]|].
      split; [by apply sublist_app|].
      rewrite length_app. simpl. split; [lia|].
      intros Hl. rewrite Hfull; [done|lia].
Qed.

(** The whole loop over the index array. *)
Lemma faceLoop_Normal (valid : list Q) :
  foldM (triangleStep minArea positions indices)
        (everyThird (length indices)) [] = Normal valid →
  ∃ kept n, valid = flatten kept ∧ length indices = n * 3 ∧
            Forall (sound minArea positions) kept ∧
            kept `sublist_of` chunks3 indices ∧
            (¬ length valid < length indices → kept = chunks3 indices).
Proof.
  unfold everyThird. intros Hrun.
  destruct (faceRun_Normal _ _ Hrun) as (Hle & kept & -> & Hsound & Hsub & Hlen & Hfull).
  pose proof (chunks3_bound indices) as Hb.
  pose proof (Nat.div_mod (length indices + 2) 3 ltac:(lia)) as Hdm.
  pose proof (Nat.mod_upper_bound (length indices + 2) 3 ltac:(lia)) as Hm.
  set (m := (length indices + 2) / 3) in *.
  assert (Hn : length indices = m * 3) by lia.
  assert (Hall : take m (chunks3 indices) = chunks3 indices).
  { apply take_ge. by rewrite (chunks3_length _ m). }
  rewrite Hall in *.
  exists kept, m. split; [done|]. split; [done|]. split; [done|].
  split; [done|]. rewrite flatten_length. intros Hnl. apply Hfull. lia.
Qed.

End Loop.

(** Widening to [Uint32Array] keeps the value of a storable integer that
    is not negative. *)
Lemma toElement_widen (c : ArrayCtor) (v : Q) :
  c ≠ Float32Array → toElement c v = v → (0 <= v)%Q →
  toElement Uint32Array v = v.
Proof.
  intros Hc Hv Hpos.
  assert (∃ z, v = inject_Z z ∧ (z < 2 ^ 32)%Z) as (z & -> & Hz).
  { destruct c; [done|..]; simpl in Hv; rewrite <- Hv; eexists;
      (split; [done|]); unfold wrapU, wrapS.
    - apply Z.mod_pos_bound. lia.
    - pose proof (Z.mod_pos_bound (Qtrunc v) (2 ^ 16) ltac:(lia)). lia.
    - pose proof (Z.mod_pos_bound (Qtrunc v) (2 ^ 8) ltac:(lia)). lia.
    - pose proof (Z.mod_pos_bound (Qtrunc v) (2 ^ 16) ltac:(lia)).
      destruct (Z.ltb_spec (Qtrunc v mod 2 ^ 16) (2 ^ (16 - 1))); lia.
    - pose proof (Z.mod_pos_bound (Qtrunc v) (2 ^ 8) ltac:(lia)).
      destruct (Z.ltb_spec (Qtrunc v mod 2 ^ 8) (2 ^ (8 - 1))); lia. }
  simpl. rewrite Qtrunc_inject_Z. unfold wrapU. f_equal.
  apply Z.mod_small. split; [|done].
  unfold Qle in Hpos. simpl in Hpos. lia.
Qed.

Lemma at_num_nonneg (arr : list Q) (i x : Q) :
  at_num arr (i * 3) = Normal x → (0 <= i)%Q.
Proof.
  unfold at_num, toIndex.
  destruct (Z.leb_spec 0 (Qnum (i * 3))) as [Hle|]; simpl; [|done].
  intros _. unfold Qle. simpl in *. lia.
Qed.

Lemma sound_nonneg (minArea : Q) (positions : list Q) (t : Q * Q * Q) :
  sound minArea positions t → (0 <= t.1.1)%Q ∧ (0 <= t.1.2)%Q ∧ (0 <= t.2)%Q.
Proof.
  destruct t as [[i0 i1] i2]. intros (_ & _ & _ & s & Hs & _). simpl.
  unfold triangleCross in Hs.
  destruct (at_num positions (i0 * 3)) as [v0x|] eqn:H0; simpl in Hs; [|done].
  destruct (at_num positions (i0 * 3 + 1)); simpl in Hs; [|done].
  destruct (at_num positions (i0 * 3 + 2)); simpl in Hs; [|done].
  destruct (at_num positions (i1 * 3)) as [v1x|] eqn:H1; simpl in Hs; [|done].
  destruct (at_num positions (i1 * 3 + 1)); simpl in Hs; [|done].
  destruct (at_num positions (i1 * 3 + 2)); simpl in Hs; [|done].
  destruct (at_num positions (i2 * 3)) as [v2x|] eqn:H2; simpl in Hs; [|done].
  split; [|split]; by eapply at_num_nonneg.
Qed.



End FacesProps.

(** ** removeDegenerateFaces: primitives and the document *)

Module FacesDocument.
Import RemoveDegenerateFaces MergeHash MergeCompact MergePrimitive FacesProps.


(** The three ways [removeDegeneratePrimitive] returns. *)
Lemma removeDegeneratePrimitive_Normal (minArea : Q)
    (accs accs' : gmap nat Accessor) (p : Primitive) :
  removeDegeneratePrimitive minArea accs p = Normal accs' →
  (accs' = accs ∧
   (prim_mode p ≠ 4 ∨ getAttribute p "POSITION" = None ∨
    prim_indices p = None ∨
    (getAttribute p "POSITION" ≫= getArray accs) = None ∨
    (prim_indices p ≫= getArray accs) = None)) ∨
  ∃ P idx positions indices kept n,
    prim_mode p = 4 ∧
    getAttribute p "POSITION" = Some P ∧ prim_indices p = Some idx ∧
    getArray accs P = Some positions ∧ getArray accs idx = Some indices ∧
    length (elems indices) = n * 3 ∧
    Forall (sound minArea (elems positions)) kept ∧
    kept `sublist_of` chunks3 (elems indices) ∧
    ((accs' = accs ∧ kept = chunks3 (elems indices)) ∨
     (length (flatten kept) < length (elems indices) ∧
      accs' = setArray idx (arrayFrom Uint32Array (flatten kept)) accs)).
Proof.
  unfold removeDegeneratePrimitive.
  case_bool_decide as Hmode; [intros [= <-]; left; by auto|].
  assert (prim_mode p = 4) as Hmode4.
  { destruct (decide (prim_mode p = 4)); [done|]. by destruct Hmode. }
  destruct (getAttribute p "POSITION") as [P|];
    [|intros [= <-]; left; by auto].
  destruct (prim_indices p) as [idx|];
    [|intros [= <-]; left; by auto].
  cbn [mbind option_bind].
  destruct (getArray accs P) as [positions|] eqn:HP;
    [|intros [= <-]; left; by auto 6].
  destruct (getArray accs idx) as [indices|] eqn:Hidx;
    [|intros [= <-]; left; by auto 6].
  destruct (foldM _ _ []) as [valid|e] eqn:Hloop; simpl; [|done].
  destruct (faceLoop_Normal _ _ _ _ Hloop)
    as (kept & n & -> & Hlen & Hsound & Hsub & Hfull).
  intros H. right. exists P, idx, positions, indices, kept, n.
  do 8 (split; [done|]).
  destruct (Nat.ltb_spec (length (flatten kept)) (length (elems indices)))
    as [Hlt|Hge].
  - right. split; [done|]. congruence.
  - left. split; [congruence|]. apply Hfull. lia.
Qed.

(** Only the index accessor of the primitive is ever written. *)
Lemma removeDegeneratePrimitive_frame (minArea : Q)
    (accs accs' : gmap nat Accessor) (p : Primitive) (r : nat) :
  removeDegeneratePrimitive minArea accs p = Normal accs' →
  prim_indices p ≠ Some r → accs' !! r = accs !! r.
Proof.
  intros [[-> _]|Hrw]%removeDegeneratePrimitive_Normal Hr; [done|].
  destruct Hrw as (P & idx & positions & indices & kept & n & _ & _ & Hidx &
    _ & _ & _ & _ & _ & [[-> _]|[_ ->]]); [done|].
  unfold setArray. apply lookup_alter_ne. congruence.
Qed.

(** The values that the rewritten index buffer holds are the kept ones:
    the conversion to [Uint32Array] changes none of them. *)
Lemma kept_widen (minArea : Q) (positions : list Q) (indices : TypedArray)
    (kept : list (Q * Q * Q)) :
  validArray indices → ctor indices ≠ Float32Array →
  Forall (sound minArea positions) kept →
  kept `sublist_of` chunks3 (elems indices) →
  arrayFrom Uint32Array (flatten kept) = mkTypedArray Uint32Array (flatten kept).
Proof.
  intros Hvalid Hc Hsound Hsub. unfold arrayFrom. f_equal.
  rewrite <- (list_fmap_id (flatten kept)) at 2.
  apply Forall_fmap_ext_1.
  assert (Forall (λ t, t ∈ chunks3 (elems indices)) kept) as Hin.
  { apply Forall_forall. intros t Ht. by eapply elem_of_sublist. }
  unfold validArray in Hvalid. rewrite Forall_forall in Hvalid.
  clear Hsub. induction Hsound as [|t kept Ht _ IH]; [constructor|].
  apply Forall_cons in Hin as [Hin Hrest].
  destruct (sound_nonneg _ _ _ Ht) as (H0 & H1 & H2).
  destruct (chunks3_components _ _ Hin) as (E0 & E1 & E2).
  change (flatten (t :: kept)) with (t.1.1 :: t.1.2 :: t.2 :: flatten kept).
  repeat (constructor; [by apply (toElement_widen (ctor indices)); auto|]).
  by apply IH.
Qed.

Section Target.
Variable minArea : Q.
Variables (P idx : nat) (positions : TypedArray).

(** The index buffer holds storable integers. *)
Definition IntAt (accs : gmap nat Accessor) : Prop :=
  ∃ arr, getArray accs idx = Some arr ∧
         ctor arr ≠ Float32Array ∧ validArray arr.

(** The index buffer holds whole triangles, all of them sound. *)
Definition SoundAt (accs : gmap nat Accessor) : Prop :=
  ∃ arr, getArray accs idx = Some arr ∧
         (3 | length (elems arr)) ∧
         Forall (sound minArea (elems positions)) (chunks3 (elems arr)).

Lemma step_target (accs accs1 : gmap nat Accessor) (q : Primitive) :
  prim_indices q ≠ Some P →
  getArray accs P = Some positions →
  IntAt accs →
  removeDegeneratePrimitive minArea accs q = Normal accs1 →
  getArray accs1 P = Some positions ∧
  IntAt accs1 ∧
  (SoundAt accs → SoundAt accs1) ∧
  (prim_mode q = 4 → getAttribute q "POSITION" = Some P →
   prim_indices q = Some idx → SoundAt accs1).
Proof.
  intros HqP HP (arr & Harr & Hc & Hvalid) Hstep.
  assert (getArray accs1 P = Some positions) as HP1.
  { unfold getArray in *.
    by rewrite (removeDegeneratePrimitive_frame _ _ _ _ _ Hstep HqP). }
  split; [done|].
  apply removeDegeneratePrimitive_Normal in Hstep as [[-> Hskip]|Hrw].
  { split; [by exists arr|]. split; [done|].
    intros Hm HPq Hidxq. rewrite HPq, Hidxq in Hskip. simpl in Hskip.
    rewrite HP, Harr in Hskip. by destruct Hskip as [?|[?|[?|[?|?]]]]. }
  destruct Hrw as (Pq & idxq & positionsq & indicesq & kept & n & Hm & HPq &
    Hidxq & Hposq & Hindq & Hlen & Hsound & Hsub & Hcase).
  destruct Hcase as [[-> ->]|[Hlt ->]].
  - (* every triangle of q is sound: nothing is written *)
    split; [by exists arr|]. split; [done|].
    intros _ HPq' Hidxq'.
    assert (Pq = P) as -> by congruence. assert (idxq = idx) as -> by congruence.
    assert (positionsq = positions) as -> by congruence.
    exists indicesq. split; [done|]. split; [by exists n|done].
  - (* the index buffer of q is rewritten *)
    destruct (decide (idxq = idx)) as [->|Hne].
    + assert (indicesq = arr) as -> by congruence.
      assert (getArray (setArray idx (arrayFrom Uint32Array (flatten kept)) accs)
                idx = Some (arrayFrom Uint32Array (flatten kept))) as Hnew.
      { by eapply getArray_setArray_eq. }
      split.
      { eexists. split; [exact Hnew|]. split; [done|].
        unfold validArray, arrayFrom. cbn [ctor elems].
        apply Forall_fmap, Forall_true. intros v. apply toElement_idem. }
      split.
      * intros (arr' & Harr' & _ & Hall).
        assert (arr' = arr) as -> by congruence.
        assert (Forall (sound minArea (elems positions)) kept) as Hkept.
        { rewrite Forall_forall in Hall |- *. intros t Ht. apply Hall.
          by eapply elem_of_sublist. }
        eexists. split; [exact Hnew|].
        rewrite (kept_widen minArea (elems positions) arr kept) by done.
        simpl. rewrite chunks3_flatten, flatten_length.
        split; [by eexists|done].
      * intros _ HPq' _. assert (Pq = P) as -> by congruence.
        assert (positionsq = positions) as -> by congruence.
        eexists. split; [exact Hnew|].
        rewrite (kept_widen minArea (elems positions) arr kept) by done.
        simpl. rewrite chunks3_flatten, flatten_length.
        split; [by eexists|done].
    + split.
      { exists arr. by rewrite getArray_setArray_ne. }
      split.
      * intros (arr' & Harr' & ?). exists arr'.
        by rewrite getArray_setArray_ne.
      * intros _ _ Hidxq'. congruence.
Qed.

Lemma faces_loop (p : Primitive) (todo : list Primitive)
    (accs accs' : gmap nat Accessor) :
  prim_mode p = 4 → getAttribute p "POSITION" = Some P →
  prim_indices p = Some idx →
  (∀ q, q ∈ todo → prim_indices q ≠ Some P) →
  getArray accs P = Some positions →
  IntAt accs →
  foldM (removeDegeneratePrimitive minArea) todo accs = Normal accs' →
  getArray accs' P = Some positions ∧
  IntAt accs' ∧
  (p ∈ todo ∨ SoundAt accs → SoundAt accs').
Proof.
  intros Hm HPp Hidxp. revert accs.
  induction todo as [|q todo IH]; intros accs Hnot HP Hint; simpl.
  - intros [= <-]. split; [done|]. split; [done|].
    intros [Hin|?]; [by apply elem_of_nil in Hin|done].
  - destruct (removeDegeneratePrimitive minArea accs q) as [accs1|e] eqn:Hstep;
      simpl; [|done].
    intros Hrest.
    destruct (step_target accs accs1 q) as (HP1 & Hint1 & Hkeep & Hown);
      [apply Hnot; by left|done..|].
    destruct (IH accs1) as (HP' & Hint' & Hsound'); [|done..|].
    { intros q' Hq'. apply Hnot. by right. }
    split; [done|]. split; [done|].
    intros [[->|Hin]%elem_of_cons|Hs]; apply Hsound'.
    + right. by apply Hown.
    + by left.
    + right. by apply Hkeep.
Qed.

End Target.

Lemma faces_frame (minArea : Q) (todo : list Primitive)
    (accs accs' : gmap nat Accessor) (r : nat) :
  (∀ q, q ∈ todo → prim_indices q ≠ Some r) →
  foldM (removeDegeneratePrimitive minArea) todo accs = Normal accs' →
  accs' !! r = accs !! r.
Proof.
  intros Hnot. apply (foldM_invariant (λ cur, cur !! r = accs !! r)); [|done].
  intros cur q next Hq Hcur Hstep. rewrite <- Hcur.
  eapply removeDegeneratePrimitive_frame; [done|by apply Hnot].
Qed.

End FacesDocument.

(** ** removeStaticTracksWithBake: the analysis of the tracks *)

Module TracksAnalysis.
Import RemoveDegenerateFaces RemoveStaticTracks.

Lemma firstM_false {A : Type} (f : A → Completion bool) (l : list A) :
  firstM f l = Normal false ↔ Forall (λ a, f a = Normal false) l.
Proof.
  induction l as [|a l IH]; simpl.
  - split; [constructor|done].
  - destruct (f a) as [[]|e] eqn:Hf; simpl.
    + split; [done|]. inversion 1; congruence.
    + rewrite IH. split; [by constructor|]. by inversion 1.
    + split; [done|]. inversion 1; congruence.
Qed.

Lemma firstM_true {A : Type} (f : A → Completion bool) (l : list A) :
  firstM f l = Normal true → Exists (λ a, f a = Normal true) l.
Proof.
  induction l as [|a l IH]; simpl; [done|].
  destruct (f a) as [[]|e] eqn:Hf; simpl; [by left| |done].
  intros H. right. by apply IH.
Qed.

(** The number of keyframes, for an element size that is not 0. *)
Lemma keyframeCount_ceiling (len es : nat) :
  0 < es →
  Z.to_nat (Qceiling (ofNat len / ofNat es)) = (len + es - 1) / es.
Proof.
  intros Hes. unfold ofNat.
  rewrite <- (Nat2Z.id ((len + es - 1) / es)). f_equal.
  rewrite Nat2Z.inj_div, Nat2Z.inj_sub, Nat2Z.inj_add by lia.
  change (Z.of_nat 1) with 1%Z.
  destruct es as [|es]; [lia|]. rewrite Nat2Z.inj_succ, <- Zpos_P_of_succ_nat.
  generalize (Pos.of_succ_nat es) (Z.of_nat len) (Nat2Z.is_nonneg len).
  intros d z Hz.
  unfold Qceiling, Qfloor, Qdiv, Qopp, Qmult, Qinv, inject_Z; simpl.
  rewrite Z.mul_1_r, Pos.mul_1_l.
  Z.div_mod_to_equations. nia.
Qed.

Lemma countFromOne_keyframes (len es i : nat) :
  0 < es →
  i ∈ countFromOne (ofNat len / ofNat es) ↔ 1 ≤ i ∧ i * es < len.
Proof.
  intros Hes. unfold countFromOne.
  rewrite keyframeCount_ceiling, list_elem_of_In, in_seq by done.
  assert (i < (len + es - 1) / es ↔ i * es < len) as Hdiv.
  { split; intros H.
    - destruct (Nat.lt_ge_cases (i * es) len) as [|Hge]; [done|exfalso].
      assert ((len + es - 1) / es < i + 1); [|lia].
      apply Nat.Div0.div_lt_upper_bound. nia.
    - assert (i + 1 ≤ (len + es - 1) / es); [|lia].
      apply Nat.div_le_lower_bound; [lia|]. nia. }
  lia.
Qed.

Lemma severalKeyframes (len es : nat) :
  Qltb 1 (ofNat len / ofNat es) = true ↔ 0 < es < len.
Proof.
  unfold Qltb. rewrite negb_true_iff, <- not_true_iff_false, Qle_bool_iff.
  unfold ofNat.
  destruct es as [|es].
  - split; [|lia]. intros H. exfalso. apply H.
    unfold Qdiv, Qmult, Qinv, Qle, inject_Z; simpl. lia.
  - assert (0 < S es < len ↔ (Z.of_nat (S es) < Z.of_nat len)%Z) as -> by lia.
    rewrite Nat2Z.inj_succ, <- Zpos_P_of_succ_nat.
    generalize (Pos.of_succ_nat es) (Z.of_nat len). intros d z.
    unfold Qdiv, Qmult, Qinv, Qle, inject_Z; simpl. lia.
Qed.

Lemma exceeds_false (tolerance x y : Q) :
  exceeds tolerance x y = false ↔ (Qabs (x - y) <= tolerance)%Q.
Proof.
  unfold exceeds, Qltb. by rewrite negb_false_iff, Qle_bool_iff.
Qed.

Lemma exceeds_true (tolerance x y : Q) :
  exceeds tolerance x y = true ↔ ¬ (Qabs (x - y) <= tolerance)%Q.
Proof.
  rewrite <- exceeds_false. destruct (exceeds tolerance x y); split; done.
Qed.

Lemma everyWithin_Within (tolerance : Q) (a b : list Q) :
  everyWithin tolerance a b = true ↔ Within tolerance a b.
Proof.
  unfold Within. revert b; induction a as [|x a IH]; intros [|y b]; simpl.
  - split; [constructor|done].
  - split; [done|inversion 1].
  - split; [done|inversion 1].
  - rewrite andb_true_iff, IH. unfold within. rewrite Qle_bool_iff.
    split; [intros []; by constructor|by inversion 1].
Qed.

Lemma keyframe_lookup (t : Track) (i j : nat) :
  j < t.2 → keyframe t i !! j = t.1 !! (i * t.2 + j).
Proof.
  intros Hj. unfold keyframe. by rewrite lookup_take_lt, lookup_drop.
Qed.

Lemma keyframe_first (t : Track) : keyframe t 0 = take t.2 t.1.
Proof. done. Qed.

Lemma keyframeDiffers_false (tolerance : Q) (t : Track) (i : nat) :
  keyframeDiffers tolerance t.1 (take t.2 t.1) t.2 i = Normal false ↔
  ∀ j, j < t.2 → ∃ x y, keyframe t i !! j = Some x ∧
                        keyframe t 0 !! j = Some y ∧
                        (Qabs (x - y) <= tolerance)%Q.
Proof.
  unfold keyframeDiffers. rewrite firstM_false, Forall_forall.
  apply forall_proper; intros j. rewrite elem_of_seq.
  assert (0 ≤ j < 0 + t.2 ↔ j < t.2) as -> by lia.
  apply forall_proper; intros Hj.
  unfold at_. rewrite !keyframe_lookup, lookup_take_lt by done. simpl.
  destruct (t.1 !! (i * t.2 + j)) as [x|]; simpl.
  - destruct (t.1 !! j) as [y|]; simpl.
    + split.
      * intros [= H%exceeds_false]. by exists x, y.
      * intros (? & ? & [= <-] & [= <-] & H). f_equal. by apply exceeds_false.
    + split; [done|]. by intros (? & ? & _ & ? & _).
  - split; [done|]. by intros (? & ? & ? & _).
Qed.

Lemma keyframeDiffers_true (tolerance : Q) (t : Track) (i : nat) :
  keyframeDiffers tolerance t.1 (take t.2 t.1) t.2 i = Normal true →
  ∃ j x y, keyframe t i !! j = Some x ∧ keyframe t 0 !! j = Some y ∧
           ¬ (Qabs (x - y) <= tolerance)%Q.
Proof.
  unfold keyframeDiffers. intros H%firstM_true.
  apply Exists_exists in H as (j & Hj & H). apply elem_of_seq in Hj.
  exists j. rewrite !keyframe_lookup by lia. simpl.
  unfold at_ in H.
  destruct (t.1 !! (i * t.2 + j)) as [x|]; simpl in H; [|done].
  destruct (take t.2 t.1 !! j) as [y|] eqn:Hy; simpl in H; [|done].
  rewrite lookup_take_lt in Hy by lia.
  exists x, y. injection H as H. by apply exceeds_true in H.
Qed.

(** The answer of pass 1 on a track. *)
Lemma analyzeTrack_Normal (tolerance : Q) (t : Track) (info : TrackInfo) :
  (0 <= tolerance)%Q →
  analyzeTrack tolerance t.1 t.2 = Normal info →
  (isStatic info = true ↔ Static tolerance t) ∧
  staticValue info = (if isStatic info then Some (keyframe t 0) else None).
Proof.
  intros Htol. unfold analyzeTrack.
  assert (∀ l, Within tolerance l l) as Hrefl.
  { intros l. apply Forall_Forall2_diag, Forall_forall. intros x _.
    unfold Qminus. rewrite Qplus_opp_r. done. }
  destruct (Qltb 1 _) eqn:Hgate.
  - apply severalKeyframes in Hgate as [Hes Hlen].
    destruct (firstM _ _) as [[]|e] eqn:Hloop; simpl; [| |done].
    + intros [= <-]. simpl. split; [|done]. split; [done|]. intros Hstatic.
      apply firstM_true, Exists_exists in Hloop as (i & Hi & Hd).
      apply countFromOne_keyframes in Hi as [_ Hi]; [|done].
      apply keyframeDiffers_true in Hd as (j & x & y & Hx & Hy & Hne).
      destruct Hne.
      exact (Forall2_lookup_lr _ _ _ j x y (Hstatic i Hi) Hx Hy).
    + intros [= <-]. simpl. split; [|done]. split; [|done]. intros _ i Hi.
      destruct (decide (i = 0)) as [->|Hi0]; [apply Hrefl|].
      rewrite firstM_false, Forall_forall in Hloop.
      specialize (Hloop i). rewrite countFromOne_keyframes in Hloop by done.
      rewrite keyframeDiffers_false in Hloop.
      specialize (Hloop ltac:(lia)).
      apply Forall2_same_length_lookup_2.
      * assert (length (keyframe t 0) = t.2) as ->.
        { unfold keyframe. rewrite length_take, length_drop. simpl. lia. }
        destruct (Hloop (t.2 - 1)) as (x & _ & Hx & _); [lia|].
        rewrite keyframe_lookup in Hx by lia.
        apply lookup_lt_Some in Hx.
        unfold keyframe. rewrite length_take, length_drop. lia.
      * intros j x y Hx Hy.
        assert (j < t.2) as Hj.
        { apply lookup_lt_Some in Hx. unfold keyframe in Hx.
          rewrite length_take in Hx. lia. }
        destruct (Hloop j Hj) as (x' & y' & Hx' & Hy' & H). congruence.
  - simpl. intros [= <-]. simpl. split; [|done]. split; [|done]. intros _ i Hi.
    destruct (decide (i = 0)) as [->|Hi0]; [apply Hrefl|].
    destruct (decide (0 < t.2)) as [Hes|Hes].
    + apply not_true_iff_false in Hgate. destruct Hgate.
      apply severalKeyframes. nia.
    + unfold keyframe. replace t.2 with 0 by lia. constructor.
Qed.

(** Pass 1 on one channel, by the track it records. *)
Lemma analyzeChannel_analysed (tolerance : Q) (doc : Document)
    (m : gmap (Z * TargetPath) (list TrackInfo)) (c : nat) :
  analyzeChannel tolerance doc m c =
  match analysed doc c with
  | None => Normal m
  | Some (key, t) =>
      info ← analyzeTrack tolerance t.1 t.2;
      Normal (<[key := default [] (m !! key) ++ [info]]> m)
  end.
Proof.
  unfold analyzeChannel, analysed, keyOf.
  destruct (doc_channels doc !! c) as [channel|]; simpl; [|done].
  destruct (channel_sampler channel) as [sampler|]; simpl; [|done].
  destruct (channel_targetNode channel) as [targetNode|]; simpl; [|done].
  destruct (channel_targetPath channel) as [targetPath|]; simpl; [|done].
  destruct (getOutputArray doc sampler) as [[outputArray elementSize]|];
    simpl; [|done].
  by case_bool_decide.
Qed.

(** The map of pass 1: under each key the answers on the tracks of the key,
    in their order. *)
Lemma analyzeChannels_tracks (tolerance : Q) (doc : Document)
    (l : list nat) (m0 m : gmap (Z * TargetPath) (list TrackInfo))
    (key : Z * TargetPath) :
  foldM (analyzeChannel tolerance doc) l m0 = Normal m →
  ∃ infos,
    default [] (m !! key) = default [] (m0 !! key) ++ infos ∧
    Forall2 (λ t info, analyzeTrack tolerance t.1 t.2 = Normal info)
            (omap (trackFor doc key) l) infos.
Proof.
  revert m0; induction l as [|c l IH]; intros m0; simpl.
  - intros [= <-]. exists []. by rewrite app_nil_r.
  - rewrite analyzeChannel_analysed. unfold trackFor at 1.
    destruct (analysed doc c) as [[k t]|]; simpl; [|apply IH].
    destruct (analyzeTrack tolerance t.1 t.2) as [info|e] eqn:Hinfo;
      simpl; [|done].
    intros (infos & Hm & Hall)%IH.
    destruct (decide (k = key)) as [->|Hne]; simpl.
    + rewrite lookup_insert_eq in Hm. simpl in Hm.
      exists (info :: infos). split; [by rewrite Hm, <- app_assoc|].
      by constructor.
    + rewrite lookup_insert_ne in Hm by done. by exists infos.
Qed.

Lemma buildTrackMap_tracks (tolerance : Q) (doc : Document)
    (m : gmap (Z * TargetPath) (list TrackInfo)) (key : Z * TargetPath) :
  buildTrackMap tolerance doc = Normal m →
  Forall2 (λ t info, analyzeTrack tolerance t.1 t.2 = Normal info)
          (tracksOf doc key) (default [] (m !! key)).
Proof.
  intros (infos & -> & Hall)%(analyzeChannels_tracks _ _ _ _ _ key).
  by rewrite lookup_empty.
Qed.

Lemma removableKeys_isRemovable (tolerance : Q) (doc : Document)
    (m : gmap (Z * TargetPath) (list TrackInfo)) (key : Z * TargetPath) :
  key ∈ removableKeys tolerance doc m ↔
  isRemovable tolerance doc key (default [] (m !! key)) = true.
Proof.
  unfold removableKeys. rewrite elem_of_dom. unfold is_Some.
  setoid_rewrite map_lookup_filter_Some. simpl.
  destruct (m !! key) as [tracks|]; simpl.
  - split; [by intros (? & [= <-] & ?)|by exists tracks].
  - split; [by intros (? & ? & _)|done].
Qed.

Lemma restPose_base (tolerance : Q) (doc : Document) (key : Z * TargetPath)
    (reference : list Q) :
  (if ((key.1 <? 0) || (Z.of_nat (length (doc_nodes doc)) <=? key.1))%Z
   then false
   else match doc_nodes doc !! Z.to_nat key.1 with
        | None => false
        | Some node =>
            match baseValue doc node key.2 with
            | None => false
            | Some base => everyWithin tolerance base reference
            end
        end) = true ↔
  ∃ base, restPose doc key = Some base ∧ Within tolerance base reference.
Proof.
  unfold restPose.
  destruct (Z.ltb_spec key.1 0) as [Hneg|Hpos]; simpl.
  { rewrite decide_False by lia. split; [done|by intros (? & ? & _)]. }
  rewrite decide_True by done.
  destruct (Z.leb_spec (Z.of_nat (length (doc_nodes doc))) key.1) as [Hge|Hlt].
  { rewrite (lookup_ge_None_2 (doc_nodes doc)) by lia.
    split; [done|by intros (? & ? & _)]. }
  destruct (doc_nodes doc !! Z.to_nat key.1) as [node|]; simpl;
    [|split; [done|by intros (? & ? & _)]].
  destruct (baseValue doc node key.2) as [base|];
    [|split; [done|by intros (? & ? & _)]].
  rewrite everyWithin_Within.
  split; [by exists base|by intros (? & [= <-] & ?)].
Qed.

(** Pass 2 decides consensus. *)
Lemma isRemovable_Consensus (tolerance : Q) (doc : Document)
    (key : Z * TargetPath) (infos : list TrackInfo) :
  (0 <= tolerance)%Q →
  Forall2 (λ t info, analyzeTrack tolerance t.1 t.2 = Normal info)
          (tracksOf doc key) infos →
  isRemovable tolerance doc key infos = true ↔ Consensus tolerance doc key.
Proof.
  intros Htol Hall. unfold Consensus, isRemovable.
  assert (Forall2 (λ t info,
            (isStatic info = true ↔ Static tolerance t) ∧
            staticValue info
              = (if isStatic info then Some (keyframe t 0) else None))
          (tracksOf doc key) infos) as Hinfo.
  { eapply Forall2_impl; [exact Hall|]. intros t info.
    by apply analyzeTrack_Normal. }
  clear Hall. generalize dependent (tracksOf doc key). intros tracks Hinfo.
  assert (existsb (λ t, negb (isStatic t)) infos = false ↔
          Forall (Static tolerance) tracks) as Hstatic.
  { induction Hinfo as [|t info tracks infos [Ht _] _ IH]; simpl.
    - split; [constructor|done].
    - rewrite orb_false_iff, negb_false_iff, IH, Ht.
      split; [intros []; by constructor|by inversion 1]. }
  destruct (existsb _ infos) eqn:Hsome.
  { split; [done|]. intros (? & ? & ? & -> & Hs & _).
    by apply Hstatic in Hs. }
  assert (Forall (Static tolerance) tracks) as Hs by by apply Hstatic.
  destruct Hinfo as [|first info0 rest infos [Hf0 Hv0] Hrest].
  { split; [done|]. by intros (? & ? & ? & ? & _). }
  apply Forall_cons in Hs as [Hs0 Hs].
  apply Hf0 in Hs0. rewrite Hs0 in Hv0. rewrite Hv0.
  assert (forallb (λ t, match staticValue t with
                        | None => false
                        | Some v => everyWithin tolerance v (keyframe first 0)
                        end) (info0 :: infos) = true ↔
          Forall (λ t, Within tolerance (keyframe t 0) (keyframe first 0))
                 (first :: rest)) as Hagree.
  { assert (Forall2 (λ t info, staticValue info = Some (keyframe t 0))
              (first :: rest) (info0 :: infos)) as Hvalues.
    { constructor; [done|].
      clear -Hrest Hs. induction Hrest as [|t info ?? [Ht Hv] _ IH];
        [constructor|].
      apply Forall_cons in Hs as [Hst Hs]. apply Ht in Hst.
      rewrite Hst in Hv. constructor; [done|by apply IH]. }
    clear -Hvalues. generalize dependent (keyframe first 0). intros reference.
    induction Hvalues as [|t info ?? Hv _ IH]; simpl.
    - split; [constructor|done].
    - rewrite andb_true_iff, IH, Hv, everyWithin_Within.
      split; [intros []; by constructor|by inversion 1]. }
  destruct (forallb _ (info0 :: infos)) eqn:Hall; simpl.
  - rewrite restPose_base. split.
    + intros (base & Hbase & Hwithin). exists first, rest, base.
      split; [done|]. split; [constructor; [by apply Hf0|done]|].
      split; [by apply Hagree|done].
    + intros (? & ? & base & [= <- <-] & _ & _ & Hbase & Hwithin).
      by exists base.
  - split; [done|]. intros (? & ? & ? & [= <- <-] & _ & Ha & _).
    by apply Hagree in Ha.
Qed.

End TracksAnalysis.

(** ** removeStaticTracksWithBake: the removal of the channels *)

Module TracksSweep.
Import RemoveDegenerateFaces RemoveStaticTracks TracksAnalysis.

Lemma filter_not_disposed (D : gset nat) (l : list nat) :
  D = ∅ → filter (λ c, c ∉ D) l = l.
Proof.
  intros ->. induction l as [|c l IH]; [done|].
  rewrite filter_cons_True by apply not_elem_of_empty. by rewrite IH.
Qed.

Lemma listChannels_lookup (doc : Document) (c : nat) :
  c ∈ listChannels doc ↔
  ∃ a animation, doc_animations doc !! a = Some animation ∧
                 c ∈ anim_channels animation.
Proof.
  unfold listChannels. rewrite list_elem_of_In, in_concat. split.
  - intros (l & Hl & Hc). apply list_elem_of_In, list_elem_of_fmap in Hl
      as (animation & -> & [a Ha]%list_elem_of_lookup).
    exists a, animation. by rewrite list_elem_of_In.
  - intros (a & animation & Ha & Hc). exists (anim_channels animation).
    split; [|by apply list_elem_of_In].
    apply list_elem_of_In, list_elem_of_fmap. exists animation.
    split; [done|]. by eapply list_elem_of_lookup_2.
Qed.

Section Sweep.
Variable tolerance : Q.
Variable doc : Document.
Variable removable : gset (Z * TargetPath).

Local Abbreviation Inv := (SweepInv doc removable).

Lemma SweepInv_init : Inv ∅ doc.
Proof.
  split; [done| | |].
  - apply Forall_Forall2_diag, Forall_forall. intros a _.
    by rewrite filter_not_disposed.
  - intros c. destruct (doc_channels doc !! c) as [channel|] eqn:Hc.
    + split; [apply not_elem_of_empty|]. by exists channel.
    + by left.
  - intros c Hc. by apply not_elem_of_empty in Hc.
Qed.

Lemma SweepInv_disposeChannel (D : gset nat) (cur : Document) (c : nat) :
  Inv D cur → Removable doc removable c →
  Inv ({[c]} ∪ D) (disposeChannel c cur).
Proof.
  intros [Hn Ha Hc Hr] Hrem. split; simpl.
  - done.
  - rewrite Forall2_fmap_r. eapply Forall2_impl; [exact Ha|].
    intros a a' Heq. simpl. rewrite Heq, list_filter_filter.
    apply list_filter_iff. intros c'.
    rewrite not_elem_of_union, not_elem_of_singleton. tauto.
  - intros c'. destruct (decide (c' = c)) as [->|Hne].
    + rewrite lookup_delete_eq. right. apply elem_of_union_l.
      by apply elem_of_singleton.
    + rewrite lookup_delete_ne by done. specialize (Hc c').
      destruct (doc_channels cur !! c') as [channel'|].
      * destruct Hc as [HD Hc]. split; [|done].
        rewrite not_elem_of_union, not_elem_of_singleton. done.
      * destruct Hc as [Hc|Hc]; [by left|right]. by apply elem_of_union_r.
  - intros c' [->%elem_of_singleton|Hc']%elem_of_union; [done|by apply Hr].
Qed.

Lemma SweepInv_disposeSampler (D : gset nat) (cur : Document) (s : nat) :
  Inv D cur → Inv D (disposeSampler s cur).
Proof.
  intros [Hn Ha Hc Hr]. split; simpl.
  - done.
  - rewrite Forall2_fmap_r. eapply Forall2_impl; [exact Ha|]. by intros a a' Heq.
  - intros c. rewrite lookup_fmap. specialize (Hc c).
    destruct (doc_channels cur !! c) as [channel'|]; simpl; [|done].
    destruct Hc as [HD (channel & Hch & Htn & Htp)]. split; [done|].
    exists channel. by case_bool_decide.
  - done.
Qed.

Lemma nodeIndex_nodes (cur : Document) (n : nat) :
  doc_nodes cur = doc_nodes doc → nodeIndex cur n = nodeIndex doc n.
Proof. unfold nodeIndex. by intros ->. Qed.

(** One turn of pass 3. *)
Lemma sweepChannel_inv (D : gset nat) (st st' : Sweep) (c : nat) :
  Inv D (sweep_doc st) →
  sweepChannel tolerance removable st c = Normal st' →
  ∃ D', D ⊆ D' ∧ Inv D' (sweep_doc st') ∧
        (Removable doc removable c → c ∈ D').
Proof.
  intros HI. unfold sweepChannel.
  pose proof (si_channels _ _ _ _ HI c) as Hc.
  destruct (doc_channels (sweep_doc st) !! c) as [channel'|] eqn:Hcur.
  - destruct Hc as [HD (channel & Hch & Htn & Htp)].
    destruct (channel_targetNode channel') as [n|] eqn:Hn';
      [destruct (channel_targetPath channel') as [p|] eqn:Hp'|].
    + rewrite (nodeIndex_nodes _ _ (si_nodes _ _ _ _ HI)).
      assert (keyOf doc channel = Some (nodeIndex doc n, p)) as Hkey.
      { unfold keyOf. by rewrite <- Htn, <- Htp. }
      case_bool_decide as HR.
      * intros [= <-]. simpl. exists ({[c]} ∪ D).
        split; [apply union_subseteq_r|].
        assert (Removable doc removable c) as Hrem.
        { by exists channel, (nodeIndex doc n, p). }
        split; [|intros _; apply elem_of_union_l; by apply elem_of_singleton].
        destruct (channel_sampler channel') as [s|];
          [case_match|]; try apply SweepInv_disposeSampler;
          by apply SweepInv_disposeChannel.
      * destruct (staticWithoutConsensus _ _ _) as [static|e]; simpl; [|done].
        intros [= <-]. simpl. exists D. split; [done|]. split; [done|].
        intros (channel0 & key & Hch0 & Hkey0 & Hin). congruence.
    + intros [= <-]. exists D. split; [done|]. split; [done|].
      intros (channel0 & key & Hch0 & Hkey0 & Hin).
      assert (channel0 = channel) as -> by congruence.
      unfold keyOf in Hkey0. by rewrite <- Htn, <- Htp in Hkey0.
    + intros [= <-]. exists D. split; [done|]. split; [done|].
      intros (channel0 & key & Hch0 & Hkey0 & Hin).
      assert (channel0 = channel) as -> by congruence.
      unfold keyOf in Hkey0. by rewrite <- Htn in Hkey0.
  - intros [= <-]. exists D. split; [done|]. split; [done|].
    intros (channel & key & Hch & _). destruct Hc as [Hc|Hc]; congruence.
Qed.

Lemma sweepChannels_inv (l : list nat) (D : gset nat) (st st' : Sweep) :
  Inv D (sweep_doc st) →
  foldM (sweepChannel tolerance removable) l st = Normal st' →
  ∃ D', D ⊆ D' ∧ Inv D' (sweep_doc st') ∧
        ∀ c, c ∈ l → Removable doc removable c → c ∈ D'.
Proof.
  revert D st; induction l as [|c l IH]; intros D st HI; simpl.
  - intros [= <-]. exists D. split; [done|]. split; [done|].
    intros c Hc. by apply elem_of_nil in Hc.
  - destruct (sweepChannel _ _ st c) as [st1|e] eqn:Hstep; simpl; [|done].
    destruct (sweepChannel_inv D st st1 c HI Hstep) as (D1 & HD1 & HI1 & Hc1).
    intros (D' & HD' & HI' & Hl)%(IH D1 st1 HI1).
    exists D'. split; [by etrans|]. split; [done|].
    intros c' [->|Hc']%elem_of_cons Hrem; [|by apply Hl].
    by apply HD', Hc1.
Qed.

Lemma sweepAnimation_inv (a : nat) (D : gset nat) (st st' : Sweep) :
  Inv D (sweep_doc st) →
  sweepAnimation tolerance removable st a = Normal st' →
  ∃ D', D ⊆ D' ∧ Inv D' (sweep_doc st') ∧
        ∀ animation c, doc_animations doc !! a = Some animation →
                       c ∈ anim_channels animation →
                       Removable doc removable c → c ∈ D'.
Proof.
  intros HI. unfold sweepAnimation.
  pose proof (si_animations _ _ _ _ HI) as Ha.
  destruct (doc_animations (sweep_doc st) !! a) as [animation'|] eqn:Hcur.
  - intros (D' & HD' & HI' & Hl)%(sweepChannels_inv _ D); [|done].
    exists D'. split; [done|]. split; [done|].
    intros animation c Hanim Hc Hrem.
    destruct (Forall2_lookup_l _ _ _ _ _ Ha Hanim) as (a'' & Ha'' & Heq).
    assert (a'' = animation') as -> by congruence.
    destruct (decide (c ∈ D)) as [HinD|HnD]; [by apply HD'|].
    apply Hl; [|done]. rewrite Heq. by apply list_elem_of_filter.
  - intros [= <-]. exists D. split; [done|]. split; [done|].
    intros animation c Hanim.
    destruct (Forall2_lookup_l _ _ _ _ _ Ha Hanim) as (a'' & Ha'' & _).
    congruence.
Qed.

Lemma sweepAnimations_inv (l : list nat) (D : gset nat) (st st' : Sweep) :
  Inv D (sweep_doc st) →
  foldM (sweepAnimation tolerance removable) l st = Normal st' →
  ∃ D', D ⊆ D' ∧ Inv D' (sweep_doc st') ∧
        ∀ a animation c, a ∈ l → doc_animations doc !! a = Some animation →
                         c ∈ anim_channels animation →
                         Removable doc removable c → c ∈ D'.
Proof.
  revert D st; induction l as [|a l IH]; intros D st HI; simpl.
  - intros [= <-]. exists D. split; [done|]. split; [done|].
    intros a animation c Ha. by apply elem_of_nil in Ha.
  - destruct (sweepAnimation _ _ st a) as [st1|e] eqn:Hstep; simpl; [|done].
    destruct (sweepAnimation_inv a D st st1 HI Hstep)
      as (D1 & HD1 & HI1 & Ha1).
    intros (D' & HD' & HI' & Hl)%(IH D1 st1 HI1).
    exists D'. split; [by etrans|]. split; [done|].
    intros a' animation c [->|Ha']%elem_of_cons Hanim Hc Hrem.
    + by eapply HD', Ha1.
    + by eapply Hl.
Qed.

End Sweep.

(** The channels that the three passes remove. *)
Lemma removeStaticTracksRun_removed (tolerance : Q) (doc : Document)
    (st : Sweep) (c : nat) (channel : AnimationChannel)
    (key : Z * TargetPath) :
  removeStaticTracksRun tolerance doc = Normal st →
  c ∈ listChannels doc →
  doc_channels doc !! c = Some channel →
  keyOf doc channel = Some key →
  ∃ m, buildTrackMap tolerance doc = Normal m ∧
       (doc_channels (sweep_doc st) !! c = None ↔
        key ∈ removableKeys tolerance doc m) ∧
       (doc_channels (sweep_doc st) !! c = None ∨
        ∃ channel', doc_channels (sweep_doc st) !! c = Some channel' ∧
                    channel_targetNode channel' = channel_targetNode channel ∧
                    channel_targetPath channel' = channel_targetPath channel).
Proof.
  unfold removeStaticTracksRun. intros Hrun Hc Hch Hkey.
  apply listChannels_lookup in Hc as (a & animation & Ha & Hc).
  rewrite bool_decide_eq_false_2 in Hrun.
  2:{ apply lookup_lt_Some in Ha. lia. }
  destruct (buildTrackMap tolerance doc) as [m|e]; simpl in Hrun; [|done].
  exists m. split; [done|].
  apply (sweepAnimations_inv tolerance doc _ _ ∅) in Hrun
    as (D & _ & HI & Hall); [|apply SweepInv_init].
  pose proof (si_channels _ _ _ _ HI c) as Hfinal.
  destruct (doc_channels (sweep_doc st) !! c) as [channel'|] eqn:Hcur.
  - destruct Hfinal as [HD (channel0 & Hch0 & Htn & Htp)].
    assert (channel0 = channel) as -> by congruence.
    split; [|right; by exists channel'].
    split; [done|]. intros Hin. destruct HD.
    apply (Hall a animation c); [|done..|by exists channel, key].
    apply elem_of_seq. apply lookup_lt_Some in Ha. lia.
  - split; [|by left]. split; [|done]. intros _.
    destruct Hfinal as [Hnone|HD]; [congruence|].
    destruct (si_removed _ _ _ _ HI c HD) as (channel0 & key0 & ? & ? & ?).
    congruence.
Qed.

(** *** Samplers *)

(** A sampler that an animation lists and a channel references has two
    parents at least. *)
Lemma samplerParents_sole (cur : Document) (s : nat) :
  wf_samplers cur → samplerParents s cur ≤ 1 →
  ∀ c channel, doc_channels cur !! c = Some channel →
               channel_sampler channel ≠ Some s.
Proof.
  intros Hwf Hle c channel Hc Hs. specialize (Hwf c channel Hc).
  simpl in Hwf. rewrite Hs in Hwf. destruct Hwf as [_ Hlisted].
  apply Exists_exists in Hlisted as (a & Ha & Hin).
  assert (0 < length (filter (λ a, s ∈ anim_samplers a) (doc_animations cur)))
    as Hanims.
  { assert (a ∈ filter (λ a, s ∈ anim_samplers a) (doc_animations cur)) as Hf
      by by apply list_elem_of_filter.
    destruct (filter _ (doc_animations cur)); [|simpl; lia].
    by apply elem_of_nil in Hf. }
  assert (size (filter (λ kc : nat * AnimationChannel,
                          channel_sampler kc.2 = Some s)
                       (doc_channels cur)) ≠ 0) as Hchannels.
  { apply (map_size_ne_0_lookup_2 _ c). exists channel.
    by apply map_lookup_filter_Some_2. }
  unfold samplerParents in Hle. lia.
Qed.

Lemma Kept_init (doc : Document) : wf_samplers doc → Kept doc doc.
Proof. by split. Qed.

Lemma Kept_disposeChannel (doc cur : Document) (c : nat) :
  Kept doc cur → Kept doc (disposeChannel c cur).
Proof.
  intros [Hc Hs Hwf]. split; simpl.
  - intros c' channel [_ H]%lookup_delete_Some. by apply Hc.
  - done.
  - intros c' channel H. simpl in H. apply lookup_delete_Some in H as [_ H].
    specialize (Hwf c' channel H). simpl in *.
    destruct (channel_sampler channel) as [s|]; simpl in *; [|done].
    destruct Hwf as [Hsome Hlisted]. split; [done|]. simpl.
    rewrite Exists_fmap. eapply Exists_impl; [exact Hlisted|]. done.
Qed.

Lemma Kept_disposeSampler (doc cur : Document) (s : nat) :
  Kept doc cur →
  (∀ c channel, doc_channels cur !! c = Some channel →
                channel_sampler channel ≠ Some s) →
  Kept doc (disposeSampler s cur).
Proof.
  intros [Hc Hs Hwf] Hsole.
  assert (∀ c channel,
            doc_channels (disposeSampler s cur) !! c = Some channel →
            doc_channels cur !! c = Some channel) as Hsame.
  { intros c channel. simpl. rewrite lookup_fmap.
    destruct (doc_channels cur !! c) as [channel'|] eqn:Hc'; simpl; [|done].
    rewrite bool_decide_eq_false_2 by by eapply Hsole. done. }
  split.
  - intros c channel H%Hsame. by apply Hc.
  - simpl. intros s' sampler [_ H]%lookup_delete_Some. by apply Hs.
  - intros c channel H%Hsame. specialize (Hwf c channel H). simpl in *.
    destruct (channel_sampler channel) as [s'|] eqn:Hs'; simpl in *; [|done].
    assert (s' ≠ s) as Hne.
    { intros ->. by eapply Hsole. }
    destruct Hwf as [Hsome Hlisted]. split.
    + simpl. by rewrite lookup_delete_ne.
    + simpl. rewrite Exists_fmap. eapply Exists_impl; [exact Hlisted|].
      intros a Ha. simpl. by apply list_elem_of_filter.
Qed.

Lemma sweepChannel_kept (tolerance : Q) (removable : gset (Z * TargetPath))
    (doc : Document) (st st' : Sweep) (c : nat) :
  Kept doc (sweep_doc st) →
  sweepChannel tolerance removable st c = Normal st' →
  Kept doc (sweep_doc st').
Proof.
  intros HK. unfold sweepChannel.
  destruct (doc_channels (sweep_doc st) !! c) as [channel|];
    [|by intros [= <-]].
  destruct (channel_targetNode channel) as [n|]; [|by intros [= <-]].
  destruct (channel_targetPath channel) as [p|]; [|by intros [= <-]].
  case_bool_decide.
  - intros [= <-]. simpl.
    pose proof (Kept_disposeChannel doc _ c HK) as HK1.
    destruct (channel_sampler channel) as [s|]; [|done].
    destruct (Nat.leb_spec (samplerParents s (disposeChannel c (sweep_doc st)))
                1) as [Hle|Hgt]; [|done].
    apply Kept_disposeSampler; [done|].
    apply samplerParents_sole; [apply HK1|done].
  - destruct (staticWithoutConsensus _ _ _) as [static|e]; simpl; [|done].
    by intros [= <-].
Qed.

Lemma removeStaticTracksRun_kept (tolerance : Q) (doc : Document)
    (st : Sweep) :
  wf_samplers doc →
  removeStaticTracksRun tolerance doc = Normal st →
  Kept doc (sweep_doc st).
Proof.
  intros Hwf. unfold removeStaticTracksRun.
  case_bool_decide; [intros [= <-]; by apply Kept_init|].
  destruct (buildTrackMap tolerance doc) as [m|e]; simpl; [|done].
  apply (foldM_invariant (λ st, Kept doc (sweep_doc st)));
    [|by apply Kept_init].
  intros st0 a st1 _ HK. unfold sweepAnimation.
  destruct (doc_animations (sweep_doc st0) !! a) as [animation|];
    [|by intros [= <-]].
  apply (foldM_invariant (λ st, Kept doc (sweep_doc st))); [|done].
  intros st2 c st3 _. apply sweepChannel_kept.
Qed.

End TracksSweep.

(** ** normalizeWeights: one vertex of a Float32Array *)

Module WeightsProps.
Import NormalizeWeights.

Lemma at_lookup (arr : list Q) (k : nat) (w : Q) :
  arr !! k = Some w → at_ arr k = Normal w.
Proof. unfold at_. by intros ->. Qed.

Section Vertex.
Variable elementSize : nat.
Variable i : nat.

Local Abbreviation slot j := (i * elementSize + j).

(** The partial sums of [weightSum], from any accumulator. *)
Lemma weightSum_total (arr : list Q) (a n : nat) (acc : Q) :
  slot (a + n) ≤ length arr →
  ∃ t, foldM (λ sum j, w ← at_ arr (slot j); Normal (sum + w)%Q)
             (seq a n) acc = Normal t.
Proof.
  revert a acc; induction n as [|n IH]; intros a acc Hlen; simpl.
  - by exists acc.
  - destruct (lookup_lt_is_Some_2 arr (slot a)) as [w Hw]; [lia|].
    rewrite (at_lookup _ _ _ Hw). simpl. apply IH. lia.
Qed.

(** Dividing every weight divides the sum. *)
Lemma weightSum_scaled (arr arr' : list Q) (s : Q) (a n : nat) (acc acc' t : Q) :
  (∀ j w, a ≤ j < a + n → arr !! slot j = Some w →
          arr' !! slot j = Some (w / s)%Q) →
  foldM (λ sum j, w ← at_ arr (slot j); Normal (sum + w)%Q)
        (seq a n) acc = Normal t →
  ∃ t', foldM (λ sum j, w ← at_ arr' (slot j); Normal (sum + w)%Q)
              (seq a n) acc' = Normal t' ∧
        (t' - acc' == (t - acc) / s)%Q.
Proof.
  revert a acc acc'; induction n as [|n IH]; intros a acc acc' Hdiv; simpl.
  - intros [= <-]. exists acc'. split; [done|]. unfold Qdiv. ring.
  - destruct (arr !! slot a) as [w|] eqn:Hw.
    2:{ assert (at_ arr (slot a) = Throw RangeError) as ->; [|done].
        unfold at_. by rewrite Hw. }
    rewrite (at_lookup _ _ _ Hw), (at_lookup arr' _ (w / s)%Q);
      [|apply Hdiv; [lia|done]].
    simpl. intros Hfold.
    destruct (IH (S a) (acc + w)%Q (acc' + w / s)%Q) as (t' & Ht' & Heq);
      [|done|].
    { intros j w' Hj. apply Hdiv. lia. }
    exists t'. split; [done|].
    assert (t' - acc' == (t' - (acc' + w / s)) + w / s)%Q as -> by ring.
    rewrite Heq. unfold Qdiv. ring.
Qed.

(** The loop of [divideWeights] on a [Float32Array]: the weights of the
    vertex divided by the sum, everything else as it was. *)
Lemma divideWeights_float (s : Q) (arr : list Q) (a n : nat) :
  slot (a + n) ≤ length arr →
  ∃ arr', foldM (λ b j, w ← at_ b (slot j);
                        Normal (<[slot j := toElement Float32Array (w / s)]> b))
                (seq a n) arr = Normal arr' ∧
          length arr' = length arr ∧
          (∀ j w, a ≤ j < a + n → arr !! slot j = Some w →
                  arr' !! slot j = Some (w / s)%Q) ∧
          (∀ k, ¬ (slot a ≤ k < slot (a + n)) → arr' !! k = arr !! k).
Proof.
  revert a arr; induction n as [|n IH]; intros a arr Hlen; simpl.
  - exists arr. split; [done|]. split; [done|]. split; [|done]. intros; lia.
  - destruct (lookup_lt_is_Some_2 arr (slot a)) as [w Hw]; [lia|].
    rewrite (at_lookup _ _ _ Hw). simpl.
    destruct (IH (S a) (<[slot a := (w / s)%Q]> arr))
      as (arr' & Hfold & Hlen' & Hin & Hout).
    { rewrite length_insert. lia. }
    exists arr'. split; [done|]. rewrite length_insert in Hlen'.
    split; [done|]. split.
    + intros j w' Hj Hw'. destruct (decide (j = a)) as [->|Hne].
      * rewrite Hout by lia. rewrite list_lookup_insert_eq by lia. congruence.
      * apply Hin; [lia|]. rewrite list_lookup_insert_ne by lia. done.
    + intros k Hk. rewrite Hout by lia. apply list_lookup_insert_ne. lia.
Qed.

(** One turn of the loop over the vertices, on a [Float32Array]: the turn
    returns; a vertex whose weights do not sum to a positive value is left
    as it is; the weights of any other vertex sum to 1 within 1e-6
    afterwards; no other vertex changes. *)
Lemma normalizeVertex_float (arr : list Q) :
  slot elementSize ≤ length arr →
  ∃ s arr',
    weightSum arr elementSize i = Normal s ∧
    normalizeVertex Float32Array elementSize arr i = Normal arr' ∧
    length arr' = length arr ∧
    (∀ k, ¬ (slot 0 ≤ k < slot elementSize) → arr' !! k = arr !! k) ∧
    (¬ (0 < s)%Q → arr' = arr) ∧
    ((0 < s)%Q →
     ∃ s', weightSum arr' elementSize i = Normal s' ∧
           (Qabs (s' - 1) <= 1 # 1000000)%Q).
Proof.
  intros Hlen.
  destruct (weightSum_total arr 0 elementSize 0%Q Hlen) as [s Hs].
  assert (weightSum arr elementSize i = Normal s) as Hsum by exact Hs.
  exists s. unfold normalizeVertex. rewrite Hsum.
  unfold mbind, Completion_bind. cbv beta iota.
  assert (Qltb 0 s = true ↔ (0 < s)%Q) as Hpos.
  { unfold Qltb. rewrite negb_true_iff, <- not_true_iff_false, Qle_bool_iff.
    split; [apply Qnot_le_lt|]. intros H1 H2. by apply Qlt_not_le in H1. }
  destruct (Qltb 0 s) eqn:Hgate; cbn [andb].
  - assert (0 < s)%Q as Hs0 by by apply Hpos.
    destruct (Qltb (1 # 1000000) (Qabs (s - 1))) eqn:Hfar.
    + destruct (divideWeights_float s arr 0 elementSize Hlen)
        as (arr' & Hfold & Hlen' & Hin & Hout).
      exists arr'. split; [done|]. split; [exact Hfold|].
      split; [done|]. split; [done|]. split; [done|]. intros _.
      destruct (weightSum_scaled arr arr' s 0 elementSize 0 0 s Hin Hs)
        as (s' & Hs' & Heq).
      exists s'. split; [exact Hs'|].
      assert (s' == 1)%Q as ->; [|done].
      assert (s' == s' - 0)%Q as -> by ring. rewrite Heq.
      field. intros H0. rewrite H0 in Hs0. by apply Qlt_irrefl in Hs0.
    + exists arr. split; [done|]. split; [done|]. split; [done|].
      split; [done|]. split; [done|]. intros _.
      exists s. split; [done|].
      unfold Qltb in Hfar. apply negb_false_iff in Hfar.
      by apply Qle_bool_iff.
  - exists arr. split; [done|]. split; [done|]. split; [done|].
    split; [done|]. split; [done|]. intros H. apply Hpos in H. done.
Qed.

End Vertex.

End WeightsProps.

(** ** mergeByDistance: the statements of the specification *)

Module MergeClaims.
Import MergeByDistance MergeHash MergeCompact MergePrimitive MergeDocument.



Lemma remap_canonical (precision : Q) (positions : list Q) (n : nat)
    (h : SpatialHash) (i : nat) (x : Q) :
  length positions = n * 3 →
  HashInv precision positions n n h →
  remap h !! i = Some x →
  ∃ j i' k, x = toElement Uint32Array (ofNat j) ∧
            newToOld h !! j = Some i' ∧
            vertexKeys precision positions !! i = Some k ∧
            vertexKeys precision positions !! i' = Some k.
Proof.
  intros Hlen Hinv Hx.
  assert (i < n) as Hi.
  { apply lookup_lt_Some in Hx. by rewrite (inv_remap_length _ _ _ _ _ Hinv) in Hx. }
  destruct (lookup_lt_is_Some_2 (vertexKeys precision positions) i) as [k Hk].
  { by rewrite (vertexKeys_length _ _ n). }
  destruct (inv_remap _ _ _ _ _ Hinv i k Hi Hk) as (j & Hj & Hr).
  destruct (inv_map _ _ _ _ _ Hinv k j Hj) as (i' & Hi' & Hk').
  exists j, i', k. rewrite (Hr Hi) in Hx. injection Hx as <-. done.
Qed.

Lemma ofNat_wrapped_lt (j m : nat) :
  j < m → (toElement Uint32Array (ofNat j) < ofNat m)%Q.
Proof.
  intros Hlt. rewrite toElement_Uint32_ofNat. unfold ofNat.
  rewrite <- Zlt_Qlt.
  pose proof (Z.mod_le (Z.of_nat j) (2 ^ 32) ltac:(lia) ltac:(lia)). lia.
Qed.

(** X31.  One step of the loop, on a store that other primitives may
    share.  When every index value of the primitive is below its vertex
    count and its step returns, the vertex count has not grown and every
    value of its index buffer, rebuilt or not, is below the new vertex
    count. *)
Theorem mergePrimitive_indices_in_range (precision : Q)
    (accs accs' : gmap nat Accessor) (p : Primitive) :
  wf_accessors accs →
  wf_positions accs [p] →
  indicesInRange accs p →
  mergePrimitive precision accs p = Normal accs' →
  vertexCount accs' p ≤ vertexCount accs p ∧ indicesInRange accs' p.
Proof.
  intros Hwf Hwp Hin [[-> ?]|Hrw]%mergePrimitive_Normal; [done|].
  destruct Hrw as (P & idx & positions & indices & n & h & newIndices & accs1 &
    HP & Hidx & Hpos & Hind & Hlen & Hinv & Hbuild & Hne & Hri & Hfold & Hset).
  rewrite wf_positions_alt in Hwp.
  destruct (Hwp p p P) as [Hes HneP]; [by apply list_elem_of_singleton..|done|].
  assert (idx ≠ P) as HidxP by congruence.
  destruct (rewrite_positions precision accs accs1 accs' p P idx n positions
    newIndices h HP Hpos Hinv Hfold Hset) as (arr & Harr & Hv & Harrlen & Hnd);
    try done.
  { rewrite wf_accessors_alt in Hwf. by apply (Hwf P). }
  pose proof (rewrite_indices accs accs1 accs' p idx indices newIndices h
    Hind Hfold Hset) as Hnew.
  assert (vertexCount accs' p = length (newToOld h)) as Hcount'.
  { unfold vertexCount. rewrite HP. cbn -[Nat.div]. rewrite Harr, Harrlen.
    by rewrite Nat.div_mul. }
  assert (vertexCount accs p = n) as Hcount.
  { unfold vertexCount. rewrite HP. cbn -[Nat.div]. rewrite Hpos, Hlen.
    by rewrite Nat.div_mul. }
  split.
  - rewrite Hcount', Hcount. apply (inv_count _ _ _ _ _ Hinv).
  - unfold indicesInRange, indexValues. rewrite Hidx. simpl.
    rewrite Hnew, Hcount'.
    apply remapIndices_Normal in Hri as (_ & _ & Hall).
    apply Forall2_Forall_r with (Q := λ r, (r < ofNat (length (newToOld h)))%Q)
      in Hall; [done|].
    apply Forall_true. intros v r (i & x & _ & Hx & ->).
    destruct (remap_canonical _ _ _ _ _ _ Hlen Hinv Hx)
      as (j & i' & k & -> & Hj & _).
    rewrite toElement_idem. apply ofNat_wrapped_lt.
    by apply lookup_lt_Some in Hj.
Qed.

Lemma mergePrimitive_indices_in_range_witness :
  vertexCount (doc_accessors quadMerged) quadPrimitive
    ≤ vertexCount quadAccessors quadPrimitive ∧
  indicesInRange (doc_accessors quadMerged) quadPrimitive.
Proof.
  apply (mergePrimitive_indices_in_range (1 / (1 # 10000)) quadAccessors).
  - apply (bool_decide_unpack _). vm_compute. exact I.
  - apply (bool_decide_unpack _). vm_compute. exact I.
  - apply (bool_decide_unpack _). vm_compute. exact I.
  - vm_compute. reflexivity.
Defined.

(** C9, at the failing input.  The guards skip the point cloud, which has
    no index buffer; the step of the triangle next to it compacts the
    POSITION accessor that both share, and so the position buffer of the
    skipped primitive loses a vertex. *)
Theorem mergeByDistance_rewrites_skipped_primitive :
  prim_indices pointsPrimitive = None ∧
  pointsPrimitive ∈ listPrimitives sharedDocument ∧
  ∃ doc',
    mergeByDistance (1 # 10000) sharedDocument = Normal doc' ∧
    (getAttribute pointsPrimitive "POSITION"
       ≫= getArray (doc_accessors sharedDocument))
      = Some (mkTypedArray Float32Array
                [0; 0; 0;  1; 0; 0;  0; 1; 0;  0; 0; 0]%Q) ∧
    (getAttribute pointsPrimitive "POSITION" ≫= getArray (doc_accessors doc'))
      = Some (mkTypedArray Float32Array [0; 0; 0;  1; 0; 0;  0; 1; 0]%Q).
Proof.
  split; [done|]. split; [by right; left|].
  eexists. split; [vm_compute; reflexivity|]. split; vm_compute; reflexivity.
Qed.

(** C5, at the failing input.  Two indexed triangles share one POSITION
    accessor of four vertices, the last one a repetition of the first; the
    document is well-formed and every index value of both primitives is
    below the vertex count.  The step of the first triangle compacts the
    accessor of both to three vertices and rebuilds its own index buffer;
    the step of the second one then finds no duplicate and leaves its
    index buffer as it was.  After [mergeByDistance] the second triangle
    has three vertices and the index 3, which names none of them. *)
Theorem mergeByDistance_shared_positions :
  wf_doc twoTrianglesDocument ∧
  Forall (indicesInRange (doc_accessors twoTrianglesDocument))
         (listPrimitives twoTrianglesDocument) ∧
  secondTriangle ∈ listPrimitives twoTrianglesDocument ∧
  vertexCount (doc_accessors twoTrianglesDocument) secondTriangle = 4 ∧
  ∃ doc',
    mergeByDistance (1 # 10000) twoTrianglesDocument = Normal doc' ∧
    vertexCount (doc_accessors doc') secondTriangle = 3 ∧
    indexValues (doc_accessors doc') secondTriangle = [1; 2; 3]%Q ∧
    ¬ indicesInRange (doc_accessors doc') secondTriangle.
Proof.
  split; [apply (bool_decide_unpack _); vm_compute; exact I|].
  split; [apply (bool_decide_unpack _); vm_compute; exact I|].
  split; [by right; left|].
  split; [vm_compute; reflexivity|].
  eexists. split; [vm_compute; reflexivity|].
  split; [vm_compute; reflexivity|]. split; [vm_compute; reflexivity|].
  apply (bool_decide_unpack _). vm_compute. exact I.
Qed.

(** What the guards do give: the step of a primitive that they skip writes
    to no accessor at all. *)
Lemma mergePrimitive_skips (precision : Q) (accs : gmap nat Accessor)
    (p : Primitive) :
  getAttribute p "POSITION" = None ∨ prim_indices p = None ∨
  (getAttribute p "POSITION" ≫= getArray accs) = None ∨
  (prim_indices p ≫= getArray accs) = None →
  mergePrimitive precision accs p = Normal accs.
Proof.
  intros H. apply mergePrimitive_distinct. unfold distinctPositions.
  destruct (getAttribute p "POSITION") as [P|]; [|done].
  destruct (prim_indices p) as [idx|]; [|done].
  simpl in H.
  destruct (getArray accs P); [|done].
  destruct (getArray accs idx); [|done].
  by destruct H as [?|[?|[?|?]]].
Qed.

End MergeClaims.

(** ** removeDegenerateFaces: the statements of the specification *)

Module FacesClaims.
Import RemoveDegenerateFaces MergeByDistance MergeHash MergeCompact
  MergePrimitive FacesProps FacesDocument.



End FacesClaims.

(** ** The index buffers written by the two transforms *)

Module IndexClaims.
Import RemoveDegenerateFaces MergeByDistance MergeHash MergeCompact
  MergePrimitive FacesProps FacesDocument.

(** C10.  When [mergePrimitive] or [removeDegeneratePrimitive] returns, the
    index buffer is the array of before, or a [Uint32Array] whatever the
    constructor of the old array was.  After a merge its k-th value is
    exactly [remap[old[k]]]; after the removal of faces, given an integer
    index array, its values are the values of the kept triples of the old
    array, in their order. *)
Theorem index_rewrite_is_Uint32 (precision minArea : Q)
    (accs : gmap nat Accessor) (p : Primitive) (idx : nat) (old : TypedArray) :
  prim_indices p = Some idx →
  getArray accs idx = Some old →
  (∀ accs', mergePrimitive precision accs p = Normal accs' →
     ∃ new, getArray accs' idx = Some new ∧
       (new = old ∨
        (ctor new = Uint32Array ∧
         ∃ P positions h,
           getAttribute p "POSITION" = Some P ∧
           getArray accs P = Some positions ∧
           buildHash precision (elems positions) = Normal h ∧
           Forall2 (λ v r, ∃ i, toIndex v = Some i ∧ remap h !! i = Some r)
                   (elems old) (elems new)))) ∧
  (validArray old → ctor old ≠ Float32Array →
   ∀ accs', removeDegeneratePrimitive minArea accs p = Normal accs' →
     ∃ new, getArray accs' idx = Some new ∧
       (new = old ∨
        (ctor new = Uint32Array ∧
         length (elems new) < length (elems old) ∧
         ∃ kept, kept `sublist_of` chunks3 (elems old) ∧
                 elems new = flatten kept ∧
                 elems new `sublist_of` elems old))).
Proof.
  intros Hidx Hold. split.
  - intros accs' [[-> _]|Hrw]%mergePrimitive_Normal; [exists old; auto|].
    destruct Hrw as (P & idx' & positions & indices & n & h & newIndices &
      accs1 & HP & Hidx' & Hpos & Hind & Hlen & Hinv & Hbuild & Hne & Hri &
      Hfold & Hset).
    assert (idx' = idx) as -> by congruence.
    assert (indices = old) as -> by congruence.
    exists newIndices. split.
    { by eapply rewrite_indices. }
    right. apply remapIndices_Normal in Hri as (Hc & _ & Hall).
    split; [done|]. exists P, positions, h. do 3 (split; [done|]).
    eapply Forall2_impl; [exact Hall|].
    intros v r (i & x & Hi & Hx & ->). exists i. split; [done|].
    destruct (MergeClaims.remap_canonical _ _ _ _ _ _ Hlen Hinv Hx)
      as (j & _ & _ & -> & _).
    by rewrite toElement_idem.
  - intros Hvalid Hc accs'
      [[-> _]|Hrw]%removeDegeneratePrimitive_Normal; [exists old; auto|].
    destruct Hrw as (P & idx' & positions & indices & kept & n & Hm & HP &
      Hidx' & Hpos & Hind & Hlen & Hsound & Hsub & Hcase).
    assert (idx' = idx) as -> by congruence.
    assert (indices = old) as -> by congruence.
    destruct Hcase as [[-> _]|[Hlt ->]]; [exists old; auto|].
    exists (arrayFrom Uint32Array (flatten kept)). split.
    { by eapply getArray_setArray_eq. }
    right. rewrite (kept_widen minArea (elems positions) old kept) by done.
    simpl. split; [done|]. split; [done|]. exists kept.
    split; [done|]. split; [done|].
    rewrite <- (flatten_chunks3 (elems old) n Hlen).
    by apply flatten_sublist.
Qed.

Lemma index_rewrite_is_Uint32_witness :
  (∃ new, getArray (doc_accessors quadMerged) 2 = Some new ∧
     (new = mkTypedArray Uint16Array [0; 1; 2;  1; 2; 3;  0; 3; 1]%Q ∨
      (ctor new = Uint32Array ∧
       ∃ P positions h,
         getAttribute quadPrimitive "POSITION" = Some P ∧
         getArray quadAccessors P = Some positions ∧
         buildHash (1 / (1 # 10000)) (elems positions) = Normal h ∧
         Forall2 (λ v r, ∃ i, toIndex v = Some i ∧ remap h !! i = Some r)
                 [0; 1; 2;  1; 2; 3;  0; 3; 1]%Q (elems new)))) ∧
  (∃ new, getArray (doc_accessors quadCleaned) 2 = Some new ∧
     (new = mkTypedArray Uint16Array [0; 1; 2;  1; 2; 3;  0; 3; 1]%Q ∨
      (ctor new = Uint32Array ∧
       length (elems new) < 9 ∧
       ∃ kept, kept `sublist_of` chunks3 [0; 1; 2;  1; 2; 3;  0; 3; 1]%Q ∧
               elems new = flatten kept ∧
               elems new `sublist_of` [0; 1; 2;  1; 2; 3;  0; 3; 1]%Q))).
Proof.
  destruct (index_rewrite_is_Uint32 (1 / (1 # 10000)) (1 # 10000000000)
              quadAccessors quadPrimitive 2
              (mkTypedArray Uint16Array [0; 1; 2;  1; 2; 3;  0; 3; 1]%Q))
    as [Hmerge Hfaces].
  - reflexivity.
  - vm_compute. reflexivity.
  - split.
    + apply Hmerge. vm_compute. reflexivity.
    + apply Hfaces.
      * apply (bool_decide_unpack _). vm_compute. exact I.
      * discriminate.
      * vm_compute. reflexivity.
Defined.

End IndexClaims.

(** ** normalizeWeights: the statements of the specification *)

Module WeightsClaims.
Import NormalizeWeights.

(** C6, at the failing input.  The weights 128 and 127 of a [Uint8Array]
    sum to 255; each quotient by the sum is below 1 and the array stores
    its integer part, so the vertex ends with all weights 0: the components
    of a vertex with a positive sum do not sum to 1 afterwards. *)
Theorem normalizeWeights_truncates_byte_weights :
  weightSum [128; 127; 0; 0]%Q 4 0 = Normal 255%Q ∧
  ∃ doc',
    normalizeWeights byteWeightsDocument = Normal doc' ∧
    getArray (doc_accessors doc') 0
      = Some (mkTypedArray Uint8Array [0; 0; 0; 0]%Q) ∧
    weightSum [0; 0; 0; 0]%Q 4 0 = Normal 0%Q.
Proof.
  split; [vm_compute; reflexivity|].
  eexists. split; [vm_compute; reflexivity|].
  split; vm_compute; reflexivity.
Qed.

End WeightsClaims.

(** ** compress: the statements of the specification *)

Module CompressClaims.
Import Compress CompressRuns.

Local Opaque runStage.

(** Splits the run on the outcome of every transform, one after the
    other, and of every other collaborator. *)
Local Ltac step_run H :=
  repeat match type of H with
         | context [runStage ?w ?s ?d] =>
             destruct (runStage w s d) eqn:?; cbn in H
         end.

Local Ltac absent H :=
  repeat (apply elem_of_cons in H as [H|H]; [discriminate H|]);
  by apply elem_of_nil in H.

Local Ltac member :=
  repeat match goal with
         | |- _ ∧ _ => split
         | |- _ ∉ _ => let H := fresh in intros H; absent H
         | |- _ ∈ _ => by repeat constructor
         | |- ∀ _, _ => intros ?
         | H : Throw _ = Normal _ |- _ => discriminate H
         | H : _ ∈ _ |- _ => first [done | absent H]
         | |- _ => done
         end.

Lemma compressWithMeshopt_method (world : World) (trace trace' : list Stage)
    (doc : Document) (hasSkins : bool) (result : CompressResult) :
  compressWithMeshopt world trace doc hasSkins = (trace', Normal result) →
  method result = "meshopt".
Proof.
  unfold compressWithMeshopt.
  destruct (if hasSkins then _ else _) as [t [d|e]]; simpl; [|by intros [= _ ?]].
  destruct (writeBinary world d); simpl; [|by intros [= _ ?]].
  by intros [= _ <-].
Qed.

Lemma compressWithGltfpack_fallback (world : World)
    (cleanBuffer : list Byte.byte) (hasSkins : bool) (preset : CompressPreset)
    (dir : string) :
  mkdtemp world = Normal dir → rm world dir = Normal () →
  ¬ gltfpackSucceeded
      (gltfpack world (gltfpackArgs dir hasSkins preset) cleanBuffer) →
  compressWithGltfpack world cleanBuffer hasSkins preset = Normal None.
Proof.
  intros Hmk Hrm Hfail. unfold gltfpackArgs in Hfail.
  unfold compressWithGltfpack, withTempDir. rewrite Hmk.
  cbn [mbind Completion_bind].
  destruct (gltfpack world _ cleanBuffer) as [| | |exitCode [output|]];
    try (by rewrite Hrm).
  - case_bool_decide; [by rewrite Hrm|].
    exfalso. apply Hfail. exists output. f_equal.
    destruct (decide (exitCode = 0%Z)); [done|]. tauto.
  - case_bool_decide; by rewrite Hrm.
Qed.

Lemma log_returns (host : CompressLog.Host) (msg : CompressLog.Message) :
  CompressLog.logReturns host → CompressLog.log host msg = Normal ().
Proof.
  intros Hlog. unfold CompressLog.log.
  destruct (CompressLog.onLog host) as [callback|] eqn:Hcb; [|done].
  by apply Hlog.
Qed.

(** What [compress] passes to [document.transform] itself.  The flag is
    computed once, on the document as read.  With at least one skin, no
    run of [compress], whether it returns or throws, invokes
    [mergeByDistance], [reorder] or any other transform of the geometry
    phase; [normalizeWeights] is invoked on skinned documents only; and
    whatever the flag, a run that returns has invoked
    [removeStaticTracksWithBake] and [textureCompress].  What a transform
    of the library runs inside is not in the trace. *)
Theorem compress_skin_gating (world : World) (input : list Byte.byte)
    (options : CompressOptions) (document : Document) (trace : list Stage)
    (result : Completion CompressResult) :
  readBinary world input = Normal document →
  compress world input options = (trace, result) →
  ((0 < doc_skins (stripCompressionExtensions world document)) →
     (mergeByDistance ∉ trace) ∧ (reorder ∉ trace) ∧
     (removeDegenerateFaces ∉ trace) ∧ (decimateBloatedMeshes ∉ trace)) ∧
  (normalizeWeights ∈ trace →
     (0 < doc_skins (stripCompressionExtensions world document))) ∧
  (∀ r, result = Normal r →
     removeStaticTracksWithBake ∈ trace ∧ textureCompress ∈ trace).
Proof.
  intros Hread Hc.
  unfold compress, prepare, finalCompression, compressWithMeshopt in Hc.
  rewrite Hread in Hc. cbn [lift andThen] in Hc.
  set (doc0 := stripCompressionExtensions world document) in *.
  case_bool_decide as Hskins; cbn in Hc.
  - (* skinned *)
    step_run Hc; try (injection Hc as <- <-; member).
    all: destruct (simplifyRatio options) as [ratio|];
      [destruct (Qltb 0 ratio && Qltb ratio 1)|]; cbn in Hc;
      step_run Hc; try (injection Hc as <- <-; member).
    all: destruct (writeBinary world _); cbn in Hc;
      try (injection Hc as <- <-; member).
    all: destruct (hasGltfpack world);
      [destruct (compressWithGltfpack world _ _ _) as [[?|]|]|]; cbn in Hc;
      step_run Hc; try (injection Hc as <- <-; member).
    all: destruct (writeBinary world _); cbn in Hc;
      injection Hc as <- <-; member.
  - (* static *)
    step_run Hc; try (injection Hc as <- <-; member).
    all: destruct (simplifyRatio options) as [ratio|];
      [destruct (Qltb 0 ratio && Qltb ratio 1)|]; cbn in Hc;
      step_run Hc; try (injection Hc as <- <-; member).
    all: destruct (writeBinary world _); cbn in Hc;
      try (injection Hc as <- <-; member).
    all: destruct (hasGltfpack world);
      [destruct (compressWithGltfpack world _ _ _) as [[?|]|]|]; cbn in Hc;
      step_run Hc; try (injection Hc as <- <-; member).
    all: destruct (writeBinary world _); cbn in Hc;
      injection Hc as <- <-; member.
Qed.

Lemma compress_skin_gating_witness :
  let trace := [analyzeMeshComplexity; dedup; prune; removeUnusedUVs; instance;
                sparse; resample; removeStaticTracksWithBake; normalizeWeights;
                textureCompress; prune; meshopt] in
  ((0 < doc_skins (emptyDocument 1)) →
     (mergeByDistance ∉ trace) ∧ (reorder ∉ trace) ∧
     (removeDegenerateFaces ∉ trace) ∧ (decimateBloatedMeshes ∉ trace)) ∧
  (normalizeWeights ∈ trace → (0 < doc_skins (emptyDocument 1))) ∧
  (∀ r, Normal (mkResult [Byte.x67; Byte.x6c; Byte.x54; Byte.x46] "meshopt"
                         (Some 0)) = Normal r →
     removeStaticTracksWithBake ∈ trace ∧ textureCompress ∈ trace).
Proof.
  apply (compress_skin_gating (exampleWorld 1 (Exited 1 None)) []
           defaultOptions (emptyDocument 1)).
  - reflexivity.
  - vm_compute. reflexivity.
Defined.


(** C3, as the code has it.  Once the clean buffer is written, if the
    external step fails, the in-process codec returns and the callback of
    the caller returns on every message, [compress] returns: the buffer is
    the one of the codec, the method is ["meshopt"] (the other method is
    ["gltfpack"]), and the size of the input is attached.  Nothing of the
    external failure reaches the caller. *)
Theorem compress_falls_back (world : World) (host : CompressLog.Host)
    (input : list Byte.byte) (options : CompressOptions)
    (trace trace' : list Stage) (document : Document) (hasSkins : bool)
    (cleanBuffer : list Byte.byte) (result : CompressResult) :
  CompressLog.prepare world host input options
    = (trace, Normal (document, hasSkins, cleanBuffer)) →
  CompressLog.externalStepFails world hasSkins
    (default preset_default (preset options)) cleanBuffer →
  CompressLog.logReturns host →
  compressWithMeshopt world trace document hasSkins = (trace', Normal result) →
  CompressLog.compress world host input options
    = (trace', Normal (mkResult (buffer result) "meshopt"
                                (Some (length input)))).
Proof.
  intros Hprep Hfail Hlog Hmesh.
  pose proof (compressWithMeshopt_method _ _ _ _ _ _ Hmesh) as Hmethod.
  unfold CompressLog.compress. rewrite Hprep.
  cbn [andThen CompressLog.finalCompression].
  assert (CompressLog.meshoptFallback world host input document hasSkins trace
          = (trace', Normal (mkResult (buffer result) "meshopt"
                                      (Some (length input))))) as Hfb.
  { unfold CompressLog.meshoptFallback.
    rewrite log_returns by done. cbn [lift andThen]. rewrite Hmesh.
    cbn [andThen]. rewrite log_returns by done. cbn [lift andThen].
    unfold withOriginalSize. by rewrite Hmethod. }
  destruct Hfail as [->|(dir & Hmk & Hrm & Hrun)]; [done|].
  destruct (hasGltfpack world); [|done].
  rewrite log_returns by done. cbn [lift andThen].
  by rewrite (compressWithGltfpack_fallback _ _ _ _ dir).
Qed.

Lemma compress_falls_back_witness :
  CompressLog.compress (exampleWorld 1 (Exited 1 None))
    CompressLog.listeningHost [Byte.x00] defaultOptions
  = ([analyzeMeshComplexity; dedup; prune; removeUnusedUVs; instance;
      sparse; resample; removeStaticTracksWithBake; normalizeWeights;
      textureCompress; prune; meshopt],
     Normal (mkResult [Byte.x67; Byte.x6c; Byte.x54; Byte.x46] "meshopt"
                      (Some 1))).
Proof.
  apply (compress_falls_back (exampleWorld 1 (Exited 1 None))
           CompressLog.listeningHost [Byte.x00] defaultOptions
           [analyzeMeshComplexity; dedup; prune; removeUnusedUVs; instance;
            sparse; resample; removeStaticTracksWithBake; normalizeWeights;
            textureCompress; prune]
           _ (emptyDocument 1) true [Byte.x67; Byte.x6c; Byte.x54; Byte.x46]
           (mkResult [Byte.x67; Byte.x6c; Byte.x54; Byte.x46] "meshopt" None)).
  - vm_compute. reflexivity.
  - right. exists "/tmp/gltf-compress-a1b2c3"%string.
    split; [reflexivity|]. split; [reflexivity|].
    intros [output Hrun]. vm_compute in Hrun. discriminate Hrun.
  - intros callback msg [= <-]. reflexivity.
  - vm_compute. reflexivity.
Defined.

(** The claim as the specification words it fails in four runs after
    exit code 1.  When the in-process codec returns, the method of the
    result is not ["fallback"] (nor would it ever be ["external"]).  And
    [compress] does throw when the in-process codec throws, when the
    temporary directory cannot be removed, and when the callback of the
    caller throws at the announcement of the fallback. *)
Lemma compress_after_external_failure :
  let phases :=
    [analyzeMeshComplexity; dedup; prune; removeUnusedUVs; instance;
     sparse; resample; removeStaticTracksWithBake; normalizeWeights;
     textureCompress; prune] in
  (∃ result,
     CompressLog.compress (exampleWorld 1 (Exited 1 None))
       CompressLog.listeningHost [Byte.x00] defaultOptions
       = (phases ++ [meshopt], Normal result) ∧
     method result ≠ "fallback" ∧ method result ≠ "external") ∧
  CompressLog.compress (CompressLog.brokenEncoderWorld 1 (Exited 1 None))
    CompressLog.listeningHost [Byte.x00] defaultOptions
  = (phases ++ [meshopt], Throw (Error "encoder dependency required")) ∧
  CompressLog.compress (CompressLog.busyTempDirWorld 1 (Exited 1 None))
    CompressLog.listeningHost [Byte.x00] defaultOptions
  = (phases, Throw (Error "EBUSY")) ∧
  CompressLog.compress (exampleWorld 1 (Exited 1 None))
    CompressLog.closedStreamHost [Byte.x00] defaultOptions
  = (phases, Throw (Error "Invalid state: Controller is already closed")).
Proof.
  split; [eexists; split; [vm_compute; reflexivity|by split]|].
  repeat split; vm_compute; reflexivity.
Qed.

Lemma andThen_ext {A B : Type} (r : Run A)
    (k1 k2 : list Stage → A → Run B) :
  (∀ trace a, k1 trace a = k2 trace a) → andThen r k1 = andThen r k2.
Proof. intros Hk. destruct r as [trace [a|e]]; [apply Hk|done]. Qed.

(** With a callback that returns and without the debug dumps, the run is
    the one of [Compress.compress], apart from the text of a parse
    failure. *)
Lemma compress_without_log (world : World) (host : CompressLog.Host)
    (input : list Byte.byte) (options : CompressOptions)
    (document : Document) :
  readBinary world input = Normal document →
  CompressLog.logReturns host → CompressLog.noDebug host →
  CompressLog.compress world host input options
  = compress world input options.
Proof.
  intros Hread Hlog [Hraw Hclean].
  assert (CompressLog.prepare world host input options
          = prepare world input options) as Hprep.
  { unfold CompressLog.prepare, prepare.
    rewrite Hread. cbn [lift andThen].
    unfold CompressLog.debugRaw. rewrite Hraw. cbn [lift andThen].
    set (doc0 := stripCompressionExtensions world document).
    destruct (bool_decide (0 < doc_skins doc0));
      rewrite ?log_returns by done; cbn [lift andThen].
    all: do 6 (apply andThen_ext; intros ? ?).
    all: destruct (simplifyRatio options) as [ratio|];
      [destruct (Qltb 0 ratio && Qltb ratio 1)|];
      rewrite ?log_returns by done; cbn [lift andThen].
    all: apply andThen_ext; intros ? ?.
    all: destruct (writeBinary world _) as [cleanBuffer|e]; [|done].
    all: rewrite log_returns by done.
    all: unfold CompressLog.debugClean; by rewrite Hclean. }
  unfold CompressLog.compress, compress. rewrite Hprep.
  apply andThen_ext. intros trace [[doc hasSkins] cleanBuffer].
  assert (CompressLog.meshoptFallback world host input doc hasSkins trace
          = andThen (compressWithMeshopt world trace doc hasSkins)
              (λ trace0 result0, withOriginalSize trace0 result0 input))
    as Hfb.
  { unfold CompressLog.meshoptFallback.
    rewrite log_returns by done. cbn [lift andThen].
    apply andThen_ext. intros ? ?. by rewrite log_returns by done. }
  unfold CompressLog.finalCompression, finalCompression.
  destruct (hasGltfpack world); [|done].
  rewrite log_returns by done. cbn [lift andThen].
  destruct (compressWithGltfpack world cleanBuffer hasSkins _) as [[r|]|e];
    cbn [andThen]; [|done..].
  by rewrite log_returns by done.
Qed.

End CompressClaims.

(** ** removeStaticTracksWithBake: the statements of the specification *)

Module TracksClaims.
Import RemoveDegenerateFaces RemoveStaticTracks TracksAnalysis TracksSweep.

(** X30.  What the three passes remove.  For a tolerance that is not
    negative, when [removeStaticTracksWithBake] returns, a channel of an
    animation that has a target is removed exactly when its key has
    consensus as pass 2 decides it: every track of the key over all
    animations is static, the value of each track agrees within the
    tolerance with the value of the first track of the key, and the rest
    pose of the node agrees with that first value.  A channel whose key has
    no such consensus is retained with its target, whether it is static or
    not. *)
Theorem removeStaticTracks_consensus (tolerance : Q) (doc doc' : Document)
    (c : nat) (channel : AnimationChannel) (key : Z * TargetPath) :
  (0 <= tolerance)%Q →
  removeStaticTracksWithBake tolerance doc = Normal doc' →
  c ∈ listChannels doc →
  doc_channels doc !! c = Some channel →
  keyOf doc channel = Some key →
  (doc_channels doc' !! c = None ↔ Consensus tolerance doc key) ∧
  (¬ Consensus tolerance doc key →
   ∃ channel', doc_channels doc' !! c = Some channel' ∧
               channel_targetNode channel' = channel_targetNode channel ∧
               channel_targetPath channel' = channel_targetPath channel).
Proof.
  intros Htol Hrun Hc Hch Hkey. unfold removeStaticTracksWithBake in Hrun.
  destruct (removeStaticTracksRun tolerance doc) as [st|e] eqn:Hst;
    simpl in Hrun; [|done].
  injection Hrun as <-.
  destruct (removeStaticTracksRun_removed tolerance doc st c channel key)
    as (m & Hm & Hiff & Hkept); [done..|].
  assert (key ∈ removableKeys tolerance doc m ↔ Consensus tolerance doc key)
    as Hcons.
  { rewrite removableKeys_isRemovable.
    apply isRemovable_Consensus; [done|]. by apply buildTrackMap_tracks. }
  rewrite Hiff, Hcons. split; [done|].
  intros Hno. destruct Hkept as [Hnone|Hsome]; [|done].
  destruct Hno. by apply Hcons, Hiff.
Qed.

Lemma removeStaticTracks_consensus_witness :
  (doc_channels spreadSwept !! 0 = None ↔
   Consensus (1 # 1000000) spreadDocument (0%Z, translation)) ∧
  (¬ Consensus (1 # 1000000) spreadDocument (0%Z, translation) →
   ∃ channel', doc_channels spreadSwept !! 0 = Some channel' ∧
               channel_targetNode channel' = Some 0 ∧
               channel_targetPath channel' = Some translation).
Proof.
  apply (removeStaticTracks_consensus (1 # 1000000) spreadDocument spreadSwept
           0 (mkChannel (Some 0) (Some 0) (Some translation))
           (0%Z, translation)).
  - discriminate.
  - vm_compute. reflexivity.
  - apply (bool_decide_unpack _). vm_compute. exact I.
  - vm_compute. reflexivity.
  - reflexivity.
Defined.

(** C1, at the failing input.  Three animations hold the translation of a
    node, resting at 0, at 0, at 1e-6 and at -1e-6.  With the tolerance
    1e-6 the second and the third value do not agree with each other, so
    the key has no consensus in the sense of the claim and of the
    documentation of the function; yet all its channels are removed,
    because each value agrees with the first one. *)
Theorem removeStaticTracks_without_pairwise_agreement :
  removeStaticTracksWithBake (1 # 1000000) spreadDocument
    = Normal spreadSwept ∧
  1 ∈ listChannels spreadDocument ∧
  (doc_channels spreadDocument !! 1 ≫= keyOf spreadDocument)
    = Some (0%Z, translation) ∧
  doc_channels spreadSwept !! 1 = None ∧
  ¬ PairwiseConsensus (1 # 1000000) spreadDocument (0%Z, translation).
Proof.
  split; [vm_compute; reflexivity|].
  split; [apply (bool_decide_unpack _); vm_compute; exact I|].
  split; [reflexivity|]. split; [reflexivity|].
  intros (first & rest & base & Htracks & _ & Hpair & _).
  assert (tracksOf spreadDocument (0%Z, translation)
          = [ ([0; 0; 0;  0; 0; 0]%Q, 3);
              ([1 # 1000000; 0; 0;  1 # 1000000; 0; 0]%Q, 3);
              ([- (1 # 1000000); 0; 0;  - (1 # 1000000); 0; 0]%Q, 3) ])
    as Heq by (vm_compute; reflexivity).
  rewrite Heq in Htracks. injection Htracks as <- <-.
  specialize (Hpair ([1 # 1000000; 0; 0;  1 # 1000000; 0; 0]%Q, 3)
                    ([- (1 # 1000000); 0; 0;  - (1 # 1000000); 0; 0]%Q, 3)).
  assert (Within (1 # 1000000) [1 # 1000000; 0; 0]%Q
                 [- (1 # 1000000); 0; 0]%Q) as Hwithin.
  { apply Hpair.
    - apply list_elem_of_further, list_elem_of_here.
    - apply list_elem_of_further, list_elem_of_further, list_elem_of_here. }
  inversion Hwithin as [|x y xs ys Hle _]; subst.
  apply Qle_bool_iff in Hle. vm_compute in Hle. discriminate.
Qed.

(** The same three clips with the second one first: now the value 1e-6 is
    the reference, the value -1e-6 is too far from it, and nothing is
    removed.  What is removed depends on the order of the animations. *)
Lemma removeStaticTracks_depends_on_order :
  doc_animations spreadReordered ≡ₚ doc_animations spreadDocument ∧
  doc_channels spreadReordered = doc_channels spreadDocument ∧
  doc_samplers spreadReordered = doc_samplers spreadDocument ∧
  removeStaticTracksWithBake (1 # 1000000) spreadReordered
    = Normal spreadReordered ∧
  removeStaticTracksWithBake (1 # 1000000) spreadDocument
    = Normal spreadSwept.
Proof.
  split; [apply Permutation_swap|].
  repeat split; vm_compute; reflexivity.
Qed.

(** C8.  In a document where every sampler that a channel references is
    listed by an animation, take a channel as it is before the run, with
    the sampler that it references then.  If [removeStaticTracksWithBake]
    retains the channel, the channel is afterwards what it was, its
    reference included, and the sampler is still in the document and is
    the sampler of before: a sampler is disposed only when no channel that
    stays references it, and no reference of a surviving channel dangles
    or is cleared. *)
Theorem removeStaticTracks_keeps_referenced_samplers (tolerance : Q)
    (doc doc' : Document) (c : nat) (channel : AnimationChannel) (s : nat) :
  wf_samplers doc →
  removeStaticTracksWithBake tolerance doc = Normal doc' →
  doc_channels doc !! c = Some channel →
  channel_sampler channel = Some s →
  is_Some (doc_channels doc' !! c) →
  doc_channels doc' !! c = Some channel ∧
  is_Some (doc_samplers doc' !! s) ∧
  doc_samplers doc' !! s = doc_samplers doc !! s.
Proof.
  intros Hwf Hrun Hc Hs [channel' Hc']. unfold removeStaticTracksWithBake in Hrun.
  destruct (removeStaticTracksRun tolerance doc) as [st|e] eqn:Hst;
    simpl in Hrun; [|done].
  injection Hrun as <-.
  destruct (removeStaticTracksRun_kept tolerance doc st Hwf Hst)
    as [Hchannels Hsamplers Hwf'].
  pose proof (Hchannels c channel' Hc') as Hsame.
  rewrite Hc in Hsame. injection Hsame as <-.
  split; [done|].
  specialize (Hwf' c channel Hc'). simpl in Hwf'. rewrite Hs in Hwf'.
  destruct Hwf' as [[sampler Hsampler] _].
  split; [by exists sampler|].
  rewrite Hsampler. symmetry. by apply Hsamplers.
Qed.

Lemma removeStaticTracks_keeps_referenced_samplers_witness :
  doc_channels sharedSamplerSwept !! 1
    = Some (mkChannel (Some 0) (Some 1) (Some translation)) ∧
  is_Some (doc_samplers sharedSamplerSwept !! 0) ∧
  doc_samplers sharedSamplerSwept !! 0
    = doc_samplers sharedSamplerDocument !! 0.
Proof.
  apply (removeStaticTracks_keeps_referenced_samplers (1 # 1000000)
           sharedSamplerDocument sharedSamplerSwept 1
           (mkChannel (Some 0) (Some 1) (Some translation)) 0).
  - apply (bool_decide_unpack _). vm_compute. exact I.
  - vm_compute. reflexivity.
  - vm_compute. reflexivity.
  - reflexivity.
  - eexists. vm_compute. reflexivity.
Defined.

End TracksClaims.

(** * Further properties of the code *)

(** ** utils.ts *)

Module UtilsProps.
Import Utils.

Lemma lor_shiftl_add (a b n : Z) :
  (0 ≤ n → 0 ≤ a < 2 ^ n → Z.lor a (Z.shiftl b n) = a + b * 2 ^ n)%Z.
Proof.
  intros Hn Ha. rewrite Z.shiftl_mul_pow2 by done.
  symmetry. apply Z.add_nocarry_lor. apply Z.bits_inj'. intros i Hi.
  rewrite Z.land_spec, Z.bits_0.
  destruct (Z.lt_ge_cases i n) as [Hlt|Hge].
  - rewrite Z.mul_pow2_bits_low by done. apply andb_false_r.
  - rewrite <- (Z.mod_small a (2 ^ n)) by done.
    rewrite Z.mod_pow2_bits_high by lia. done.
Qed.

Lemma byteAt_range (input : list Byte.byte) (i : nat) :
  (0 ≤ byteAt input i < 256)%Z.
Proof.
  unfold byteAt. destruct (input !! i) as [b|]; simpl; [|lia].
  pose proof (Byte.to_N_bounded b). lia.
Qed.

Lemma byteAt_value (input : list Byte.byte) (i : nat) (b : Byte.byte) :
  i < length input →
  byteAt input i = Z.of_N (Byte.to_N b) → input !! i = Some b.
Proof.
  intros Hi. unfold byteAt.
  destruct (lookup_lt_is_Some_2 input i Hi) as [b' ->]. simpl.
  intros H%(inj Z.of_N). f_equal.
  pose proof (Byte.of_to_N b) as H1. pose proof (Byte.of_to_N b') as H2.
  rewrite H in H2. congruence.
Qed.

Lemma getUint32LE_sum (input : list Byte.byte) :
  getUint32LE input =
  (byteAt input 0 + byteAt input 1 * 2 ^ 8 + byteAt input 2 * 2 ^ 16 +
   byteAt input 3 * 2 ^ 24)%Z.
Proof.
  unfold getUint32LE.
  pose proof (byteAt_range input 0). pose proof (byteAt_range input 1).
  pose proof (byteAt_range input 2). pose proof (byteAt_range input 3).
  rewrite (lor_shiftl_add (byteAt input 0)) by lia.
  rewrite (lor_shiftl_add _ (byteAt input 2)) by lia.
  rewrite (lor_shiftl_add _ (byteAt input 3)) by lia.
  done.
Qed.

(** X1.  [validateGlbMagic] returns exactly on the inputs that begin with the
    four bytes of the text "glTF"; it throws the "too small" error exactly
    on the inputs of fewer than four bytes, and an error that names the
    magic number found on every other input. *)
Theorem validateGlbMagic_accepts (input : list Byte.byte) :
  (validateGlbMagic input = Normal () ↔
   ∃ rest, input = Byte.x67 :: Byte.x6c :: Byte.x54 :: Byte.x46 :: rest) ∧
  (validateGlbMagic input = Throw (Error "File too small to be a valid GLB") ↔
   length input < 4) ∧
  (validateGlbMagic input = Normal () ∨
   validateGlbMagic input = Throw (Error "File too small to be a valid GLB") ∨
   validateGlbMagic input =
     Throw (Error ("Invalid GLB file: expected magic 0x46546c67, got "
                     +:+ hex (getUint32LE input)))).
Proof.
  unfold validateGlbMagic.
  destruct (Nat.ltb_spec (length input) 4) as [Hshort|Hlong].
  - split; [|split; [done|by right; left]].
    split; [done|]. intros [rest ->]. simpl in Hshort. lia.
  - case_bool_decide as Hmagic.
    + split; [|split; [|by right; right]].
      * split; [done|]. intros [rest ->]. by destruct Hmagic.
      * split; [|lia]. intros H. discriminate H.
    + split; [|split; [|by left]].
      * split; [|done]. intros _.
        rewrite getUint32LE_sum in Hmagic.
        pose proof (byteAt_range input 0). pose proof (byteAt_range input 1).
        pose proof (byteAt_range input 2). pose proof (byteAt_range input 3).
        unfold GLB_MAGIC in Hmagic.
        assert (byteAt input 0 = 0x67 ∧ byteAt input 1 = 0x6c ∧
                byteAt input 2 = 0x54 ∧ byteAt input 3 = 0x46)%Z
          as (Hb0 & Hb1 & Hb2 & Hb3) by lia.
        apply (byteAt_value input 0 Byte.x67) in Hb0; [|lia].
        apply (byteAt_value input 1 Byte.x6c) in Hb1; [|lia].
        apply (byteAt_value input 2 Byte.x54) in Hb2; [|lia].
        apply (byteAt_value input 3 Byte.x46) in Hb3; [|lia].
        destruct input as [|b0 [|b1 [|b2 [|b3 rest]]]]; try done.
        exists rest. simpl in *. congruence.
      * split; [done|lia].
Qed.

(** *** sanitizeFilename *)


Lemma lastSegment_whole (name segment : CodeUnits) :
  Forall (λ c, isSeparator c = false) name →
  fold_left (λ segment c, if isSeparator c then [] else segment ++ [c])
            name segment = segment ++ name.
Proof.
  revert segment; induction name as [|c name IH]; intros segment Hn; simpl.
  - by rewrite app_nil_r.
  - apply Forall_cons in Hn as [-> Hn]. rewrite IH by done.
    by rewrite <- app_assoc.
Qed.



Lemma dropWhile_id (f : N → bool) (s : CodeUnits) :
  (∀ c, head s = Some c → f c = false) → dropWhile f s = s.
Proof.
  destruct s as [|c s]; [done|]. intros H. simpl. by rewrite (H c).
Qed.


Lemma trimDotsAndSpaces_id (s : CodeUnits) :
  (∀ c, head s = Some c → isDotOrSpace c = false) →
  (∀ c, last s = Some c → isDotOrSpace c = false) →
  trimDotsAndSpaces s = s.
Proof.
  intros Hh Hl. unfold trimDotsAndSpaces. rewrite (dropWhile_id _ s) by done.
  rewrite dropWhile_id; [apply reverse_involutive|].
  intros c Hc. apply Hl. by rewrite <- head_reverse.
Qed.


(** X3.  A name that is already safe is returned as it is. *)
Theorem sanitizeFilename_keeps_safe_names (name : CodeUnits) :
  1 ≤ length name ≤ 200 →
  Forall (λ c, isSeparator c = false ∧ isInvalid c = false) name →
  (∀ c, head name = Some c → isDotOrSpace c = false) →
  (∀ c, last name = Some c → isDotOrSpace c = false) →
  sanitizeFilename name = name.
Proof.
  intros Hlen Hsafe Hh Hl. unfold sanitizeFilename, lastSegment.
  rewrite lastSegment_whole. 2:{ eapply Forall_impl; [done|]. by intros c []. }
  rewrite app_nil_l.
  assert ((λ c, if isInvalid c then 95%N else c) <$> name = name) as ->.
  { clear -Hsafe. induction Hsafe as [|c name [_ Hc] _ IH]; [done|].
    rewrite fmap_cons, Hc. by f_equal. }
  rewrite trimDotsAndSpaces_id, take_ge by (done || lia).
  rewrite bool_decide_eq_false_2; [done|]. intros ->. simpl in Hlen. lia.
Qed.

Lemma sanitizeFilename_keeps_safe_names_witness :
  sanitizeFilename (codeUnits "scene-01.glb") = codeUnits "scene-01.glb".
Proof.
  apply (sanitizeFilename_keeps_safe_names (codeUnits "scene-01.glb")).
  - vm_compute. lia.
  - apply (bool_decide_unpack _). vm_compute. exact I.
  - intros c [= <-]. reflexivity.
  - intros c [= <-]. reflexivity.
Defined.

End UtilsProps.

(** ** removeUnusedUVs *)

Module UVProps.
Import RemoveUnusedUVs.

(** *** The UV sets in use *)

Lemma collect_infos (infos : list (option Z)) (used : gset Z) (i : Z) :
  i ∈ fold_left (λ used info, match info with
                              | Some texCoord => {[texCoord]} ∪ used
                              | None => used
                              end) infos used ↔
  i ∈ used ∨ Some i ∈ infos.
Proof.
  revert used; induction infos as [|info infos IH]; intros used; simpl.
  - split; [by left|]. intros [?|H]; [done|]. by apply elem_of_nil in H.
  - rewrite IH, elem_of_cons. destruct info as [t|].
    + rewrite elem_of_union, elem_of_singleton.
      split; [intros [[->|?]|?]|intros [?|[[= ->]|?]]]; auto.
    + split; [intros [?|?]|intros [?|[?|?]]]; auto. done.
Qed.

Lemma collect_materials (materials : list Material) (used : gset Z) (i : Z) :
  i ∈ fold_left (λ used mat,
                   fold_left (λ used info, match info with
                                           | Some texCoord => {[texCoord]} ∪ used
                                           | None => used
                                           end) (texInfos mat) used)
                materials used ↔
  i ∈ used ∨ ∃ mat, mat ∈ materials ∧ Some i ∈ texInfos mat.
Proof.
  revert used; induction materials as [|mat materials IH]; intros used;
    cbn [fold_left].
  - split; [by left|]. intros [?|(mat & H & _)]; [done|].
    by apply elem_of_nil in H.
  - rewrite IH, collect_infos. split.
    + intros [[?|?]|(mat' & ? & ?)]; [by left|right..].
      * exists mat. split; [left|done].
      * exists mat'. split; [by right|done].
    + intros [?|(mat' & [->|?]%elem_of_cons & ?)]; [by left; left|by left; right|].
      right. by exists mat'.
Qed.

(** X4.  A UV set counts as used exactly when a texture slot of some material
    names it, or, for the set 0, when the document has a texture and no
    slot of any material names a set. *)
Theorem usedUVSets_spec (scene : Scene) (i : Z) :
  i ∈ usedUVSets scene ↔
  (∃ mat, mat ∈ scene_materials scene ∧ Some i ∈ texInfos mat) ∨
  (i = 0%Z ∧ 0 < scene_textures scene ∧
   ∀ mat j, mat ∈ scene_materials scene → Some j ∉ texInfos mat).
Proof.
  unfold usedUVSets, collectUVSets.
  set (used := fold_left _ (scene_materials scene) ∅).
  assert (∀ j, j ∈ used ↔
               ∃ mat, mat ∈ scene_materials scene ∧ Some j ∈ texInfos mat)
    as Hused.
  { intros j. unfold used. rewrite collect_materials.
    split; [intros [H|H]; [by apply not_elem_of_empty in H|done]|by right]. }
  assert (size used = 0 ↔
          ∀ mat j, mat ∈ scene_materials scene → Some j ∉ texInfos mat)
    as Hempty.
  { rewrite size_empty_iff. split.
    - intros He mat j Hmat Hj.
      apply (not_elem_of_empty (C := gset Z) j). rewrite <- He.
      apply Hused. by exists mat.
    - intros Hno. apply elem_of_equiv_empty. intros j (mat & ? & ?)%Hused.
      by eapply Hno. }
  destruct (Nat.ltb_spec 0 (scene_textures scene)) as [Htex|Htex];
    [destruct (Nat.eqb_spec (size used) 0) as [Hsize|Hsize]|]; simpl.
  - rewrite elem_of_union, elem_of_singleton, Hused. split.
    + intros [->|?]; [right|by left]. split; [done|]. split; [done|].
      by apply Hempty.
    + intros [?|(-> & _)]; [by right|by left].
  - rewrite Hused. split; [by left|]. intros [?|(_ & _ & Hno)]; [done|].
    by apply Hempty in Hno.
  - rewrite Hused. split; [by left|]. intros [?|(_ & ? & _)]; [done|lia].
Qed.

(** *** The attributes that stay *)

Lemma filter_ext_in {A : Type} (P Q : A → Prop) `{!∀ x, Decision (P x)}
    `{!∀ x, Decision (Q x)} (l : list A) :
  (∀ x, x ∈ l → P x ↔ Q x) → filter P l = filter Q l.
Proof.
  induction l as [|x l IH]; intros Hall; [done|].
  rewrite !filter_cons.
  rewrite IH by (intros y Hy; apply Hall; by right).
  destruct (decide (P x)) as [HP|HP], (decide (Q x)) as [HQ|HQ]; try done.
  - destruct HQ. apply Hall; [left|done].
  - destruct HP. apply Hall; [left|done].
Qed.

Lemma filter_all {A : Type} (P : A → Prop) `{!∀ x, Decision (P x)}
    (l : list A) :
  (∀ x, x ∈ l → P x) → filter P l = l.
Proof.
  induction l as [|x l IH]; intros Hall; [done|].
  rewrite filter_cons_True by (apply Hall; left).
  rewrite IH; [done|]. intros y Hy. apply Hall. by right.
Qed.

Lemma filter_none {A : Type} (P : A → Prop) `{!∀ x, Decision (P x)}
    (l : list A) :
  (∀ x, x ∈ l → ¬ P x) → filter P l = [].
Proof.
  induction l as [|x l IH]; intros Hall; [done|].
  rewrite filter_cons_False by (apply Hall; left).
  apply IH. intros y Hy. apply Hall. by right.
Qed.

Lemma find_filter {A : Type} (f : A → bool) (P : A → Prop)
    `{!∀ x, Decision (P x)} (l : list A) :
  (∀ x, f x = true → P x) → find f (filter P l) = find f l.
Proof.
  intros Hall. induction l as [|x l IH]; [done|].
  rewrite filter_cons. destruct (decide (P x)) as [HP|HP]; simpl.
  - by rewrite IH.
  - destruct (f x) eqn:Hf; [by destruct HP; apply Hall|done].
Qed.

Lemma find_filter_none {A : Type} (f : A → bool) (P : A → Prop)
    `{!∀ x, Decision (P x)} (l : list A) :
  (∀ x, f x = true → ¬ P x) → find f (filter P l) = None.
Proof.
  intros Hall. induction l as [|x l IH]; [done|].
  rewrite filter_cons. destruct (decide (P x)) as [HP|HP]; simpl; [|done].
  destruct (f x) eqn:Hf; [by destruct (Hall x Hf)|done].
Qed.

Lemma stripSemantics_fold (used : gset Z) (sems : list string)
    (q : Primitive) (n : nat) :
  fold_left (stripSemantic used) sems (q, n) =
  (mkPrimitive (prim_mode q)
     (filter (λ a, ¬ (a.1 ∈ sems ∧ stripped used a.1 = true))
             (prim_attributes q))
     (prim_indices q),
   n + length (filter (λ s, stripped used s = true) sems)).
Proof.
  revert q n; induction sems as [|sem sems IH]; intros q n.
  - simpl. rewrite Nat.add_0_r. f_equal. destruct q as [m attrs idx].
    simpl. f_equal. symmetry. apply filter_all.
    intros a _ [H _]. by apply elem_of_nil in H.
  - cbn [fold_left].
    assert (stripSemantic used (q, n) sem =
            if stripped used sem then (removeAttribute q sem, n + 1)
            else (q, n)) as -> by done.
    destruct (stripped used sem) eqn:Hbad.
    + rewrite filter_cons_True by done. rewrite IH. simpl. f_equal; [|lia].
      f_equal. rewrite list_filter_filter. apply list_filter_iff.
      intros a. rewrite elem_of_cons. split.
      * intros [H1 H2] [[Heq|H3] H4]; [by destruct H2|]. by apply H1.
      * intros H. split.
        -- intros [H1 H2]. apply H. by split; [right|].
        -- intros Heq. apply H. split; [by left|]. by rewrite Heq.
    + rewrite filter_cons_False by congruence. rewrite IH. f_equal. f_equal.
      apply list_filter_iff. intros a. rewrite elem_of_cons. split.
      * intros H1 [[Heq|H3] H4]; [rewrite Heq in H4; congruence|].
        by apply H1.
      * intros H [H1 H2]. apply H. by split; [right|].
Qed.

Lemma stripPrimitive_fold (used : gset Z) (prims done : list Primitive)
    (n : nat) :
  fold_left (stripPrimitive used) prims (done, n) =
  (done ++ (strippedPrimitive used <$> prims),
   n + length (filter (λ s, stripped used s = true)
                      (prims ≫= listSemantics))).
Proof.
  revert done n; induction prims as [|p prims IH]; intros done n.
  - simpl. by rewrite app_nil_r, Nat.add_0_r.
  - cbn [fold_left]. rewrite bind_cons, fmap_cons.
    unfold stripPrimitive at 2. cbn [fst snd].
    rewrite stripSemantics_fold, IH. f_equal.
    + rewrite <- app_assoc. f_equal. simpl. f_equal.
      unfold strippedPrimitive. f_equal. apply filter_ext_in.
      intros a Ha. split.
      * intros H. destruct (stripped used a.1) eqn:Hs; [|done].
        destruct H. split; [|done]. unfold listSemantics.
        apply list_elem_of_fmap. by exists a.
      * intros H [_ H']. congruence.
    + rewrite filter_app, length_app. lia.
Qed.

Lemma stripMesh_fold (used : gset Z) (meshes done : list Mesh) (n : nat) :
  fold_left (stripMesh used) meshes (done, n) =
  (done ++ (strippedMesh used <$> meshes),
   n + length (filter (λ s, stripped used s = true)
                      ((meshes ≫= mesh_primitives) ≫= listSemantics))).
Proof.
  revert done n; induction meshes as [|mesh meshes IH]; intros done n.
  - simpl. by rewrite app_nil_r, Nat.add_0_r.
  - cbn [fold_left]. rewrite bind_cons, fmap_cons.
    unfold stripMesh at 2. cbn [fst snd].
    rewrite stripPrimitive_fold, IH. f_equal.
    + by rewrite <- app_assoc.
    + rewrite bind_app, filter_app, length_app. simpl. lia.
Qed.

(** The transform, as a whole. *)
Lemma removeUnusedUVs_alt (scene : Scene) :
  removeUnusedUVs scene =
  (mkScene (mkDocument (doc_accessors (scene_document scene))
              (strippedMesh (usedUVSets scene)
                 <$> doc_meshes (scene_document scene))
              (doc_nodes (scene_document scene))
              (doc_samplers (scene_document scene))
              (doc_channels (scene_document scene))
              (doc_animations (scene_document scene))
              (doc_skins (scene_document scene)))
           (scene_materials scene) (scene_textures scene),
   length (filter (λ s, stripped (usedUVSets scene) s = true)
                  ((doc_meshes (scene_document scene) ≫= mesh_primitives)
                     ≫= listSemantics))).
Proof. unfold removeUnusedUVs. by rewrite stripMesh_fold. Qed.

Lemma getAttribute_stripped (used : gset Z) (p : Primitive)
    (semantic : string) :
  getAttribute (strippedPrimitive used p) semantic =
  if stripped used semantic then None else getAttribute p semantic.
Proof.
  unfold getAttribute, strippedPrimitive. simpl.
  destruct (stripped used semantic) eqn:Hs.
  - rewrite find_filter_none; [done|].
    intros a ->%bool_decide_eq_true. congruence.
  - rewrite find_filter; [done|].
    by intros a ->%bool_decide_eq_true.
Qed.

(** X5.  Every mesh keeps its place and its primitives, every primitive its mode
    and its index buffer, and no accessor changes.  Of the attributes of a
    primitive exactly those leave whose name begins with [TEXCOORD_] and
    goes on with a number that is not a UV set in use, or with no
    number; every other attribute, [POSITION] and [NORMAL] among them, is
    the one of before. *)
Theorem removeUnusedUVs_attributes (scene : Scene) :
  doc_accessors (scene_document (removeUnusedUVs scene).1)
    = doc_accessors (scene_document scene) ∧
  Forall2 (λ mesh mesh',
    mesh_weights mesh' = mesh_weights mesh ∧
    Forall2 (λ p p',
      prim_mode p' = prim_mode p ∧ prim_indices p' = prim_indices p ∧
      prim_attributes p' `sublist_of` prim_attributes p ∧
      ∀ semantic,
        getAttribute p' semantic =
        if isTexCoord semantic && unused (usedUVSets scene) semantic
        then None else getAttribute p semantic)
      (mesh_primitives mesh) (mesh_primitives mesh'))
    (doc_meshes (scene_document scene))
    (doc_meshes (scene_document (removeUnusedUVs scene).1)).
Proof.
  rewrite removeUnusedUVs_alt. simpl. split; [done|].
  apply Forall2_fmap_r, Forall_Forall2_diag, Forall_forall. intros mesh _.
  split; [done|]. simpl.
  apply Forall2_fmap_r, Forall_Forall2_diag, Forall_forall. intros p _.
  split; [done|]. split; [done|]. split; [apply sublist_filter|].
  intros semantic. apply getAttribute_stripped.
Qed.

(** X6.  A second run removes nothing: it returns the scene of the first run
    and the count 0. *)
Theorem removeUnusedUVs_idempotent (scene : Scene) :
  removeUnusedUVs (removeUnusedUVs scene).1 = ((removeUnusedUVs scene).1, 0).
Proof.
  rewrite (removeUnusedUVs_alt scene). cbn [fst].
  rewrite removeUnusedUVs_alt.
  set (used := usedUVSets scene).
  assert (usedUVSets (mkScene
            (mkDocument (doc_accessors (scene_document scene))
               (strippedMesh used <$> doc_meshes (scene_document scene))
               (doc_nodes (scene_document scene))
               (doc_samplers (scene_document scene))
               (doc_channels (scene_document scene))
               (doc_animations (scene_document scene))
               (doc_skins (scene_document scene)))
            (scene_materials scene) (scene_textures scene)) = used) as ->
    by done.
  cbn [scene_document scene_materials scene_textures doc_accessors doc_meshes
       doc_nodes doc_samplers doc_channels doc_animations doc_skins].
  assert (∀ p, strippedPrimitive used (strippedPrimitive used p)
               = strippedPrimitive used p) as Hp.
  { intros p. unfold strippedPrimitive. simpl. f_equal.
    rewrite list_filter_filter. apply list_filter_iff. tauto. }
  assert (∀ mesh, strippedMesh used (strippedMesh used mesh)
                  = strippedMesh used mesh) as Hm.
  { intros mesh. unfold strippedMesh. simpl. f_equal.
    rewrite <- list_fmap_compose. apply list_fmap_ext. intros _ p _. apply Hp. }
  f_equal.
  - f_equal. f_equal. rewrite <- list_fmap_compose.
    apply list_fmap_ext. intros _ mesh _. apply Hm.
  - apply length_zero_iff_nil, filter_none.
    intros s (p' & Hs & (mesh' & Hp' & Hmesh')%list_elem_of_bind)%list_elem_of_bind.
    apply list_elem_of_fmap in Hmesh' as (mesh & -> & _).
    apply list_elem_of_fmap in Hp' as (p & -> & _).
    apply list_elem_of_fmap in Hs as (a & -> & Ha).
    apply list_elem_of_filter in Ha as [Ha _]. congruence.
Qed.

Lemma stripped_count (used : gset Z) (attrs : list (string * nat)) :
  length (filter (λ s, stripped used s = true) (attrs.*1)) +
  length (filter (λ a, stripped used a.1 = false) attrs) = length attrs.
Proof.
  induction attrs as [|a attrs IH]; [done|].
  rewrite fmap_cons, !filter_cons.
  destruct (stripped used a.1) eqn:Hs.
  - rewrite decide_True, decide_False by done. simpl. lia.
  - rewrite decide_False, decide_True by done. simpl. lia.
Qed.

Lemma strippedPrimitives_count (used : gset Z) (prims : list Primitive) :
  length (filter (λ s, stripped used s = true) (prims ≫= listSemantics)) +
  length ((strippedPrimitive used <$> prims) ≫= prim_attributes)
  = length (prims ≫= prim_attributes).
Proof.
  induction prims as [|p prims IH]; [done|].
  rewrite fmap_cons, !bind_cons, filter_app, !length_app.
  pose proof (stripped_count used (prim_attributes p)) as Hp.
  unfold listSemantics at 1. simpl. lia.
Qed.

Lemma strippedMeshes_primitives (used : gset Z) (meshes : list Mesh) :
  (strippedMesh used <$> meshes) ≫= mesh_primitives
  = strippedPrimitive used <$> (meshes ≫= mesh_primitives).
Proof.
  induction meshes as [|mesh meshes IH]; [done|].
  by rewrite fmap_cons, !bind_cons, fmap_app, IH.
Qed.

(** X7.  The count of the log line is the number of attributes that left the
    primitives. *)
Theorem removeUnusedUVs_count (scene : Scene) :
  (removeUnusedUVs scene).2 +
  length ((doc_meshes (scene_document (removeUnusedUVs scene).1)
             ≫= mesh_primitives) ≫= prim_attributes)
  = length ((doc_meshes (scene_document scene) ≫= mesh_primitives)
              ≫= prim_attributes).
Proof.
  rewrite removeUnusedUVs_alt.
  cbn [fst snd scene_document doc_meshes].
  rewrite strippedMeshes_primitives. apply strippedPrimitives_count.
Qed.

End UVProps.

(** ** decimateBloatedMeshes and analyzeMeshComplexity *)

Module DecimateProps.
Import Compress Decimate.

Lemma Qltb_lt (a b : Q) : Qltb a b = true ↔ (a < b)%Q.
Proof.
  unfold Qltb. rewrite negb_true_iff, <- not_true_iff_false, Qle_bool_iff.
  split; [apply Qnot_le_lt|apply Qlt_not_le].
Qed.

Lemma getCount_nonneg (accs : gmap nat Accessor) (r : nat) :
  (0 <= getCount accs r)%Q.
Proof.
  unfold getCount. destruct (getArray accs r) as [array|]; [|done].
  unfold ofNat, Qdiv, Qmult, Qinv, Qle, inject_Z. simpl.
  destruct (Z.of_nat (getElementSize accs r)) eqn:Hes; simpl; nia.
Qed.

Lemma maximum_bounds (first : Q) (rest : list Q) :
  (first <= maximum first rest)%Q ∧
  (maximum first rest == first ∨ ∃ x, x ∈ rest ∧ maximum first rest == x)%Q.
Proof.
  unfold maximum. revert first; induction rest as [|x rest IH]; intros first.
  - simpl. split; [apply Qle_refl|by left].
  - simpl. destruct (IH (Qmax first x)) as [Hle Hin]. split.
    + eapply Qle_trans; [apply Q.le_max_l|exact Hle].
    + destruct Hin as [Heq|(y & Hy & Heq)].
      * destruct (Q.max_spec first x) as [[_ Hm]|[_ Hm]].
        -- right. exists x. split; [left|]. by rewrite Heq.
        -- left. by rewrite Heq.
      * right. exists y. split; [by right|done].
Qed.

Lemma dominated_spec (threshold : Q) (doc : Document) (verts : Q) :
  verts ∈ dominated threshold doc ↔
  ∃ p P, p ∈ listPrimitives doc ∧ getAttribute p "POSITION" = Some P ∧
         verts = getCount (doc_accessors doc) P ∧ (threshold < verts)%Q.
Proof.
  unfold dominated. rewrite list_elem_of_omap. split.
  - intros (p & Hp & Hv). exists p.
    destruct (getAttribute p "POSITION") as [P|]; simpl in Hv; [|done].
    exists P. destruct (Qltb _ _) eqn:Hlt; [|done].
    injection Hv as <-. by apply Qltb_lt in Hlt.
  - intros (p & P & Hp & HP & -> & Hlt). exists p. split; [done|].
    rewrite HP. simpl. apply Qltb_lt in Hlt. by rewrite Hlt.
Qed.

Lemma maximum_upper (first : Q) (rest : list Q) (x : Q) :
  x ∈ first :: rest → (x <= maximum first rest)%Q.
Proof.
  revert first; induction rest as [|y rest IH]; intros first Hx.
  - apply list_elem_of_singleton in Hx. rewrite Hx. apply Qle_refl.
  - pose proof (proj1 (maximum_bounds (Qmax first y) rest)) as Hle.
    change (maximum first (y :: rest)) with (maximum (Qmax first y) rest).
    apply elem_of_cons in Hx as [Hx|Hx].
    + eapply Qle_trans; [|exact Hle]. rewrite Hx. apply Q.le_max_l.
    + apply elem_of_cons in Hx as [Hx|Hx].
      * eapply Qle_trans; [|exact Hle]. rewrite Hx. apply Q.le_max_r.
      * apply IH. by right.
Qed.

(** X8.  With a threshold that is not negative and a positive target ratio.
    When no primitive has more vertices than the threshold, the document is
    returned as it is and [simplify] is not invoked.  Otherwise [simplify]
    is invoked once, with the ratio
    [max(0.1, min(targetRatio * threshold / largest, 0.8))], where
    [largest] is the largest vertex count of a primitive above the
    threshold; this ratio lies between 0.1 and 0.8 and is below the target
    ratio unless it is the floor 0.1. *)
Theorem decimateBloatedMeshes_ratio (world : World) (threshold targetRatio : Q)
    (doc : Document) :
  (0 <= threshold)%Q → (0 < targetRatio)%Q →
  (Forall (λ p, ∀ P, getAttribute p "POSITION" = Some P →
                     (getCount (doc_accessors doc) P <= threshold)%Q)
          (listPrimitives doc) ∧
   decimateBloatedMeshes world threshold targetRatio doc = Normal doc) ∨
  (∃ p P largest ratio,
     p ∈ listPrimitives doc ∧ getAttribute p "POSITION" = Some P ∧
     (threshold < getCount (doc_accessors doc) P)%Q ∧
     (getCount (doc_accessors doc) P == largest)%Q ∧
     Forall (λ q, ∀ R, getAttribute q "POSITION" = Some R →
                       (getCount (doc_accessors doc) R <= largest)%Q)
            (listPrimitives doc) ∧
     ratio = Qmax (1 # 10) (Qmin (targetRatio * (threshold / largest)) (8 # 10)) ∧
     decimateBloatedMeshes world threshold targetRatio doc
       = external world (simplify ratio) doc ∧
     (1 # 10 <= ratio)%Q ∧ (ratio <= 8 # 10)%Q ∧
     ((ratio < targetRatio)%Q ∨ (ratio == 1 # 10)%Q)).
Proof.
  intros Hthreshold Htarget. unfold decimateBloatedMeshes.
  destruct (dominated threshold doc) as [|first rest] eqn:Hdom.
  { left. split; [|done]. apply Forall_forall. intros p Hp P HP.
    apply Qnot_lt_le. intros Hlt.
    assert (getCount (doc_accessors doc) P ∈ dominated threshold doc) as Hin.
    { apply dominated_spec. by exists p, P. }
    rewrite Hdom in Hin. by apply elem_of_nil in Hin. }
  right. set (largest := maximum first rest).
  assert (∃ p P, p ∈ listPrimitives doc ∧ getAttribute p "POSITION" = Some P ∧
                 (threshold < getCount (doc_accessors doc) P)%Q ∧
                 (getCount (doc_accessors doc) P == largest)%Q)
    as (p & P & Hp & HP & Hover & Hlargest).
  { destruct (maximum_bounds first rest) as [_ [Heq|(x & Hx & Heq)]];
      fold largest in Heq.
    - assert (first ∈ dominated threshold doc) as Hin by (rewrite Hdom; left).
      apply dominated_spec in Hin as (p & P & ? & ? & -> & ?).
      by exists p, P.
    - assert (x ∈ dominated threshold doc) as Hin by (rewrite Hdom; by right).
      apply dominated_spec in Hin as (p & P & ? & ? & -> & ?).
      by exists p, P. }
  exists p, P, largest,
    (Qmax (1 # 10) (Qmin (targetRatio * (threshold / largest)) (8 # 10))).
  split; [done|]. split; [done|]. split; [done|].
  split; [done|]. split.
  { apply Forall_forall. intros q Hq R HR.
    destruct (Qlt_le_dec threshold (getCount (doc_accessors doc) R))
      as [Hlt|Hle].
    - apply maximum_upper. rewrite <- Hdom. apply dominated_spec.
      by exists q, R.
    - rewrite <- Hlargest. Lqa.lra. }
  split; [done|]. split; [done|].
  set (raw := (targetRatio * (threshold / largest))%Q).
  assert (raw < targetRatio)%Q as Hraw.
  { unfold raw. assert (0 < largest)%Q as Hpos by Lqa.lra.
    assert (threshold / largest < 1)%Q.
    { apply Qlt_shift_div_r; [done|]. Lqa.lra. }
    Lqa.nra. }
  split; [apply Q.le_max_l|]. split.
  - apply Q.max_lub; [done|apply Q.le_min_r].
  - destruct (Q.max_spec (1 # 10) (Qmin raw (8 # 10))) as [[_ ->]|[_ ->]];
      [left|by right].
    eapply Qle_lt_trans; [apply Q.le_min_l|done].
Qed.

Lemma decimateBloatedMeshes_ratio_witness :
  (Forall (λ p, ∀ P, getAttribute p "POSITION" = Some P →
                     (getCount MergeByDistance.quadAccessors P <= 2)%Q)
          (listPrimitives MergeByDistance.quadDocument) ∧
   decimateBloatedMeshes (exampleWorld 0 (Exited 0 None)) 2 (1 # 2)
     MergeByDistance.quadDocument = Normal MergeByDistance.quadDocument) ∨
  (∃ p P largest ratio,
     p ∈ listPrimitives MergeByDistance.quadDocument ∧
     getAttribute p "POSITION" = Some P ∧
     (2 < getCount MergeByDistance.quadAccessors P)%Q ∧
     (getCount MergeByDistance.quadAccessors P == largest)%Q ∧
     Forall (λ q, ∀ R, getAttribute q "POSITION" = Some R →
                       (getCount MergeByDistance.quadAccessors R <= largest)%Q)
            (listPrimitives MergeByDistance.quadDocument) ∧
     ratio = Qmax (1 # 10) (Qmin ((1 # 2) * (2 / largest)) (8 # 10)) ∧
     decimateBloatedMeshes (exampleWorld 0 (Exited 0 None)) 2 (1 # 2)
       MergeByDistance.quadDocument
       = external (exampleWorld 0 (Exited 0 None)) (simplify ratio)
                  MergeByDistance.quadDocument ∧
     (1 # 10 <= ratio)%Q ∧ (ratio <= 8 # 10)%Q ∧
     ((ratio < 1 # 2)%Q ∨ (ratio == 1 # 10)%Q)).
Proof.
  apply (decimateBloatedMeshes_ratio (exampleWorld 0 (Exited 0 None)) 2 (1 # 2)
           MergeByDistance.quadDocument).
  - apply Qle_bool_iff. reflexivity.
  - reflexivity.
Defined.

Lemma meshVerts_from (accs : gmap nat Accessor) (prims : list Primitive)
    (acc : Q) :
  (acc <= fold_left (λ meshVerts p,
                       match getAttribute p "POSITION" with
                       | Some pos => meshVerts + getCount accs pos
                       | None => meshVerts
                       end) prims acc)%Q ∧
  ∀ p P, p ∈ prims → getAttribute p "POSITION" = Some P →
    (acc + getCount accs P
       <= fold_left (λ meshVerts p,
                       match getAttribute p "POSITION" with
                       | Some pos => meshVerts + getCount accs pos
                       | None => meshVerts
                       end) prims acc)%Q.
Proof.
  revert acc; induction prims as [|q prims IH]; intros acc; cbn [fold_left].
  - split; [apply Qle_refl|]. intros p P Hp. by apply elem_of_nil in Hp.
  - set (acc' := match getAttribute q "POSITION" with
                 | Some pos => (acc + getCount accs pos)%Q
                 | None => acc
                 end).
    assert (acc <= acc')%Q as Hacc.
    { unfold acc'. destruct (getAttribute q "POSITION") as [pos|];
        [|apply Qle_refl].
      pose proof (getCount_nonneg accs pos). Lqa.lra. }
    destruct (IH acc') as [Hle Hin]. split; [by eapply Qle_trans|].
    intros p P [->|Hp]%elem_of_cons HP.
    + eapply Qle_trans; [|exact Hle]. unfold acc'. rewrite HP. apply Qle_refl.
    + eapply Qle_trans; [|by apply (Hin p P)]. Lqa.lra.
Qed.

(** X9.  Whenever [decimateBloatedMeshes] finds a primitive above the threshold,
    and so simplifies, [analyzeMeshComplexity] lists a bloated mesh for the
    same threshold on the same document.  (The converse fails: the analysis
    adds up the primitives of a mesh, the decimation looks at each
    primitive by itself.) *)
Theorem decimation_is_announced (threshold : Q) (doc : Document) :
  dominated threshold doc ≠ [] → bloated threshold doc ≠ [].
Proof.
  intros Hdom.
  destruct (dominated threshold doc) as [|verts rest] eqn:Hd; [done|].
  assert (verts ∈ dominated threshold doc) as Hin by (rewrite Hd; left).
  apply dominated_spec in Hin as (p & P & Hp & HP & -> & Hlt).
  unfold listPrimitives in Hp.
  apply list_elem_of_In, in_concat in Hp as (prims & Hprims & Hp).
  apply list_elem_of_In, list_elem_of_fmap in Hprims as (mesh & -> & Hmesh).
  apply list_elem_of_In in Hp.
  apply list_elem_of_lookup in Hmesh as [i Hi].
  assert ((i, meshVerts (doc_accessors doc) mesh) ∈ bloated threshold doc)
    as Hb.
  { unfold bloated. apply list_elem_of_omap. exists (i, mesh). split.
    - apply list_elem_of_lookup. exists i.
      by rewrite list_lookup_imap, Hi.
    - simpl.
      destruct (meshVerts_from (doc_accessors doc) (mesh_primitives mesh) 0)
        as [_ Hge].
      specialize (Hge p P Hp HP). fold (meshVerts (doc_accessors doc) mesh) in Hge.
      assert (Qltb threshold (meshVerts (doc_accessors doc) mesh) = true) as ->;
        [|done].
      apply Qltb_lt. Lqa.lra. }
  intros Hnil. rewrite Hnil in Hb. by apply elem_of_nil in Hb.
Qed.

Lemma decimation_is_announced_witness :
  bloated 2 MergeByDistance.quadDocument ≠ [].
Proof.
  apply (decimation_is_announced 2 MergeByDistance.quadDocument).
  vm_compute. discriminate.
Defined.

End DecimateProps.

(** ** compress *)

Module CompressProps.
Import Compress CompressRuns.

Local Opaque runStage.

Local Ltac step_run H :=
  repeat match type of H with
         | context [runStage ?w ?s ?d] =>
             destruct (runStage w s d) eqn:?; cbn in H
         end.

(** *** The command line of gltfpack *)

Lemma length_append (a b : string) :
  String.length (a +:+ b) = String.length a + String.length b.
Proof. induction a as [|c a IH]; simpl; [done|]. by rewrite IH. Qed.

Lemma path_not_flag (dir name flag : string) :
  String.length flag < String.length name → (dir +:+ name)%string ≠ flag.
Proof.
  intros Hlen Heq. apply (f_equal String.length) in Heq.
  rewrite length_append in Heq. lia.
Qed.

(** What [compressWithGltfpack] does, by its command line. *)
Lemma compressWithGltfpack_run (world : World) (cleanBuffer : list Byte.byte)
    (hasSkins : bool) (preset : CompressPreset) :
  compressWithGltfpack world cleanBuffer hasSkins preset =
  match mkdtemp world with
  | Normal dir =>
      _ ← rm world dir;
      match gltfpack world (gltfpackArgs dir hasSkins preset) cleanBuffer with
      | Exited 0 (Some buffer) => Normal (Some (mkResult buffer "gltfpack" None))
      | _ => Normal None
      end
  | Throw e => Throw e
  end.
Proof.
  unfold compressWithGltfpack, withTempDir, gltfpackArgs.
  destruct (mkdtemp world) as [dir|e]; [|done]. cbn [mbind Completion_bind].
  destruct (gltfpack world _ cleanBuffer) as [| | |exitCode [output|]];
    try by destruct (rm world dir).
  - destruct exitCode; by destruct (rm world dir).
  - destruct exitCode; by destruct (rm world dir).
Qed.

(** X10.  Whenever [compressWithGltfpack] returns a result, gltfpack has run in
    the temporary directory and has exited with code 0, the buffer is the
    file it wrote and the method is ["gltfpack"].  Its command line reads
    [clean.glb] and writes [compressed.glb] in that directory, always
    holds [-tc], holds exactly one of [-cc] and [-cz] ([-cz] for the preset
    [max], [-cc] for the others), and holds [-kn] exactly for a skinned
    model under a preset other than [max]. *)
Theorem gltfpack_command_line (world : World) (cleanBuffer : list Byte.byte)
    (hasSkins : bool) (preset : CompressPreset) (result : CompressResult) :
  compressWithGltfpack world cleanBuffer hasSkins preset
    = Normal (Some result) →
  method result = "gltfpack" ∧
  ∃ dir args,
    mkdtemp world = Normal dir ∧ rm world dir = Normal () ∧
    gltfpack world args cleanBuffer = Exited 0 (Some (buffer result)) ∧
    take 2 args = ["gltfpack"; "-i"] ∧ args !! 3 = Some "-o" ∧
    "-tc" ∈ args ∧
    ("-cc" ∈ args ↔ preset ≠ preset_max) ∧
    ("-cz" ∈ args ↔ preset = preset_max) ∧
    ("-kn" ∈ args ↔ hasSkins = true ∧ preset ≠ preset_max).
Proof.
  rewrite compressWithGltfpack_run.
  destruct (mkdtemp world) as [dir|e]; [|done].
  destruct (rm world dir) as [[]|e] eqn:Hrm; [|done].
  cbn [mbind Completion_bind].
  destruct (gltfpack world _ cleanBuffer) as [| | |exitCode [output|]] eqn:Hrun;
    try done; [|by destruct exitCode].
  destruct exitCode; try done. intros [= <-]. split; [done|].
  exists dir, (gltfpackArgs dir hasSkins preset).
  split; [done|]. split; [done|]. split; [done|]. split; [done|].
  split; [done|].
  pose proof (path_not_flag dir "/clean.glb") as Hin.
  pose proof (path_not_flag dir "/compressed.glb") as Hout.
  assert (∀ flag, String.length flag < 5 →
            flag ∈ gltfpackArgs dir hasSkins preset ↔
            flag ∈ drop 5 (gltfpackArgs dir hasSkins preset) ∨
            flag = "gltfpack" ∨ flag = "-i" ∨ flag = "-o") as Hflag.
  { intros flag Hlen. unfold gltfpackArgs.
    set (tail := _ ++ [_] ++ _). cbn [app drop]. rewrite !elem_of_cons.
    split.
    - intros [?|[?|[Hp|[?|[Hp|?]]]]]; auto.
      + exfalso. symmetry in Hp. eapply (Hin flag); [simpl in *; lia|done].
      + exfalso. symmetry in Hp. eapply (Hout flag); [simpl in *; lia|done].
    - intros [?|[?|[?|?]]]; auto 10. }
  rewrite !Hflag by (simpl; lia). clear Hflag Hin Hout Hrun.
  destruct preset, hasSkins;
    repeat match goal with
           | |- context [drop 5 ?l] =>
               let r := eval vm_compute in (drop 5 l) in
               change (drop 5 l) with r
           end;
    rewrite ?elem_of_cons, ?elem_of_nil;
    intuition (discriminate || congruence || auto).
Qed.

Lemma gltfpack_command_line_witness :
  method (mkResult [Byte.x67; Byte.x6c] "gltfpack" None) = "gltfpack" ∧
  ∃ dir args,
    mkdtemp (exampleWorld 1 (Exited 0 (Some [Byte.x67; Byte.x6c])))
      = Normal dir ∧
    rm (exampleWorld 1 (Exited 0 (Some [Byte.x67; Byte.x6c]))) dir
      = Normal () ∧
    gltfpack (exampleWorld 1 (Exited 0 (Some [Byte.x67; Byte.x6c]))) args
             [Byte.x00]
      = Exited 0 (Some [Byte.x67; Byte.x6c]) ∧
    take 2 args = ["gltfpack"; "-i"] ∧ args !! 3 = Some "-o" ∧
    "-tc" ∈ args ∧
    ("-cc" ∈ args ↔ preset_default ≠ preset_max) ∧
    ("-cz" ∈ args ↔ preset_default = preset_max) ∧
    ("-kn" ∈ args ↔ true = true ∧ preset_default ≠ preset_max).
Proof.
  apply (gltfpack_command_line
           (exampleWorld 1 (Exited 0 (Some [Byte.x67; Byte.x6c]))) [Byte.x00]
           true preset_default (mkResult [Byte.x67; Byte.x6c] "gltfpack" None)).
  vm_compute. reflexivity.
Defined.

End CompressProps.

(** ** compress: the runs *)

Module CompressRunsProps.
Import Compress CompressRuns.

Local Opaque runStage.

Local Ltac step_run H :=
  repeat match type of H with
         | context [runStage ?w ?s ?d] =>
             destruct (runStage w s d) eqn:?; cbn in H
         end.

Lemma compressWithGltfpack_result (world : World) (cleanBuffer : list Byte.byte)
    (hasSkins : bool) (preset : CompressPreset) (result : CompressResult) :
  compressWithGltfpack world cleanBuffer hasSkins preset
    = Normal (Some result) →
  method result = "gltfpack" ∧
  ∃ args, gltfpack world args cleanBuffer = Exited 0 (Some (buffer result)).
Proof.
  unfold compressWithGltfpack, withTempDir.
  destruct (mkdtemp world) as [dir|e]; [|done]. cbn [mbind Completion_bind].
  match goal with
  | |- context [gltfpack world ?args cleanBuffer] =>
      destruct (gltfpack world args cleanBuffer)
        as [| | |exitCode [output|]] eqn:Hrun
  end; try by destruct (rm world dir) as [[]|].
  - case_bool_decide as Hcode; destruct (rm world dir) as [[]|]; try done.
    intros [= <-]. split; [done|]. eexists. rewrite Hrun. f_equal.
    destruct (decide (exitCode = 0%Z)); [done|]. tauto.
  - case_bool_decide; by destruct (rm world dir) as [[]|].
Qed.

Lemma compressWithGltfpack_throws (world : World) (cleanBuffer : list Byte.byte)
    (hasSkins : bool) (preset : CompressPreset) (e : Exn) :
  compressWithGltfpack world cleanBuffer hasSkins preset = Throw e ↔
  mkdtemp world = Throw e ∨
  ∃ dir, mkdtemp world = Normal dir ∧ rm world dir = Throw e.
Proof.
  unfold compressWithGltfpack, withTempDir.
  destruct (mkdtemp world) as [dir|e0]; cbn [mbind Completion_bind].
  - match goal with
    | |- context [gltfpack world ?args cleanBuffer] =>
        destruct (gltfpack world args cleanBuffer)
          as [| | |exitCode [output|]]
    end; try case_bool_decide.
    all: split;
      [destruct (rm world dir) as [[]|e1] eqn:Hrm;
         cbn [mbind Completion_bind]; [done|];
         intros [= ->]; right; by exists dir
      |intros [?|(dir' & [= <-] & ->)]; done].
  - split; [intros [= ->]; by left|].
    intros [[= ->]|(dir & ? & _)]; done.
Qed.

(** The run up to the clean buffer. *)
Lemma prepare_run (world : World) (input : list Byte.byte)
    (options : CompressOptions) (document : Document) (trace : list Stage)
    (r : Completion (Document * bool * list Byte.byte)) :
  readBinary world input = Normal document →
  prepare world input options = (trace, r) →
  let hasSkins :=
    bool_decide (0 < doc_skins (stripCompressionExtensions world document)) in
  match r with
  | Normal (doc, skins, cleanBuffer) =>
      skins = hasSkins ∧ trace = phases hasSkins ++ userSimplify options ∧
      writeBinary world doc = Normal cleanBuffer
  | Throw e =>
      trace `prefix_of` phases hasSkins ++ userSimplify options ∧
      ((∃ stage doc, last trace = Some stage ∧
                     runStage world stage doc = Throw e) ∨
       (∃ doc, writeBinary world doc = Throw e))
  end.
Proof.
  intros Hread Hc. unfold prepare in Hc.
  rewrite Hread in Hc. cbn [lift andThen] in Hc.
  set (doc0 := stripCompressionExtensions world document) in *.
  unfold phases, userSimplify.
  destruct (bool_decide (0 < doc_skins doc0)); cbn in Hc |- *.
  all: step_run Hc;
    try (injection Hc as <- <-;
         split; [by eexists|left; eexists _, _; split; [reflexivity|eassumption]]).
  all: destruct (simplifyRatio options) as [ratio|];
    [destruct (Qltb 0 ratio && Qltb ratio 1)|]; cbn in Hc |- *;
    step_run Hc;
    try (injection Hc as <- <-;
         split; [by eexists|left; eexists _, _; split; [reflexivity|eassumption]]).
  all: destruct (writeBinary world _) eqn:Hw; cbn in Hc; injection Hc as <- <-;
    first [done | split; [by eexists|right; eexists; eassumption]].
Qed.

(** The in-process encoder. *)
Lemma compressWithMeshopt_run (world : World) (trace trace' : list Stage)
    (doc : Document) (hasSkins : bool) (r : Completion CompressResult) :
  compressWithMeshopt world trace doc hasSkins = (trace', r) →
  match r with
  | Normal result =>
      trace' = trace ++ encoder hasSkins ∧ method result = "meshopt" ∧
      originalSize result = None ∧
      ∃ doc', writeBinary world doc' = Normal (buffer result)
  | Throw e =>
      (∃ ran, trace' = trace ++ ran ∧ ran `prefix_of` encoder hasSkins) ∧
      ((∃ stage doc', last trace' = Some stage ∧
                      runStage world stage doc' = Throw e) ∨
       (∃ doc', writeBinary world doc' = Throw e))
  end.
Proof.
  unfold compressWithMeshopt, encoder. intros Hc.
  destruct hasSkins; cbn in Hc; step_run Hc.
  all: try (injection Hc as <- <-;
            split; [rewrite <- ?(assoc_L (++)); cbn [app];
                    eexists; split; [done|by eexists]|];
            left; eexists _, _; split; [apply last_snoc|eassumption]).
  all: destruct (writeBinary world _) eqn:Hw; injection Hc as <- <-;
    rewrite <- ?(assoc_L (++)); cbn [app mbind Completion_bind].
  all: first [by eauto 6
             |split; [eexists; split; [done|by eexists]|];
              right; eexists; eassumption].
Qed.

(** *** The order of the transforms *)

(** X11.  The transforms of a run are invoked in one fixed order, each phase
    after the other: whether [compress] returns or throws, its trace is a
    prefix of the phases chosen by the skin flag, then the simplification
    that the caller asked for, then the in-process encoder.  A run that
    returns has invoked all of them, but for the encoder when the result
    is the one of gltfpack. *)
Theorem compress_order (world : World) (input : list Byte.byte)
    (options : CompressOptions) (document : Document) (trace : list Stage)
    (r : Completion CompressResult) :
  readBinary world input = Normal document →
  compress world input options = (trace, r) →
  let hasSkins :=
    bool_decide (0 < doc_skins (stripCompressionExtensions world document)) in
  trace `prefix_of` phases hasSkins ++ userSimplify options ++ encoder hasSkins ∧
  ∀ result, r = Normal result →
    trace = phases hasSkins ++ userSimplify options ++
            (if bool_decide (method result = "gltfpack") then []
             else encoder hasSkins).
Proof.
  intros Hread Hc hasSkins. unfold compress in Hc.
  destruct (prepare world input options) as [trace0 r0] eqn:Hprep.
  pose proof (prepare_run _ _ _ _ _ _ Hread Hprep) as Hrun.
  fold hasSkins in Hrun.
  assert (∀ l : list Stage,
            l `prefix_of` phases hasSkins ++ userSimplify options →
            l `prefix_of` phases hasSkins ++ userSimplify options ++
                          encoder hasSkins) as Hpre.
  { intros l Hl. rewrite (assoc_L (++)). by apply prefix_app_r. }
  destruct r0 as [[[doc skins] cleanBuffer]|e]; cbn [andThen] in Hc.
  2: { injection Hc as <- <-. destruct Hrun as [Hl _]. by split; [apply Hpre|]. }
  destruct Hrun as (-> & -> & Hw). unfold finalCompression in Hc.
  assert (∀ t c,
    andThen (compressWithMeshopt world (phases hasSkins ++ userSimplify options)
               doc hasSkins)
      (λ trace0 result0, withOriginalSize trace0 result0 input) = (t, c) →
    t `prefix_of` phases hasSkins ++ userSimplify options ++ encoder hasSkins ∧
    ∀ result, c = Normal result →
      t = phases hasSkins ++ userSimplify options ++
          (if bool_decide (method result = "gltfpack") then []
           else encoder hasSkins)) as Hfallback.
  { intros t c.
    destruct (compressWithMeshopt world _ doc hasSkins) as [t' c'] eqn:Hm.
    apply compressWithMeshopt_run in Hm.
    destruct c' as [result'|e]; cbn [andThen withOriginalSize].
    - destruct Hm as (-> & Hmethod & _). intros [= <- <-].
      rewrite <- (assoc_L (++)). split; [done|].
      intros result [= <-]. cbn [method]. by rewrite Hmethod.
    - destruct Hm as [(ran & -> & Hran) _]. intros [= <- <-].
      split; [|done]. rewrite <- (assoc_L (++)).
      by apply prefix_app, prefix_app. }
  destruct (hasGltfpack world); [|exact (Hfallback _ _ Hc)].
  destruct (compressWithGltfpack world cleanBuffer hasSkins _)
    as [[result'|]|e] eqn:Hg; cbn [lift andThen withOriginalSize] in Hc.
  - apply compressWithGltfpack_result in Hg as [Hmethod _].
    injection Hc as <- <-. split; [by apply Hpre|].
    intros result [= <-]. cbn [method]. rewrite Hmethod.
    rewrite bool_decide_eq_true_2 by done.
    by rewrite !(right_id_L [] (++)).
  - exact (Hfallback _ _ Hc).
  - injection Hc as <- <-. by split; [apply Hpre|].
Qed.

Lemma compress_order_witness :
  let world := exampleWorld 0 (Exited 1 None) in
  let options := mkOptions (Some (1 # 2)) None in
  let trace :=
    [analyzeMeshComplexity; dedup; prune; removeUnusedUVs;
     flatten; join; weld;
     mergeByDistance; removeDegenerateFaces; prune; decimateBloatedMeshes;
     instance; reorder; sparse; resample; removeStaticTracksWithBake;
     textureCompress; prune; simplify (1 # 2); quantize; meshopt] in
  let hasSkins :=
    bool_decide
      (0 < doc_skins (stripCompressionExtensions world (emptyDocument 0))) in
  trace `prefix_of` phases hasSkins ++ userSimplify options ++ encoder hasSkins ∧
  ∀ result,
    Normal (mkResult [Byte.x67; Byte.x6c; Byte.x54; Byte.x46] "meshopt"
                     (Some 1)) = Normal result →
    trace = phases hasSkins ++ userSimplify options ++
            (if bool_decide (method result = "gltfpack") then []
             else encoder hasSkins).
Proof.
  apply (compress_order (exampleWorld 0 (Exited 1 None)) [Byte.x00]
           (mkOptions (Some (1 # 2)) None) (emptyDocument 0)).
  - reflexivity.
  - vm_compute. reflexivity.
Defined.

(** *** The result *)

(** X12.  The result of [compress] carries the size of the input and one of the
    two methods.  With the method ["gltfpack"] the binary was found at
    initialization, the buffer is the output file of a run of gltfpack
    that has exited with code 0, and neither [quantize] nor [meshopt] has
    been invoked; with the method ["meshopt"] the buffer is a document
    written by the I/O layer and [meshopt] is the last transform
    invoked. *)
Theorem compress_result (world : World) (input : list Byte.byte)
    (options : CompressOptions) (trace : list Stage)
    (result : CompressResult) :
  compress world input options = (trace, Normal result) →
  originalSize result = Some (length input) ∧
  ((method result = "gltfpack" ∧ hasGltfpack world = true ∧
    (∃ args cleanBuffer,
       gltfpack world args cleanBuffer = Exited 0 (Some (buffer result))) ∧
    (quantize ∉ trace) ∧ (meshopt ∉ trace))
   ∨
   (method result = "meshopt" ∧
    (∃ doc, writeBinary world doc = Normal (buffer result)) ∧
    last trace = Some meshopt)).
Proof.
  intros Hc. unfold compress in Hc.
  destruct (prepare world input options) as [trace0 r0] eqn:Hprep.
  destruct (readBinary world input) as [document|e0] eqn:Hread.
  2: { unfold prepare in Hprep. rewrite Hread in Hprep.
       injection Hprep as <- <-. done. }
  pose proof (prepare_run _ _ _ _ _ _ Hread Hprep) as Hrun.
  destruct r0 as [[[doc skins] cleanBuffer]|e]; [|done].
  destruct Hrun as (-> & -> & Hw). cbn [andThen] in Hc.
  set (hasSkins := bool_decide _) in *. clearbody hasSkins.
  unfold finalCompression in Hc.
  assert (∀ t,
    andThen (compressWithMeshopt world (phases hasSkins ++ userSimplify options)
               doc hasSkins)
      (λ trace0 result0, withOriginalSize trace0 result0 input)
      = (t, Normal result) →
    originalSize result = Some (length input) ∧
    method result = "meshopt" ∧
    (∃ doc, writeBinary world doc = Normal (buffer result)) ∧
    last t = Some meshopt) as Hfallback.
  { intros t.
    destruct (compressWithMeshopt world _ doc hasSkins) as [t' c'] eqn:Hm.
    apply compressWithMeshopt_run in Hm.
    destruct c' as [result'|e]; cbn [andThen withOriginalSize]; [|done].
    destruct Hm as (-> & Hmethod & _ & Hbuf). intros [= <- <-].
    cbn [originalSize method buffer]. repeat split; try done.
    unfold encoder. destruct hasSkins; [apply last_snoc|].
    change [quantize; meshopt] with ([quantize] ++ [meshopt]).
    rewrite (assoc_L (++)). apply last_snoc. }
  destruct (hasGltfpack world);
    [|destruct (Hfallback _ Hc) as [? ?]; split; [done|by right]].
  destruct (compressWithGltfpack world cleanBuffer hasSkins _)
    as [[result'|]|e] eqn:Hg; cbn [lift andThen withOriginalSize] in Hc.
  - apply compressWithGltfpack_result in Hg as [Hmethod [args Hargs]].
    injection Hc as <- <-. cbn [originalSize method buffer].
    split; [done|]. left. repeat split; try done; [by eauto|..].
    all: unfold phases, userSimplify;
      destruct hasSkins, (simplifyRatio options) as [ratio|];
      try destruct (Qltb 0 ratio && Qltb ratio 1); cbn [app];
      intros Hin;
      repeat (apply elem_of_cons in Hin as [Hin|Hin]; [discriminate Hin|]);
      by apply elem_of_nil in Hin.
  - destruct (Hfallback _ Hc) as [? ?]. split; [done|by right].
  - done.
Qed.

Lemma compress_result_witness :
  let world := exampleWorld 1 (Exited 0 (Some [Byte.x67; Byte.x6c])) in
  let trace :=
    [analyzeMeshComplexity; dedup; prune; removeUnusedUVs; instance;
     sparse; resample; removeStaticTracksWithBake; normalizeWeights;
     textureCompress; prune] in
  let result := mkResult [Byte.x67; Byte.x6c] "gltfpack" (Some 1) in
  originalSize result = Some (length [Byte.x00]) ∧
  ((method result = "gltfpack" ∧ hasGltfpack world = true ∧
    (∃ args cleanBuffer,
       gltfpack world args cleanBuffer = Exited 0 (Some (buffer result))) ∧
    (quantize ∉ trace) ∧ (meshopt ∉ trace))
   ∨
   (method result = "meshopt" ∧
    (∃ doc, writeBinary world doc = Normal (buffer result)) ∧
    last trace = Some meshopt)).
Proof.
  apply (compress_result
           (exampleWorld 1 (Exited 0 (Some [Byte.x67; Byte.x6c]))) [Byte.x00]
           defaultOptions).
  vm_compute. reflexivity.
Defined.



(** *** The errors *)

Lemma log_throws (host : CompressLog.Host) (msg : CompressLog.Message)
    (e : Exn) :
  CompressLog.log host msg = Throw e →
  ∃ callback,
    CompressLog.onLog host = Some callback ∧ callback msg = Throw e.
Proof.
  unfold CompressLog.log.
  destruct (CompressLog.onLog host) as [callback|]; [|done].
  intros Hthrow. by exists callback.
Qed.

Local Opaque CompressLog.log.

(** Names the origin of the error at hand from the hypotheses that the
    case analysis has left. *)
Local Ltac origin :=
  first
    [ solve [eapply CompressLog.FromTransform; [reflexivity|eassumption]]
    | solve [eapply CompressLog.FromWrite; eassumption]
    | solve [eapply CompressLog.FromDebugDump; [eauto|eassumption]]
    | match goal with
      | H : CompressLog.log _ _ = Throw _ |- _ =>
          apply log_throws in H as (? & ? & ?);
          solve [eapply CompressLog.FromLog; eassumption]
      end ].

Local Ltac step_log H :=
  repeat match type of H with
         | context [runStage ?w ?s ?d] =>
             destruct (runStage w s d) eqn:?; cbn in H
         | context [CompressLog.log ?h ?m] =>
             destruct (CompressLog.log h m) as [[]|?] eqn:?; cbn in H
         end.

Lemma debugRaw_throws (world : World) (host : CompressLog.Host)
    (input : list Byte.byte) (trace : list Stage) (document : Document)
    (e : Exn) :
  CompressLog.debugRaw world host document = Throw e →
  CompressLog.Origin world host input trace e.
Proof.
  unfold CompressLog.debugRaw.
  destruct (CompressLog.DEBUG_RAW host) eqn:Hraw; [|done].
  destruct (writeBinary world document) as [rawBuffer|?] eqn:Hw;
    cbn [mbind Completion_bind]; [|intros [= ->]; origin].
  destruct (CompressLog.bunWrite host _ rawBuffer) as [[]|?] eqn:Hb;
    cbn [mbind Completion_bind]; [|intros [= ->]; origin].
  intros Hlog. origin.
Qed.

Lemma debugClean_throws (world : World) (host : CompressLog.Host)
    (input : list Byte.byte) (trace : list Stage)
    (cleanBuffer : list Byte.byte) (e : Exn) :
  CompressLog.debugClean host cleanBuffer = Throw e →
  CompressLog.Origin world host input trace e.
Proof.
  unfold CompressLog.debugClean.
  destruct (CompressLog.DEBUG_CLEAN host) eqn:Hclean; [|done].
  destruct (CompressLog.bunWrite host _ cleanBuffer) as [[]|?] eqn:Hb;
    cbn [mbind Completion_bind]; [|intros [= ->]; origin].
  intros Hlog. origin.
Qed.

Local Opaque CompressLog.debugRaw CompressLog.debugClean.

(** The run up to the clean buffer, when it throws. *)
Lemma prepare_throws (world : World) (host : CompressLog.Host)
    (input : list Byte.byte) (options : CompressOptions)
    (trace : list Stage) (e : Exn) :
  CompressLog.prepare world host input options = (trace, Throw e) →
  CompressLog.Origin world host input trace e.
Proof.
  intros Hc. unfold CompressLog.prepare in Hc.
  destruct (readBinary world input) as [document|err] eqn:Hread;
    cbn [lift andThen] in Hc.
  2: { injection Hc as <- <-. by eapply CompressLog.FromParse. }
  destruct (CompressLog.debugRaw world host document) as [[]|?] eqn:Hraw;
    cbn [lift andThen] in Hc.
  2: { injection Hc as <- <-. by eapply debugRaw_throws. }
  set (doc0 := stripCompressionExtensions world document) in *.
  destruct (bool_decide (0 < doc_skins doc0)); cbn in Hc.
  all: step_log Hc; try (injection Hc as <- <-; origin).
  all: destruct (simplifyRatio options) as [ratio|];
    [destruct (Qltb 0 ratio && Qltb ratio 1)|]; cbn in Hc;
    step_log Hc; try (injection Hc as <- <-; origin).
  all: destruct (writeBinary world _) eqn:Hw; cbn in Hc;
    try (injection Hc as <- <-; origin).
  all: step_log Hc; try (injection Hc as <- <-; origin).
  all: destruct (CompressLog.debugClean host _) as [[]|?] eqn:Hclean;
    cbn in Hc; [done|].
  all: injection Hc as <- <-; by eapply debugClean_throws.
Qed.

(** X14.  An error of [compress] is never one of gltfpack.  When [compress]
    throws, either the input did not parse, and then no transform has been
    invoked and the error is the parse failure with the text of the cause;
    or the last transform invoked threw that error; or the I/O layer threw
    it when writing a document; or gltfpack was available and the
    temporary directory could not be made or could not be removed; or the
    callback of the caller threw it on a message; or a debug dump was
    asked for and its [Bun.write] threw it. *)
Theorem compress_error (world : World) (host : CompressLog.Host)
    (input : list Byte.byte) (options : CompressOptions)
    (trace : list Stage) (e : Exn) :
  CompressLog.compress world host input options = (trace, Throw e) →
  CompressLog.Origin world host input trace e.
Proof.
  intros Hc. unfold CompressLog.compress in Hc.
  destruct (CompressLog.prepare world host input options)
    as [trace0 [[[doc hasSkins] cleanBuffer]|e']] eqn:Hprep;
    cbn [andThen] in Hc.
  2: { injection Hc as <- <-. by apply prepare_throws in Hprep. }
  unfold CompressLog.finalCompression in Hc.
  assert (∀ t,
    CompressLog.meshoptFallback world host input doc hasSkins trace0
      = (t, Throw e) →
    CompressLog.Origin world host input t e) as Hfallback.
  { intros t. unfold CompressLog.meshoptFallback.
    destruct (CompressLog.log host CompressLog.RunningMeshoptFallback)
      as [[]|?] eqn:Hlog1; cbn [lift andThen];
      [|intros [= <- <-]; origin].
    destruct (compressWithMeshopt world trace0 doc hasSkins)
      as [t' [result'|e']] eqn:Hm; cbn [lift andThen].
    - destruct (CompressLog.log host (CompressLog.MeshoptSize _))
        as [[]|?] eqn:Hlog2; [done|].
      intros [= <- <-]. origin.
    - apply compressWithMeshopt_run in Hm. intros [= <- <-].
      destruct Hm as [_ [(stage & doc' & Hlast & Hthrow)|[doc' Hw']]].
      + by eapply CompressLog.FromTransform.
      + by eapply CompressLog.FromWrite. }
  destruct (hasGltfpack world) eqn:Hhas; [|by apply Hfallback].
  destruct (CompressLog.log host (CompressLog.RunningGltfpack _))
    as [[]|?] eqn:Hlog0;
    cbn [lift andThen] in Hc; [|injection Hc as <- <-; origin].
  destruct (compressWithGltfpack world cleanBuffer hasSkins _)
    as [[result'|]|e'] eqn:Hg; cbn [lift andThen] in Hc.
  - destruct (CompressLog.log host (CompressLog.GltfpackSize _))
      as [[]|?] eqn:Hlog3; [done|].
    injection Hc as <- <-. origin.
  - by apply Hfallback.
  - injection Hc as <- <-. apply compressWithGltfpack_throws in Hg.
    by apply CompressLog.FromTempDir.
Qed.

Lemma compress_error_witness :
  CompressLog.Origin (exampleWorld 1 (Exited 1 None))
    CompressLog.closedStreamHost [Byte.x00]
    [analyzeMeshComplexity; dedup; prune; removeUnusedUVs; instance;
     sparse; resample; removeStaticTracksWithBake; normalizeWeights;
     textureCompress; prune]
    (Error "Invalid state: Controller is already closed").
Proof.
  apply (compress_error (exampleWorld 1 (Exited 1 None))
           CompressLog.closedStreamHost [Byte.x00] defaultOptions).
  vm_compute. reflexivity.
Defined.



End CompressRunsProps.

(** ** mergeByDistance: what a rewrite builds *)

Module MergeRewrite.
Import MergeByDistance MergeHash MergeCompact MergePrimitive MergeDocument
  MergeTerms.

Lemma separate_cons (p : Primitive) (s : string) (sems : list string) :
  separate p (s :: sems) → separate p sems.
Proof. intros H s1 s2 r H1 H2. apply H; by right. Qed.

Lemma getAttribute_elem_of (p : Primitive) (sem : string) (r : nat) :
  getAttribute p sem = Some r → (sem, r) ∈ prim_attributes p.
Proof.
  unfold getAttribute.
  destruct (find _ _) as [[s r']|] eqn:Hfind; [|done].
  intros [= <-]. apply find_some in Hfind as [Hin Hs].
  apply bool_decide_eq_true in Hs. simpl in Hs. subst s.
  by apply list_elem_of_In.
Qed.

Lemma separate_accessors (p : Primitive) :
  NoDup (prim_attributes p).*2 → separate p (listSemantics p).
Proof.
  intros Hnd s1 s2 r _ _ H1%getAttribute_elem_of H2%getAttribute_elem_of.
  apply list_elem_of_lookup in H1 as [i1 H1], H2 as [i2 H2].
  assert (i1 = i2) as ->; [|congruence].
  eapply NoDup_lookup; [exact Hnd|..]; rewrite list_lookup_fmap.
  - by rewrite H1.
  - by rewrite H2.
Qed.

(** With pairwise different accessors every attribute array is compacted
    once, from the array that the loop found at its start. *)
Lemma compact_once (p : Primitive) (nto : list nat) (sems : list string)
    (accs accs1 : gmap nat Accessor) :
  NoDup sems → separate p sems →
  foldM (compactAttribute p nto) sems accs = Normal accs1 →
  (∀ r, getElementSize accs1 r = getElementSize accs r) ∧
  (∀ r, (∀ sem, sem ∈ sems → getAttribute p sem ≠ Some r) →
        getArray accs1 r = getArray accs r) ∧
  (∀ sem r arr, sem ∈ sems → getAttribute p sem = Some r →
     getArray accs r = Some arr →
     ∃ arr', compactArray arr (getElementSize accs r) nto = Normal arr' ∧
             getArray accs1 r = Some arr').
Proof.
  revert accs. induction sems as [|s sems IH]; intros accs Hnd Hsep; simpl.
  { intros [= <-]. split; [done|]. split; [done|].
    intros sem r arr Hin. by apply elem_of_nil in Hin. }
  apply NoDup_cons in Hnd as [Hs Hnd].
  pose proof (separate_cons _ _ _ Hsep) as Hsep'.
  destruct (compactAttribute p nto accs s) as [accsA|e] eqn:Hstep;
    simpl; [|done].
  intros Hrest. destruct (IH accsA Hnd Hsep' Hrest) as (Hes & Hout & Hin).
  unfold compactAttribute in Hstep.
  destruct (getAttribute p s) as [attr|] eqn:Hattr.
  2:{ injection Hstep as <-. split; [done|]. split.
      - intros r Hr. apply Hout. intros sem Hsem. apply Hr. by right.
      - intros sem r arr [->|Hsem]%elem_of_cons Hr Harr; [congruence|].
        by eapply Hin. }
  destruct (getArray accs attr) as [old|] eqn:Hold.
  2:{ injection Hstep as <-. split; [done|]. split.
      - intros r Hr. apply Hout. intros sem Hsem. apply Hr. by right.
      - intros sem r arr [->|Hsem]%elem_of_cons Hr Harr; [congruence|].
        by eapply Hin. }
  destruct (compactArray old _ nto) as [newArr|e] eqn:Hc;
    simpl in Hstep; [|done].
  injection Hstep as <-.
  assert (∀ sem, sem ∈ sems → getAttribute p sem ≠ Some attr) as Hfresh.
  { intros sem Hsem Heq. assert (sem = s) as ->; [|done].
    apply (Hsep sem s attr); [by right|by left|done..]. }
  split; [|split].
  - intros r. by rewrite Hes, getElementSize_setArray.
  - intros r Hr. rewrite Hout.
    + apply getArray_setArray_ne. intros ->. by apply (Hr s); [left|].
    + intros sem Hsem. apply Hr. by right.
  - intros sem r arr [->|Hsem]%elem_of_cons Hr Harr.
    + assert (r = attr) as -> by congruence.
      assert (arr = old) as -> by congruence.
      exists newArr. split; [done|]. rewrite (Hout attr Hfresh).
      by eapply getArray_setArray_eq.
    + assert (r ≠ attr) as Hne.
      { intros ->. by apply (Hfresh sem). }
      destruct (Hin sem r arr Hsem Hr) as (arr' & Hc' & Harr').
      { by rewrite getArray_setArray_ne. }
      exists arr'. split; [|done].
      by rewrite getElementSize_setArray in Hc'.
Qed.

Lemma ofNat_stored (j : nat) :
  (Z.of_nat j < 2 ^ 32)%Z →
  toElement Uint32Array (toElement Uint32Array (ofNat j)) = ofNat j.
Proof.
  intros Hj. rewrite toElement_idem, toElement_Uint32_ofNat.
  unfold ofNat. f_equal. apply Z.mod_small. lia.
Qed.

(** X16.  What a rewrite builds.  A well-formed primitive with fewer than 2^32
    vertices, whose attributes use pairwise different accessors, and with
    two vertices of one key at least.  When the step returns there is a
    list [keep] of vertices of the old position array, without
    repetition, of pairwise different keys and shorter than the old vertex
    count, such that: every value [v] of the index buffer has become the
    position [j] in [keep] of a vertex with the key of vertex [v]; and
    every attribute array has become the array of its elements at the
    vertices of [keep], in that order, under the same constructor. *)
Theorem mergePrimitive_rewrite (precision : Q)
    (accs accs' : gmap nat Accessor) (p : Primitive) :
  wf_accessors accs →
  wf_positions accs [p] →
  NoDup (listSemantics p) →
  NoDup (prim_attributes p).*2 →
  (Z.of_nat (vertexCount accs p) < 2 ^ 32)%Z →
  ¬ distinctPositions precision accs p →
  mergePrimitive precision accs p = Normal accs' →
  ∃ P idx positions indices indices' keep,
    getAttribute p "POSITION" = Some P ∧ prim_indices p = Some idx ∧
    getArray accs P = Some positions ∧ getArray accs idx = Some indices ∧
    getArray accs' idx = Some indices' ∧
    let keys := vertexKeys precision (elems positions) in
    NoDup keep ∧ length keep < vertexCount accs p ∧
    (∀ j1 j2 i1 i2 k,
       keep !! j1 = Some i1 → keep !! j2 = Some i2 →
       keys !! i1 = Some k → keys !! i2 = Some k → j1 = j2) ∧
    Forall2 (λ v v', ∃ i j i0 k,
               toIndex v = Some i ∧ v' = ofNat j ∧ keep !! j = Some i0 ∧
               keys !! i = Some k ∧ keys !! i0 = Some k)
            (elems indices) (elems indices') ∧
    ∀ sem r arr,
      getAttribute p sem = Some r → r ≠ idx → getArray accs r = Some arr →
      ∃ arr',
        getArray accs' r = Some arr' ∧ ctor arr' = ctor arr ∧
        length (elems arr') = length keep * getElementSize accs r ∧
        ∀ j i0 c,
          keep !! j = Some i0 → c < getElementSize accs r →
          ∃ v, elems arr !! (i0 * getElementSize accs r + c) = Some v ∧
               elems arr' !! (j * getElementSize accs r + c) = Some v.
Proof.
  intros Hwf Hwp Hsems Haccs Hcount Hdup
    [[_ ?]|Hrw]%mergePrimitive_Normal; [done|].
  destruct Hrw as (P & idx & positions & indices & n & h & newIndices & accs1 &
    HP & Hidx & Hpos & Hind & Hlen & Hinv & Hbuild & Hne & Hri & Hfold & Hset).
  pose proof (rewrite_indices accs accs1 accs' p idx indices newIndices h
    Hind Hfold Hset) as Hnew.
  assert (vertexCount accs p = n) as Hn.
  { unfold vertexCount. rewrite HP. cbn -[Nat.div]. rewrite Hpos, Hlen.
    by rewrite Nat.div_mul. }
  pose proof (inv_count _ _ _ _ _ Hinv) as Hle.
  exists P, idx, positions, indices, newIndices, (newToOld h).
  do 5 (split; [done|]). intros keys.
  split; [by eapply HashInv_newToOld_NoDup|]. split; [lia|]. split; [|split].
  - intros j1 j2 i1 i2 k Hj1 Hj2 Hk1 Hk2.
    destruct (inv_canonical _ _ _ _ _ Hinv j1 i1 Hj1) as (_ & k1 & Hk1' & Hm1).
    destruct (inv_canonical _ _ _ _ _ Hinv j2 i2 Hj2) as (_ & k2 & Hk2' & Hm2).
    unfold keys in *. congruence.
  - apply remapIndices_Normal in Hri as (_ & _ & Hall).
    eapply Forall2_impl; [exact Hall|].
    intros v v' (i & x & Hi & Hx & ->).
    destruct (MergeClaims.remap_canonical _ _ _ _ _ _ Hlen Hinv Hx)
      as (j & i0 & k & -> & Hj & Hk & Hk0).
    exists i, j, i0, k. split; [done|]. split; [|done].
    apply ofNat_stored. apply lookup_lt_Some in Hj. lia.
  - intros sem r arr Hr Hridx Harr.
    destruct (compact_once p (newToOld h) (listSemantics p) accs accs1
                Hsems (separate_accessors p Haccs) Hfold) as (Hes & _ & Hin).
    destruct (Hin sem r arr) as (arr' & Hc & Harr'); [|done..|].
    { by eapply getAttribute_listSemantics. }
    exists arr'. split; [by rewrite Hset, getArray_setArray_ne|].
    apply compactArray_Normal in Hc as (Hctor & Hlen' & _ & Hget).
    split; [done|]. split; [done|].
    intros j i0 c Hj Hc. destruct (Hget j i0 c Hj Hc) as (w & Hw & Hw').
    exists w. split; [done|]. rewrite Hw'. f_equal.
    rewrite wf_accessors_alt in Hwf. destruct (Hwf r arr Harr) as [Hvalid _].
    unfold validArray in Hvalid. rewrite Forall_lookup in Hvalid.
    by eapply Hvalid.
Qed.

Lemma mergePrimitive_rewrite_witness :
  ∃ P idx positions indices indices' keep,
    getAttribute quadPrimitive "POSITION" = Some P ∧
    prim_indices quadPrimitive = Some idx ∧
    getArray quadAccessors P = Some positions ∧
    getArray quadAccessors idx = Some indices ∧
    getArray (doc_accessors quadMerged) idx = Some indices' ∧
    let keys := vertexKeys (1 / (1 # 10000)) (elems positions) in
    NoDup keep ∧ length keep < vertexCount quadAccessors quadPrimitive ∧
    (∀ j1 j2 i1 i2 k,
       keep !! j1 = Some i1 → keep !! j2 = Some i2 →
       keys !! i1 = Some k → keys !! i2 = Some k → j1 = j2) ∧
    Forall2 (λ v v', ∃ i j i0 k,
               toIndex v = Some i ∧ v' = ofNat j ∧ keep !! j = Some i0 ∧
               keys !! i = Some k ∧ keys !! i0 = Some k)
            (elems indices) (elems indices') ∧
    ∀ sem r arr,
      getAttribute quadPrimitive sem = Some r → r ≠ idx →
      getArray quadAccessors r = Some arr →
      ∃ arr',
        getArray (doc_accessors quadMerged) r = Some arr' ∧
        ctor arr' = ctor arr ∧
        length (elems arr') = length keep * getElementSize quadAccessors r ∧
        ∀ j i0 c,
          keep !! j = Some i0 → c < getElementSize quadAccessors r →
          ∃ v, elems arr !! (i0 * getElementSize quadAccessors r + c)
                 = Some v ∧
               elems arr' !! (j * getElementSize quadAccessors r + c)
                 = Some v.
Proof.
  apply (mergePrimitive_rewrite (1 / (1 # 10000)) quadAccessors
           (doc_accessors quadMerged) quadPrimitive).
  - apply (bool_decide_unpack _). vm_compute. exact I.
  - apply (bool_decide_unpack _). vm_compute. exact I.
  - apply (bool_decide_unpack _). vm_compute. exact I.
  - apply (bool_decide_unpack _). vm_compute. exact I.
  - vm_compute. reflexivity.
  - apply (bool_decide_unpack _). vm_compute. exact I.
  - vm_compute. reflexivity.
Defined.

(** *** No duplicates are left *)

(** X17.  After [mergeByDistance] with a tolerance above 0 on a well-formed
    document, the primitives are those of before, the document is still
    well-formed, and every primitive that the guards let through, that is,
    one with a POSITION array and an index array, holds whole vertices
    whose positions round to pairwise different keys.  Nothing is said of
    a primitive that the guards skip: its vertices are not looked at. *)
Theorem mergeByDistance_no_duplicates (tolerance : Q) (doc doc1 : Document) :
  (0 < tolerance)%Q →
  wf_doc doc →
  mergeByDistance tolerance doc = Normal doc1 →
  listPrimitives doc1 = listPrimitives doc ∧
  wf_doc doc1 ∧
  ∀ p P idx positions indices,
    p ∈ listPrimitives doc1 →
    getAttribute p "POSITION" = Some P →
    prim_indices p = Some idx →
    getArray (doc_accessors doc1) P = Some positions →
    getArray (doc_accessors doc1) idx = Some indices →
    (3 | length (elems positions)) ∧
    NoDup (vertexKeys (1 / tolerance) (elems positions)).
Proof.
  intros _ [Hwf Hwp]. unfold mergeByDistance.
  destruct (foldM _ _ (doc_accessors doc)) as [accs1|e] eqn:Hloop;
    simpl; [|done].
  intros [= <-].
  destruct (merge_loop _ (listPrimitives doc) (listPrimitives doc) _ _
    ltac:(done) Hwf Hwp Hloop) as (Hwf1 & Hwp1 & Hall).
  split; [done|]. split; [by split|].
  intros p P idx positions indices Hp HP Hidx Hpos Hind.
  specialize (Hall p Hp ltac:(by left)). unfold distinctPositions in Hall.
  change (doc_accessors (withAccessors doc accs1)) with accs1 in Hpos, Hind.
  by rewrite HP, Hidx, Hpos, Hind in Hall.
Qed.

Lemma mergeByDistance_no_duplicates_witness :
  listPrimitives quadMerged = listPrimitives quadDocument ∧
  wf_doc quadMerged ∧
  ∀ p P idx positions indices,
    p ∈ listPrimitives quadMerged →
    getAttribute p "POSITION" = Some P →
    prim_indices p = Some idx →
    getArray (doc_accessors quadMerged) P = Some positions →
    getArray (doc_accessors quadMerged) idx = Some indices →
    (3 | length (elems positions)) ∧
    NoDup (vertexKeys (1 / (1 # 10000)) (elems positions)).
Proof.
  apply (mergeByDistance_no_duplicates (1 # 10000) quadDocument quadMerged).
  - reflexivity.
  - apply (bool_decide_unpack _). vm_compute. exact I.
  - vm_compute. reflexivity.
Defined.

(** *** Errors *)

Lemma traverse_returns {A B : Type} (f : A → Completion B) (l : list A) :
  Forall (λ a, ∃ b, f a = Normal b) l → ∃ bs, traverse f l = Normal bs.
Proof.
  induction 1 as [|a l [b Hb] _ [bs IH]]; simpl; [by eexists|].
  rewrite Hb, IH. simpl. by eexists.
Qed.

Lemma traverse_throws {A B : Type} (f : A → Completion B) (l : list A)
    (e : Exn) :
  (∀ a e', f a = Throw e' → e' = e) →
  Exists (λ a, ∃ e', f a = Throw e') l → traverse f l = Throw e.
Proof.
  intros Honly. induction 1 as [a l [e' He']|a l _ IH]; simpl.
  - rewrite He'. simpl. f_equal. by eapply Honly.
  - destruct (f a) as [b|e'] eqn:Hf; simpl.
    + by rewrite IH.
    + f_equal. by eapply Honly.
Qed.

Lemma compactArray_returns (old : TypedArray) (es : nat) (nto : list nat) :
  (∀ i, i ∈ nto → (i + 1) * es ≤ length (elems old)) →
  ∃ new, compactArray old es nto = Normal new.
Proof.
  intros Hlen. unfold compactArray.
  destruct (traverse_returns
    (λ oldIdx, traverse (λ j, v ← at_ (elems old) (oldIdx * es + j);
                              Normal (toElement (ctor old) v)) (seq 0 es))
    nto) as [rows ->]; [|simpl; by eexists].
  apply Forall_forall. intros i Hi. apply traverse_returns.
  apply Forall_forall. intros j Hj%elem_of_seq.
  destruct (lookup_lt_is_Some_2 (elems old) (i * es + j)) as [v Hv].
  { specialize (Hlen i Hi). nia. }
  unfold at_. rewrite Hv. simpl. by eexists.
Qed.

Lemma compact_returns (p : Primitive) (nto : list nat) (sems : list string)
    (accs : gmap nat Accessor) :
  NoDup sems → separate p sems →
  (∀ sem r arr, sem ∈ sems → getAttribute p sem = Some r →
     getArray accs r = Some arr →
     ∀ i, i ∈ nto → (i + 1) * getElementSize accs r ≤ length (elems arr)) →
  ∃ accs1, foldM (compactAttribute p nto) sems accs = Normal accs1.
Proof.
  revert accs. induction sems as [|s sems IH]; intros accs Hnd Hsep Hlen;
    simpl; [by eexists|].
  apply NoDup_cons in Hnd as [Hs Hnd].
  pose proof (separate_cons _ _ _ Hsep) as Hsep'.
  assert (∀ accsA,
    (∀ r, getElementSize accsA r = getElementSize accs r) →
    (∀ sem r, sem ∈ sems → getAttribute p sem = Some r →
              getArray accsA r = getArray accs r) →
    ∃ accs1, foldM (compactAttribute p nto) sems accsA = Normal accs1)
    as Hnext.
  { intros accsA Hes Hsame. apply IH; [done..|].
    intros sem r arr Hsem Hr Harr. rewrite Hes.
    apply (Hlen sem r arr); [by right|done|]. by rewrite <- (Hsame sem). }
  assert (∃ accsA,
    compactAttribute p nto accs s = Normal accsA ∧
    (∀ r, getElementSize accsA r = getElementSize accs r) ∧
    (∀ sem r, sem ∈ sems → getAttribute p sem = Some r →
              getArray accsA r = getArray accs r))
    as (accsA & -> & Hes & Hsame); [|simpl; by apply Hnext].
  unfold compactAttribute.
  destruct (getAttribute p s) as [attr|] eqn:Hattr; [|by eexists].
  destruct (getArray accs attr) as [old|] eqn:Hold; [|by eexists].
  destruct (compactArray_returns old (getElementSize accs attr) nto)
    as [newArr ->]; [by apply (Hlen s attr old); [left|..]|].
  simpl. eexists. split; [done|]. split.
  - intros r. apply getElementSize_setArray.
  - intros sem r Hsem Hr. apply getArray_setArray_ne. intros ->.
    assert (sem = s) as ->; [|done].
    apply (Hsep sem s r); [by right|by left|done..].
Qed.

(** X18.  [mergePrimitive] returns on a well-formed primitive whose attributes
    use pairwise different accessors, when every index value names a
    vertex and every attribute array holds an element for every vertex. *)
Theorem mergePrimitive_returns (precision : Q) (accs : gmap nat Accessor)
    (p : Primitive) :
  wf_accessors accs →
  wf_positions accs [p] →
  NoDup (listSemantics p) →
  NoDup (prim_attributes p).*2 →
  Forall (names (vertexCount accs p)) (indexValues accs p) →
  attributesCover accs p →
  ∃ accs', mergePrimitive precision accs p = Normal accs'.
Proof.
  intros Hwf Hwp Hsems Haccs Hnames Hcover.
  assert (∀ sem r arr, getAttribute p sem = Some r →
            getArray accs r = Some arr →
            vertexCount accs p * getElementSize accs r ≤ length (elems arr))
    as Hattrs.
  { intros sem r arr Hr%getAttribute_elem_of Harr.
    unfold attributesCover in Hcover. rewrite Forall_forall in Hcover.
    specialize (Hcover _ Hr). simpl in Hcover. by rewrite Harr in Hcover. }
  clear Hcover. unfold mergePrimitive.
  destruct (getAttribute p "POSITION") as [P|] eqn:HP; [|by eexists].
  destruct (prim_indices p) as [idx|] eqn:Hidx; [|by eexists].
  destruct (getArray accs P) as [positions|] eqn:Hpos; [|by eexists].
  destruct (getArray accs idx) as [indices|] eqn:Hind; [|by eexists].
  rewrite wf_positions_alt in Hwp.
  destruct (Hwp p p P) as [Hes _]; [by apply list_elem_of_singleton..|done|].
  rewrite wf_accessors_alt in Hwf.
  destruct (Hwf P positions Hpos) as [_ [n Hlen]]. rewrite Hes in Hlen.
  destruct (buildHash_whole precision _ n Hlen) as (h & -> & Hinv). simpl.
  destruct (Qeq_bool _ 0); [by eexists|].
  assert (vertexCount accs p = n) as Hn.
  { unfold vertexCount. rewrite HP. cbn -[Nat.div]. rewrite Hpos, Hlen.
    by rewrite Nat.div_mul. }
  rewrite Hn in *. unfold indexValues in Hnames. rewrite Hidx in Hnames.
  simpl in Hnames. rewrite Hind in Hnames.
  unfold remapIndices.
  destruct (traverse_returns
    (λ v, r ← at_num (remap h) v; Normal (toElement Uint32Array r))
    (elems indices)) as [vs ->].
  { eapply Forall_impl; [exact Hnames|]. intros v (i & Hi & Hlt).
    unfold at_num, at_. rewrite Hi.
    destruct (lookup_lt_is_Some_2 (remap h) i) as [x ->]; [|simpl; by eexists].
    by rewrite (inv_remap_length _ _ _ _ _ Hinv). }
  simpl.
  destruct (compact_returns p (newToOld h) (listSemantics p) accs Hsems
              (separate_accessors p Haccs)) as [accs1 ->]; [|simpl; by eexists].
  intros sem r arr _ Hr Harr i Hi. specialize (Hattrs sem r arr Hr Harr).
  apply list_elem_of_lookup in Hi as [j Hj].
  destruct (inv_canonical _ _ _ _ _ Hinv j i Hj) as [Hlt _]. nia.
Qed.

Lemma mergePrimitive_returns_witness :
  ∃ accs', mergePrimitive (1 / (1 # 10000)) quadAccessors quadPrimitive
             = Normal accs'.
Proof.
  apply (mergePrimitive_returns (1 / (1 # 10000)) quadAccessors quadPrimitive).
  - apply (bool_decide_unpack _). vm_compute. exact I.
  - apply (bool_decide_unpack _). vm_compute. exact I.
  - apply (bool_decide_unpack _). vm_compute. exact I.
  - apply (bool_decide_unpack _). vm_compute. exact I.
  - apply (bool_decide_unpack _). vm_compute. exact I.
  - apply (bool_decide_unpack _). vm_compute. exact I.
Defined.

(** X19.  A primitive with two vertices of one key and an index value that names
    no vertex: the step throws a [RangeError].  (Without such vertices the
    index buffer is not read, and the step returns.) *)
Theorem mergePrimitive_index_out_of_range (precision : Q)
    (accs : gmap nat Accessor) (p : Primitive) :
  wf_accessors accs →
  wf_positions accs [p] →
  ¬ distinctPositions precision accs p →
  ¬ Forall (names (vertexCount accs p)) (indexValues accs p) →
  mergePrimitive precision accs p = Throw RangeError.
Proof.
  intros Hwf Hwp Hdup Hnames. unfold mergePrimitive.
  unfold distinctPositions in Hdup.
  destruct (getAttribute p "POSITION") as [P|] eqn:HP; [|done].
  destruct (prim_indices p) as [idx|] eqn:Hidx; [|done].
  destruct (getArray accs P) as [positions|] eqn:Hpos; [|done].
  destruct (getArray accs idx) as [indices|] eqn:Hind; [|done].
  rewrite wf_positions_alt in Hwp.
  destruct (Hwp p p P) as [Hes _]; [by apply list_elem_of_singleton..|done|].
  rewrite wf_accessors_alt in Hwf.
  destruct (Hwf P positions Hpos) as [_ [n Hlen]]. rewrite Hes in Hlen.
  destruct (buildHash_whole precision _ n Hlen) as (h & -> & Hinv). simpl.
  rewrite Hlen.
  destruct (Qeq_bool _ 0) eqn:Hremoved.
  { apply removed_zero in Hremoved. destruct Hdup. split; [by exists n|].
    pose proof (inv_full _ _ _ _ _ Hinv Hremoved) as Hnd.
    rewrite take_ge in Hnd; [done|]. by rewrite (vertexKeys_length _ _ n). }
  assert (vertexCount accs p = n) as Hn.
  { unfold vertexCount. rewrite HP. cbn -[Nat.div]. rewrite Hpos, Hlen.
    by rewrite Nat.div_mul. }
  rewrite Hn in *. unfold indexValues in Hnames. rewrite Hidx in Hnames.
  simpl in Hnames. rewrite Hind in Hnames.
  unfold remapIndices.
  rewrite (traverse_throws _ _ RangeError); [done| |].
  - intros v e. unfold at_num, at_.
    destruct (toIndex v) as [i|]; [|by intros [= <-]].
    destruct (remap h !! i); [done|by intros [= <-]].
  - apply not_Forall_Exists in Hnames; [|apply _].
    eapply Exists_impl; [exact Hnames|]. intros v Hv. simpl in Hv.
    exists RangeError. unfold at_num, at_.
    destruct (toIndex v) as [i|] eqn:Hi; [|done].
    destruct (remap h !! i) as [x|] eqn:Hx; [|done].
    destruct Hv. exists i. split; [done|].
    apply lookup_lt_Some in Hx.
    by rewrite (inv_remap_length _ _ _ _ _ Hinv) in Hx.
Qed.

Lemma mergePrimitive_index_out_of_range_witness :
  mergePrimitive (1 / (1 # 10000)) danglingAccessors trianglePrimitive
    = Throw RangeError.
Proof.
  apply (mergePrimitive_index_out_of_range (1 / (1 # 10000))
           danglingAccessors trianglePrimitive).
  - apply (bool_decide_unpack _). vm_compute. exact I.
  - apply (bool_decide_unpack _). vm_compute. exact I.
  - apply (bool_decide_unpack _). vm_compute. exact I.
  - apply (bool_decide_unpack _). vm_compute. exact I.
Defined.

End MergeRewrite.

(** ** removeDegenerateFaces: the triangles that are kept *)

Module FacesFilter.
Import RemoveDegenerateFaces MergeHash MergeCompact MergePrimitive
  MergeDocument FacesProps FacesDocument FacesTerms.

Lemma at_num_error (arr : list Q) (i : Q) (e : Exn) :
  at_num arr i = Throw e → e = RangeError.
Proof.
  unfold at_num, at_. destruct (toIndex i) as [n|]; [|by intros [= <-]].
  destruct (arr !! n); [done|by intros [= <-]].
Qed.

Lemma triangleCross_error (positions : list Q) (t : Q * Q * Q) (e : Exn) :
  triangleCross positions t = Throw e → e = RangeError.
Proof.
  destruct t as [[i0 i1] i2]. unfold triangleCross.
  repeat match goal with
         | |- context [at_num ?a ?i] =>
             let H := fresh in
             destruct (at_num a i) eqn:H; simpl;
               [|intros [= <-]; by apply at_num_error in H]
         end.
  done.
Qed.

Lemma triangleCross_bind {B : Type} (positions : list Q) (i0 i1 i2 : Q)
    (k : Q → Completion B) :
  (v0x ← at_num positions (i0 * 3)%Q;
   v0y ← at_num positions (i0 * 3 + 1)%Q;
   v0z ← at_num positions (i0 * 3 + 2)%Q;
   v1x ← at_num positions (i1 * 3)%Q;
   v1y ← at_num positions (i1 * 3 + 1)%Q;
   v1z ← at_num positions (i1 * 3 + 2)%Q;
   v2x ← at_num positions (i2 * 3)%Q;
   v2y ← at_num positions (i2 * 3 + 1)%Q;
   v2z ← at_num positions (i2 * 3 + 2)%Q;
   k (crossSquared v0x v0y v0z v1x v1y v1z v2x v2y v2z)) =
  (s ← triangleCross positions (i0, i1, i2); k s).
Proof.
  unfold triangleCross.
  repeat match goal with
         | |- context [at_num ?a ?i] => destruct (at_num a i); simpl; [|done]
         end.
  done.
Qed.

(** One turn of the loop, on the triple that it reads. *)
Lemma triangleStep_spec (minArea : Q) (positions indices valid : list Q)
    (k : nat) :
  triangleStep minArea positions indices valid (k * 3) =
  match chunks3 indices !! k with
  | Some t =>
      if decide (readable positions t)
      then Normal (valid ++ if decide (sound minArea positions t)
                            then [t.1.1; t.1.2; t.2] else [])
      else Throw RangeError
  | None => Throw RangeError
  end.
Proof.
  unfold triangleStep, at_. rewrite chunks3_lookup.
  destruct (indices !! (k * 3)) as [i0|]; simpl; [|done].
  destruct (indices !! (k * 3 + 1)) as [i1|]; simpl; [|done].
  destruct (indices !! (k * 3 + 2)) as [i2|]; simpl; [|done].
  assert (∀ c : Completion (list Q),
    ((i0 == i1)%Q ∨ (i1 == i2)%Q ∨ (i0 == i2)%Q) →
    Normal valid =
    (if decide (readable positions (i0, i1, i2))
     then Normal (valid ++ if decide (sound minArea positions (i0, i1, i2))
                           then [i0; i1; i2] else [])
     else c)) as Hequal.
  { intros c Heq. rewrite decide_True by (unfold readable; tauto).
    rewrite decide_False; [by rewrite (right_id_L [] (++))|].
    intros (? & ? & ? & _). tauto. }
  destruct (Qeq_bool i0 i1) eqn:H01; simpl.
  { apply Hequal. left. by apply Qeq_bool_iff. }
  destruct (Qeq_bool i1 i2) eqn:H12; simpl.
  { apply Hequal. right; left. by apply Qeq_bool_iff. }
  destruct (Qeq_bool i0 i2) eqn:H02; simpl.
  { apply Hequal. right; right. by apply Qeq_bool_iff. }
  apply Qeq_bool_false in H01, H12, H02. clear Hequal.
  rewrite (triangleCross_bind positions i0 i1 i2
             (λ s, if halfSqrtBelow s minArea then Normal valid
                   else Normal (valid ++ [i0; i1; i2]))).
  destruct (triangleCross positions (i0, i1, i2)) as [s|e] eqn:Hcross; simpl.
  - rewrite decide_True by (unfold readable; eauto 6).
    destruct (halfSqrtBelow s minArea) eqn:Harea.
    + rewrite decide_False; [by rewrite (right_id_L [] (++))|].
      intros (_ & _ & _ & s' & Hs' & Hnot).
      change (triangleCross positions (i0, i1, i2) = Normal s') in Hs'.
      rewrite Hcross in Hs'. injection Hs' as <-. congruence.
    + rewrite decide_True; [done|]. unfold sound. eauto 6.
  - pose proof (triangleCross_error _ _ _ Hcross) as ->.
    rewrite decide_False; [done|].
    intros [?|[?|[?|[s Hs]]]]; try done.
    change (triangleCross positions (i0, i1, i2) = Normal s) in Hs.
    congruence.
Qed.

Lemma chunks3_floor (l : list Q) : length (chunks3 l) = length l / 3.
Proof.
  assert (H : ∀ n (l : list Q), length l ≤ n →
                length (chunks3 l) = length l / 3).
  { clear l. induction n as [|n IH]; intros l Hl.
    - destruct l; simpl in *; [done|lia].
    - destruct l as [|x [|y [|z rest]]]; try done.
      cbn [chunks3 length]. rewrite IH by (simpl in Hl; lia).
      replace (S (S (S (length rest)))) with (1 * 3 + length rest) by lia.
      by rewrite Nat.div_add_l by lia. }
  by apply (H (length l)).
Qed.

Section Loop.
Variable minArea : Q.
Variables positions indices : list Q.

Local Abbreviation run k :=
  (foldM (triangleStep minArea positions indices)
         ((λ j, j * 3) <$> seq 0 k) []).

(** The first [k] turns: the sound triangles among the first [k], when
    each of these can be tested. *)
Lemma faceRun_filter (k : nat) :
  k ≤ length (chunks3 indices) →
  run k =
  if decide (Forall (readable positions) (take k (chunks3 indices)))
  then Normal (flatten (filter (sound minArea positions)
                               (take k (chunks3 indices))))
  else Throw RangeError.
Proof.
  induction k as [|k IH]; intros Hk.
  - rewrite take_0. by rewrite decide_True by constructor.
  - rewrite faceRun_S, IH by lia.
    destruct (lookup_lt_is_Some_2 (chunks3 indices) k) as [t Ht]; [lia|].
    rewrite (take_S_r _ _ _ Ht), filter_app.
    destruct (decide (Forall (readable positions) (take k (chunks3 indices))))
      as [Hall|Hall]; simpl.
    + rewrite triangleStep_spec, Ht.
      destruct (decide (readable positions t)) as [Hr|Hr];
        destruct (decide (Forall (readable positions)
                            (take k (chunks3 indices) ++ [t]))) as [Hall'|Hall'].
      * rewrite flatten_app. f_equal. f_equal.
        rewrite filter_cons, filter_nil.
        by destruct (decide (sound minArea positions t)).
      * destruct Hall'. apply Forall_app. by split; [|constructor].
      * apply Forall_app in Hall' as [_ Hlast].
        destruct Hr. exact (Forall_inv Hlast).
      * done.
    + rewrite decide_False; [done|]. by intros [? _]%Forall_app.
Qed.

(** The whole loop over the index array. *)
Lemma faceLoop_spec :
  foldM (triangleStep minArea positions indices)
        (everyThird (length indices)) [] =
  if decide ((3 | length indices) ∧
             Forall (readable positions) (chunks3 indices))
  then Normal (flatten (soundTriangles minArea positions indices))
  else Throw RangeError.
Proof.
  unfold everyThird, soundTriangles.
  pose proof (chunks3_floor indices) as Hfloor.
  pose proof (Nat.div_mod (length indices) 3 ltac:(lia)) as Hdm.
  pose proof (Nat.mod_upper_bound (length indices) 3 ltac:(lia)) as Hm.
  destruct (decide (3 | length indices)) as [[n Hn]|Hdiv].
  - assert ((length indices + 2) / 3 = n) as ->.
    { symmetry. apply Nat.div_unique with 2; lia. }
    pose proof (chunks3_length _ _ Hn) as Hlen.
    rewrite faceRun_filter by lia.
    rewrite take_ge by lia.
    destruct (decide (Forall (readable positions) (chunks3 indices))).
    + rewrite decide_True; [done|]. split; [by exists n|done].
    + rewrite decide_False; [done|]. by intros [_ ?].
  - rewrite decide_False by by intros [? _].
    assert (length indices mod 3 ≠ 0) as Hmod.
    { intros Hz. apply Hdiv. exists (length indices / 3). lia. }
    assert ((length indices + 2) / 3 = S (length indices / 3)) as ->.
    { symmetry. apply Nat.div_unique with (length indices mod 3 - 1); lia. }
    rewrite faceRun_S, faceRun_filter by lia.
    assert (chunks3 indices !! (length indices / 3) = None) as Hnone.
    { apply lookup_ge_None. lia. }
    destruct (decide (Forall _ _)); [|done].
    unfold mbind, Completion_bind. cbv beta iota.
    by rewrite triangleStep_spec, Hnone.
Qed.

End Loop.

Lemma sound_readable (minArea : Q) (positions : list Q) (t : Q * Q * Q) :
  sound minArea positions t → readable positions t.
Proof.
  destruct t as [[i0 i1] i2]. intros (_ & _ & _ & s & Hs & _).
  do 3 right. by exists s.
Qed.

Lemma filter_all_sound (minArea : Q) (positions : list Q)
    (l : list (Q * Q * Q)) :
  Forall (sound minArea positions) l → filter (sound minArea positions) l = l.
Proof.
  induction 1 as [|t l Ht _ IH]; [done|].
  by rewrite filter_cons_True, IH.
Qed.

(** *** One primitive *)

(** X20.  A triangle primitive with a position array and an index array.  The
    step returns exactly when the index array holds whole triples and each
    triple can be tested; otherwise it throws a [RangeError].  When it
    returns and a triangle is not sound, the index buffer becomes the
    [Uint32Array] of the sound triangles, in their order; when all are
    sound, nothing is written. *)
Theorem removeDegeneratePrimitive_keeps_sound (minArea : Q)
    (accs : gmap nat Accessor) (p : Primitive) (P idx : nat)
    (positions indices : TypedArray) :
  prim_mode p = 4 →
  getAttribute p "POSITION" = Some P →
  prim_indices p = Some idx →
  getArray accs P = Some positions →
  getArray accs idx = Some indices →
  removeDegeneratePrimitive minArea accs p =
  if decide ((3 | length (elems indices)) ∧
             Forall (readable (elems positions)) (chunks3 (elems indices)))
  then
    let kept := soundTriangles minArea (elems positions) (elems indices) in
    if decide (length kept < length (chunks3 (elems indices)))
    then Normal (setArray idx (arrayFrom Uint32Array (flatten kept)) accs)
    else Normal accs
  else Throw RangeError.
Proof.
  intros Hmode HP Hidx Hpos Hind. unfold removeDegeneratePrimitive.
  rewrite bool_decide_eq_false_2 by (intros Hne; by apply Hne).
  rewrite HP, Hidx, Hpos, Hind, faceLoop_spec.
  destruct (decide (_ ∧ _)) as [[[n Hn] _]|]; [|done].
  cbn [mbind Completion_bind]. cbv zeta.
  rewrite flatten_length, Hn, (chunks3_length _ _ Hn).
  destruct (decide (_ < n)) as [Hlt|Hge].
  - destruct (Nat.ltb_spec
      (length (soundTriangles minArea (elems positions) (elems indices)) * 3)
      (n * 3)); [done|lia].
  - destruct (Nat.ltb_spec
      (length (soundTriangles minArea (elems positions) (elems indices)) * 3)
      (n * 3)); [lia|done].
Qed.

Lemma removeDegeneratePrimitive_keeps_sound_witness :
  removeDegeneratePrimitive (1 # 10000000000)
    MergeByDistance.quadAccessors MergeByDistance.quadPrimitive =
  if decide ((3 | length [0; 1; 2;  1; 2; 3;  0; 3; 1]%Q) ∧
             Forall (readable [0; 0; 0;  1; 0; 0;  0; 1; 0;  0; 0; 0]%Q)
                    (chunks3 [0; 1; 2;  1; 2; 3;  0; 3; 1]%Q))
  then
    let kept := soundTriangles (1 # 10000000000)
                  [0; 0; 0;  1; 0; 0;  0; 1; 0;  0; 0; 0]%Q
                  [0; 1; 2;  1; 2; 3;  0; 3; 1]%Q in
    if decide (length kept < length (chunks3 [0; 1; 2;  1; 2; 3;  0; 3; 1]%Q))
    then Normal (setArray 2 (arrayFrom Uint32Array (flatten kept))
                   MergeByDistance.quadAccessors)
    else Normal MergeByDistance.quadAccessors
  else Throw RangeError.
Proof.
  apply (removeDegeneratePrimitive_keeps_sound (1 # 10000000000)
           MergeByDistance.quadAccessors MergeByDistance.quadPrimitive 0 2
           (mkTypedArray Float32Array
              [0; 0; 0;  1; 0; 0;  0; 1; 0;  0; 0; 0]%Q)
           (mkTypedArray Uint16Array [0; 1; 2;  1; 2; 3;  0; 3; 1]%Q)).
  - reflexivity.
  - reflexivity.
  - reflexivity.
  - vm_compute. reflexivity.
  - vm_compute. reflexivity.
Defined.

(** *** A second pass *)

Lemma faces_null (minArea : Q) (todo : list Primitive)
    (accs accs' : gmap nat Accessor) (r : nat) :
  foldM (removeDegeneratePrimitive minArea) todo accs = Normal accs' →
  getArray accs' r = None ↔ getArray accs r = None.
Proof.
  apply (foldM_invariant
    (λ cur, getArray cur r = None ↔ getArray accs r = None)); [|done].
  intros cur q next _ Hcur [[-> _]|Hrw]%removeDegeneratePrimitive_Normal;
    [done|].
  destruct Hrw as (P & idx & positions & indices & kept & n & _ & _ & _ &
    _ & Hind & _ & _ & _ & [[-> _]|[_ ->]]); [done|].
  rewrite <- Hcur, getArray_setArray. case_decide as Hr; [subst r|done].
  rewrite Hind. unfold getArray in Hind. by destruct (cur !! idx).
Qed.

(** A triangle primitive whose triangles are all sound is left alone. *)
Lemma removeDegeneratePrimitive_fixed (minArea : Q)
    (accs : gmap nat Accessor) (p : Primitive) :
  (∀ P idx positions indices,
     prim_mode p = 4 → getAttribute p "POSITION" = Some P →
     prim_indices p = Some idx → getArray accs P = Some positions →
     getArray accs idx = Some indices →
     (3 | length (elems indices)) ∧
     Forall (sound minArea (elems positions)) (chunks3 (elems indices))) →
  removeDegeneratePrimitive minArea accs p = Normal accs.
Proof.
  intros Hsound. unfold removeDegeneratePrimitive.
  case_bool_decide as Hmode; [done|].
  assert (prim_mode p = 4) as Hmode4.
  { destruct (decide (prim_mode p = 4)); [done|]. by destruct Hmode. }
  destruct (getAttribute p "POSITION") as [P|]; [|done].
  destruct (prim_indices p) as [idx|]; [|done].
  destruct (getArray accs P) as [positions|] eqn:Hpos; [|done].
  destruct (getArray accs idx) as [indices|] eqn:Hind; [|done].
  destruct (Hsound P idx positions indices) as [[n Hn] Hall]; try done.
  rewrite faceLoop_spec. rewrite decide_True.
  2:{ split; [by exists n|]. eapply Forall_impl; [exact Hall|].
      apply sound_readable. }
  cbn [mbind Completion_bind]. unfold soundTriangles.
  rewrite filter_all_sound by done. rewrite (flatten_chunks3 _ n) by done.
  by rewrite Nat.ltb_irrefl.
Qed.

(** X21.  [removeDegenerateFaces] is idempotent on a well-formed document whose
    index buffers hold integers: a second pass returns the document of the
    first one. *)
Theorem removeDegenerateFaces_idempotent (minArea : Q) (doc doc' : Document) :
  MergeByDistance.wf_doc doc →
  wf_indices (doc_accessors doc) (listPrimitives doc) →
  removeDegenerateFaces minArea doc = Normal doc' →
  removeDegenerateFaces minArea doc' = Normal doc'.
Proof.
  intros [Hwf Hwp] Hwi. unfold removeDegenerateFaces.
  destruct (foldM _ _ (doc_accessors doc)) as [accs'|e] eqn:Hloop;
    simpl; [|done].
  intros [= <-].
  change (listPrimitives (withAccessors doc accs')) with (listPrimitives doc).
  change (doc_accessors (withAccessors doc accs')) with accs'.
  rewrite foldM_fixed; [done|].
  intros p Hp. apply removeDegeneratePrimitive_fixed.
  intros P idx positions' indices' Hmode HP Hidx Hpos' Hind'.
  rewrite wf_positions_alt in Hwp.
  assert (∀ q, q ∈ listPrimitives doc → prim_indices q ≠ Some P) as Hnot.
  { intros q Hq. by destruct (Hwp p q P Hp Hq HP). }
  assert (getArray (doc_accessors doc) P = Some positions') as Hpos.
  { rewrite <- Hpos'. unfold getArray.
    by rewrite (faces_frame minArea _ _ _ P Hnot Hloop). }
  destruct (getArray (doc_accessors doc) idx) as [indices|] eqn:Hind.
  2:{ apply (faces_null _ _ _ _ idx Hloop) in Hind. congruence. }
  destruct (faces_loop minArea P idx positions' p (listPrimitives doc)
              (doc_accessors doc) accs') as (_ & _ & Hsound); try done.
  { exists indices. split; [done|]. split.
    - unfold wf_indices in Hwi. rewrite Forall_forall in Hwi.
      specialize (Hwi p Hp). rewrite Hidx in Hwi. simpl in Hwi.
      by rewrite Hind in Hwi.
    - rewrite wf_accessors_alt in Hwf. by apply (Hwf idx). }
  destruct Hsound as (arr & Harr & Hdiv & Hall); [by left|].
  assert (arr = indices') as -> by congruence. done.
Qed.

Lemma removeDegenerateFaces_idempotent_witness :
  removeDegenerateFaces (1 # 10000000000) quadCleaned = Normal quadCleaned.
Proof.
  apply (removeDegenerateFaces_idempotent (1 # 10000000000)
           MergeByDistance.quadDocument quadCleaned).
  - apply (bool_decide_unpack _). vm_compute. exact I.
  - apply (bool_decide_unpack _). vm_compute. exact I.
  - vm_compute. reflexivity.
Defined.

End FacesFilter.

(** ** normalizeWeights: the whole array *)

Module WeightsArray.
Import NormalizeWeights MergeCompact WeightsProps WeightsTerms.

Section Vertex.
Variable elementSize : nat.
Variable i : nat.

Local Abbreviation slot j := (i * elementSize + j).

(** The loop of [weightSum] over the components from [a] on. *)
Lemma weightSum_from (arr : list Q) (a n : nat) (acc : Q) :
  slot (a + n) ≤ length arr →
  foldM (λ sum j, w ← at_ arr (slot j); Normal (sum + w)%Q) (seq a n) acc
  = Normal (fold_left Qplus (take n (drop (slot a) arr)) acc).
Proof.
  revert a acc; induction n as [|n IH]; intros a acc Hlen; simpl; [done|].
  destruct (lookup_lt_is_Some_2 arr (slot a)) as [w Hw]; [lia|].
  rewrite (at_lookup _ _ _ Hw). simpl.
  rewrite (drop_S _ _ _ Hw). simpl. rewrite IH by lia.
  by replace (slot (S a)) with (S (slot a)) by lia.
Qed.

Lemma weightSum_vertexSum (arr : list Q) :
  slot elementSize ≤ length arr →
  weightSum arr elementSize i = Normal (vertexSum arr elementSize i).
Proof.
  intros Hlen. unfold weightSum, vertexSum, vertexWeights.
  rewrite weightSum_from by done. by rewrite Nat.add_0_r.
Qed.

(** A vertex that the array holds in part only. *)
Lemma weightSum_short (arr : list Q) (a n : nat) (acc : Q) :
  slot a ≤ length arr < slot (a + n) →
  foldM (λ sum j, w ← at_ arr (slot j); Normal (sum + w)%Q) (seq a n) acc
  = Throw RangeError.
Proof.
  revert a acc; induction n as [|n IH]; intros a acc Hlen; simpl; [lia|].
  destruct (arr !! slot a) as [w|] eqn:Hw.
  - rewrite (at_lookup _ _ _ Hw). simpl.
    apply IH. apply lookup_lt_Some in Hw. lia.
  - assert (at_ arr (slot a) = Throw RangeError) as ->; [|done].
    unfold at_. by rewrite Hw.
Qed.

(** The loop of [divideWeights], whatever the constructor. *)
Lemma divideWeights_from (c : ArrayCtor) (s : Q) (arr : list Q) (a n : nat) :
  slot (a + n) ≤ length arr →
  ∃ arr', foldM (λ b j, w ← at_ b (slot j);
                        Normal (<[slot j := toElement c (w / s)]> b))
                (seq a n) arr = Normal arr' ∧
          length arr' = length arr ∧
          (∀ j w, a ≤ j < a + n → arr !! slot j = Some w →
                  arr' !! slot j = Some (toElement c (w / s))) ∧
          (∀ k, ¬ (slot a ≤ k < slot (a + n)) → arr' !! k = arr !! k).
Proof.
  revert a arr; induction n as [|n IH]; intros a arr Hlen; simpl.
  - exists arr. split; [done|]. split; [done|]. split; [|done]. intros; lia.
  - destruct (lookup_lt_is_Some_2 arr (slot a)) as [w Hw]; [lia|].
    rewrite (at_lookup _ _ _ Hw). simpl.
    destruct (IH (S a) (<[slot a := toElement c (w / s)]> arr))
      as (arr' & Hfold & Hlen' & Hin & Hout).
    { rewrite length_insert. lia. }
    exists arr'. split; [done|]. rewrite length_insert in Hlen'.
    split; [done|]. split.
    + intros j w' Hj Hw'. destruct (decide (j = a)) as [->|Hne].
      * rewrite Hout by lia. rewrite list_lookup_insert_eq by lia. congruence.
      * apply Hin; [lia|]. rewrite list_lookup_insert_ne by lia. done.
    + intros k Hk. rewrite Hout by lia. apply list_lookup_insert_ne. lia.
Qed.

End Vertex.

Section Array.
Variable c : ArrayCtor.
Variable elementSize : nat.
Variable arr : list Q.
Hypothesis Hsize : 0 < elementSize.

Local Abbreviation done_ k :=
  (take (k * elementSize) (normalized c elementSize arr) ++
   drop (k * elementSize) arr).

Lemma normalized_length : length (normalized c elementSize arr) = length arr.
Proof using Hsize. unfold normalized. apply length_imap. Qed.

Lemma done_length (k : nat) : length (done_ k) = length arr.
Proof using Hsize.
  rewrite length_app, length_take, length_drop, normalized_length. lia.
Qed.

(** After [k] vertices: the normalized weights up to vertex [k], the
    weights of the array from there on. *)
Lemma done_lookup (k x : nat) :
  k * elementSize ≤ length arr →
  done_ k !! x = if decide (x < k * elementSize)
                 then normalized c elementSize arr !! x else arr !! x.
Proof using Hsize.
  intros Hk. case_decide as Hx.
  - rewrite lookup_app_l by (rewrite length_take, normalized_length; lia).
    by rewrite lookup_take_lt.
  - rewrite lookup_app_r by (rewrite length_take, normalized_length; lia).
    rewrite length_take, normalized_length, lookup_drop. f_equal. lia.
Qed.

Lemma normalized_lookup (k j : nat) (w : Q) :
  j < elementSize → arr !! (k * elementSize + j) = Some w →
  normalized c elementSize arr !! (k * elementSize + j) =
  Some (let sum := vertexSum arr elementSize k in
        if offBalance sum then toElement c (w / sum)%Q else w).
Proof using Hsize.
  intros Hj Hw. unfold normalized. rewrite list_lookup_imap, Hw. simpl.
  replace ((k * elementSize + j) / elementSize) with k; [done|].
  apply Nat.div_unique with j; lia.
Qed.

Lemma done_vertex (k : nat) :
  k * elementSize ≤ length arr →
  vertexSum (done_ k) elementSize k = vertexSum arr elementSize k.
Proof using Hsize.
  intros Hk. unfold vertexSum, vertexWeights. f_equal. f_equal.
  apply drop_app_length'. rewrite length_take, normalized_length. lia.
Qed.

(** One turn of the loop over the vertices. *)
Lemma normalizeVertex_done (k : nat) :
  (k + 1) * elementSize ≤ length arr →
  normalizeVertex c elementSize (done_ k) k = Normal (done_ (k + 1)).
Proof using Hsize.
  intros Hk. unfold normalizeVertex.
  rewrite weightSum_vertexSum by (rewrite done_length; lia).
  rewrite done_vertex by lia. cbn [mbind Completion_bind].
  change (Qltb 0 ?s && Qltb (1 # 1000000) (Qabs (?s - 1)))
    with (offBalance s).
  set (sum := vertexSum arr elementSize k).
  assert (∀ j, j < elementSize →
            done_ k !! (k * elementSize + j) = arr !! (k * elementSize + j))
    as Hcur.
  { intros j Hj. rewrite done_lookup by lia. by rewrite decide_False by lia. }
  destruct (offBalance sum) eqn:Hoff.
  - destruct (divideWeights_from elementSize k c sum (done_ k) 0 elementSize)
      as (arr' & Hfold & Hlen' & Hin & Hout).
    { rewrite done_length. lia. }
    unfold divideWeights. rewrite Hfold. f_equal.
    apply list_eq. intros x. rewrite (done_lookup (k + 1)) by lia.
    destruct (decide (k * elementSize ≤ x < (k + 1) * elementSize))
      as [Hx|Hx].
    + rewrite decide_True by lia.
      replace x with (k * elementSize + (x - k * elementSize)) by lia.
      destruct (lookup_lt_is_Some_2 arr
                  (k * elementSize + (x - k * elementSize))) as [w Hw]; [lia|].
      rewrite (Hin (x - k * elementSize) w); [|lia|by rewrite Hcur by lia].
      rewrite (normalized_lookup _ _ w) by (done || lia).
      fold sum. cbv zeta. by rewrite Hoff.
    + rewrite Hout by lia. rewrite done_lookup by lia.
      case_decide; case_decide; try lia; done.
  - f_equal. apply list_eq. intros x.
    rewrite (done_lookup (k + 1)), (done_lookup k) by lia.
    case_decide; case_decide; try lia; try done.
    replace x with (k * elementSize + (x - k * elementSize)) by lia.
    destruct (lookup_lt_is_Some_2 arr
                (k * elementSize + (x - k * elementSize))) as [w Hw]; [lia|].
    rewrite (normalized_lookup _ _ w) by (done || lia).
    fold sum. cbv zeta. by rewrite Hoff.
Qed.

Lemma normalizeLoop_done (k : nat) :
  k * elementSize ≤ length arr →
  foldM (normalizeVertex c elementSize) (seq 0 k) arr = Normal (done_ k).
Proof using Hsize.
  induction k as [|k IH]; intros Hk.
  - done.
  - rewrite seq_S, foldM_app, IH by lia. simpl.
    rewrite normalizeVertex_done by lia.
    by replace (k + 1) with (S k) by lia.
Qed.

(** The loop over the vertices of an array. *)
Lemma normalizeLoop_spec :
  foldM (normalizeVertex c elementSize)
        (countUpTo (ofNat (length arr) / ofNat elementSize)) arr =
  if decide (elementSize | length arr)
  then Normal (normalized c elementSize arr)
  else Throw RangeError.
Proof using Hsize.
  unfold countUpTo. rewrite TracksAnalysis.keyframeCount_ceiling by done.
  pose proof (Nat.div_mod (length arr) elementSize ltac:(lia)) as Hdm.
  pose proof (Nat.mod_upper_bound (length arr) elementSize ltac:(lia)) as Hm.
  destruct (decide (elementSize | length arr)) as [[n Hn]|Hdiv].
  - assert ((length arr + elementSize - 1) / elementSize = n) as ->.
    { symmetry. apply Nat.div_unique with (elementSize - 1); lia. }
    rewrite normalizeLoop_done by lia.
    rewrite take_ge by (rewrite normalized_length; lia).
    by rewrite drop_ge, (right_id_L [] (++)) by lia.
  - assert (length arr mod elementSize ≠ 0) as Hmod.
    { intros Hz. apply Hdiv. exists (length arr / elementSize). lia. }
    set (q := length arr / elementSize) in *.
    assert ((length arr + elementSize - 1) / elementSize = S q) as ->.
    { symmetry.
      apply Nat.div_unique with (length arr mod elementSize - 1); lia. }
    rewrite seq_S, foldM_app, normalizeLoop_done by lia. simpl.
    unfold normalizeVertex, weightSum.
    rewrite weightSum_short; [done|]. rewrite done_length. lia.
Qed.

End Array.

(** *** One primitive *)

(** X22.  A primitive with a [WEIGHTS_0] array.  The step returns exactly when
    the array holds whole vertices; otherwise it throws a [RangeError].
    When it returns, the array has its constructor and its length, and
    holds the [normalized] weights: a vertex is changed only when its sum,
    read before the division, is positive and further than 1e-6 from 1. *)
Theorem normalizePrimitive_normalized (accs : gmap nat Accessor)
    (p : Primitive) (weights0 : nat) (arr : TypedArray) :
  getAttribute p "WEIGHTS_0" = Some weights0 →
  getArray accs weights0 = Some arr →
  0 < getElementSize accs weights0 →
  normalizePrimitive accs p =
  if decide (getElementSize accs weights0 | length (elems arr))
  then Normal (setArray weights0
                 (mkTypedArray (ctor arr)
                    (normalized (ctor arr) (getElementSize accs weights0)
                                (elems arr)))
                 accs)
  else Throw RangeError.
Proof.
  intros Hattr Harr Hsize. unfold normalizePrimitive.
  rewrite Hattr, Harr. cbv zeta. rewrite normalizeLoop_spec by done.
  by case_decide.
Qed.

Lemma normalizePrimitive_normalized_witness :
  normalizePrimitive floatWeightsAccessors floatWeightsPrimitive =
  if decide (getElementSize floatWeightsAccessors 0
             | length [1 # 2; 1 # 4; 0; 0;  2; 2; 0; 0;  0; 0; 0; 0]%Q)
  then Normal (setArray 0
                 (mkTypedArray Float32Array
                    (normalized Float32Array
                       (getElementSize floatWeightsAccessors 0)
                       [1 # 2; 1 # 4; 0; 0;  2; 2; 0; 0;  0; 0; 0; 0]%Q))
                 floatWeightsAccessors)
  else Throw RangeError.
Proof.
  apply (normalizePrimitive_normalized floatWeightsAccessors
           floatWeightsPrimitive 0
           (mkTypedArray Float32Array
              [1 # 2; 1 # 4; 0; 0;  2; 2; 0; 0;  0; 0; 0; 0]%Q)).
  - reflexivity.
  - vm_compute. reflexivity.
  - vm_compute. lia.
Defined.

(** *** Float weights *)

Lemma vertexWeights_lookup (arr : list Q) (elementSize i j : nat) :
  j < elementSize →
  vertexWeights arr elementSize i !! j = arr !! (i * elementSize + j).
Proof.
  intros Hj. unfold vertexWeights. by rewrite lookup_take_lt, lookup_drop.
Qed.

Lemma vertexWeights_length (arr : list Q) (elementSize i : nat) :
  (i + 1) * elementSize ≤ length arr →
  length (vertexWeights arr elementSize i) = elementSize.
Proof.
  intros Hi. unfold vertexWeights. rewrite length_take, length_drop. lia.
Qed.

Lemma offBalance_false (sum : Q) :
  offBalance sum = false → (0 < sum)%Q → (Qabs (sum - 1) <= 1 # 1000000)%Q.
Proof.
  unfold offBalance, Qltb. intros Hoff Hpos.
  apply andb_false_iff in Hoff as [Hoff|Hoff].
  - apply negb_false_iff, Qle_bool_iff in Hoff.
    by apply Qlt_not_le in Hpos.
  - by apply negb_false_iff, Qle_bool_iff in Hoff.
Qed.

Lemma offBalance_positive (sum : Q) : offBalance sum = true → (0 < sum)%Q.
Proof.
  unfold offBalance, Qltb. intros [Hpos _]%andb_true_iff.
  apply negb_true_iff in Hpos. apply Qnot_le_lt. intros Hle.
  apply Qle_bool_iff in Hle. congruence.
Qed.

(** X23.  A primitive whose [WEIGHTS_0] array is a [Float32Array], which with
    the exact numbers of this development stores every quotient as it is.
    When the step returns, the weights of every vertex with a positive sum
    add up to 1 within 1e-6, and the weights of every other vertex are the
    ones of before. *)
Theorem normalizePrimitive_float (accs accs' : gmap nat Accessor)
    (p : Primitive) (weights0 : nat) (arr : TypedArray) :
  getAttribute p "WEIGHTS_0" = Some weights0 →
  getArray accs weights0 = Some arr →
  ctor arr = Float32Array →
  0 < getElementSize accs weights0 →
  normalizePrimitive accs p = Normal accs' →
  ∃ arr',
    getArray accs' weights0 = Some arr' ∧ ctor arr' = Float32Array ∧
    length (elems arr') = length (elems arr) ∧
    ∀ i, (i + 1) * getElementSize accs weights0 ≤ length (elems arr) →
      let elementSize := getElementSize accs weights0 in
      let sum := vertexSum (elems arr) elementSize i in
      ((0 < sum)%Q →
       (Qabs (vertexSum (elems arr') elementSize i - 1) <= 1 # 1000000)%Q) ∧
      (¬ (0 < sum)%Q →
       vertexWeights (elems arr') elementSize i
       = vertexWeights (elems arr) elementSize i).
Proof.
  intros Hattr Harr Hctor Hsize.
  unfold normalizePrimitive. rewrite Hattr, Harr. cbv zeta.
  rewrite normalizeLoop_spec by done.
  case_decide as Hdiv; [|done]. cbn [mbind Completion_bind]. intros [= <-].
  set (es := getElementSize accs weights0) in *.
  set (new := normalized (ctor arr) es (elems arr)).
  exists (mkTypedArray (ctor arr) new).
  split; [by eapply getArray_setArray_eq|]. split; [done|].
  split; [apply normalized_length; done|].
  intros i Hi. cbv zeta. set (sum := vertexSum (elems arr) es i).
  assert (∀ j w, j < es → elems arr !! (i * es + j) = Some w →
            new !! (i * es + j)
            = Some (if offBalance sum then (w / sum)%Q else w)) as Hnew.
  { intros j w Hj Hw. unfold new.
    rewrite (normalized_lookup _ _ _ Hsize i j w) by done.
    cbv zeta. fold sum. rewrite Hctor. done. }
  assert (offBalance sum = false →
          vertexWeights new es i = vertexWeights (elems arr) es i) as Hsame.
  { intros Hoff. apply list_eq. intros j.
    destruct (decide (j < es)) as [Hj|Hj].
    - rewrite !vertexWeights_lookup by done.
      destruct (lookup_lt_is_Some_2 (elems arr) (i * es + j)) as [w Hw];
        [nia|].
      by rewrite (Hnew j w), Hoff, Hw.
    - rewrite !lookup_ge_None_2; [done|..];
        rewrite vertexWeights_length; try lia.
      unfold new. rewrite normalized_length; [lia|done]. }
  cbn [elems]. split.
  - intros Hpos. destruct (offBalance sum) eqn:Hoff.
    + pose proof (weightSum_vertexSum es i (elems arr) ltac:(lia)) as Hs.
      fold sum in Hs.
      destruct (weightSum_scaled es i (elems arr) new sum 0 es 0 0 sum)
        as (s' & Hs' & Heq); [|exact Hs|].
      { intros j w Hj Hw. by rewrite (Hnew j w) by (done || lia). }
      assert (weightSum new es i = Normal (vertexSum new es i)) as Hs''.
      { apply weightSum_vertexSum. unfold new.
        rewrite normalized_length; [lia|done]. }
      assert (s' = vertexSum new es i) as <-.
      { unfold weightSum in Hs''. congruence. }
      assert (s' == 1)%Q as ->; [|done].
      assert (s' == s' - 0)%Q as -> by ring. rewrite Heq.
      field. intros H0. rewrite H0 in Hpos. by apply Qlt_irrefl in Hpos.
    + unfold vertexSum. rewrite Hsame by done.
      by apply offBalance_false.
  - intros Hneg. apply Hsame.
    destruct (offBalance sum) eqn:Hoff; [|done].
    by apply offBalance_positive in Hoff.
Qed.

Lemma normalizePrimitive_float_witness :
  ∃ arr',
    getArray (doc_accessors floatWeightsNormalized) 0 = Some arr' ∧
    ctor arr' = Float32Array ∧
    length (elems arr')
      = length [1 # 2; 1 # 4; 0; 0;  2; 2; 0; 0;  0; 0; 0; 0]%Q ∧
    ∀ i, (i + 1) * getElementSize floatWeightsAccessors 0
           ≤ length [1 # 2; 1 # 4; 0; 0;  2; 2; 0; 0;  0; 0; 0; 0]%Q →
      let elementSize := getElementSize floatWeightsAccessors 0 in
      let sum := vertexSum [1 # 2; 1 # 4; 0; 0;  2; 2; 0; 0;  0; 0; 0; 0]%Q
                   elementSize i in
      ((0 < sum)%Q →
       (Qabs (vertexSum (elems arr') elementSize i - 1) <= 1 # 1000000)%Q) ∧
      (¬ (0 < sum)%Q →
       vertexWeights (elems arr') elementSize i
       = vertexWeights [1 # 2; 1 # 4; 0; 0;  2; 2; 0; 0;  0; 0; 0; 0]%Q
           elementSize i).
Proof.
  apply (normalizePrimitive_float floatWeightsAccessors
           (doc_accessors floatWeightsNormalized) floatWeightsPrimitive 0
           (mkTypedArray Float32Array
              [1 # 2; 1 # 4; 0; 0;  2; 2; 0; 0;  0; 0; 0; 0]%Q)).
  - reflexivity.
  - vm_compute. reflexivity.
  - reflexivity.
  - vm_compute. lia.
  - vm_compute. reflexivity.
Defined.

(** *** The rest of the document *)

Lemma normalizePrimitive_frame (accs accs' : gmap nat Accessor)
    (p : Primitive) (r : nat) :
  normalizePrimitive accs p = Normal accs' →
  getAttribute p "WEIGHTS_0" ≠ Some r → accs' !! r = accs !! r.
Proof.
  unfold normalizePrimitive.
  destruct (getAttribute p "WEIGHTS_0") as [weights0|]; [|by intros [= <-]].
  destruct (getArray accs weights0) as [arr|]; [|by intros [= <-]].
  destruct (foldM _ _ (elems arr)) as [arr'|e]; simpl; [|done].
  intros [= <-] Hne. unfold setArray. apply lookup_alter_ne. congruence.
Qed.

(** X24.  [normalizeWeights] writes the [WEIGHTS_0] accessors and nothing else:
    every other accessor, [WEIGHTS_1] and the joints among them, is the
    one of before, and so are the meshes, the nodes, the animations and
    the skins. *)
Theorem normalizeWeights_frame (doc doc' : Document) :
  normalizeWeights doc = Normal doc' →
  doc' = withAccessors doc (doc_accessors doc') ∧
  dom (doc_accessors doc') = dom (doc_accessors doc) ∧
  ∀ r, Forall (λ p, getAttribute p "WEIGHTS_0" ≠ Some r)
              (listPrimitives doc) →
       doc_accessors doc' !! r = doc_accessors doc !! r.
Proof.
  unfold normalizeWeights.
  destruct (foldM _ _ (doc_accessors doc)) as [accs'|e] eqn:Hloop;
    simpl; [|done].
  intros [= <-]. split; [done|]. simpl. split.
  - revert Hloop. apply (foldM_invariant
      (λ cur, dom cur = dom (doc_accessors doc))); [|done].
    intros cur p next _ Hcur. unfold normalizePrimitive.
    destruct (getAttribute p "WEIGHTS_0") as [weights0|]; [|by intros [= <-]].
    destruct (getArray cur weights0) as [arr|]; [|by intros [= <-]].
    destruct (foldM _ _ (elems arr)) as [arr'|e]; simpl; [|done].
    intros [= <-]. unfold setArray. by rewrite dom_alter_L.
  - intros r Hr. rewrite Forall_forall in Hr. revert Hloop.
    apply (foldM_invariant (λ cur, cur !! r = doc_accessors doc !! r));
      [|done].
    intros cur p next Hp Hcur Hstep. rewrite <- Hcur.
    eapply normalizePrimitive_frame; [done|by apply Hr].
Qed.

Lemma normalizeWeights_frame_witness :
  floatWeightsNormalized
    = withAccessors floatWeightsDocument
        (doc_accessors floatWeightsNormalized) ∧
  dom (doc_accessors floatWeightsNormalized)
    = dom (doc_accessors floatWeightsDocument) ∧
  ∀ r, Forall (λ p, getAttribute p "WEIGHTS_0" ≠ Some r)
              (listPrimitives floatWeightsDocument) →
       doc_accessors floatWeightsNormalized !! r
       = doc_accessors floatWeightsDocument !! r.
Proof.
  apply (normalizeWeights_frame floatWeightsDocument floatWeightsNormalized).
  vm_compute. reflexivity.
Defined.

End WeightsArray.

(** ** removeStaticTracksWithBake: what the sweep leaves alone *)

Module TracksFrame.
Import RemoveDegenerateFaces RemoveStaticTracks TracksAnalysis TracksSweep.

(** What every state of pass 3 shares with the document it started from,
    and the count of the channels gone so far. *)
Record Frame (doc : Document) (st : Sweep) : Prop := mkFrame {
  frame_accessors : doc_accessors (sweep_doc st) = doc_accessors doc;
  frame_meshes : doc_meshes (sweep_doc st) = doc_meshes doc;
  frame_nodes : doc_nodes (sweep_doc st) = doc_nodes doc;
  frame_skins : doc_skins (sweep_doc st) = doc_skins doc;
  frame_animations :
    length (doc_animations (sweep_doc st)) = length (doc_animations doc);
  frame_channels : dom (doc_channels (sweep_doc st)) ⊆ dom (doc_channels doc);
  frame_samplers : dom (doc_samplers (sweep_doc st)) ⊆ dom (doc_samplers doc);
  frame_count :
    size (doc_channels (sweep_doc st)) + removedTracks st
    = size (doc_channels doc)
}.

Lemma Frame_init (doc : Document) : Frame doc (mkSweep doc 0 0).
Proof. by split. Qed.

Lemma sweepChannel_frame (tolerance : Q) (removable : gset (Z * TargetPath))
    (doc : Document) (st st' : Sweep) (c : nat) :
  Frame doc st →
  sweepChannel tolerance removable st c = Normal st' →
  Frame doc st'.
Proof.
  intros [Hacc Hmesh Hnode Hskin Hanim Hch Hsam Hcount]. unfold sweepChannel.
  destruct (doc_channels (sweep_doc st) !! c) as [channel|] eqn:Hc;
    [|by intros [= <-]].
  destruct (channel_targetNode channel) as [n|]; [|by intros [= <-]].
  destruct (channel_targetPath channel) as [path|]; [|by intros [= <-]].
  case_bool_decide.
  - intros [= <-].
    assert (Frame doc (mkSweep (disposeChannel c (sweep_doc st))
                               (removedTracks st + 1)
                               (skippedNoConsensus st))) as HF1.
    { split; simpl; try done.
      - by rewrite length_fmap.
      - rewrite dom_delete. by apply subseteq_difference_l.
      - pose proof (map_size_delete c (doc_channels (sweep_doc st))) as Hs.
        rewrite Hc in Hs. simpl in Hs.
        assert (size (doc_channels (sweep_doc st)) ≠ 0).
        { by apply (map_size_ne_0_lookup_2 _ c). }
        lia. }
    destruct (channel_sampler channel) as [s|]; [|done].
    destruct (samplerParents s (disposeChannel c (sweep_doc st)) <=? 1);
      [|done].
    destruct HF1 as [Hacc1 Hmesh1 Hnode1 Hskin1 Hanim1 Hch1 Hsam1 Hcount1].
    simpl in *. split; simpl; try done.
    + by rewrite length_fmap.
    + by rewrite dom_fmap.
    + rewrite dom_delete. by apply subseteq_difference_l.
    + by rewrite map_size_fmap.
  - destruct (staticWithoutConsensus _ _ _) as [static|e]; simpl; [|done].
    by intros [= <-].
Qed.

Lemma removeStaticTracksRun_frame (tolerance : Q) (doc : Document)
    (st : Sweep) :
  removeStaticTracksRun tolerance doc = Normal st → Frame doc st.
Proof.
  unfold removeStaticTracksRun.
  case_bool_decide; [intros [= <-]; apply Frame_init|].
  destruct (buildTrackMap tolerance doc) as [m|e]; simpl; [|done].
  apply (foldM_invariant (Frame doc)); [|apply Frame_init].
  intros st0 a st1 _ HF. unfold sweepAnimation.
  destruct (doc_animations (sweep_doc st0) !! a) as [animation|];
    [|by intros [= <-]].
  apply (foldM_invariant (Frame doc)); [|done].
  intros st2 c st3 _. apply sweepChannel_frame.
Qed.

(** X25.  Despite its name the transform bakes nothing.  The accessors, the
    meshes, the nodes with their rest poses and the skins are the ones of
    before; no animation is removed, not even one that has lost all its
    channels; and no channel or sampler is added. *)
Theorem removeStaticTracksWithBake_frame (tolerance : Q)
    (doc doc' : Document) :
  removeStaticTracksWithBake tolerance doc = Normal doc' →
  doc_accessors doc' = doc_accessors doc ∧
  doc_meshes doc' = doc_meshes doc ∧
  doc_nodes doc' = doc_nodes doc ∧
  doc_skins doc' = doc_skins doc ∧
  length (doc_animations doc') = length (doc_animations doc) ∧
  dom (doc_channels doc') ⊆ dom (doc_channels doc) ∧
  dom (doc_samplers doc') ⊆ dom (doc_samplers doc).
Proof.
  unfold removeStaticTracksWithBake.
  destruct (removeStaticTracksRun tolerance doc) as [st|e] eqn:Hrun;
    simpl; [|done].
  intros [= <-]. by destruct (removeStaticTracksRun_frame _ _ _ Hrun).
Qed.

Lemma removeStaticTracksWithBake_frame_witness :
  doc_accessors spreadSwept = doc_accessors spreadDocument ∧
  doc_meshes spreadSwept = doc_meshes spreadDocument ∧
  doc_nodes spreadSwept = doc_nodes spreadDocument ∧
  doc_skins spreadSwept = doc_skins spreadDocument ∧
  length (doc_animations spreadSwept)
    = length (doc_animations spreadDocument) ∧
  dom (doc_channels spreadSwept) ⊆ dom (doc_channels spreadDocument) ∧
  dom (doc_samplers spreadSwept) ⊆ dom (doc_samplers spreadDocument).
Proof.
  apply (removeStaticTracksWithBake_frame (1 # 1000000) spreadDocument
           spreadSwept).
  vm_compute. reflexivity.
Defined.

(** X26.  The count of the log line is the number of channels that have left
    the document. *)
Theorem removedTracks_counts (tolerance : Q) (doc : Document) (st : Sweep) :
  removeStaticTracksRun tolerance doc = Normal st →
  size (doc_channels (sweep_doc st)) + removedTracks st
  = size (doc_channels doc).
Proof. intros Hrun. by destruct (removeStaticTracksRun_frame _ _ _ Hrun). Qed.

Lemma removedTracks_counts_witness :
  size (doc_channels (sweep_doc (mkSweep spreadSwept 3 0)))
    + removedTracks (mkSweep spreadSwept 3 0)
  = size (doc_channels spreadDocument).
Proof.
  apply (removedTracks_counts (1 # 1000000) spreadDocument
           (mkSweep spreadSwept 3 0)).
  vm_compute. reflexivity.
Defined.

End TracksFrame.

(** ** cli/main.ts: the output path and the files written *)

Module CliProps.
Import Compress Utils Cli.

Lemma isGlb_length (s : CodeUnits) : isGlb s = true → length s = 4.
Proof. by destruct s as [|? [|? [|? [|? [|? ?]]]]]. Qed.

Lemma isGltf_length (s : CodeUnits) : isGltf s = true → length s = 5.
Proof. by destruct s as [|? [|? [|? [|? [|? [|? ?]]]]]]. Qed.

Lemma suffix_drop (path stem ext : CodeUnits) :
  path = stem ++ ext → drop (length path - length ext) path = ext.
Proof.
  intros ->. rewrite length_app.
  replace (length stem + length ext - length ext) with (length stem) by lia.
  by rewrite drop_app_length.
Qed.

Lemma extensionLength_Some (path : Path) (n : nat) :
  extensionLength path = Some n →
  ∃ stem ext, path = stem ++ ext ∧ length ext = n ∧
              (isGlb ext = true ∨ isGltf ext = true) ∧
              stem = take (length path - n) path.
Proof.
  unfold extensionLength.
  destruct (isGltf _) eqn:H5; [|destruct (isGlb _) eqn:H4; [|done]];
    intros [= <-].
  - exists (take (length path - 5) path), (drop (length path - 5) path).
    split; [by rewrite take_drop|]. split; [by apply isGltf_length|].
    by split; [right|].
  - exists (take (length path - 4) path), (drop (length path - 4) path).
    split; [by rewrite take_drop|]. split; [by apply isGlb_length|].
    by split; [left|].
Qed.

Lemma extensionLength_None (path stem ext : CodeUnits) :
  extensionLength path = None → path = stem ++ ext →
  isGlb ext = false ∧ isGltf ext = false.
Proof.
  unfold extensionLength. intros Hnone Hpath.
  destruct (isGltf (drop _ path)) eqn:H5; [done|].
  destruct (isGlb (drop _ path)) eqn:H4; [done|].
  split.
  - destruct (isGlb ext) eqn:Hext; [|done].
    rewrite <- (isGlb_length _ Hext), (suffix_drop _ _ _ Hpath) in H4.
    congruence.
  - destruct (isGltf ext) eqn:Hext; [|done].
    rewrite <- (isGltf_length _ Hext), (suffix_drop _ _ _ Hpath) in H5.
    congruence.
Qed.

Lemma withCompressedSuffix_fixed (path : Path) :
  withCompressedSuffix path = path ↔ extensionLength path = None.
Proof.
  unfold withCompressedSuffix.
  destruct (extensionLength path) as [n|] eqn:Hext; [|done].
  destruct (extensionLength_Some _ _ Hext)
    as (stem & ext & Hpath & Hlen & Hcase & Hstem).
  split; [|done]. intros Heq. exfalso.
  apply (f_equal length) in Heq.
  rewrite length_app, length_take in Heq.
  assert (length path = length stem + n) as Hl.
  { rewrite Hpath at 1. rewrite length_app. lia. }
  assert (n = 4 ∨ n = 5) as Hn.
  { destruct Hcase as [H|H];
      [apply isGlb_length in H|apply isGltf_length in H]; lia. }
  change (length (codeUnits "-compressed.glb")) with 15 in Heq. lia.
Qed.

(** X27.  The output name.  A path that ends in [.glb] or [.gltf], in
    small or capital letters, gets [-compressed.glb] in the place of that
    ending; any other path is returned as it is.  So the result is the
    path itself exactly when the path has no such ending. *)
Theorem withCompressedSuffix_spec (path : Path) :
  ((∃ stem ext, path = stem ++ ext ∧ (isGlb ext = true ∨ isGltf ext = true) ∧
                withCompressedSuffix path
                  = stem ++ codeUnits "-compressed.glb") ∨
   ((∀ stem ext, path = stem ++ ext →
                 isGlb ext = false ∧ isGltf ext = false) ∧
    withCompressedSuffix path = path)) ∧
  (withCompressedSuffix path = path ↔
   ∀ stem ext, path = stem ++ ext → isGlb ext = false ∧ isGltf ext = false).
Proof.
  assert (extensionLength path = None ↔
          ∀ stem ext, path = stem ++ ext →
                      isGlb ext = false ∧ isGltf ext = false) as Hnone.
  { split; [intros H stem ext; by apply extensionLength_None|].
    intros Hall. destruct (extensionLength path) as [n|] eqn:Hext; [|done].
    destruct (extensionLength_Some _ _ Hext)
      as (stem & ext & Hpath & _ & Hcase & _).
    destruct (Hall stem ext Hpath) as [H4 H5].
    destruct Hcase; congruence. }
  split; [|by rewrite withCompressedSuffix_fixed].
  unfold withCompressedSuffix.
  destruct (extensionLength path) as [n|] eqn:Hext.
  - destruct (extensionLength_Some _ _ Hext)
      as (stem & ext & Hpath & Hlen & Hcase & Hstem).
    left. exists stem, ext. by rewrite <- Hstem.
  - right. split; [|done]. by apply Hnone.
Qed.

Section CompressFile.
Variable world : World.
Variable join : Path → Path → Path.
Variable basename : Path → Path.

(** X29.  Without an output directory.  The file of a path that ends in
    [.glb] or [.gltf] is never written.  A path without such an ending is
    its own output path: when its file exists, [compressFile] refuses it
    without [-f], and with [-f] a successful compression replaces the
    input file by the compressed one. *)
Theorem compressFile_input_file (files : Files) (inputPath : Path)
    (options : Options) :
  output options = None →
  let run := compressFile world join basename files inputPath options in
  (extensionLength inputPath ≠ None → run.2 !! inputPath = files !! inputPath) ∧
  (extensionLength inputPath = None →
   ∀ input, files !! inputPath = Some input →
     (force options = false →
      run = (mkOutcome false (Some (OutputFileExists inputPath)), files)) ∧
     (force options = true →
      ∀ trace result,
        validateGlbMagic input = Normal () →
        compress world input
          (mkOptions (simplify options) (Some (cli_preset options)))
          = (trace, Normal result) →
        run = (mkOutcome true None, <[inputPath := buffer result]> files))).
Proof.
  intros Hout. cbv zeta. unfold compressFile, outputPathOf. rewrite Hout.
  pose proof (withCompressedSuffix_fixed inputPath) as Hsame. split.
  - intros Hext.
    assert (withCompressedSuffix inputPath ≠ inputPath) as Hne
      by (by rewrite Hsame).
    destruct (negb (force options) && _); [done|].
    destruct (files !! inputPath) as [input|] eqn:Hin; [|done].
    destruct (validateGlbMagic input); [|done].
    destruct (compress world input _).2 as [result|e]; [|done].
    cbn [snd]. rewrite <- Hin. by apply lookup_insert_ne.
  - intros Hext input Hin. apply Hsame in Hext. rewrite Hext, Hin. split.
    + intros ->. cbn [negb andb].
      by rewrite bool_decide_eq_true_2 by done.
    + intros -> trace result Hvalid Hrun. cbn [negb andb].
      by rewrite Hvalid, Hrun.
Qed.

End CompressFile.

Lemma compressFile_input_file_witness :
  let world := exampleWorld 0 (Exited 0 (Some [Byte.x67; Byte.x6c])) in
  let options := mkCliOptions None None preset_default true true in
  let run := compressFile world (λ dir name, dir ++ name) (λ path, path) bareFiles
               (codeUnits "/models/avatar") options in
  (extensionLength (codeUnits "/models/avatar") ≠ None →
   run.2 !! codeUnits "/models/avatar"
   = bareFiles !! codeUnits "/models/avatar") ∧
  (extensionLength (codeUnits "/models/avatar") = None →
   ∀ input, bareFiles !! codeUnits "/models/avatar" = Some input →
     (force options = false →
      run = (mkOutcome false
               (Some (OutputFileExists (codeUnits "/models/avatar"))),
             bareFiles)) ∧
     (force options = true →
      ∀ trace result,
        validateGlbMagic input = Normal () →
        compress world input
          (mkOptions (simplify options) (Some (cli_preset options)))
          = (trace, Normal result) →
        run = (mkOutcome true None,
               <[codeUnits "/models/avatar" := buffer result]> bareFiles))).
Proof.
  apply (compressFile_input_file
           (exampleWorld 0 (Exited 0 (Some [Byte.x67; Byte.x6c])))
           (λ dir name, dir ++ name) (λ path, path)
           bareFiles (codeUnits "/models/avatar")
           (mkCliOptions None None preset_default true true)).
  reflexivity.
Defined.

End CliProps.
